(** * FamilyTree 2.0: the relationship graph engine

    A shallow embedding of [src/utils/relationshipUtils.ts], of the walks
    and the sibling list of [src/utils/reportUtils.ts] and of the types of
    [src/types.ts], followed by the properties the specification states
    about them and by further properties of the same functions.

    Conventions of the embedding:
    - a JavaScript [string] is a [string]; the empty string is the only falsy
      one;
    - an optional field ([parentIds?: string[]]) is an [option];
      [x || []] and [x?.forEach] read it through [orEmpty];
    - a [Set<string>] is the list of its elements in insertion order (the
      order a [for ... of] visits them), a [Map<string, Person>] an
      association list;
    - a [while] loop is a [Fixpoint] on a fuel counter that is only consulted
      when the loop has a further iteration to run; running out of it is the
      outcome [NoFuel], a JavaScript exception the outcome [Thrown];
    - array lengths and the numbers computed from them are in [Z];
    - the functions are embedded a second time over a store of mutable
      objects (module [Store]), where arrays have an identity and the array
      methods that mutate overwrite their receiver. *)

From Stdlib Require Import List String Ascii ZArith Lia Bool Arith Relations.
From Stdlib Require Import DecimalString Sorted Permutation.
Import ListNotations.

Open Scope string_scope.
Open Scope list_scope.

(** ** Data model ([src/types.ts]) *)

Inductive Gender : Type := Male | Female | Other.

Inductive MarriageStatus : Type := Married | Divorced | Widowed | Unknown.

Record Marriage : Type := mkMarriage {
  spouseId : string;
  date : option string;
  place : option string;
  status : MarriageStatus
}.

(** The fields of [Person] the engine reads.  The remaining ones of the
    interface (birth and death data, photos, notes, contact data) are plain
    optional strings that no function below looks at. *)
Record Person : Type := mkPerson {
  id : string;
  firstName : string;
  lastName : option string;
  familyCast : option string;
  gender : Gender;
  parentIds : option (list string);
  marriages : option (list Marriage);
  childrenIds : option (list string)
}.

(** ** Outcomes of a call *)

Inductive outcome (A : Type) : Type :=
| Done (a : A)
| Thrown (e : string)
| NoFuel.

Arguments Done {A} a.
Arguments Thrown {A} e.
Arguments NoFuel {A}.

Definition bind {A B : Type} (c : outcome A) (k : A -> outcome B) : outcome B :=
  match c with
  | Done a => k a
  | Thrown e => Thrown e
  | NoFuel => NoFuel
  end.

Notation "x <- c ;; k" := (bind c (fun x => k))
  (at level 61, c at next level, right associativity).

(** ** JavaScript helpers *)

(** [!s] for a string. *)
Definition falsy (s : string) : bool := String.eqb s "".

(** [x || []] for an optional array. *)
Definition orEmpty {A : Type} (o : option (list A)) : list A :=
  match o with
  | Some l => l
  | None => []
  end.

(** [arr.includes(x)] on an array of strings. *)
Definition includes (l : list string) (x : string) : bool :=
  existsb (String.eqb x) l.

(** [Set<string>]: [has] and [add]. *)
Definition JsSet : Type := list string.

Definition set_has (s : JsSet) (x : string) : bool := includes s x.

Definition set_add (x : string) (s : JsSet) : JsSet :=
  if set_has s x then s else s ++ [x].

(** [Map<string, Person>]: [has], [get] and [set]. *)
Definition JsMap : Type := list (string * Person).

Fixpoint map_get (m : JsMap) (k : string) : option Person :=
  match m with
  | [] => None
  | (k', v) :: m' => if String.eqb k' k then Some v else map_get m' k
  end.

Definition map_has (m : JsMap) (k : string) : bool :=
  match map_get m k with
  | Some _ => true
  | None => false
  end.

Fixpoint map_set (k : string) (v : Person) (m : JsMap) : JsMap :=
  match m with
  | [] => [(k, v)]
  | (k', v') :: m' =>
      if String.eqb k' k then (k', v) :: m' else (k', v') :: map_set k v m'
  end.

(** [String(n)] for an integer. *)
Definition String_of_Z (n : Z) : string :=
  NilZero.string_of_int (Z.to_int n).

(** [s.repeat(n)]: a [RangeError] for a negative count. *)
Fixpoint repeat_string (s : string) (n : nat) : string :=
  match n with
  | O => ""
  | S n' => (s ++ repeat_string s n')%string
  end.

Definition js_repeat (s : string) (n : Z) : outcome string :=
  if (n <? 0)%Z then Thrown "RangeError: Invalid count value"
  else Done (repeat_string s (Z.to_nat n)).

(** [arr.length] as a number. *)
Definition len {A : Type} (l : list A) : Z := Z.of_nat (List.length l).

(** ** [relationshipUtils.ts]: lookups and walks *)

Definition getPersonById (i : string) (allPeople : list Person) : option Person :=
  find (fun p => String.eqb (id p) i) allPeople.

Fixpoint getAncestors_loop (fuel : nat) (allPeople : list Person)
    (queue : list string) (visited : JsSet) (ancestors : list Person)
    : outcome (list Person) :=
  match queue with
  | [] => Done ancestors
  | personId :: queue' =>
      match fuel with
      | O => NoFuel
      | S fuel' =>
          if set_has visited personId || falsy personId then
            getAncestors_loop fuel' allPeople queue' visited ancestors
          else
            let visited' := set_add personId visited in
            match getPersonById personId allPeople with
            | Some p =>
                getAncestors_loop fuel' allPeople
                  (queue' ++ filter (fun parentId => negb (set_has visited' parentId))
                                    (orEmpty (parentIds p)))
                  visited' (ancestors ++ [p])
            | None => getAncestors_loop fuel' allPeople queue' visited' ancestors
            end
      end
  end.

Definition getAncestors (fuel : nat) (person : Person) (allPeople : list Person)
    : outcome (list Person) :=
  getAncestors_loop fuel allPeople (orEmpty (parentIds person)) [] [].

Fixpoint getDescendants_loop (fuel : nat) (allPeople : list Person)
    (queue : list string) (visited : JsSet) (descendants : list Person)
    : outcome (list Person) :=
  match queue with
  | [] => Done descendants
  | personId :: queue' =>
      match fuel with
      | O => NoFuel
      | S fuel' =>
          if set_has visited personId || falsy personId then
            getDescendants_loop fuel' allPeople queue' visited descendants
          else
            let visited' := set_add personId visited in
            match getPersonById personId allPeople with
            | Some p =>
                getDescendants_loop fuel' allPeople
                  (queue' ++ filter (fun childId => negb (set_has visited' childId))
                                    (orEmpty (childrenIds p)))
                  visited' (descendants ++ [p])
            | None => getDescendants_loop fuel' allPeople queue' visited' descendants
            end
      end
  end.

Definition getDescendants (fuel : nat) (person : Person) (allPeople : list Person)
    : outcome (list Person) :=
  getDescendants_loop fuel allPeople (orEmpty (childrenIds person)) [] [].

(** The outer [for ... of] of [getAllBloodRelativesIds].  The source guards
    against a missing [focalPerson]; its type is [Person] and every caller
    passes one, so the parameter is a [Person] here. *)
Fixpoint getAllBloodRelativesIds_loop (fuel : nat) (allPeople : list Person)
    (allProgenitors : list Person) (bloodRelatives : JsSet) : outcome JsSet :=
  match allProgenitors with
  | [] => Done bloodRelatives
  | progenitor :: rest =>
      let bloodRelatives1 := set_add (id progenitor) bloodRelatives in
      descendants <- getDescendants fuel progenitor allPeople ;;
      getAllBloodRelativesIds_loop fuel allPeople rest
        (fold_left (fun s descendant => set_add (id descendant) s)
                   descendants bloodRelatives1)
  end.

Definition getAllBloodRelativesIds (fuel : nat) (focalPerson : Person)
    (allPeople : list Person) : outcome JsSet :=
  ancestors <- getAncestors fuel focalPerson allPeople ;;
  getAllBloodRelativesIds_loop fuel allPeople (focalPerson :: ancestors) [].

(** ** [reportUtils.ts]: the levelled ancestor walk *)

Fixpoint getAncestorsHierarchically_loop (fuel : nat) (allPeople : list Person)
    (queue : list (string * Z)) (visited : JsSet) (results : list (Person * Z))
    : outcome (list (Person * Z)) :=
  match queue with
  | [] => Done results
  | (personId, level) :: queue' =>
      match fuel with
      | O => NoFuel
      | S fuel' =>
          if falsy personId || set_has visited personId then
            getAncestorsHierarchically_loop fuel' allPeople queue' visited results
          else
            let visited' := set_add personId visited in
            match getPersonById personId allPeople with
            | Some p =>
                getAncestorsHierarchically_loop fuel' allPeople
                  (queue' ++ map (fun parentId => (parentId, (level + 1)%Z))
                                 (filter (fun parentId => negb (set_has visited' parentId))
                                         (orEmpty (parentIds p))))
                  visited' (results ++ [(p, level)])
            | None =>
                getAncestorsHierarchically_loop fuel' allPeople queue' visited' results
            end
      end
  end.

Definition getAncestorsHierarchically (fuel : nat) (person : Person)
    (allPeople : list Person) : outcome (list (Person * Z)) :=
  match parentIds person with
  | None => Done []
  | Some pids =>
      getAncestorsHierarchically_loop fuel allPeople
        (map (fun i => (i, 1%Z)) pids) [] []
  end.

(** ** [relationshipUtils.ts]: lowest common ancestor and the two paths *)

Record LcaResult : Type := mkLcaResult {
  lca : Person;
  path1 : list Person;
  path2 : list Person
}.

(** The [for ... of] over the parents of the dequeued person in
    [getPathToAncestor]: it either returns the completed path or falls out
    with the grown queue and visited set. *)
Fixpoint getPathToAncestor_parents (allPeople : list Person) (endId : string)
    (path : list Person) (parents : list string)
    (queue : list (string * list Person)) (visited : JsSet)
    : list Person + (list (string * list Person) * JsSet) :=
  match parents with
  | [] => inr (queue, visited)
  | parentId :: rest =>
      if set_has visited parentId then
        getPathToAncestor_parents allPeople endId path rest queue visited
      else
        let visited' := set_add parentId visited in
        match getPersonById parentId allPeople with
        | Some parentPerson =>
            let newPath := path ++ [parentPerson] in
            if String.eqb parentId endId then inl newPath
            else getPathToAncestor_parents allPeople endId path rest
                   (queue ++ [(parentId, newPath)]) visited'
        | None =>
            getPathToAncestor_parents allPeople endId path rest queue visited'
        end
  end.

Fixpoint getPathToAncestor_loop (fuel : nat) (allPeople : list Person)
    (endId : string) (queue : list (string * list Person)) (visited : JsSet)
    : outcome (option (list Person)) :=
  match queue with
  | [] => Done None
  | (personId, path) :: queue' =>
      match fuel with
      | O => NoFuel
      | S fuel' =>
          match getPersonById personId allPeople with
          | Some currentPerson =>
              match parentIds currentPerson with
              | Some parents =>
                  match getPathToAncestor_parents allPeople endId path parents
                          queue' visited with
                  | inl newPath => Done (Some newPath)
                  | inr (queue'', visited') =>
                      getPathToAncestor_loop fuel' allPeople endId queue'' visited'
                  end
              | None => getPathToAncestor_loop fuel' allPeople endId queue' visited
              end
          | None => getPathToAncestor_loop fuel' allPeople endId queue' visited
          end
      end
  end.

Definition getPathToAncestor (fuel : nat) (allPeople : list Person)
    (startId endId : string) : outcome (option (list Person)) :=
  match getPersonById startId allPeople with
  | None => Done None
  | Some startPerson =>
      if String.eqb startId endId then Done (Some [startPerson])
      else getPathToAncestor_loop fuel allPeople endId
             [(startId, [startPerson])] [startId]
  end.

(** First loop of [findLcaAndPaths]: the ancestor closure of person 1. *)
Fixpoint p1Ancestors_loop (fuel : nat) (allPeople : list Person)
    (queue1 : list string) (visited1 : JsSet) (p1Ancestors : JsMap)
    : outcome JsMap :=
  match queue1 with
  | [] => Done p1Ancestors
  | currentId :: queue1' =>
      match fuel with
      | O => NoFuel
      | S fuel' =>
          if set_has visited1 currentId then
            p1Ancestors_loop fuel' allPeople queue1' visited1 p1Ancestors
          else
            let visited1' := set_add currentId visited1 in
            match getPersonById currentId allPeople with
            | Some person =>
                p1Ancestors_loop fuel' allPeople
                  (queue1' ++ orEmpty (parentIds person)) visited1'
                  (map_set currentId person p1Ancestors)
            | None =>
                p1Ancestors_loop fuel' allPeople queue1' visited1' p1Ancestors
            end
      end
  end.

(** The [for ... of] over the parents in the second loop. *)
Fixpoint queue2_parents (parents : list string) (queue2 : list string)
    (visited2 : JsSet) : list string * JsSet :=
  match parents with
  | [] => (queue2, visited2)
  | parentId :: rest =>
      if set_has visited2 parentId then queue2_parents rest queue2 visited2
      else queue2_parents rest (queue2 ++ [parentId]) (set_add parentId visited2)
  end.

(** The tail of the body of the second loop: the parents of the dequeued id
    are enqueued. *)
Definition queue2_push (allPeople : list Person) (currentId : string)
    (queue2 : list string) (visited2 : JsSet) : list string * JsSet :=
  match getPersonById currentId allPeople with
  | Some person => queue2_parents (orEmpty (parentIds person)) queue2 visited2
  | None => (queue2, visited2)
  end.

(** Second loop of [findLcaAndPaths]: breadth-first upwards from person 2. *)
Fixpoint queue2_loop (fuel : nat) (allPeople : list Person)
    (person1Id person2Id : string) (p1Ancestors : JsMap)
    (queue2 : list string) (visited2 : JsSet) : outcome (option LcaResult) :=
  match queue2 with
  | [] => Done None
  | currentId :: queue2' =>
      match fuel with
      | O => NoFuel
      | S fuel' =>
          let next := queue2_push allPeople currentId queue2' visited2 in
          let continue :=
            queue2_loop fuel' allPeople person1Id person2Id p1Ancestors
              (fst next) (snd next) in
          match map_get p1Ancestors currentId with
          | Some lca =>
              path1 <- getPathToAncestor fuel allPeople person1Id (id lca) ;;
              path2 <- getPathToAncestor fuel allPeople person2Id (id lca) ;;
              match path1, path2 with
              | Some path1, Some path2 => Done (Some (mkLcaResult lca path1 path2))
              | _, _ => continue
              end
          | None => continue
          end
      end
  end.

Definition findLcaAndPaths (fuel : nat) (person1Id person2Id : string)
    (allPeople : list Person) : outcome (option LcaResult) :=
  p1Ancestors <- p1Ancestors_loop fuel allPeople [person1Id] [] [] ;;
  queue2_loop fuel allPeople person1Id person2Id p1Ancestors
    [person2Id] [person2Id].

(** ** [relationshipUtils.ts]: naming a blood relationship *)

(** [arr[i]] on an array literal: [undefined] outside of it. *)
Definition js_index (l : list string) (i : Z) : option string :=
  if (i <? 0)%Z then None else nth_error l (Z.to_nat i).

(** [a || b] where [a] may be [undefined] and is a non-empty string
    otherwise. *)
Definition orElse (a : option string) (b : option string) : option string :=
  match a with
  | Some s => Some s
  | None => b
  end.

(** [%] of JavaScript truncates towards zero: [Z.rem]. *)
Definition ordinal (n : Z) : string :=
  if (n <=? 0)%Z then String_of_Z n
  else
    let s := ["th"; "st"; "nd"; "rd"] in
    let v := Z.rem n 100 in
    (String_of_Z n ++
     match orElse (js_index s (Z.rem (v - 20) 10))
                  (orElse (js_index s v) (js_index s 0)) with
     | Some suffix => suffix
     | None => "undefined"
     end)%string.

(** [g === Gender.Male ? m : g === Gender.Female ? f : o]. *)
Definition byGender {A : Type} (g : Gender) (m f o : A) : A :=
  match g with
  | Male => m
  | Female => f
  | Other => o
  end.

Definition describeBloodRelationship (person1 person2 lca : Person)
    (path1 path2 : list Person) : outcome string :=
  let d1 := (len path1 - 1)%Z in
  let d2 := (len path2 - 1)%Z in
  if String.eqb (id lca) (id person1) then
    let d := d2 in
    if (d =? 0)%Z then Done "Self"
    else if (d =? 1)%Z then Done (byGender (gender person2) "Son" "Daughter" "Child")
    else if (d =? 2)%Z then
      Done (byGender (gender person2) "Grandson" "Granddaughter" "Grandchild")
    else
      prefix <- js_repeat "Great-" (d - 2) ;;
      Done (prefix ++
            byGender (gender person2) "Grandson" "Granddaughter" "Grandchild")%string
  else if String.eqb (id lca) (id person2) then
    let d := d1 in
    if (d =? 0)%Z then Done "Self"
    else if (d =? 1)%Z then Done (byGender (gender person2) "Father" "Mother" "Parent")
    else if (d =? 2)%Z then
      Done (byGender (gender person2) "Grandfather" "Grandmother" "Grandparent")
    else
      prefix <- js_repeat "Great-" (d - 2) ;;
      Done (prefix ++
            byGender (gender person2) "Grandfather" "Grandmother" "Grandparent")%string
  else if (d1 =? 1)%Z && (d2 =? 1)%Z then
    Done (byGender (gender person2) "Brother" "Sister" "Sibling")
  else
    let cousinLevel := (Z.min d1 d2 - 1)%Z in
    let removalLevel := Z.abs (d1 - d2) in
    if (cousinLevel =? 0)%Z then
      let prefix := if (removalLevel >? 1)%Z then "Grand" else "" in
      if (d1 <? d2)%Z then
        let relation := byGender (gender person2) "nephew" "niece" "nephew/niece" in
        Done (prefix ++ relation)%string
      else
        let relation := byGender (gender person2) "uncle" "aunt" "aunt/uncle" in
        Done (prefix ++ relation)%string
    else
      let cousinTerm := ordinal cousinLevel in
      let removalTerm :=
        if (removalLevel >? 0)%Z then
          (", " ++
           (if (removalLevel =? 1)%Z then "once"
            else if (removalLevel =? 2)%Z then "twice"
            else String_of_Z removalLevel ++ " times") ++
           " removed")%string
        else "" in
      Done (cousinTerm ++ " cousin" ++ removalTerm)%string.

(** ** [relationshipUtils.ts]: the generic path finder *)

(** [personUtils.ts], [getFullName]: the non-empty name parts joined by a
    space. *)
Definition getFullName (person : Person) : string :=
  String.concat " "
    (filter (fun s => negb (falsy s))
       [firstName person;
        match lastName person with Some s => s | None => "" end;
        match familyCast person with Some s => s | None => "" end]).

Definition getPathSegmentDescription (p1 p2 : Person) : string :=
  if includes (orEmpty (childrenIds p1)) (id p2) then
    byGender (gender p1) "is the father of" "is the mother of" "is the parent of"
  else if includes (orEmpty (parentIds p1)) (id p2) then
    byGender (gender p1) "is the son of" "is the daughter of" "is the child of"
  else if existsb (fun m => String.eqb (spouseId m) (id p2)) (orEmpty (marriages p1)) then
    byGender (gender p1) "is the husband of" "is the wife of" "is the spouse of"
  else "is related to".

(** The [for] loop of [generatePathDescription], from index [i] with
    [p1 = path[i]] and [rest] the elements after it. *)
Fixpoint generatePathDescription_loop (i : nat) (p1 : Person) (rest : list Person)
    (description : string) : string :=
  match rest with
  | [] => description
  | p2 :: rest' =>
      let relation := getPathSegmentDescription p1 p2 in
      generatePathDescription_loop (S i) p2 rest'
        (description ++ (match i with O => " " | S _ => ", who " end) ++
         (relation ++ " " ++ getFullName p2))%string
  end.

Definition generatePathDescription (path : list Person) : string :=
  match path with
  | p0 :: (_ :: _) as rest =>
      (generatePathDescription_loop 0 p0 rest (getFullName p0) ++ ".")%string
  | _ => "They are the same person."
  end.

Inductive Relationship : Type :=
| Blood (description : string) (path1 path2 : list Person) (lca : Person)
| Path (description : string) (path : list Person)
| NoRelationship (description : string).

Definition rel_description (r : Relationship) : string :=
  match r with
  | Blood d _ _ _ => d
  | Path d _ => d
  | NoRelationship d => d
  end.

(** [path[path.length - 1]]. *)
Definition lastPerson (path : list Person) : option Person :=
  nth_error path (List.length path - 1).

Definition neighborsOf (currentPerson : Person) : list string :=
  orEmpty (parentIds currentPerson) ++
  orEmpty (childrenIds currentPerson) ++
  map spouseId (orEmpty (marriages currentPerson)).

Fixpoint findGenericPath_neighbors (allPeople : list Person)
    (path : list Person) (neighbors : list string)
    (queue : list (string * list Person)) (visited : JsSet)
    : list (string * list Person) * JsSet :=
  match neighbors with
  | [] => (queue, visited)
  | neighborId :: rest =>
      if set_has visited neighborId then
        findGenericPath_neighbors allPeople path rest queue visited
      else
        let visited' := set_add neighborId visited in
        match getPersonById neighborId allPeople with
        | Some neighborPerson =>
            findGenericPath_neighbors allPeople path rest
              (queue ++ [(neighborId, path ++ [neighborPerson])]) visited'
        | None => findGenericPath_neighbors allPeople path rest queue visited'
        end
  end.

Fixpoint findGenericPath_loop (fuel : nat) (person2 : Person)
    (allPeople : list Person) (queue : list (string * list Person))
    (visited : JsSet) : outcome (option Relationship) :=
  match queue with
  | [] => Done None
  | (personId, path) :: queue' =>
      match fuel with
      | O => NoFuel
      | S fuel' =>
          if String.eqb personId (id person2) then
            Done (Some (Path (generatePathDescription path) path))
          else
            match lastPerson path with
            | None =>
                Thrown "TypeError: Cannot read properties of undefined"
            | Some currentPerson =>
                let '(queue'', visited') :=
                  findGenericPath_neighbors allPeople path
                    (neighborsOf currentPerson) queue' visited in
                findGenericPath_loop fuel' person2 allPeople queue'' visited'
            end
      end
  end.

Definition findGenericPath (fuel : nat) (person1 person2 : Person)
    (allPeople : list Person) : outcome (option Relationship) :=
  findGenericPath_loop fuel person2 allPeople
    [(id person1, [person1])] [id person1].

(** ** [relationshipUtils.ts]: the aggregator *)

Definition noRelationshipMessage : string :=
  "No relationship path could be found.".

(** [person.marriages?.some(m => m.spouseId === spouse)]. *)
Definition marriedTo (person : Person) (spouse : string) : bool :=
  existsb (fun m => String.eqb (spouseId m) spouse) (orEmpty (marriages person)).

(** The description built in step C; it stays empty for gender [Other] and
    for a generation below 1.  The count of [repeat] is positive under its
    guard [generation > 2]. *)
Definition inLawDescription (g : Gender) (generation : Z) : string :=
  match g with
  | Female =>
      if (generation =? 1)%Z then "Son's Wife (Bahu)"
      else if (generation =? 2)%Z then "Grandson's Wife (Bahu)"
      else if (generation >? 2)%Z then
        (repeat_string "Great-" (Z.to_nat (generation - 2)) ++
         "Grandson's Wife (Bahu)")%string
      else ""
  | Male =>
      if (generation =? 1)%Z then "Daughter's Husband (Damad)"
      else if (generation =? 2)%Z then "Granddaughter's Husband (Damad)"
      else if (generation >? 2)%Z then
        (repeat_string "Great-" (Z.to_nat (generation - 2)) ++
         "Granddaughter's Husband (Damad)")%string
      else ""
  | Other => ""
  end.

(** Step C of [findRelationship]: the loop over the marriages of person 2. *)
Fixpoint findRelationship_inLaw (fuel : nat) (person1Id : string)
    (person1 person2 : Person) (allPeople : list Person)
    (ms : list Marriage) : outcome (option Relationship) :=
  match ms with
  | [] => Done None
  | marriage :: rest =>
      match getPersonById (spouseId marriage) allPeople with
      | Some spouseOfPerson2 =>
          bloodResult <- findLcaAndPaths fuel person1Id (id spouseOfPerson2) allPeople ;;
          match bloodResult with
          | Some r =>
              if String.eqb (id (lca r)) person1Id then
                let generation := (len (path2 r) - 1)%Z in
                let desc := inLawDescription (gender person2) generation in
                if negb (falsy desc) then
                  Done (Some (Path desc [person1; spouseOfPerson2; person2]))
                else findRelationship_inLaw fuel person1Id person1 person2 allPeople rest
              else findRelationship_inLaw fuel person1Id person1 person2 allPeople rest
          | None => findRelationship_inLaw fuel person1Id person1 person2 allPeople rest
          end
      | None => findRelationship_inLaw fuel person1Id person1 person2 allPeople rest
      end
  end.

Definition findRelationship (fuel : nat) (person1Id person2Id : string)
    (allPeople : list Person) : outcome (option Relationship) :=
  if falsy person1Id || falsy person2Id || String.eqb person1Id person2Id then
    Done None
  else
    match getPersonById person1Id allPeople, getPersonById person2Id allPeople with
    | Some person1, Some person2 =>
        (* A. marriage *)
        if marriedTo person1 person2Id then
          let relation := byGender (gender person2) "Husband" "Wife" "Spouse" in
          Done (Some (Path relation [person1; person2]))
        else
          (* B. blood relationship *)
          lcaResult <- findLcaAndPaths fuel person1Id person2Id allPeople ;;
          match lcaResult with
          | Some r =>
              description <-
                describeBloodRelationship person1 person2 (lca r) (path1 r) (path2 r) ;;
              Done (Some (Blood description (path1 r) (path2 r) (lca r)))
          | None =>
              (* C. in-law relationship *)
              inLaw <- findRelationship_inLaw fuel person1Id person1 person2 allPeople
                         (orEmpty (marriages person2)) ;;
              match inLaw with
              | Some rel => Done (Some rel)
              | None =>
                  (* D. generic path *)
                  pathResult <- findGenericPath fuel person1 person2 allPeople ;;
                  match pathResult with
                  | Some rel => Done (Some rel)
                  | None =>
                      (* E. nothing *)
                      Done (Some (NoRelationship noRelationshipMessage))
                  end
              end
          end
    | _, _ => Done None
    end.

(** [addRelationship] of [findAllRelationships]. *)
Definition addRelationship (relationships : list Relationship) (rel : Relationship)
    : list Relationship :=
  match rel with
  | NoRelationship _ => relationships
  | _ =>
      if existsb (fun r => String.eqb (rel_description r) (rel_description rel))
                 relationships
      then relationships
      else relationships ++ [rel]
  end.

(** [getLen] of the comparator; [None] stands for [Infinity]. *)
Definition getLen (r : Relationship) : option Z :=
  match r with
  | Blood _ path1 path2 _ => Some (len path1 + len path2 - 2)%Z
  | Path _ path => Some (len path - 1)%Z
  | NoRelationship _ => None
  end.

(** [getLen(a) - getLen(b) <= 0]; [Infinity - Infinity] is [NaN], which
    [sort] takes for 0. *)
Definition lenLe (a b : Relationship) : bool :=
  match getLen a, getLen b with
  | Some x, Some y => (x <=? y)%Z
  | Some _, None => true
  | None, Some _ => false
  | None, None => true
  end.

(** [Array.prototype.sort] is stable: an insertion sort that puts an element
    after the ones it does not precede. *)
Fixpoint sort_insert (x : Relationship) (sorted : list Relationship)
    : list Relationship :=
  match sorted with
  | [] => [x]
  | y :: rest => if lenLe y x then y :: sort_insert x rest else x :: y :: rest
  end.

Definition sortByLen (l : list Relationship) : list Relationship :=
  fold_left (fun acc x => sort_insert x acc) l [].

(** Step 2 of [findAllRelationships]: the loop over the blood relatives of
    person 1.  [path2.reverse()] reverses in place the array of the result
    [relToBloodRelative], which nothing reads afterwards. *)
Fixpoint findAllRelationships_loop (fuel : nat) (person1Id person2Id : string)
    (person2 : Person) (allPeople : list Person) (relatives : list string)
    (relationships : list Relationship) : outcome (list Relationship) :=
  match relatives with
  | [] => Done relationships
  | relativeId :: rest =>
      match getPersonById relativeId allPeople with
      | Some bloodRelative =>
          if negb (String.eqb (id bloodRelative) person1Id)
             && marriedTo bloodRelative person2Id then
            relToBloodRelative <-
              findRelationship fuel person1Id (id bloodRelative) allPeople ;;
            match relToBloodRelative with
            | Some (NoRelationship _) | None =>
                findAllRelationships_loop fuel person1Id person2Id person2 allPeople
                  rest relationships
            | Some rel =>
                let inLawDescription :=
                  (rel_description rel ++ "'s " ++
                   match gender person2 with Male => "Husband" | _ => "Wife" end)%string in
                let path :=
                  match rel with
                  | Blood _ path1 path2 _ => removelast path1 ++ rev path2 ++ [person2]
                  | Path _ path => path ++ [person2]
                  | NoRelationship _ => []
                  end in
                findAllRelationships_loop fuel person1Id person2Id person2 allPeople
                  rest
                  (if (len path >? 0)%Z
                   then addRelationship relationships (Path inLawDescription path)
                   else relationships)
            end
          else
            findAllRelationships_loop fuel person1Id person2Id person2 allPeople
              rest relationships
      | None =>
          findAllRelationships_loop fuel person1Id person2Id person2 allPeople
            rest relationships
      end
  end.

Definition findAllRelationships (fuel : nat) (person1Id person2Id : string)
    (allPeople : list Person) : outcome (list Relationship) :=
  match getPersonById person1Id allPeople, getPersonById person2Id allPeople with
  | Some person1, Some person2 =>
      if String.eqb person1Id person2Id then Done []
      else
        primaryRel <- findRelationship fuel person1Id person2Id allPeople ;;
        let relationships :=
          match primaryRel with
          | Some rel => addRelationship [] rel
          | None => []
          end in
        p1BloodRelatives <- getAllBloodRelativesIds fuel person1 allPeople ;;
        relationships <-
          findAllRelationships_loop fuel person1Id person2Id person2 allPeople
            p1BloodRelatives relationships ;;
        match relationships with
        | [] => Done [NoRelationship noRelationshipMessage]
        | _ => Done (sortByLen relationships)
        end
  | _, _ => Done []
  end.

(** * Vocabulary of the properties *)

(** ** Measures for termination *)

Definition parentsOf (p : Person) : list string := orEmpty (parentIds p).
Definition childrenOf (p : Person) : list string := orEmpty (childrenIds p).

(** The edges of the people that have not been visited: a walk that marks a
    person when it dequeues it pushes at most these. *)
Definition pending (edges : Person -> list string) (allPeople : list Person)
    (visited : JsSet) : nat :=
  list_sum (map (fun p => if set_has visited (id p) then 0
                          else List.length (edges p)) allPeople).

(** The size of the graph: the number of edge entries of the collection. *)
Definition graphSize (allPeople : list Person) : nat :=
  list_sum (map (fun p => List.length (neighborsOf p)) allPeople).

(** The ids the collection mentions: a walk that marks an id when it
    enqueues it enqueues each of them at most once. *)
Definition allParentIds (allPeople : list Person) : list string :=
  flat_map parentsOf allPeople.

Definition allNeighborIds (allPeople : list Person) : list string :=
  flat_map neighborsOf allPeople.

(** Fuel that is enough for every loop of the engine on a collection. *)
Definition enoughFuel (allPeople : list Person) : nat :=
  2 * graphSize allPeople + 3.

(** Every path in the queue of the generic path finder ends in a person of
    [people]. *)
Definition pathsEndIn (people : list Person)
    (queue : list (string * list Person)) : Prop :=
  Forall (fun e => exists cp, lastPerson (snd e) = Some cp /\ In cp people) queue.

(** ** Connection in the graph

    [edge] is one entry of a person's [parentIds], [childrenIds] or
    [marriages]; two ids are connected when a chain of such entries, each
    read in either direction, leads from one to the other. *)

Definition edge (allPeople : list Person) (a b : string) : Prop :=
  exists pa, getPersonById a allPeople = Some pa /\ In b (neighborsOf pa).

Definition connected (allPeople : list Person) : string -> string -> Prop :=
  clos_refl_sym_trans string (edge allPeople).

(** A [link] is an entry that names a person of the collection.  The walks
    follow no other entry: an id the collection does not have (an empty
    slot of the form, a person that was deleted) is looked up, not found and
    skipped.  Two ids are related when a chain of links, each read in either
    direction, leads from one to the other; an id that names no person is
    related to itself only. *)
Definition link (allPeople : list Person) (a b : string) : Prop :=
  exists pa pb,
    getPersonById a allPeople = Some pa /\ In b (neighborsOf pa) /\
    getPersonById b allPeople = Some pb.

Definition related (allPeople : list Person) : string -> string -> Prop :=
  clos_refl_sym_trans string (link allPeople).

(** ** Paths to an ancestor *)

(** Every step [path[i]] to [path[i+1]] goes from a person to one of the
    ids in its [parentIds]. *)
Definition stepsAreParentEdges (path : list Person) : Prop :=
  forall i a b,
    nth_error path i = Some a -> nth_error path (S i) = Some b ->
    In (id b) (parentsOf a).

(** Every person on the path is the one the collection gives for its id. *)
Definition inGraph (allPeople : list Person) (path : list Person) : Prop :=
  Forall (fun p => getPersonById (id p) allPeople = Some p) path.

(** What holds of a path from [start] kept by [getPathToAncestor] under the
    id [personId]. *)
Record pathTo (allPeople : list Person) (start : Person) (personId : string)
    (path : list Person) : Prop := mkPathTo {
  pathTo_hd : hd_error path = Some start;
  pathTo_last : lastPerson path = getPersonById personId allPeople;
  pathTo_found : getPersonById personId allPeople <> None;
  pathTo_steps : stepsAreParentEdges path;
  pathTo_inGraph : inGraph allPeople path;
  pathTo_related : related allPeople (id start) personId
}.

(** The invariant of the queue of [getPathToAncestor]. *)
Definition queueOk (allPeople : list Person) (start : Person)
    (queue : list (string * list Person)) : Prop :=
  Forall (fun e => pathTo allPeople start (fst e) (snd e)) queue.

(** The closure of person 1 maps an id to the person the collection gives
    for it. *)
Definition mapOk (allPeople : list Person) (m : JsMap) : Prop :=
  forall k v, map_get m k = Some v -> getPersonById k allPeople = Some v.

(** What holds of a result of [findLcaAndPaths]. *)
Record lcaSound (allPeople : list Person) (person1Id person2Id : string)
    (r : LcaResult) : Prop := mkLcaSound {
  lca_inGraph : getPersonById (id (lca r)) allPeople = Some (lca r);
  lca_path1 :
    exists person1,
      getPersonById person1Id allPeople = Some person1 /\
      pathTo allPeople person1 (id (lca r)) (path1 r) /\
      (person1Id = id (lca r) -> path1 r = [person1]) /\
      (person1Id <> id (lca r) -> 2 <= List.length (path1 r));
  lca_path2 :
    exists person2,
      getPersonById person2Id allPeople = Some person2 /\
      pathTo allPeople person2 (id (lca r)) (path2 r) /\
      (person2Id = id (lca r) -> path2 r = [person2]) /\
      (person2Id <> id (lca r) -> 2 <= List.length (path2 r))
}.

(** A queue entry of the generic path finder pairs an id related to
    person 1 with a path that ends in the person of that id. *)
Definition entryOk (allPeople : list Person) (person1 : Person)
    (e : string * list Person) : Prop :=
  related allPeople (id person1) (fst e) /\
  exists cp, lastPerson (snd e) = Some cp /\
             getPersonById (fst e) allPeople = Some cp.

Definition isNone (rel : Relationship) : bool :=
  match rel with
  | NoRelationship _ => true
  | _ => false
  end.

(** ** Kinship terms as the specification words them *)

(** The suffix of an English ordinal: by the last digit, "th" for 11 to
    13. *)
Definition ordinalSuffix (n : Z) : string :=
  if ((11 <=? n mod 100) && (n mod 100 <=? 13))%Z then "th"
  else if (n mod 10 =? 1)%Z then "st"
  else if (n mod 10 =? 2)%Z then "nd"
  else if (n mod 10 =? 3)%Z then "rd"
  else "th".

(** The removal suffix. *)
Definition removalSuffix (n : Z) : string :=
  if (n =? 0)%Z then ""
  else if (n =? 1)%Z then ", once removed"
  else if (n =? 2)%Z then ", twice removed"
  else (", " ++ String_of_Z n ++ " times removed")%string.

(** The description of cousins at the distances [d1] and [d2] from the
    common ancestor. *)
Definition cousinDescription (d1 d2 : Z) : string :=
  (String_of_Z (Z.min d1 d2 - 1) ++ ordinalSuffix (Z.min d1 d2 - 1) ++
   " cousin" ++ removalSuffix (Z.abs (d1 - d2)))%string.

(** The suffix the code of [ordinal] picks, as a function of
    [v = n % 100]. *)
Definition codeSuffix (v : Z) : string :=
  match orElse (js_index ["th"; "st"; "nd"; "rd"] (Z.rem (v - 20) 10))
               (orElse (js_index ["th"; "st"; "nd"; "rd"] v)
                       (js_index ["th"; "st"; "nd"; "rd"] 0)) with
  | Some suffix => suffix
  | None => "undefined"
  end.

(** The number of times [pat] occurs in [s]. *)
Fixpoint occurrences (pat s : string) : nat :=
  match s with
  | EmptyString => 0
  | String _ rest =>
      (if String.prefix pat s then 1 else 0) + occurrences pat rest
  end.

(** The term of the aunt/uncle/niece/nephew case, as the code builds it. *)
Definition auntUncleTerm (g : Gender) (d1 d2 : Z) : string :=
  ((if (Z.abs (d1 - d2) >? 1)%Z then "Grand" else "") ++
   (if (d1 <? d2)%Z then byGender g "nephew" "niece" "nephew/niece"
    else byGender g "uncle" "aunt" "aunt/uncle"))%string.

(** The same term as the specification words it: one "Grand-" for every
    generation of removal beyond the first. *)
Definition auntUncleTermAsWorded (g : Gender) (d1 d2 : Z) : string :=
  (repeat_string "Grand-" (Z.to_nat (Z.abs (d1 - d2) - 1)) ++
   (if (d1 <? d2)%Z then byGender g "nephew" "niece" "nephew/niece"
    else byGender g "uncle" "aunt" "aunt/uncle"))%string.

Fixpoint lastChar (s : string) : option ascii :=
  match s with
  | EmptyString => None
  | String c EmptyString => Some c
  | String _ rest => lastChar rest
  end.

(** * Example collections *)

Definition examplePerson (i : string) (g : Gender)
    (parents children spouses : list string) : Person :=
  mkPerson i i None None g (Some parents)
    (Some (map (fun s => mkMarriage s None None Married) spouses))
    (Some children).

(** A chain of three generations. *)
Definition chainG : Person := examplePerson "g" Male [] ["p"] [].
Definition chainP : Person := examplePerson "p" Female ["g"] ["c"] [].
Definition chainC : Person := examplePerson "c" Male ["p"] [] [].

(** Corrupted data: two people, each the parent of the other. *)
Definition cycleA : Person := examplePerson "a" Male ["b"] [] [].
Definition cycleB : Person := examplePerson "b" Female ["a"] [] [].

(** A family with two lines below the root: [a1, a2] and [b1, ..., b4]. *)
Definition famR : Person := examplePerson "r" Male [] ["a1"; "b1"] [].
Definition famA1 : Person := examplePerson "a1" Female ["r"] ["a2"] [].
Definition famA2 : Person := examplePerson "a2" Male ["a1"] [] [].
Definition famB1 : Person := examplePerson "b1" Male ["r"] ["b2"] [].
Definition famB2 : Person := examplePerson "b2" Female ["b1"] ["b3"] [].
Definition famB3 : Person := examplePerson "b3" Male ["b2"] ["b4"] [].
Definition famB4 : Person := examplePerson "b4" Male ["b3"] [] [].
Definition family : list Person :=
  [famR; famA1; famA2; famB1; famB2; famB3; famB4].

(** Two first cousins who married each other. *)
Definition marR : Person := examplePerson "r" Female [] ["a1"; "b1"] [].
Definition marA1 : Person := examplePerson "a1" Male ["r"] ["a2"] [].
Definition marB1 : Person := examplePerson "b1" Male ["r"] ["b2"] [].
Definition marA2 : Person := examplePerson "a2" Male ["a1"] [] ["b2"].
Definition marB2 : Person := examplePerson "b2" Female ["b1"] [] ["a2"].
Definition marriedCousins : list Person := [marR; marA1; marB1; marA2; marB2].

(** Two families without any link between them. *)
Definition strX : Person := examplePerson "x" Male ["xp"] [] [].
Definition strXP : Person := examplePerson "xp" Female [] ["x"] [].
Definition strY : Person := examplePerson "y" Female ["yp"] [] [].
Definition strYP : Person := examplePerson "yp" Male [] ["y"] [].
Definition strangers : list Person := [strX; strXP; strY; strYP].

(** Two families without any link between them, as the person form saves
    them: the first slot of [parentIds] is left empty for both children. *)
Definition slotX : Person := examplePerson "x" Male [""; "xm"] [] [].
Definition slotXM : Person := examplePerson "xm" Female [] ["x"] [].
Definition slotY : Person := examplePerson "y" Female [""; "ym"] [] [].
Definition slotYM : Person := examplePerson "ym" Female [] ["y"] [].
Definition emptySlots : list Person := [slotX; slotXM; slotY; slotYM].

(** A parent, a son, and the son's spouse of gender [Other]. *)
Definition lawP : Person := examplePerson "p" Male [] ["s"] [].
Definition lawS : Person := examplePerson "s" Male ["p"] [] ["o"].
Definition lawO : Person := examplePerson "o" Other [] [] ["s"].
Definition inLaws : list Person := [lawP; lawS; lawO].

(** * The same functions over a store of mutable objects

    The embedding above passes arrays by value.  To state that the engine
    leaves its input untouched, the functions are embedded a second time
    over a store in which every array, [Set], [Map] and [Person] object of
    the program has a location: an array method that mutates ([push],
    [shift], [reverse], [sort], [Set.add], [Map.set]) overwrites the cell of
    its receiver, a literal, a spread, [slice], [map] or [filter] allocates a
    new cell, and a [Person] object refers to its [parentIds], [childrenIds]
    and [marriages] arrays by location, so that a queue that aliased one of
    them would change it.  Descriptions are computed by the functions above
    from the people read out of the store. *)

Module Store.

Definition loc : Type := nat.

Record PersonObj : Type := mkPersonObj {
  o_id : string;
  o_firstName : string;
  o_lastName : option string;
  o_familyCast : option string;
  o_gender : Gender;
  o_parentIds : option loc;
  o_marriages : option loc;
  o_childrenIds : option loc
}.

(** A [Relationship] object; its paths are arrays in the store. *)
Inductive RelObj : Type :=
| RBlood (description : string) (path1 path2 : loc) (lca : loc)
| RPath (description : string) (path : loc)
| RNone (description : string).

(** A row [{person, relationship, level}] of a report. *)
Record Row : Type := mkRow {
  row_person : loc;
  row_relationship : option string;
  row_level : option Z
}.

Inductive cell : Type :=
| CPerson (p : PersonObj)
| CStrings (l : list string)            (* string[] and Set<string> *)
| CPeople (l : list loc)                (* Person[] *)
| CMarriages (l : list Marriage)        (* Marriage[] *)
| CEntries (l : list (string * loc))    (* {personId, path}[] *)
| CMap (l : list (string * loc))        (* Map<string, Person> *)
| CRels (l : list RelObj)               (* Relationship[] *)
| CLevels (l : list (string * Z))       (* {personId, level}[] *)
| CRows (l : list Row).                 (* report rows *)

Definition heap : Type := list cell.

(** A computation on the store; the store is returned whatever the
    outcome. *)
Definition M (A : Type) : Type := heap -> outcome A * heap.

Definition ret {A : Type} (a : A) : M A := fun h => (Done a, h).

Definition bindM {A B : Type} (m : M A) (k : A -> M B) : M B :=
  fun h =>
    let (r, h') := m h in
    match r with
    | Done a => k a h'
    | Thrown e => (Thrown e, h')
    | NoFuel => (NoFuel, h')
    end.

Notation "x <~ c ;; k" := (bindM c (fun x => k))
  (at level 61, c at next level, right associativity).

Definition throw {A : Type} (e : string) : M A := fun h => (Thrown e, h).

Definition outOfFuel {A : Type} : M A := fun h => (NoFuel, h).

(** Lifting an outcome of the value-level functions. *)
Definition lift {A : Type} (o : outcome A) : M A := fun h => (o, h).

Definition alloc (c : cell) : M loc :=
  fun h => (Done (List.length h), h ++ [c]).

Definition read (l : loc) : M cell :=
  fun h =>
    match nth_error h l with
    | Some c => (Done c, h)
    | None => (Thrown "dangling reference", h)
    end.

Definition write (l : loc) (c : cell) : M unit :=
  fun h =>
    if Nat.ltb l (List.length h) then (Done tt, firstn l h ++ c :: skipn (S l) h)
    else (Thrown "dangling reference", h).

Definition typeError {A : Type} : M A := throw "TypeError".

Definition readPerson (l : loc) : M PersonObj :=
  c <~ read l ;; match c with CPerson p => ret p | _ => typeError end.

Definition readStrings (l : loc) : M (list string) :=
  c <~ read l ;; match c with CStrings s => ret s | _ => typeError end.

Definition readPeople (l : loc) : M (list loc) :=
  c <~ read l ;; match c with CPeople s => ret s | _ => typeError end.

Definition readMarriages (l : loc) : M (list Marriage) :=
  c <~ read l ;; match c with CMarriages s => ret s | _ => typeError end.

Definition readEntries (l : loc) : M (list (string * loc)) :=
  c <~ read l ;; match c with CEntries s => ret s | _ => typeError end.

Definition readMap (l : loc) : M (list (string * loc)) :=
  c <~ read l ;; match c with CMap s => ret s | _ => typeError end.

Definition readRels (l : loc) : M (list RelObj) :=
  c <~ read l ;; match c with CRels s => ret s | _ => typeError end.

Definition readLevels (l : loc) : M (list (string * Z)) :=
  c <~ read l ;; match c with CLevels s => ret s | _ => typeError end.

Definition readRows (l : loc) : M (list Row) :=
  c <~ read l ;; match c with CRows s => ret s | _ => typeError end.

(** [x || []] read through an optional reference. *)
Definition readOptStrings (o : option loc) : M (list string) :=
  match o with Some l => readStrings l | None => ret [] end.

Definition readOptMarriages (o : option loc) : M (list Marriage) :=
  match o with Some l => readMarriages l | None => ret [] end.

Fixpoint forEachM {A : Type} (f : A -> M unit) (l : list A) : M unit :=
  match l with
  | [] => ret tt
  | a :: rest => _ <~ f a ;; forEachM f rest
  end.

Fixpoint mapM {A B : Type} (f : A -> M B) (l : list A) : M (list B) :=
  match l with
  | [] => ret []
  | a :: rest => b <~ f a ;; bs <~ mapM f rest ;; ret (b :: bs)
  end.

(** The methods that mutate their receiver. *)
Definition pushString (arr : loc) (x : string) : M unit :=
  s <~ readStrings arr ;; write arr (CStrings (s ++ [x])).

Definition pushStrings (arr : loc) (xs : list string) : M unit :=
  s <~ readStrings arr ;; write arr (CStrings (s ++ xs)).

Definition shiftString (arr : loc) : M string :=
  s <~ readStrings arr ;;
  match s with
  | [] => typeError
  | x :: s' => _ <~ write arr (CStrings s') ;; ret x
  end.

Definition pushPerson (arr : loc) (p : loc) : M unit :=
  s <~ readPeople arr ;; write arr (CPeople (s ++ [p])).

Definition reversePeople (arr : loc) : M loc :=
  s <~ readPeople arr ;; _ <~ write arr (CPeople (rev s)) ;; ret arr.

Definition pushEntry (arr : loc) (e : string * loc) : M unit :=
  s <~ readEntries arr ;; write arr (CEntries (s ++ [e])).

Definition shiftEntry (arr : loc) : M (string * loc) :=
  s <~ readEntries arr ;;
  match s with
  | [] => typeError
  | x :: s' => _ <~ write arr (CEntries s') ;; ret x
  end.

Definition pushLevel (arr : loc) (e : string * Z) : M unit :=
  s <~ readLevels arr ;; write arr (CLevels (s ++ [e])).

Definition shiftLevel (arr : loc) : M (string * Z) :=
  s <~ readLevels arr ;;
  match s with
  | [] => typeError
  | x :: s' => _ <~ write arr (CLevels s') ;; ret x
  end.

Definition pushRow (arr : loc) (r : Row) : M unit :=
  s <~ readRows arr ;; write arr (CRows (s ++ [r])).

Definition pushRel (arr : loc) (r : RelObj) : M unit :=
  s <~ readRels arr ;; write arr (CRels (s ++ [r])).

Definition setHas (s : loc) (x : string) : M bool :=
  l <~ readStrings s ;; ret (set_has l x).

Definition setAdd (s : loc) (x : string) : M unit :=
  l <~ readStrings s ;; write s (CStrings (set_add x l)).

Fixpoint assoc_get (m : list (string * loc)) (k : string) : option loc :=
  match m with
  | [] => None
  | (k', v) :: m' => if String.eqb k' k then Some v else assoc_get m' k
  end.

Fixpoint assoc_set (k : string) (v : loc) (m : list (string * loc))
    : list (string * loc) :=
  match m with
  | [] => [(k, v)]
  | (k', v') :: m' =>
      if String.eqb k' k then (k', v) :: m' else (k', v') :: assoc_set k v m'
  end.

Definition mapGet (m : loc) (k : string) : M (option loc) :=
  l <~ readMap m ;; ret (assoc_get l k).

Definition mapSet (m : loc) (k : string) (v : loc) : M unit :=
  l <~ readMap m ;; write m (CMap (assoc_set k v l)).

(** Reading a person, with its arrays, out of the store. *)
Definition readOptional {A : Type} (rd : loc -> M A) (o : option loc)
    : M (option A) :=
  match o with
  | Some l => a <~ rd l ;; ret (Some a)
  | None => ret None
  end.

Definition viewPerson (l : loc) : M Person :=
  p <~ readPerson l ;;
  parents <~ readOptional readStrings (o_parentIds p) ;;
  ms <~ readOptional readMarriages (o_marriages p) ;;
  children <~ readOptional readStrings (o_childrenIds p) ;;
  ret (mkPerson (o_id p) (o_firstName p) (o_lastName p) (o_familyCast p)
                (o_gender p) parents ms children).

Definition viewPath (path : loc) : M (list Person) :=
  refs <~ readPeople path ;; mapM viewPerson refs.

(** ** Lookups and walks *)

Fixpoint findPerson (i : string) (refs : list loc) : M (option loc) :=
  match refs with
  | [] => ret None
  | r :: rest =>
      p <~ readPerson r ;;
      if String.eqb (o_id p) i then ret (Some r) else findPerson i rest
  end.

Definition getPersonById (i : string) (allPeople : loc) : M (option loc) :=
  refs <~ readPeople allPeople ;; findPerson i refs.

Fixpoint getAncestors_loop (fuel : nat) (allPeople queue visited ancestors : loc)
    : M loc :=
  q <~ readStrings queue ;;
  match q with
  | [] => ret ancestors
  | _ :: _ =>
      match fuel with
      | O => outOfFuel
      | S fuel' =>
          personId <~ shiftString queue ;;
          seen <~ setHas visited personId ;;
          if seen || falsy personId then
            getAncestors_loop fuel' allPeople queue visited ancestors
          else
            _ <~ setAdd visited personId ;;
            found <~ getPersonById personId allPeople ;;
            match found with
            | Some p =>
                _ <~ pushPerson ancestors p ;;
                po <~ readPerson p ;;
                parents <~ readOptStrings (o_parentIds po) ;;
                _ <~ forEachM (fun parentId =>
                       seen <~ setHas visited parentId ;;
                       if negb seen then pushString queue parentId else ret tt)
                     parents ;;
                getAncestors_loop fuel' allPeople queue visited ancestors
            | None => getAncestors_loop fuel' allPeople queue visited ancestors
            end
      end
  end.

Definition getAncestors (fuel : nat) (person allPeople : loc) : M loc :=
  ancestors <~ alloc (CPeople []) ;;
  po <~ readPerson person ;;
  parents <~ readOptStrings (o_parentIds po) ;;
  queue <~ alloc (CStrings parents) ;;
  visited <~ alloc (CStrings []) ;;
  getAncestors_loop fuel allPeople queue visited ancestors.

Fixpoint getDescendants_loop (fuel : nat)
    (allPeople queue visited descendants : loc) : M loc :=
  q <~ readStrings queue ;;
  match q with
  | [] => ret descendants
  | _ :: _ =>
      match fuel with
      | O => outOfFuel
      | S fuel' =>
          personId <~ shiftString queue ;;
          seen <~ setHas visited personId ;;
          if seen || falsy personId then
            getDescendants_loop fuel' allPeople queue visited descendants
          else
            _ <~ setAdd visited personId ;;
            found <~ getPersonById personId allPeople ;;
            match found with
            | Some p =>
                _ <~ pushPerson descendants p ;;
                po <~ readPerson p ;;
                children <~ readOptStrings (o_childrenIds po) ;;
                _ <~ forEachM (fun childId =>
                       seen <~ setHas visited childId ;;
                       if negb seen then pushString queue childId else ret tt)
                     children ;;
                getDescendants_loop fuel' allPeople queue visited descendants
            | None => getDescendants_loop fuel' allPeople queue visited descendants
            end
      end
  end.

Definition getDescendants (fuel : nat) (person allPeople : loc) : M loc :=
  descendants <~ alloc (CPeople []) ;;
  po <~ readPerson person ;;
  children <~ readOptStrings (o_childrenIds po) ;;
  queue <~ alloc (CStrings children) ;;
  visited <~ alloc (CStrings []) ;;
  getDescendants_loop fuel allPeople queue visited descendants.

Definition getAllBloodRelativesIds (fuel : nat) (focalPerson allPeople : loc)
    : M loc :=
  bloodRelatives <~ alloc (CStrings []) ;;
  ancestors <~ getAncestors fuel focalPerson allPeople ;;
  ancestorRefs <~ readPeople ancestors ;;
  allProgenitors <~ alloc (CPeople (focalPerson :: ancestorRefs)) ;;
  progenitors <~ readPeople allProgenitors ;;
  _ <~ forEachM (fun progenitor =>
         po <~ readPerson progenitor ;;
         _ <~ setAdd bloodRelatives (o_id po) ;;
         descendants <~ getDescendants fuel progenitor allPeople ;;
         descendantRefs <~ readPeople descendants ;;
         forEachM (fun descendant =>
                     d <~ readPerson descendant ;;
                     setAdd bloodRelatives (o_id d))
                  descendantRefs)
       progenitors ;;
  ret bloodRelatives.

(** ** Lowest common ancestor and the two paths

    A [for ... of] reads its array once: the body of every such loop of the
    engine writes to arrays that the call itself allocated. *)

Record LcaObj : Type := mkLcaObj {
  o_lca : loc;
  o_path1 : loc;
  o_path2 : loc
}.

Fixpoint getPathToAncestor_parents (allPeople : loc) (endId : string)
    (path queue visited : loc) (parents : list string) : M (option loc) :=
  match parents with
  | [] => ret None
  | parentId :: rest =>
      seen <~ setHas visited parentId ;;
      if seen then
        getPathToAncestor_parents allPeople endId path queue visited rest
      else
        _ <~ setAdd visited parentId ;;
        parentPerson <~ getPersonById parentId allPeople ;;
        match parentPerson with
        | Some pp =>
            old <~ readPeople path ;;
            newPath <~ alloc (CPeople (old ++ [pp])) ;;
            if String.eqb parentId endId then ret (Some newPath)
            else
              _ <~ pushEntry queue (parentId, newPath) ;;
              getPathToAncestor_parents allPeople endId path queue visited rest
        | None =>
            getPathToAncestor_parents allPeople endId path queue visited rest
        end
  end.

Fixpoint getPathToAncestor_loop (fuel : nat) (allPeople : loc) (endId : string)
    (queue visited : loc) : M (option loc) :=
  q <~ readEntries queue ;;
  match q with
  | [] => ret None
  | _ :: _ =>
      match fuel with
      | O => outOfFuel
      | S fuel' =>
          e <~ shiftEntry queue ;;
          currentPerson <~ getPersonById (fst e) allPeople ;;
          match currentPerson with
          | Some cp =>
              po <~ readPerson cp ;;
              match o_parentIds po with
              | Some parentsLoc =>
                  parents <~ readStrings parentsLoc ;;
                  found <~ getPathToAncestor_parents allPeople endId (snd e)
                             queue visited parents ;;
                  match found with
                  | Some newPath => ret (Some newPath)
                  | None =>
                      getPathToAncestor_loop fuel' allPeople endId queue visited
                  end
              | None => getPathToAncestor_loop fuel' allPeople endId queue visited
              end
          | None => getPathToAncestor_loop fuel' allPeople endId queue visited
          end
      end
  end.

Definition getPathToAncestor (fuel : nat) (allPeople : loc)
    (startId endId : string) : M (option loc) :=
  startPerson <~ getPersonById startId allPeople ;;
  match startPerson with
  | None => ret None
  | Some sp =>
      if String.eqb startId endId then
        path <~ alloc (CPeople [sp]) ;; ret (Some path)
      else
        path <~ alloc (CPeople [sp]) ;;
        queue <~ alloc (CEntries [(startId, path)]) ;;
        visited <~ alloc (CStrings [startId]) ;;
        getPathToAncestor_loop fuel allPeople endId queue visited
  end.

Fixpoint p1Ancestors_loop (fuel : nat) (allPeople queue1 visited1 p1Ancestors : loc)
    : M unit :=
  q <~ readStrings queue1 ;;
  match q with
  | [] => ret tt
  | _ :: _ =>
      match fuel with
      | O => outOfFuel
      | S fuel' =>
          currentId <~ shiftString queue1 ;;
          seen <~ setHas visited1 currentId ;;
          if seen then p1Ancestors_loop fuel' allPeople queue1 visited1 p1Ancestors
          else
            _ <~ setAdd visited1 currentId ;;
            person <~ getPersonById currentId allPeople ;;
            match person with
            | Some p =>
                _ <~ mapSet p1Ancestors currentId p ;;
                po <~ readPerson p ;;
                _ <~ match o_parentIds po with
                     | Some parentsLoc =>
                         parents <~ readStrings parentsLoc ;;
                         pushStrings queue1 parents
                     | None => ret tt
                     end ;;
                p1Ancestors_loop fuel' allPeople queue1 visited1 p1Ancestors
            | None => p1Ancestors_loop fuel' allPeople queue1 visited1 p1Ancestors
            end
      end
  end.

Fixpoint queue2_loop (fuel : nat) (allPeople : loc) (person1Id person2Id : string)
    (p1Ancestors queue2 visited2 : loc) : M (option LcaObj) :=
  q <~ readStrings queue2 ;;
  match q with
  | [] => ret None
  | _ :: _ =>
      match fuel with
      | O => outOfFuel
      | S fuel' =>
          currentId <~ shiftString queue2 ;;
          hit <~ mapGet p1Ancestors currentId ;;
          result <~
            match hit with
            | Some lca =>
                lo <~ readPerson lca ;;
                path1 <~ getPathToAncestor fuel allPeople person1Id (o_id lo) ;;
                path2 <~ getPathToAncestor fuel allPeople person2Id (o_id lo) ;;
                match path1, path2 with
                | Some path1, Some path2 => ret (Some (mkLcaObj lca path1 path2))
                | _, _ => ret None
                end
            | None => ret None
            end ;;
          match result with
          | Some r => ret (Some r)
          | None =>
              person <~ getPersonById currentId allPeople ;;
              parents <~
                match person with
                | Some p => po <~ readPerson p ;; readOptStrings (o_parentIds po)
                | None => ret []
                end ;;
              _ <~ forEachM (fun parentId =>
                     seen <~ setHas visited2 parentId ;;
                     if negb seen then
                       _ <~ setAdd visited2 parentId ;; pushString queue2 parentId
                     else ret tt)
                   parents ;;
              queue2_loop fuel' allPeople person1Id person2Id
                p1Ancestors queue2 visited2
          end
      end
  end.

Definition findLcaAndPaths (fuel : nat) (person1Id person2Id : string)
    (allPeople : loc) : M (option LcaObj) :=
  p1Ancestors <~ alloc (CMap []) ;;
  queue1 <~ alloc (CStrings [person1Id]) ;;
  visited1 <~ alloc (CStrings []) ;;
  _ <~ p1Ancestors_loop fuel allPeople queue1 visited1 p1Ancestors ;;
  queue2 <~ alloc (CStrings [person2Id]) ;;
  visited2 <~ alloc (CStrings [person2Id]) ;;
  queue2_loop fuel allPeople person1Id person2Id p1Ancestors queue2 visited2.

(** ** Descriptions, computed from the people read out of the store *)

Definition describeBloodRelationship (person1 person2 lca path1 path2 : loc)
    : M string :=
  p1 <~ viewPerson person1 ;;
  p2 <~ viewPerson person2 ;;
  l <~ viewPerson lca ;;
  q1 <~ viewPath path1 ;;
  q2 <~ viewPath path2 ;;
  lift (describeBloodRelationship p1 p2 l q1 q2).

Definition generatePathDescription (path : loc) : M string :=
  people <~ viewPath path ;; ret (generatePathDescription people).

(** ** The generic path finder *)

Fixpoint findGenericPath_loop (fuel : nat) (person2 allPeople queue visited : loc)
    : M (option RelObj) :=
  q <~ readEntries queue ;;
  match q with
  | [] => ret None
  | _ :: _ =>
      match fuel with
      | O => outOfFuel
      | S fuel' =>
          e <~ shiftEntry queue ;;
          refs <~ readPeople (snd e) ;;
          p2 <~ readPerson person2 ;;
          if String.eqb (fst e) (o_id p2) then
            description <~ generatePathDescription (snd e) ;;
            ret (Some (RPath description (snd e)))
          else
            match nth_error refs (List.length refs - 1) with
            | None => throw "TypeError: Cannot read properties of undefined"
            | Some currentPerson =>
                cp <~ readPerson currentPerson ;;
                parents <~ readOptStrings (o_parentIds cp) ;;
                children <~ readOptStrings (o_childrenIds cp) ;;
                ms <~ readOptMarriages (o_marriages cp) ;;
                neighbors <~ alloc (CStrings (parents ++ children ++ map spouseId ms)) ;;
                ns <~ readStrings neighbors ;;
                _ <~ forEachM (fun neighborId =>
                       seen <~ setHas visited neighborId ;;
                       if negb seen then
                         _ <~ setAdd visited neighborId ;;
                         neighborPerson <~ getPersonById neighborId allPeople ;;
                         match neighborPerson with
                         | Some np =>
                             old <~ readPeople (snd e) ;;
                             newPath <~ alloc (CPeople (old ++ [np])) ;;
                             pushEntry queue (neighborId, newPath)
                         | None => ret tt
                         end
                       else ret tt)
                     ns ;;
                findGenericPath_loop fuel' person2 allPeople queue visited
            end
      end
  end.

Definition findGenericPath (fuel : nat) (person1 person2 allPeople : loc)
    : M (option RelObj) :=
  queue <~ alloc (CEntries []) ;;
  visited <~ alloc (CStrings []) ;;
  p1 <~ readPerson person1 ;;
  path <~ alloc (CPeople [person1]) ;;
  _ <~ pushEntry queue (o_id p1, path) ;;
  _ <~ setAdd visited (o_id p1) ;;
  findGenericPath_loop fuel person2 allPeople queue visited.

(** ** The aggregator *)

Fixpoint findRelationship_inLaw (fuel : nat) (person1Id : string)
    (person1 person2 allPeople : loc) (ms : list Marriage) : M (option RelObj) :=
  match ms with
  | [] => ret None
  | marriage :: rest =>
      spouseOfPerson2 <~ getPersonById (spouseId marriage) allPeople ;;
      match spouseOfPerson2 with
      | Some spouse =>
          so <~ readPerson spouse ;;
          bloodResult <~ findLcaAndPaths fuel person1Id (o_id so) allPeople ;;
          match bloodResult with
          | Some r =>
              lo <~ readPerson (o_lca r) ;;
              if String.eqb (o_id lo) person1Id then
                refs <~ readPeople (o_path2 r) ;;
                p2 <~ readPerson person2 ;;
                let desc := inLawDescription (o_gender p2) (len refs - 1) in
                if negb (falsy desc) then
                  path <~ alloc (CPeople [person1; spouse; person2]) ;;
                  ret (Some (RPath desc path))
                else findRelationship_inLaw fuel person1Id person1 person2
                       allPeople rest
              else findRelationship_inLaw fuel person1Id person1 person2
                     allPeople rest
          | None => findRelationship_inLaw fuel person1Id person1 person2
                      allPeople rest
          end
      | None => findRelationship_inLaw fuel person1Id person1 person2 allPeople rest
      end
  end.

Definition findRelationship (fuel : nat) (person1Id person2Id : string)
    (allPeople : loc) : M (option RelObj) :=
  if falsy person1Id || falsy person2Id || String.eqb person1Id person2Id then
    ret None
  else
    found1 <~ getPersonById person1Id allPeople ;;
    found2 <~ getPersonById person2Id allPeople ;;
    match found1, found2 with
    | Some person1, Some person2 =>
        p1 <~ readPerson person1 ;;
        p2 <~ readPerson person2 ;;
        ms1 <~ readOptMarriages (o_marriages p1) ;;
        if existsb (fun m => String.eqb (spouseId m) person2Id) ms1 then
          let relation := byGender (o_gender p2) "Husband" "Wife" "Spouse" in
          path <~ alloc (CPeople [person1; person2]) ;;
          ret (Some (RPath relation path))
        else
          lcaResult <~ findLcaAndPaths fuel person1Id person2Id allPeople ;;
          match lcaResult with
          | Some r =>
              description <~ describeBloodRelationship person1 person2
                               (o_lca r) (o_path1 r) (o_path2 r) ;;
              ret (Some (RBlood description (o_path1 r) (o_path2 r) (o_lca r)))
          | None =>
              ms2 <~ readOptMarriages (o_marriages p2) ;;
              inLaw <~ findRelationship_inLaw fuel person1Id person1 person2
                         allPeople ms2 ;;
              match inLaw with
              | Some rel => ret (Some rel)
              | None =>
                  pathResult <~ findGenericPath fuel person1 person2 allPeople ;;
                  match pathResult with
                  | Some rel => ret (Some rel)
                  | None => ret (Some (RNone noRelationshipMessage))
                  end
              end
          end
    | _, _ => ret None
    end.

Definition rel_description (r : RelObj) : string :=
  match r with
  | RBlood d _ _ _ => d
  | RPath d _ => d
  | RNone d => d
  end.

Definition addRelationship (relationships : loc) (rel : RelObj) : M unit :=
  match rel with
  | RNone _ => ret tt
  | _ =>
      rels <~ readRels relationships ;;
      if existsb (fun r => String.eqb (rel_description r) (rel_description rel)) rels
      then ret tt
      else pushRel relationships rel
  end.

Definition getLen (r : RelObj) : M (option Z) :=
  match r with
  | RBlood _ path1 path2 _ =>
      q1 <~ readPeople path1 ;; q2 <~ readPeople path2 ;;
      ret (Some (len q1 + len q2 - 2)%Z)
  | RPath _ path => q <~ readPeople path ;; ret (Some (len q - 1)%Z)
  | RNone _ => ret None
  end.

Definition keyLe (a b : option Z) : bool :=
  match a, b with
  | Some x, Some y => (x <=? y)%Z
  | Some _, None => true
  | None, Some _ => false
  | None, None => true
  end.

Fixpoint sort_insert (x : option Z * RelObj) (sorted : list (option Z * RelObj))
    : list (option Z * RelObj) :=
  match sorted with
  | [] => [x]
  | y :: rest =>
      if keyLe (fst y) (fst x) then y :: sort_insert x rest else x :: y :: rest
  end.

(** [relationships.sort(...)]: in place. *)
Definition sortRels (relationships : loc) : M unit :=
  rels <~ readRels relationships ;;
  keyed <~ mapM (fun r => k <~ getLen r ;; ret (k, r)) rels ;;
  write relationships
    (CRels (map snd (fold_left (fun acc x => sort_insert x acc) keyed []))).

Fixpoint findAllRelationships_loop (fuel : nat) (person1Id person2Id : string)
    (person2 allPeople relationships : loc) (relatives : list string) : M unit :=
  match relatives with
  | [] => ret tt
  | relativeId :: rest =>
      found <~ getPersonById relativeId allPeople ;;
      _ <~
        match found with
        | Some bloodRelative =>
            br <~ readPerson bloodRelative ;;
            ms <~ readOptMarriages (o_marriages br) ;;
            if negb (String.eqb (o_id br) person1Id)
               && existsb (fun m => String.eqb (spouseId m) person2Id) ms then
              relToBloodRelative <~
                findRelationship fuel person1Id (o_id br) allPeople ;;
              match relToBloodRelative with
              | Some (RNone _) | None => ret tt
              | Some rel =>
                  p2 <~ readPerson person2 ;;
                  let inLawDescription :=
                    (rel_description rel ++ "'s " ++
                     match o_gender p2 with Male => "Husband" | _ => "Wife" end)%string in
                  path <~
                    match rel with
                    | RBlood _ path1 path2 _ =>
                        q1 <~ readPeople path1 ;;
                        sliced <~ alloc (CPeople (removelast q1)) ;;
                        reversed <~ reversePeople path2 ;;
                        s <~ readPeople sliced ;;
                        r <~ readPeople reversed ;;
                        alloc (CPeople (s ++ r ++ [person2]))
                    | RPath _ path =>
                        q <~ readPeople path ;;
                        alloc (CPeople (q ++ [person2]))
                    | RNone _ => alloc (CPeople [])
                    end ;;
                  q <~ readPeople path ;;
                  if (len q >? 0)%Z
                  then addRelationship relationships (RPath inLawDescription path)
                  else ret tt
              end
            else ret tt
        | None => ret tt
        end ;;
      findAllRelationships_loop fuel person1Id person2Id person2 allPeople
        relationships rest
  end.

Definition findAllRelationships (fuel : nat) (person1Id person2Id : string)
    (allPeople : loc) : M loc :=
  relationships <~ alloc (CRels []) ;;
  found1 <~ getPersonById person1Id allPeople ;;
  found2 <~ getPersonById person2Id allPeople ;;
  match found1, found2 with
  | Some person1, Some person2 =>
      if String.eqb person1Id person2Id then alloc (CRels [])
      else
        primaryRel <~ findRelationship fuel person1Id person2Id allPeople ;;
        _ <~ match primaryRel with
             | Some rel => addRelationship relationships rel
             | None => ret tt
             end ;;
        p1BloodRelatives <~ getAllBloodRelativesIds fuel person1 allPeople ;;
        relatives <~ readStrings p1BloodRelatives ;;
        _ <~ findAllRelationships_loop fuel person1Id person2Id person2 allPeople
               relationships relatives ;;
        rels <~ readRels relationships ;;
        match rels with
        | [] => alloc (CRels [RNone noRelationshipMessage])
        | _ => _ <~ sortRels relationships ;; ret relationships
        end
  | _, _ => alloc (CRels [])
  end.

(** ** [reportUtils.ts]: the walks of the reports *)

Fixpoint filterM {A : Type} (f : A -> M bool) (l : list A) : M (list A) :=
  match l with
  | [] => ret []
  | a :: rest =>
      keep <~ f a ;;
      kept <~ filterM f rest ;;
      ret (if keep then a :: kept else kept)
  end.

Fixpoint getAncestorsHierarchically_loop (fuel : nat)
    (allPeople queue visited results : loc) : M loc :=
  q <~ readLevels queue ;;
  match q with
  | [] => ret results
  | _ :: _ =>
      match fuel with
      | O => outOfFuel
      | S fuel' =>
          e <~ shiftLevel queue ;;
          seen <~ setHas visited (fst e) ;;
          if falsy (fst e) || seen then
            getAncestorsHierarchically_loop fuel' allPeople queue visited results
          else
            _ <~ setAdd visited (fst e) ;;
            found <~ getPersonById (fst e) allPeople ;;
            match found with
            | Some p =>
                _ <~ pushRow results (mkRow p None (Some (snd e))) ;;
                po <~ readPerson p ;;
                parents <~ readOptStrings (o_parentIds po) ;;
                _ <~ forEachM (fun parentId =>
                       seen <~ setHas visited parentId ;;
                       if negb seen
                       then pushLevel queue (parentId, (snd e + 1)%Z)
                       else ret tt)
                     parents ;;
                getAncestorsHierarchically_loop fuel' allPeople queue visited results
            | None =>
                getAncestorsHierarchically_loop fuel' allPeople queue visited results
            end
      end
  end.

Definition getAncestorsHierarchically (fuel : nat) (person allPeople : loc)
    : M loc :=
  results <~ alloc (CRows []) ;;
  po <~ readPerson person ;;
  match o_parentIds po with
  | None => ret results
  | Some parentsLoc =>
      parents <~ readStrings parentsLoc ;;
      queue <~ alloc (CLevels (map (fun i => (i, 1%Z)) parents)) ;;
      visited <~ alloc (CStrings []) ;;
      getAncestorsHierarchically_loop fuel allPeople queue visited results
  end.

Definition descendantTerm (g : Gender) (generation : Z) : outcome string :=
  if (generation =? 1)%Z then Done (byGender g "Son" "Daughter" "Child")
  else if (generation =? 2)%Z then
    Done (byGender g "Grandson" "Granddaughter" "Grandchild")
  else
    prefix <- js_repeat "Great-" (generation - 2) ;;
    Done (prefix ++ byGender g "Grandson" "Granddaughter" "Grandchild")%string.

Fixpoint getDescendantsWithRelationship_loop (fuel : nat)
    (allPeople queue visited results : loc) : M loc :=
  q <~ readLevels queue ;;
  match q with
  | [] => ret results
  | _ :: _ =>
      match fuel with
      | O => outOfFuel
      | S fuel' =>
          e <~ shiftLevel queue ;;
          seen <~ setHas visited (fst e) ;;
          if falsy (fst e) || seen then
            getDescendantsWithRelationship_loop fuel' allPeople queue visited results
          else
            _ <~ setAdd visited (fst e) ;;
            found <~ getPersonById (fst e) allPeople ;;
            match found with
            | Some p =>
                po <~ readPerson p ;;
                relationship <~ lift (descendantTerm (o_gender po) (snd e)) ;;
                _ <~ pushRow results (mkRow p (Some relationship) (Some (snd e))) ;;
                children <~ readOptStrings (o_childrenIds po) ;;
                _ <~ forEachM (fun childId =>
                       seen <~ setHas visited childId ;;
                       if negb seen
                       then pushLevel queue (childId, (snd e + 1)%Z)
                       else ret tt)
                     children ;;
                getDescendantsWithRelationship_loop fuel' allPeople queue visited
                  results
            | None =>
                getDescendantsWithRelationship_loop fuel' allPeople queue visited
                  results
            end
      end
  end.

Definition getDescendantsWithRelationship (fuel : nat) (person allPeople : loc)
    : M loc :=
  results <~ alloc (CRows []) ;;
  po <~ readPerson person ;;
  match o_childrenIds po with
  | None => ret results
  | Some childrenLoc =>
      children <~ readStrings childrenLoc ;;
      queue <~ alloc (CLevels (map (fun i => (i, 1%Z)) children)) ;;
      visited <~ alloc (CStrings []) ;;
      getDescendantsWithRelationship_loop fuel allPeople queue visited results
  end.

Definition getSiblingsWithRelationship (person allPeople : loc) : M loc :=
  po <~ readPerson person ;;
  match o_parentIds po with
  | None => alloc (CRows [])
  | Some parentsLoc =>
      parents <~ readStrings parentsLoc ;;
      match parents with
      | [] => alloc (CRows [])
      | _ :: _ =>
          filtered <~ alloc (CStrings (filter (fun i => negb (falsy i)) parents)) ;;
          ids <~ readStrings filtered ;;
          parentIdSet <~ alloc (CStrings (fold_left (fun s i => set_add i s) ids [])) ;;
          members <~ readStrings parentIdSet ;;
          match members with
          | [] => alloc (CRows [])
          | _ :: _ =>
              refs <~ readPeople allPeople ;;
              kept <~ filterM (fun p =>
                        q <~ readPerson p ;;
                        if String.eqb (o_id q) (o_id po) then ret false
                        else
                          match o_parentIds q with
                          | None => ret false
                          | Some l =>
                              pids <~ readStrings l ;;
                              set <~ readStrings parentIdSet ;;
                              ret (existsb (set_has set) pids)
                          end)
                      refs ;;
              siblings <~ alloc (CPeople kept) ;;
              ss <~ readPeople siblings ;;
              rows <~ mapM (fun sibling =>
                        q <~ readPerson sibling ;;
                        ret (mkRow sibling
                               (Some (byGender (o_gender q) "Brother" "Sister" "Sibling"))
                               None))
                      ss ;;
              alloc (CRows rows)
          end
      end
  end.

(** ** Building a store from a collection, and reading results back *)

Definition allocOptional {A : Type} (mk : A -> cell) (o : option A)
    : M (option loc) :=
  match o with
  | Some a => l <~ alloc (mk a) ;; ret (Some l)
  | None => ret None
  end.

Definition encodePerson (p : Person) : M loc :=
  parents <~ allocOptional CStrings (parentIds p) ;;
  ms <~ allocOptional CMarriages (marriages p) ;;
  children <~ allocOptional CStrings (childrenIds p) ;;
  alloc (CPerson (mkPersonObj (id p) (firstName p) (lastName p) (familyCast p)
                              (gender p) parents ms children)).

Definition encodePeople (people : list Person) : M loc :=
  refs <~ mapM encodePerson people ;; alloc (CPeople refs).

Definition viewRel (r : RelObj) : M Relationship :=
  match r with
  | RBlood d path1 path2 lca =>
      q1 <~ viewPath path1 ;; q2 <~ viewPath path2 ;; l <~ viewPerson lca ;;
      ret (Blood d q1 q2 l)
  | RPath d path => q <~ viewPath path ;; ret (Path d q)
  | RNone d => ret (NoRelationship d)
  end.

Definition viewOptRel (o : option RelObj) : M (option Relationship) :=
  match o with
  | Some r => v <~ viewRel r ;; ret (Some v)
  | None => ret None
  end.

Definition viewRels (relationships : loc) : M (list Relationship) :=
  rels <~ readRels relationships ;; mapM viewRel rels.

(** What a call that allocated from [n] on may hand out: new arrays. *)
Definition freshOpt (n : nat) (o : option loc) : Prop :=
  match o with
  | Some l => n <= l
  | None => True
  end.

Definition freshLca (n : nat) (o : option LcaObj) : Prop :=
  match o with
  | Some r => n <= o_path1 r /\ n <= o_path2 r
  | None => True
  end.

(** Every path of a [Relationship] object is a new array. *)
Definition freshRelObj (n : nat) (r : RelObj) : Prop :=
  match r with
  | RBlood _ path1 path2 _ => n <= path1 /\ n <= path2
  | RPath _ path => n <= path
  | RNone _ => True
  end.

Definition freshRel (n : nat) (o : option RelObj) : Prop :=
  match o with
  | Some r => freshRelObj n r
  | None => True
  end.

(** The cells through which paths are handed on, the queues of
    [{personId, path}] entries and the arrays of relationships, hold new
    arrays only. *)
Definition freshCell (n : nat) (c : cell) : Prop :=
  match c with
  | CEntries l => Forall (fun e => n <= snd e) l
  | CRels l => Forall (freshRelObj n) l
  | _ => True
  end.

(** Every cell allocated from [n] on is such a cell. *)
Definition freshFrom (n : nat) (h : heap) : Prop :=
  forall l c, n <= l -> nth_error h l = Some c -> freshCell n c.

(** ** The frame of a computation

    [frame n m Q]: run on a store of at least [n] cells whose cells from
    [n] on hold new paths only, [m] leaves the first [n] cells as they are,
    never shrinks the store, keeps the cells from [n] on holding new paths
    only, and its result, when it has one, satisfies [Q]. *)
Definition frame {A : Type} (n : nat) (m : M A) (Q : A -> Prop) : Prop :=
  forall h,
    n <= List.length h ->
    freshFrom n h ->
    firstn n (snd (m h)) = firstn n h /\
    List.length h <= List.length (snd (m h)) /\
    freshFrom n (snd (m h)) /\
    (forall a, fst (m h) = Done a -> Q a).

(** Every cell of the store [h] is still there, with the same content, in
    the store [h']. *)
Definition unchanged (h h' : heap) : Prop :=
  forall l c, nth_error h l = Some c -> nth_error h' l = Some c.

(** The input survives from [h] to [h']: no cell of [h] has changed, so the
    people array at any location and the [Person] at any location, read
    with its [parentIds], [marriages] and [childrenIds], are the same. *)
Definition preserved (h h' : heap) : Prop :=
  unchanged h h' /\
  (forall l refs, fst (readPeople l h) = Done refs ->
                  fst (readPeople l h') = Done refs) /\
  (forall l p, fst (viewPerson l h) = Done p -> fst (viewPerson l h') = Done p).

(** The array a call returns is one it allocated. *)
Definition newArray {A : Type} (h : heap) (r : outcome A * heap)
    (arrayOf : A -> option loc) : Prop :=
  forall a l, fst r = Done a -> arrayOf a = Some l -> List.length h <= l.

(** Every path of every relationship in the array a call returns is an
    array the call allocated. *)
Definition newPaths (h : heap) (r : outcome loc * heap) : Prop :=
  forall l rels,
    fst r = Done l -> nth_error (snd r) l = Some (CRels rels) ->
    Forall (freshRelObj (List.length h)) rels.

End Store.

(** * Further vocabulary *)

(** ** What the walks reach *)

(** The common form of the loops of [getAncestors] and [getDescendants],
    which differ only in the list they follow: [getAncestors_loop] is
    [walk_loop parentsOf] and [getDescendants_loop] is
    [walk_loop childrenOf] (lemmas [getAncestors_loop_walk] and
    [getDescendants_loop_walk]). *)
Fixpoint walk_loop (edges : Person -> list string) (fuel : nat)
    (allPeople : list Person) (queue : list string) (visited : JsSet)
    (acc : list Person) : outcome (list Person) :=
  match queue with
  | [] => Done acc
  | personId :: queue' =>
      match fuel with
      | O => NoFuel
      | S fuel' =>
          if set_has visited personId || falsy personId then
            walk_loop edges fuel' allPeople queue' visited acc
          else
            let visited' := set_add personId visited in
            match getPersonById personId allPeople with
            | Some p =>
                walk_loop edges fuel' allPeople
                  (queue' ++ filter (fun x => negb (set_has visited' x)) (edges p))
                  visited' (acc ++ [p])
            | None => walk_loop edges fuel' allPeople queue' visited' acc
            end
      end
  end.

(** The people reached from the ids [start] along [edges]: every id on the
    way is non-empty and names a person of the collection. *)
Inductive reaches (edges : Person -> list string) (allPeople : list Person)
    (start : list string) : Person -> Prop :=
| reaches_start (x : string) (p : Person) :
    In x start -> x <> "" -> getPersonById x allPeople = Some p ->
    reaches edges allPeople start p
| reaches_step (q : Person) (x : string) (p : Person) :
    reaches edges allPeople start q ->
    In x (edges q) -> x <> "" -> getPersonById x allPeople = Some p ->
    reaches edges allPeople start p.

Definition ancestorOf (allPeople : list Person) (person : Person)
    : Person -> Prop :=
  reaches parentsOf allPeople (parentsOf person).

Definition descendantOf (allPeople : list Person) (person : Person)
    : Person -> Prop :=
  reaches childrenOf allPeople (childrenOf person).

(** The invariant of a walk from [start]. *)
Record walkInv (edges : Person -> list string) (allPeople : list Person)
    (start queue : list string) (visited : JsSet) (acc : list Person)
    : Prop := mkWalkInv {
  walk_queue :
    forall x, In x queue ->
      In x start \/ exists q, reaches edges allPeople start q /\ In x (edges q);
  walk_acc : forall p, In p acc -> reaches edges allPeople start p;
  walk_start :
    forall x, In x start -> x <> "" -> In x visited \/ In x queue;
  walk_closed :
    forall p x, In p acc -> In x (edges p) -> x <> "" ->
      In x visited \/ In x queue;
  walk_found :
    forall x p, In x visited -> getPersonById x allPeople = Some p -> In p acc;
  walk_nodup : NoDup (map id acc);
  walk_ids : forall p, In p acc -> In (id p) visited
}.

(** ** Ancestry by ids *)

(** The ids reached from [start] by following the [parentIds] of people of
    the collection, [start] itself included. *)
Inductive upFrom (allPeople : list Person) (start : string) : string -> Prop :=
| upFrom_refl : upFrom allPeople start start
| upFrom_step (x : string) (p : Person) (y : string) :
    upFrom allPeople start x ->
    getPersonById x allPeople = Some p -> In y (parentsOf p) ->
    upFrom allPeople start y.

(** [c] is a person of the collection to whom both ids lead upwards. *)
Definition commonAncestor (allPeople : list Person) (a b : string) (c : Person)
    : Prop :=
  getPersonById (id c) allPeople = Some c /\
  upFrom allPeople a (id c) /\ upFrom allPeople b (id c).

(** The closure of person 1 is the map of the existing people above it. *)
Definition closureOk (allPeople : list Person) (person1Id : string) (m : JsMap)
    : Prop :=
  forall x p,
    map_get m x = Some p <->
    getPersonById x allPeople = Some p /\ upFrom allPeople person1Id x.

(** The invariant of the first loop of [findLcaAndPaths]. *)
Record closureInv (allPeople : list Person) (person1Id : string)
    (queue : list string) (visited : JsSet) (m : JsMap) : Prop := mkClosureInv {
  closure_queue : forall x, In x queue -> upFrom allPeople person1Id x;
  closure_map :
    forall x p, map_get m x = Some p ->
      getPersonById x allPeople = Some p /\ upFrom allPeople person1Id x;
  closure_start : In person1Id visited \/ In person1Id queue;
  closure_closed :
    forall x p y, In x visited -> getPersonById x allPeople = Some p ->
      In y (parentsOf p) -> In y visited \/ In y queue;
  closure_found :
    forall x p, In x visited -> getPersonById x allPeople = Some p ->
      map_get m x = Some p
}.

(** The invariant of the search for a path to the existing ancestor
    [endId]: it has not been seen yet, and an id that has been seen is
    waiting in the queue or has all its parents seen. *)
Record searchInv (allPeople : list Person) (startId endId : string)
    (queue : list (string * list Person)) (visited : JsSet) : Prop :=
  mkSearchInv {
  search_start : In startId visited;
  search_end : ~ In endId visited;
  search_closed :
    forall x, In x visited ->
      In x (map fst queue) \/
      forall p y, getPersonById x allPeople = Some p -> In y (parentsOf p) ->
                  In y visited
}.

(** The invariant of the second loop of [findLcaAndPaths]. *)
Record queue2Inv (allPeople : list Person) (person2Id : string) (m : JsMap)
    (queue2 : list string) (visited2 : JsSet) : Prop := mkQueue2Inv {
  queue2_start : In person2Id visited2;
  queue2_up : forall x, In x visited2 -> upFrom allPeople person2Id x;
  queue2_sub : forall x, In x queue2 -> In x visited2;
  queue2_closed :
    forall x, In x visited2 ->
      In x queue2 \/
      (map_get m x = None /\
       forall p y, getPersonById x allPeople = Some p -> In y (parentsOf p) ->
                   In y visited2)
}.

(** ** Paths along any entry *)

(** The ids reached from [start] by following the [parentIds],
    [childrenIds] and [marriages] of people of the collection, each entry
    read in its own direction. *)
Inductive linkedFrom (allPeople : list Person) (start : string) : string -> Prop :=
| linkedFrom_refl : linkedFrom allPeople start start
| linkedFrom_step (x : string) (p : Person) (y : string) :
    linkedFrom allPeople start x ->
    getPersonById x allPeople = Some p -> In y (neighborsOf p) ->
    linkedFrom allPeople start y.

(** Every step [path[i]] to [path[i+1]] follows an entry of [path[i]]. *)
Definition stepsAreEdges (path : list Person) : Prop :=
  forall i a b,
    nth_error path i = Some a -> nth_error path (S i) = Some b ->
    In (id b) (neighborsOf a).

(** What holds of a queue entry of the generic path finder. *)
Record genEntry (allPeople : list Person) (person1 : Person)
    (e : string * list Person) : Prop := mkGenEntry {
  gen_hd : hd_error (snd e) = Some person1;
  gen_last : lastPerson (snd e) = getPersonById (fst e) allPeople;
  gen_exists : getPersonById (fst e) allPeople <> None;
  gen_steps : stepsAreEdges (snd e);
  gen_inGraph : inGraph allPeople (snd e)
}.

(** The invariant of the loop of the generic path finder. *)
Record genInv (allPeople : list Person) (person1 person2 : Person)
    (queue : list (string * list Person)) (visited : JsSet) : Prop := mkGenInv {
  gen_entries : Forall (genEntry allPeople person1) queue;
  gen_start : In (id person1) visited;
  gen_closed :
    forall x, In x visited ->
      In x (map fst queue) \/
      (x <> id person2 /\
       forall p y, getPersonById x allPeople = Some p -> In y (neighborsOf p) ->
                   In y visited)
}.

(** The phrases [getPathSegmentDescription] has for an entry. *)
Definition segmentPhrases : list string :=
  ["is the father of"; "is the mother of"; "is the parent of";
   "is the son of"; "is the daughter of"; "is the child of";
   "is the husband of"; "is the wife of"; "is the spouse of"].

(** ** Terms of the direct line *)

(** The term for an ancestor [d] generations up: the parent, the
    grandparent, then one [Great-] more for each further generation. *)
Definition termOfAncestor (g : Gender) (d : Z) : string :=
  if (d =? 1)%Z then byGender g "Father" "Mother" "Parent"
  else if (d =? 2)%Z then byGender g "Grandfather" "Grandmother" "Grandparent"
  else (repeat_string "Great-" (Z.to_nat (d - 2)) ++
        byGender g "Grandfather" "Grandmother" "Grandparent")%string.

(** The term for a descendant [d] generations down. *)
Definition termOfDescendant (g : Gender) (d : Z) : string :=
  if (d =? 1)%Z then byGender g "Son" "Daughter" "Child"
  else if (d =? 2)%Z then byGender g "Grandson" "Granddaughter" "Grandchild"
  else (repeat_string "Great-" (Z.to_nat (d - 2)) ++
        byGender g "Grandson" "Granddaughter" "Grandchild")%string.

(** ** The list of all relationships *)

(** An entry [findAllRelationships] adds for a blood relative married to
    person 2: a path that ends in person 2, described as that relative's
    husband or wife. *)
Definition viaMarriage (person2 : Person) (r : Relationship) : Prop :=
  exists d path,
    r = Path (d ++ "'s " ++
              match gender person2 with Male => "Husband" | _ => "Wife" end)%string
             path /\
    lastPerson path = Some person2.

(** Both relationships have a number of steps, and [a] has no more than
    [b]. *)
Definition fewerSteps (a b : Relationship) : Prop :=
  exists x y, getLen a = Some x /\ getLen b = Some y /\ (x <= y)%Z.

(** ** [reportUtils.ts]: descendants and siblings with their relationship *)

(** [getDescendantsWithRelationship]: the loop, with a row
    [(person, relationship, generation)] for each descendant.  The
    relationship is [Store.descendantTerm], the term the store embedding
    computes for the same lines of the source. *)
Fixpoint getDescendantsWithRelationship_loop (fuel : nat) (allPeople : list Person)
    (queue : list (string * Z)) (visited : JsSet)
    (results : list (Person * string * Z))
    : outcome (list (Person * string * Z)) :=
  match queue with
  | [] => Done results
  | (personId, generation) :: queue' =>
      match fuel with
      | O => NoFuel
      | S fuel' =>
          if falsy personId || set_has visited personId then
            getDescendantsWithRelationship_loop fuel' allPeople queue' visited results
          else
            let visited' := set_add personId visited in
            match getPersonById personId allPeople with
            | Some p =>
                relationship <- Store.descendantTerm (gender p) generation ;;
                getDescendantsWithRelationship_loop fuel' allPeople
                  (queue' ++ map (fun childId => (childId, (generation + 1)%Z))
                                 (filter (fun childId => negb (set_has visited' childId))
                                         (orEmpty (childrenIds p))))
                  visited' (results ++ [(p, relationship, generation)])
            | None =>
                getDescendantsWithRelationship_loop fuel' allPeople queue' visited'
                  results
            end
      end
  end.

Definition getDescendantsWithRelationship (fuel : nat) (person : Person)
    (allPeople : list Person) : outcome (list (Person * string * Z)) :=
  match childrenIds person with
  | None => Done []
  | Some cids =>
      getDescendantsWithRelationship_loop fuel allPeople
        (map (fun i => (i, 1%Z)) cids) [] []
  end.

(** [getSiblingsWithRelationship]: the people of the collection, other than
    the person, that list one of the person's non-empty parent ids. *)
Definition getSiblingsWithRelationship (person : Person) (allPeople : list Person)
    : list (Person * string) :=
  match parentIds person with
  | None => []
  | Some pids =>
      if (len pids =? 0)%Z then []
      else
        let parentIdSet :=
          fold_left (fun s i => set_add i s)
                    (filter (fun i => negb (falsy i)) pids) [] in
        if (len parentIdSet =? 0)%Z then []
        else
          map (fun sibling =>
                 (sibling, byGender (gender sibling) "Brother" "Sister" "Sibling"))
              (filter (fun p =>
                         if String.eqb (id p) (id person) then false
                         else
                           match parentIds p with
                           | None => false
                           | Some l => existsb (fun pid => set_has parentIdSet pid) l
                           end)
                      allPeople)
  end.

(** ** Levels of a breadth-first walk *)

Definition mapDone {A B : Type} (f : A -> B) (o : outcome A) : outcome B :=
  match o with
  | Done a => Done (f a)
  | Thrown e => Thrown e
  | NoFuel => NoFuel
  end.

(** The common form of the loops of [getAncestorsHierarchically] and,
    without the relationship column, of [getDescendantsWithRelationship]:
    the first is [level_loop parentsOf], the second maps
    [level_loop childrenOf] to its rows (lemmas
    [getAncestorsHierarchically_loop_level] and
    [getDescendantsWithRelationship_loop_level]). *)
Fixpoint level_loop (edges : Person -> list string) (fuel : nat)
    (allPeople : list Person) (queue : list (string * Z)) (visited : JsSet)
    (results : list (Person * Z)) : outcome (list (Person * Z)) :=
  match queue with
  | [] => Done results
  | (personId, level) :: queue' =>
      match fuel with
      | O => NoFuel
      | S fuel' =>
          if falsy personId || set_has visited personId then
            level_loop edges fuel' allPeople queue' visited results
          else
            let visited' := set_add personId visited in
            match getPersonById personId allPeople with
            | Some p =>
                level_loop edges fuel' allPeople
                  (queue' ++ map (fun x => (x, (level + 1)%Z))
                                 (filter (fun x => negb (set_has visited' x)) (edges p)))
                  visited' (results ++ [(p, level)])
            | None => level_loop edges fuel' allPeople queue' visited' results
            end
      end
  end.

(** The id [x] ends a chain of [n] entries that begins with an id of
    [start] and follows [edges] through non-empty ids naming people of the
    collection. *)
Inductive stepsFrom (edges : Person -> list string) (allPeople : list Person)
    (start : list string) : Z -> string -> Prop :=
| stepsFrom_start (x : string) :
    In x start -> stepsFrom edges allPeople start 1 x
| stepsFrom_step (n : Z) (x : string) (p : Person) (y : string) :
    stepsFrom edges allPeople start n x ->
    x <> "" -> getPersonById x allPeople = Some p -> In y (edges p) ->
    stepsFrom edges allPeople start (n + 1) y.

(** [l] is the length of a shortest such chain to [x]. *)
Definition generationOf (edges : Person -> list string) (allPeople : list Person)
    (start : list string) (x : string) (l : Z) : Prop :=
  stepsFrom edges allPeople start l x /\
  forall m, stepsFrom edges allPeople start m x -> (l <= m)%Z.

(** The invariant of a levelled walk; [lev] pairs each visited id with the
    level at which it was dequeued. *)
Record levelInv (edges : Person -> list string) (allPeople : list Person)
    (start : list string) (queue : list (string * Z)) (visited : JsSet)
    (results : list (Person * Z)) (lev : list (string * Z)) : Prop := mkLevelInv {
  level_visited : map fst lev = visited;
  level_nodup : NoDup visited;
  level_nonempty : forall x n, In (x, n) lev -> x <> "";
  level_queue :
    forall x n, In (x, n) queue -> stepsFrom edges allPeople start n x;
  level_lev :
    forall x n, In (x, n) lev -> stepsFrom edges allPeople start n x;
  level_results :
    forall p n, In (p, n) results ->
      In (id p, n) lev /\ getPersonById (id p) allPeople = Some p;
  level_before :
    forall x n y m, In (x, n) lev -> In (y, m) queue -> (n <= m)%Z;
  level_sorted : StronglySorted Z.le (map snd queue);
  level_window :
    forall x n y m, In (x, n) queue -> In (y, m) queue -> (m <= n + 1)%Z;
  level_start :
    forall x, In x start -> x <> "" ->
      (exists k, In (x, k) lev /\ (k <= 1)%Z) \/ In (x, 1%Z) queue;
  level_closed :
    forall x n p y,
      In (x, n) lev -> getPersonById x allPeople = Some p ->
      In y (edges p) -> y <> "" ->
      (exists k, In (y, k) lev /\ (k <= n + 1)%Z) \/ In (y, (n + 1)%Z) queue;
  level_sorted_results : StronglySorted Z.le (map snd results)
}.

(** The row of [getDescendantsWithRelationship] for a person found at a
    generation. *)
Definition descendantRow (r : Person * Z) : Person * string * Z :=
  (fst r, termOfDescendant (gender (fst r)) (snd r), snd r).

(** Two people share a parent: a non-empty id listed by both. *)
Definition shareParent (a b : Person) : Prop :=
  exists pid, pid <> "" /\ In pid (parentsOf a) /\ In pid (parentsOf b).

(** Every child entry is mirrored: a person listed in the [childrenIds] of
    a person of the collection lists that person in its [parentIds]. *)
Definition parentsListed (allPeople : list Person) : Prop :=
  forall q x p,
    getPersonById (id q) allPeople = Some q -> In x (childrenOf q) ->
    getPersonById x allPeople = Some p -> In (id q) (parentsOf p).

(** ** Shortest chains of parents *)

(** [n] steps along [edges] ([parentsOf] for the [parentIds], [neighborsOf]
    for any entry), through people of the collection, lead from the id
    [start] to the id [x]. *)
Inductive hopsIn (edges : Person -> list string) (allPeople : list Person)
    (start : string) : nat -> string -> Prop :=
| hopsIn_start : hopsIn edges allPeople start 0 start
| hopsIn_step (n : nat) (x : string) (p : Person) (y : string) :
    hopsIn edges allPeople start n x ->
    getPersonById x allPeople = Some p -> In y (edges p) ->
    hopsIn edges allPeople start (S n) y.

(** A chain of parents from the person of [startId] to the person of
    [endId]: a list of people of the collection in which each one is listed
    in the [parentIds] of the one before. *)
Definition parentChain (allPeople : list Person) (startId endId : string)
    (chain : list Person) : Prop :=
  (exists s, hd_error chain = Some s /\ id s = startId) /\
  (exists e, lastPerson chain = Some e /\ id e = endId) /\
  stepsAreParentEdges chain /\ inGraph allPeople chain.

(** In the table [lev] of the ids seen so far with the number of steps at
    which they were seen, every id that [z] leads to is seen at most one
    step after [z]. *)
Definition closedAt (edges : Person -> list string) (allPeople : list Person)
    (lev : list (string * nat)) (z : string) (k : nat) : Prop :=
  forall p y,
    getPersonById z allPeople = Some p -> In y (edges p) ->
    exists k', In (y, k') lev /\ k' <= S k.

(** The invariant of a breadth-first search with paths (the loop of
    [getPathToAncestor], of [findGenericPath]) between two iterations. *)
Record searchLevels (edges : Person -> list string) (allPeople : list Person)
    (startId : string)
    (queue : list (string * list Person)) (visited : JsSet)
    (lev : list (string * nat)) : Prop := mkSearchLevels {
  sl_visited : map fst lev = visited;
  sl_start : In (startId, 0) lev;
  sl_done :
    forall z k, In (z, k) lev ->
      closedAt edges allPeople lev z k \/ getPersonById z allPeople = None \/
      exists path, In (z, path) queue /\ List.length path = S k;
  sl_sorted : StronglySorted le (map (fun e => List.length (snd e)) queue);
  sl_window :
    forall e e', In e queue -> In e' queue ->
      List.length (snd e') <= S (List.length (snd e));
  sl_bound :
    forall z k e, In (z, k) lev -> In e queue -> k <= List.length (snd e)
}.

(** The invariant while the ids that the dequeued id [x], whose path has
    [L] people, leads to are visited. *)
Record searchLevelsAt (edges : Person -> list string) (allPeople : list Person)
    (startId : string) (L : nat)
    (x : string) (queue : list (string * list Person)) (visited : JsSet)
    (lev : list (string * nat)) : Prop := mkSearchLevelsAt {
  sa_visited : map fst lev = visited;
  sa_start : In (startId, 0) lev;
  sa_done :
    forall z k, In (z, k) lev ->
      closedAt edges allPeople lev z k \/ getPersonById z allPeople = None \/
      (z = x /\ S k = L) \/
      exists path, In (z, path) queue /\ List.length path = S k;
  sa_sorted : StronglySorted le (map (fun e => List.length (snd e)) queue);
  sa_range :
    forall e, In e queue -> L <= List.length (snd e) <= S L;
  sa_bound : forall z k, In (z, k) lev -> k <= L
}.

(** The invariant of the second loop of [findLcaAndPaths] with the number
    of steps at which each id was seen; [gq] is the queue with these
    numbers. *)
Record queue2Levels (allPeople : list Person) (person2Id : string) (m : JsMap)
    (gq : list (string * nat)) (queue2 : list string) (visited2 : JsSet)
    (lev : list (string * nat)) : Prop := mkQueue2Levels {
  q2_queue : map fst gq = queue2;
  q2_visited : map fst lev = visited2;
  q2_start : In (person2Id, 0) lev;
  q2_real : forall z k, In (z, k) lev -> hopsIn parentsOf allPeople person2Id k z;
  q2_sub : forall e, In e gq -> In e lev;
  q2_done :
    forall z k, In (z, k) lev ->
      (closedAt parentsOf allPeople lev z k /\ map_get m z = None) \/ In (z, k) gq;
  q2_sorted : StronglySorted le (map snd gq);
  q2_window : forall e e', In e gq -> In e' gq -> snd e' <= S (snd e);
  q2_bound : forall z k e, In (z, k) lev -> In e gq -> k <= S (snd e)
}.

(** [a] has strictly fewer steps than [b]. *)
Definition strictlyFewerSteps (a b : Relationship) : Prop :=
  exists x y, getLen a = Some x /\ getLen b = Some y /\ (x < y)%Z.

(** A chain of entries from the person of [startId] to the person of
    [endId]: a list of people of the collection in which each one is named
    by a [parentIds], [childrenIds] or [marriages] entry of the one
    before. *)
Definition linkChain (allPeople : list Person) (startId endId : string)
    (chain : list Person) : Prop :=
  (exists s, hd_error chain = Some s /\ id s = startId) /\
  (exists e, lastPerson chain = Some e /\ id e = endId) /\
  stepsAreEdges chain /\ inGraph allPeople chain.

(** What holds of a queue entry of the generic path finder: its path ends
    in the person of its id and is as short as any chain to that id. *)
Definition shortestEntry (allPeople : list Person) (startId : string)
    (e : string * list Person) : Prop :=
  lastPerson (snd e) = getPersonById (fst e) allPeople /\
  getPersonById (fst e) allPeople <> None /\
  forall m, hopsIn neighborsOf allPeople startId m (fst e) ->
            List.length (snd e) <= S m.

(** ** Mirrored entries *)

(** Every entry is mirrored: when a person of the collection names an id,
    that id is the id of a person of the collection who names the first one
    back (a child its parent, a parent its child, a spouse its spouse, in
    any of its lists). *)
Definition mirroredLinks (allPeople : list Person) : Prop :=
  forall a b, edge allPeople a b -> edge allPeople b a.

(** Every parent entry is mirrored: a person listed in the [parentIds] of a
    person of the collection lists that person in its [childrenIds]. *)
Definition childrenListed (allPeople : list Person) : Prop :=
  forall q x p,
    getPersonById (id q) allPeople = Some q -> In x (parentsOf q) ->
    getPersonById x allPeople = Some p -> In (id q) (childrenOf p).

(** * Properties *)

(** ** Lookups and sets *)

Lemma getPersonById_id (i : string) (allPeople : list Person) (p : Person) :
  getPersonById i allPeople = Some p -> id p = i.
Proof.
  unfold getPersonById. intros H. apply find_some in H.
  destruct H as [_ H]. now apply String.eqb_eq in H.
Qed.

Lemma getPersonById_In (i : string) (allPeople : list Person) (p : Person) :
  getPersonById i allPeople = Some p -> In p allPeople.
Proof.
  unfold getPersonById. intros H. now apply find_some in H.
Qed.

Lemma includes_In (l : list string) (x : string) :
  includes l x = true <-> In x l.
Proof.
  unfold includes. rewrite existsb_exists. split.
  - intros [y [Hy E]]. apply String.eqb_eq in E. now subst.
  - intros H. exists x. split; [assumption | apply String.eqb_refl].
Qed.

Lemma set_has_In (s : JsSet) (x : string) : set_has s x = true <-> In x s.
Proof. apply includes_In. Qed.

Lemma set_has_false (s : JsSet) (x : string) : set_has s x = false <-> ~ In x s.
Proof.
  rewrite <- set_has_In. destruct (set_has s x); split; congruence.
Qed.

Lemma In_set_add (x y : string) (s : JsSet) :
  In y (set_add x s) <-> y = x \/ In y s.
Proof.
  unfold set_add. destruct (set_has s x) eqn:E.
  - apply set_has_In in E. split; [tauto | intros [-> | H]; assumption].
  - rewrite in_app_iff. simpl. split; intros H; intuition congruence.
Qed.

Lemma set_has_add (x y : string) (s : JsSet) :
  set_has (set_add x s) y = String.eqb y x || set_has s y.
Proof.
  apply eq_true_iff_eq.
  rewrite orb_true_iff, String.eqb_eq, !set_has_In. apply In_set_add.
Qed.

Lemma set_add_length (x : string) (s : JsSet) :
  set_has s x = false -> List.length (set_add x s) = S (List.length s).
Proof.
  intros H. unfold set_add. rewrite H, length_app. simpl. lia.
Qed.

Lemma set_add_NoDup (x : string) (s : JsSet) : NoDup s -> NoDup (set_add x s).
Proof.
  intros H. unfold set_add. destruct (set_has s x) eqn:E; [assumption |].
  apply set_has_false in E. apply NoDup_app; [assumption | repeat constructor; auto | ].
  intros a Ha [<- | []]. contradiction.
Qed.

(** ** Termination of the walks *)

Section Pending.

Variable edges : Person -> list string.

Lemma pending_add_le (allPeople : list Person) (x : string) (visited : JsSet) :
  pending edges allPeople (set_add x visited) <= pending edges allPeople visited.
Proof.
  unfold pending. induction allPeople as [| q rest IH]; simpl; [lia |].
  rewrite set_has_add.
  destruct (String.eqb (id q) x); simpl; [lia |].
  destruct (set_has visited (id q)); lia.
Qed.

Lemma pending_add_found (allPeople : list Person) (x : string) (visited : JsSet)
    (p : Person) :
  getPersonById x allPeople = Some p ->
  set_has visited x = false ->
  pending edges allPeople (set_add x visited) + List.length (edges p)
    <= pending edges allPeople visited.
Proof.
  unfold getPersonById, pending.
  induction allPeople as [| q rest IH]; simpl; [discriminate |].
  intros Hfind Hx. rewrite set_has_add.
  destruct (String.eqb (id q) x) eqn:E.
  - injection Hfind as <-. apply String.eqb_eq in E. rewrite E, Hx. simpl.
    pose proof (pending_add_le rest x visited) as Hle. unfold pending in Hle. lia.
  - simpl. specialize (IH Hfind Hx).
    destruct (set_has visited (id q)); lia.
Qed.

Lemma pending_nil (allPeople : list Person) :
  pending edges allPeople [] = list_sum (map (fun p => List.length (edges p)) allPeople).
Proof. reflexivity. Qed.

End Pending.

Lemma pending_parents_le (allPeople : list Person) (visited : JsSet) :
  pending parentsOf allPeople visited <= graphSize allPeople.
Proof.
  unfold pending, graphSize, neighborsOf, parentsOf.
  induction allPeople as [| q rest IH]; simpl; [lia |].
  rewrite !length_app. destruct (set_has visited (id q)); lia.
Qed.

Lemma pending_children_le (allPeople : list Person) (visited : JsSet) :
  pending childrenOf allPeople visited <= graphSize allPeople.
Proof.
  unfold pending, graphSize, neighborsOf, childrenOf.
  induction allPeople as [| q rest IH]; simpl; [lia |].
  rewrite !length_app. destruct (set_has visited (id q)); lia.
Qed.

Lemma filter_length_le {A : Type} (f : A -> bool) (l : list A) :
  List.length (filter f l) <= List.length l.
Proof.
  induction l as [| a l IH]; simpl; [lia |]. destruct (f a); simpl; lia.
Qed.

Lemma getAncestors_loop_terminates (allPeople : list Person) (fuel : nat) :
  forall queue visited ancestors,
    List.length queue + pending parentsOf allPeople visited <= fuel ->
    exists r, getAncestors_loop fuel allPeople queue visited ancestors = Done r.
Proof.
  induction fuel as [| fuel IH]; intros [| x queue] visited acc Hle;
    simpl in *; try (eexists; reflexivity); try lia.
  destruct (set_has visited x) eqn:Hx; simpl.
  - apply IH. lia.
  - destruct (falsy x); [apply IH; lia |].
    destruct (getPersonById x allPeople) as [p |] eqn:Hp.
    + apply IH. rewrite length_app.
      pose proof (pending_add_found parentsOf _ _ _ _ Hp Hx) as H1.
      pose proof (filter_length_le
        (fun parentId => negb (set_has (set_add x visited) parentId))
        (orEmpty (parentIds p))) as H2.
      unfold parentsOf in H1 at 2. lia.
    + apply IH. pose proof (pending_add_le parentsOf allPeople x visited). lia.
Qed.

Lemma getDescendants_loop_terminates (allPeople : list Person) (fuel : nat) :
  forall queue visited descendants,
    List.length queue + pending childrenOf allPeople visited <= fuel ->
    exists r, getDescendants_loop fuel allPeople queue visited descendants = Done r.
Proof.
  induction fuel as [| fuel IH]; intros [| x queue] visited acc Hle;
    simpl in *; try (eexists; reflexivity); try lia.
  destruct (set_has visited x) eqn:Hx; simpl.
  - apply IH. lia.
  - destruct (falsy x); [apply IH; lia |].
    destruct (getPersonById x allPeople) as [p |] eqn:Hp.
    + apply IH. rewrite length_app.
      pose proof (pending_add_found childrenOf _ _ _ _ Hp Hx) as H1.
      pose proof (filter_length_le
        (fun childId => negb (set_has (set_add x visited) childId))
        (orEmpty (childrenIds p))) as H2.
      unfold childrenOf in H1 at 2. lia.
    + apply IH. pose proof (pending_add_le childrenOf allPeople x visited). lia.
Qed.

Lemma getAncestorsHierarchically_loop_terminates (allPeople : list Person)
    (fuel : nat) :
  forall queue visited results,
    List.length queue + pending parentsOf allPeople visited <= fuel ->
    exists r,
      getAncestorsHierarchically_loop fuel allPeople queue visited results = Done r.
Proof.
  induction fuel as [| fuel IH]; intros [| [x level] queue] visited acc Hle;
    simpl in *; try (eexists; reflexivity); try lia.
  destruct (falsy x); simpl; [apply IH; lia |].
  destruct (set_has visited x) eqn:Hx.
  - apply IH. lia.
  - destruct (getPersonById x allPeople) as [p |] eqn:Hp.
    + apply IH. rewrite length_app, length_map.
      pose proof (pending_add_found parentsOf _ _ _ _ Hp Hx) as H1.
      pose proof (filter_length_le
        (fun parentId => negb (set_has (set_add x visited) parentId))
        (orEmpty (parentIds p))) as H2.
      unfold parentsOf in H1 at 2. lia.
    + apply IH. pose proof (pending_add_le parentsOf allPeople x visited). lia.
Qed.

Lemma p1Ancestors_loop_terminates (allPeople : list Person) (fuel : nat) :
  forall queue1 visited1 p1Ancestors,
    List.length queue1 + pending parentsOf allPeople visited1 <= fuel ->
    exists m, p1Ancestors_loop fuel allPeople queue1 visited1 p1Ancestors = Done m.
Proof.
  induction fuel as [| fuel IH]; intros [| x queue] visited acc Hle;
    simpl in *; try (eexists; reflexivity); try lia.
  destruct (set_has visited x) eqn:Hx.
  - apply IH. lia.
  - destruct (getPersonById x allPeople) as [p |] eqn:Hp.
    + apply IH. rewrite length_app.
      pose proof (pending_add_found parentsOf _ _ _ _ Hp Hx) as H1.
      unfold parentsOf in H1 at 2. lia.
    + apply IH. pose proof (pending_add_le parentsOf allPeople x visited). lia.
Qed.

(** A walk that marks an id when it enqueues it enqueues every id at most
    once: the visited set has no duplicates and stays inside the finite
    universe [U] of the ids the collection mentions. *)

Lemma allParentIds_length (allPeople : list Person) :
  List.length (allParentIds allPeople) <= graphSize allPeople.
Proof.
  unfold allParentIds, graphSize, neighborsOf, parentsOf.
  induction allPeople as [| q rest IH]; simpl; [lia |].
  rewrite !length_app. lia.
Qed.

Lemma allNeighborIds_length (allPeople : list Person) :
  List.length (allNeighborIds allPeople) = graphSize allPeople.
Proof.
  unfold allNeighborIds, graphSize.
  induction allPeople as [| q rest IH]; simpl; [lia |].
  rewrite length_app. lia.
Qed.

Lemma parentsOf_incl (allPeople : list Person) (p : Person) :
  In p allPeople -> incl (parentsOf p) (allParentIds allPeople).
Proof.
  intros Hin x Hx. unfold allParentIds. apply in_flat_map. now exists p.
Qed.

Lemma neighborsOf_incl (allPeople : list Person) (p : Person) :
  In p allPeople -> incl (neighborsOf p) (allNeighborIds allPeople).
Proof.
  intros Hin x Hx. unfold allNeighborIds. apply in_flat_map. now exists p.
Qed.

Lemma incl_set_add (x : string) (s : JsSet) (U : list string) :
  In x U -> incl s U -> incl (set_add x s) U.
Proof.
  intros Hx Hs y Hy. apply In_set_add in Hy. destruct Hy as [-> | Hy]; auto.
Qed.

Section MarkOnEnqueue.

Variable allPeople : list Person.
Variable U : list string.

Lemma getPathToAncestor_parents_measure (endId : string) (path : list Person) :
  forall parents queue visited queue' visited',
    getPathToAncestor_parents allPeople endId path parents queue visited
      = inr (queue', visited') ->
    NoDup visited -> incl visited U -> incl parents U ->
    NoDup visited' /\ incl visited' U /\
    List.length queue' + List.length visited
      <= List.length queue + List.length visited'.
Proof.
  induction parents as [| x rest IH]; simpl; intros queue visited queue' visited' H Hnd Hv Hp.
  - injection H as <- <-. repeat split; auto.
  - assert (Hx : In x U) by (apply Hp; now left).
    assert (Hrest : incl rest U) by (intros y Hy; apply Hp; now right).
    destruct (set_has visited x) eqn:E; [now apply IH |].
    pose proof (set_add_length _ _ E) as Hlen.
    destruct (getPersonById x allPeople) as [pp |].
    + destruct (String.eqb x endId); [discriminate |].
      apply IH in H; auto using set_add_NoDup, incl_set_add.
      destruct H as (H1 & H2 & H3). repeat split; auto.
      rewrite length_app in H3. simpl in H3. lia.
    + apply IH in H; auto using set_add_NoDup, incl_set_add.
      destruct H as (H1 & H2 & H3). repeat split; auto. lia.
Qed.

Hypothesis U_parents : forall p, In p allPeople -> incl (parentsOf p) U.

Lemma getPathToAncestor_loop_terminates (endId : string) (fuel : nat) :
  forall queue visited,
    NoDup visited -> incl visited U ->
    List.length queue + List.length U <= fuel + List.length visited ->
    exists r, getPathToAncestor_loop fuel allPeople endId queue visited = Done r.
Proof.
  induction fuel as [| fuel IH]; intros [| [x path] queue] visited Hnd Hv Hle;
    simpl in *; try (eexists; reflexivity).
  - pose proof (NoDup_incl_length Hnd Hv). lia.
  - destruct (getPersonById x allPeople) as [cp |] eqn:Hcp; [| apply IH; auto; lia].
    destruct (parentIds cp) as [parents |] eqn:Hps; [| apply IH; auto; lia].
    destruct (getPathToAncestor_parents allPeople endId path parents queue visited)
      as [newPath | [queue' visited']] eqn:Hin; [eexists; reflexivity |].
    apply getPathToAncestor_parents_measure in Hin; auto.
    + destruct Hin as (H1 & H2 & H3). apply IH; auto. lia.
    + apply getPersonById_In in Hcp. apply U_parents in Hcp.
      unfold parentsOf in Hcp. now rewrite Hps in Hcp.
Qed.

Lemma queue2_parents_measure :
  forall parents queue visited queue' visited',
    queue2_parents parents queue visited = (queue', visited') ->
    NoDup visited -> incl visited U -> incl parents U ->
    NoDup visited' /\ incl visited' U /\
    List.length queue' + List.length visited
      <= List.length queue + List.length visited'.
Proof.
  induction parents as [| x rest IH]; simpl; intros queue visited queue' visited' H Hnd Hv Hp.
  - injection H as <- <-. repeat split; auto.
  - assert (Hx : In x U) by (apply Hp; now left).
    assert (Hrest : incl rest U) by (intros y Hy; apply Hp; now right).
    destruct (set_has visited x) eqn:E; [now apply IH |].
    pose proof (set_add_length _ _ E) as Hlen.
    apply IH in H; auto using set_add_NoDup, incl_set_add.
    destruct H as (H1 & H2 & H3). repeat split; auto.
    rewrite length_app in H3. simpl in H3. lia.
Qed.

Lemma findGenericPath_neighbors_measure (path : list Person) :
  forall neighbors queue visited queue' visited',
    findGenericPath_neighbors allPeople path neighbors queue visited
      = (queue', visited') ->
    NoDup visited -> incl visited U -> incl neighbors U ->
    NoDup visited' /\ incl visited' U /\
    List.length queue' + List.length visited
      <= List.length queue + List.length visited'.
Proof.
  induction neighbors as [| x rest IH]; simpl; intros queue visited queue' visited' H Hnd Hv Hp.
  - injection H as <- <-. repeat split; auto.
  - assert (Hx : In x U) by (apply Hp; now left).
    assert (Hrest : incl rest U) by (intros y Hy; apply Hp; now right).
    destruct (set_has visited x) eqn:E; [now apply IH |].
    pose proof (set_add_length _ _ E) as Hlen.
    destruct (getPersonById x allPeople) as [pp |].
    + apply IH in H; auto using set_add_NoDup, incl_set_add.
      destruct H as (H1 & H2 & H3). repeat split; auto.
      rewrite length_app in H3. simpl in H3. lia.
    + apply IH in H; auto using set_add_NoDup, incl_set_add.
      destruct H as (H1 & H2 & H3). repeat split; auto. lia.
Qed.

End MarkOnEnqueue.

Lemma getPathToAncestor_terminates (fuel : nat) (allPeople : list Person)
    (startId endId : string) :
  1 + List.length (allParentIds allPeople) <= fuel ->
  exists r, getPathToAncestor fuel allPeople startId endId = Done r.
Proof.
  intros Hfuel. unfold getPathToAncestor.
  destruct (getPersonById startId allPeople) as [sp |]; [| eexists; reflexivity].
  destruct (String.eqb startId endId); [eexists; reflexivity |].
  apply getPathToAncestor_loop_terminates with (U := startId :: allParentIds allPeople).
  - intros p Hp x Hx. right. now apply (parentsOf_incl allPeople p).
  - repeat constructor. intros [].
  - intros x [<- | []]. now left.
  - simpl. lia.
Qed.

Lemma queue2_push_measure (allPeople : list Person) (U : list string)
    (currentId : string) (queue visited : list string) :
  (forall p, In p allPeople -> incl (parentsOf p) U) ->
  NoDup visited -> incl visited U ->
  let next := queue2_push allPeople currentId queue visited in
  NoDup (snd next) /\ incl (snd next) U /\
  List.length (fst next) + List.length visited
    <= List.length queue + List.length (snd next).
Proof.
  intros HU Hnd Hv. unfold queue2_push.
  destruct (getPersonById currentId allPeople) as [p |] eqn:Hp; simpl.
  - destruct (queue2_parents (orEmpty (parentIds p)) queue visited) as [q' v'] eqn:E.
    simpl. eapply queue2_parents_measure; eauto.
    apply HU. eapply getPersonById_In; eauto.
  - repeat split; auto.
Qed.

Lemma queue2_loop_terminates (allPeople : list Person)
    (person1Id person2Id : string) (p1Ancestors : JsMap) (U : list string)
    (fuel : nat) :
  (forall p, In p allPeople -> incl (parentsOf p) U) ->
  forall queue2 visited2,
    NoDup visited2 -> incl visited2 U ->
    List.length queue2 + List.length U + (1 + List.length (allParentIds allPeople))
      <= fuel + List.length visited2 ->
    exists r,
      queue2_loop fuel allPeople person1Id person2Id p1Ancestors queue2 visited2
        = Done r.
Proof.
  intros HU.
  induction fuel as [| fuel IH]; intros [| x queue] visited Hnd Hv Hle;
    try (eexists; reflexivity).
  - pose proof (NoDup_incl_length Hnd Hv). simpl in Hle. lia.
  - pose proof (NoDup_incl_length Hnd Hv) as Hlen. simpl in Hle.
    cbn [queue2_loop].
    pose proof (queue2_push_measure allPeople U x queue visited HU Hnd Hv) as Hm.
    cbv zeta in Hm. destruct Hm as (H1 & H2 & H3).
    assert (Hcont : exists r,
      queue2_loop fuel allPeople person1Id person2Id p1Ancestors
        (fst (queue2_push allPeople x queue visited))
        (snd (queue2_push allPeople x queue visited)) = Done r)
      by (apply IH; auto; lia).
    cbv zeta.
    destruct (map_get p1Ancestors x) as [l |]; [| exact Hcont].
    destruct (getPathToAncestor_terminates (S fuel) allPeople person1Id (id l))
      as [r1 ->]; [lia |].
    destruct (getPathToAncestor_terminates (S fuel) allPeople person2Id (id l))
      as [r2 ->]; [lia |].
    simpl. destruct r1, r2; try exact Hcont. eexists; reflexivity.
Qed.

Lemma findLcaAndPaths_terminates (fuel : nat) (person1Id person2Id : string)
    (allPeople : list Person) :
  enoughFuel allPeople <= fuel ->
  exists r, findLcaAndPaths fuel person1Id person2Id allPeople = Done r.
Proof.
  unfold enoughFuel. intros Hfuel. unfold findLcaAndPaths.
  pose proof (allParentIds_length allPeople) as HN.
  destruct (p1Ancestors_loop_terminates allPeople fuel [person1Id] [] [])
    as [m ->].
  { pose proof (pending_parents_le allPeople []). simpl. lia. }
  simpl.
  apply queue2_loop_terminates with (U := person2Id :: allParentIds allPeople).
  - intros p Hp x Hx. right. now apply (parentsOf_incl allPeople p).
  - repeat constructor. intros [].
  - intros x [<- | []]. now left.
  - simpl. lia.
Qed.

Lemma lastPerson_app (path : list Person) (p : Person) :
  lastPerson (path ++ [p]) = Some p.
Proof.
  unfold lastPerson. rewrite length_app. simpl.
  replace (List.length path + 1 - 1) with (List.length path) by lia.
  rewrite nth_error_app2 by lia. now rewrite Nat.sub_diag.
Qed.

Lemma findGenericPath_neighbors_pathsEndIn (allPeople people : list Person)
    (path : list Person) :
  incl allPeople people ->
  forall neighbors queue visited,
    pathsEndIn people queue ->
    pathsEndIn people
      (fst (findGenericPath_neighbors allPeople path neighbors queue visited)).
Proof.
  intros Hincl. induction neighbors as [| x rest IH]; simpl; intros queue visited Hq; auto.
  destruct (set_has visited x); auto.
  destruct (getPersonById x allPeople) as [np |] eqn:Hnp; auto.
  apply IH. apply Forall_app. split; auto.
  constructor; [| constructor]. exists np. simpl. split.
  - apply lastPerson_app.
  - apply Hincl. eapply getPersonById_In; eauto.
Qed.

Lemma findGenericPath_loop_terminates (person1 person2 : Person)
    (allPeople : list Person) (U : list string) (fuel : nat) :
  (forall p, In p (person1 :: allPeople) -> incl (neighborsOf p) U) ->
  forall queue visited,
    pathsEndIn (person1 :: allPeople) queue ->
    NoDup visited -> incl visited U ->
    List.length queue + List.length U <= fuel + List.length visited ->
    exists r, findGenericPath_loop fuel person2 allPeople queue visited = Done r.
Proof.
  intros HU.
  induction fuel as [| fuel IH]; intros [| [x path] queue] visited Hq Hnd Hv Hle;
    simpl in *; try (eexists; reflexivity).
  - pose proof (NoDup_incl_length Hnd Hv). lia.
  - destruct (String.eqb x (id person2)); [eexists; reflexivity |].
    inversion Hq as [| e q' [cp [Hcp Hin]] Hq']; subst. simpl in Hcp. rewrite Hcp.
    pose proof (findGenericPath_neighbors_pathsEndIn allPeople (person1 :: allPeople)
                  path (incl_tl _ (incl_refl _)) (neighborsOf cp) queue visited Hq')
      as Hq''.
    destruct (findGenericPath_neighbors allPeople path (neighborsOf cp) queue visited)
      as [queue' visited'] eqn:E.
    apply findGenericPath_neighbors_measure with (U := U) in E; auto.
    destruct E as (H1 & H2 & H3). apply IH; auto. lia.
Qed.

Lemma neighborsOf_length_le (allPeople : list Person) (p : Person) :
  In p allPeople -> List.length (neighborsOf p) <= graphSize allPeople.
Proof.
  unfold graphSize. induction allPeople as [| q rest IH]; simpl; [tauto |].
  intros [-> | H]; [lia | specialize (IH H); lia].
Qed.

Lemma findGenericPath_terminates (fuel : nat) (person1 person2 : Person)
    (allPeople : list Person) :
  1 + List.length (neighborsOf person1) + graphSize allPeople <= fuel ->
  exists r, findGenericPath fuel person1 person2 allPeople = Done r.
Proof.
  intros Hfuel. unfold findGenericPath.
  apply findGenericPath_loop_terminates
    with (person1 := person1)
         (U := id person1 :: neighborsOf person1 ++ allNeighborIds allPeople).
  - intros p [<- | Hp] x Hx; right; apply in_or_app; [now left | right].
    now apply (neighborsOf_incl allPeople p).
  - constructor; [| constructor]. exists person1. split; [reflexivity | now left].
  - repeat constructor. intros [].
  - intros x [<- | []]. now left.
  - simpl. rewrite length_app, allNeighborIds_length. lia.
Qed.

Lemma getAncestors_terminates (fuel : nat) (person : Person)
    (allPeople : list Person) :
  List.length (parentsOf person) + graphSize allPeople <= fuel ->
  exists r, getAncestors fuel person allPeople = Done r.
Proof.
  intros Hfuel. apply getAncestors_loop_terminates.
  pose proof (pending_parents_le allPeople []). unfold parentsOf in Hfuel. lia.
Qed.

Lemma getDescendants_terminates (fuel : nat) (person : Person)
    (allPeople : list Person) :
  List.length (childrenOf person) + graphSize allPeople <= fuel ->
  exists r, getDescendants fuel person allPeople = Done r.
Proof.
  intros Hfuel. apply getDescendants_loop_terminates.
  pose proof (pending_children_le allPeople []). unfold childrenOf in Hfuel. lia.
Qed.

Lemma getAncestorsHierarchically_terminates (fuel : nat) (person : Person)
    (allPeople : list Person) :
  List.length (parentsOf person) + graphSize allPeople <= fuel ->
  exists r, getAncestorsHierarchically fuel person allPeople = Done r.
Proof.
  intros Hfuel. unfold getAncestorsHierarchically.
  unfold parentsOf in Hfuel.
  destruct (parentIds person) as [pids |]; [| eexists; reflexivity].
  apply getAncestorsHierarchically_loop_terminates.
  pose proof (pending_parents_le allPeople []). rewrite length_map.
  simpl in Hfuel. lia.
Qed.

(** ** Relation through people of the collection *)

Lemma marriedTo_neighbor (pa : Person) (b : string) :
  marriedTo pa b = true -> In b (neighborsOf pa).
Proof.
  intros Hb. unfold marriedTo in Hb. apply existsb_exists in Hb.
  destruct Hb as [m [Hm E]]. apply String.eqb_eq in E. subst b.
  unfold neighborsOf. apply in_or_app. right. apply in_or_app. right.
  now apply in_map.
Qed.

Lemma related_refl (allPeople : list Person) (a : string) :
  related allPeople a a.
Proof. apply rst_refl. Qed.

Lemma related_sym (allPeople : list Person) (a b : string) :
  related allPeople a b -> related allPeople b a.
Proof. apply rst_sym. Qed.

Lemma related_trans (allPeople : list Person) (a b c : string) :
  related allPeople a b -> related allPeople b c -> related allPeople a c.
Proof. apply rst_trans. Qed.

Lemma related_link (allPeople : list Person) (a b c : string) :
  related allPeople a b -> link allPeople b c -> related allPeople a c.
Proof.
  intros H E. eapply rst_trans; [exact H | now apply rst_step].
Qed.

Lemma link_edge (allPeople : list Person) (a b : string) :
  link allPeople a b -> edge allPeople a b.
Proof. intros (pa & pb & Ha & Hb & _). now exists pa. Qed.

(** People that are related are connected: a link is an edge. *)
Lemma related_connected (allPeople : list Person) (a b : string) :
  related allPeople a b -> connected allPeople a b.
Proof.
  intros H. induction H as [a b H | a | a b H IH | a b c H1 IH1 H2 IH2].
  - apply rst_step. now apply link_edge.
  - apply rst_refl.
  - now apply rst_sym.
  - now apply rst_trans with b.
Qed.

Lemma parent_link (allPeople : list Person) (a b : string) (pa pb : Person) :
  getPersonById a allPeople = Some pa -> In b (parentsOf pa) ->
  getPersonById b allPeople = Some pb ->
  link allPeople a b.
Proof.
  intros Ha Hb Hpb. exists pa, pb. split; [assumption |]. split; [| assumption].
  unfold neighborsOf. apply in_or_app. now left.
Qed.

Lemma marriage_link (allPeople : list Person) (a b : string) (pa pb : Person) :
  getPersonById a allPeople = Some pa -> marriedTo pa b = true ->
  getPersonById b allPeople = Some pb ->
  link allPeople a b.
Proof.
  intros Ha Hb Hpb. exists pa, pb. split; [assumption |].
  split; [now apply marriedTo_neighbor | assumption].
Qed.

(** ** The reconstructed paths are chains of parent edges *)

Lemma stepsAreParentEdges_single (p : Person) : stepsAreParentEdges [p].
Proof.
  intros i a b Ha Hb. destruct i as [| i]; simpl in Hb; [discriminate |].
  destruct i; discriminate.
Qed.

Lemma stepsAreParentEdges_app (path : list Person) (cur x : Person) :
  stepsAreParentEdges path -> lastPerson path = Some cur ->
  In (id x) (parentsOf cur) -> stepsAreParentEdges (path ++ [x]).
Proof.
  intros Hsteps Hlast Hx i a b Ha Hb.
  assert (Hi : S i < List.length (path ++ [x])).
  { apply nth_error_Some. congruence. }
  rewrite length_app in Hi. simpl in Hi.
  destruct (Nat.eq_dec (S i) (List.length path)) as [E | NE].
  - rewrite nth_error_app1 in Ha by lia.
    rewrite nth_error_app2 in Hb by lia.
    rewrite E, Nat.sub_diag in Hb. simpl in Hb. injection Hb as <-.
    unfold lastPerson in Hlast. rewrite <- E in Hlast. simpl in Hlast.
    rewrite Nat.sub_0_r in Hlast. congruence.
  - rewrite nth_error_app1 in Ha, Hb by lia. eauto.
Qed.

Lemma hd_error_app {A : Type} (l : list A) (x y : A) :
  hd_error l = Some x -> hd_error (l ++ [y]) = Some x.
Proof. destruct l; simpl; congruence. Qed.

Lemma inGraph_app (allPeople : list Person) (path : list Person) (x : Person) :
  inGraph allPeople path -> getPersonById (id x) allPeople = Some x ->
  inGraph allPeople (path ++ [x]).
Proof.
  intros H Hx. apply Forall_app. split; [assumption | now constructor].
Qed.

Lemma pathTo_extend (allPeople : list Person) (start cur x : Person)
    (personId parentId : string) (path : list Person) :
  pathTo allPeople start personId path ->
  getPersonById personId allPeople = Some cur ->
  In parentId (parentsOf cur) ->
  getPersonById parentId allPeople = Some x ->
  pathTo allPeople start parentId (path ++ [x]).
Proof.
  intros [H1 H2 H3 H4 H5 H6] Hcur Hin Hx.
  pose proof (getPersonById_id _ _ _ Hx) as Hid.
  constructor; [| | | | | eapply related_link, parent_link; eassumption].
  - now apply hd_error_app.
  - rewrite lastPerson_app. now symmetry.
  - congruence.
  - apply stepsAreParentEdges_app with (cur := cur);
      [assumption | congruence | now rewrite Hid].
  - apply inGraph_app; [assumption | now rewrite Hid].
Qed.

Section PathToAncestor.

Variable allPeople : list Person.
Variable start : Person.
Variable endId : string.

Lemma getPathToAncestor_parents_sound (personId : string) (cur : Person)
    (path : list Person) :
  pathTo allPeople start personId path ->
  getPersonById personId allPeople = Some cur ->
  forall parents queue visited,
    incl parents (parentsOf cur) ->
    queueOk allPeople start queue ->
    match getPathToAncestor_parents allPeople endId path parents queue visited with
    | inl newPath => pathTo allPeople start endId newPath /\ 2 <= List.length newPath
    | inr (queue', _) => queueOk allPeople start queue'
    end.
Proof.
  intros Hpath Hcur.
  induction parents as [| x rest IH]; simpl; intros queue visited Hincl Hq; auto.
  assert (Hx : In x (parentsOf cur)) by (apply Hincl; now left).
  assert (Hrest : incl rest (parentsOf cur)) by (intros y Hy; apply Hincl; now right).
  destruct (set_has visited x); [now apply IH |].
  destruct (getPersonById x allPeople) as [pp |] eqn:Hpp; [| now apply IH].
  pose proof (pathTo_extend _ _ _ _ _ _ _ Hpath Hcur Hx Hpp) as Hnew.
  destruct (String.eqb x endId) eqn:E.
  - apply String.eqb_eq in E. subst x. split; [assumption |].
    rewrite length_app. simpl.
    destruct Hpath as [H1 _ _ _ _ _]. destruct path; simpl in *; [discriminate | lia].
  - apply IH; auto. apply Forall_app. split; auto.
Qed.

Lemma getPathToAncestor_loop_sound (fuel : nat) :
  forall queue visited path,
    queueOk allPeople start queue ->
    getPathToAncestor_loop fuel allPeople endId queue visited = Done (Some path) ->
    pathTo allPeople start endId path /\ 2 <= List.length path.
Proof.
  induction fuel as [| fuel IH]; intros [| [x p] queue] visited path Hq H;
    simpl in H; try discriminate.
  inversion Hq as [| e q' Hp Hq']; subst. simpl in Hp.
  destruct (getPersonById x allPeople) as [cp |] eqn:Hcp; [| eauto].
  destruct (parentIds cp) as [parents |] eqn:Hps; [| eauto].
  pose proof (getPathToAncestor_parents_sound x cp p Hp Hcp parents queue visited)
    as Hs.
  destruct (getPathToAncestor_parents allPeople endId p parents queue visited)
    as [newPath | [queue' visited']].
  - injection H as <-. apply Hs; auto.
    unfold parentsOf. rewrite Hps. apply incl_refl.
  - eapply IH; [| exact H]. apply Hs; auto.
    unfold parentsOf. rewrite Hps. apply incl_refl.
Qed.

End PathToAncestor.

Lemma getPathToAncestor_sound (fuel : nat) (allPeople : list Person)
    (startId endId : string) (path : list Person) :
  getPathToAncestor fuel allPeople startId endId = Done (Some path) ->
  exists start,
    getPersonById startId allPeople = Some start /\
    pathTo allPeople start endId path /\
    (startId = endId -> path = [start]) /\
    (startId <> endId -> 2 <= List.length path).
Proof.
  unfold getPathToAncestor.
  destruct (getPersonById startId allPeople) as [sp |] eqn:Hsp; [| discriminate].
  assert (Hbase : pathTo allPeople sp startId [sp]).
  { constructor.
    - reflexivity.
    - now rewrite Hsp.
    - congruence.
    - apply stepsAreParentEdges_single.
    - constructor; [| constructor].
      now rewrite (getPersonById_id _ _ _ Hsp).
    - rewrite (getPersonById_id _ _ _ Hsp). apply related_refl. }
  destruct (String.eqb startId endId) eqn:E.
  - apply String.eqb_eq in E. subst endId. intros H. injection H as <-.
    exists sp. split; [reflexivity |]. split; [assumption |].
    split; [reflexivity | congruence].
  - apply String.eqb_neq in E. intros H.
    apply getPathToAncestor_loop_sound with (start := sp) in H.
    + destruct H as [H1 H2]. exists sp.
      split; [reflexivity |]. split; [assumption |]. split; [congruence | auto].
    + constructor; [exact Hbase | constructor].
Qed.

(** ** What [findLcaAndPaths] returns *)

Lemma map_get_set (m : JsMap) (k k' : string) (v : Person) :
  map_get (map_set k v m) k' = if String.eqb k k' then Some v else map_get m k'.
Proof.
  induction m as [| [k0 v0] m IH]; simpl.
  - reflexivity.
  - destruct (String.eqb k0 k) eqn:E; simpl.
    + apply String.eqb_eq in E. subst k0. now destruct (String.eqb k k').
    + rewrite IH. destruct (String.eqb k0 k') eqn:E'; [| reflexivity].
      apply String.eqb_eq in E'. subst k0. now rewrite String.eqb_sym, E.
Qed.

Lemma p1Ancestors_loop_mapOk (allPeople : list Person) (fuel : nat) :
  forall queue1 visited1 m m',
    mapOk allPeople m ->
    p1Ancestors_loop fuel allPeople queue1 visited1 m = Done m' ->
    mapOk allPeople m'.
Proof.
  induction fuel as [| fuel IH]; intros [| x queue] visited m m' Hm H;
    simpl in H; try discriminate; try (injection H as <-; assumption).
  destruct (set_has visited x); [eauto |].
  destruct (getPersonById x allPeople) as [p |] eqn:Hp; [| eauto].
  eapply IH; [| exact H].
  intros k v. rewrite map_get_set.
  destruct (String.eqb x k) eqn:E; [| apply Hm].
  apply String.eqb_eq in E. subst k. congruence.
Qed.

Lemma queue2_loop_sound (allPeople : list Person) (person1Id person2Id : string)
    (m : JsMap) (fuel : nat) :
  mapOk allPeople m ->
  forall queue2 visited2 r,
    queue2_loop fuel allPeople person1Id person2Id m queue2 visited2
      = Done (Some r) ->
    lcaSound allPeople person1Id person2Id r.
Proof.
  intros Hm.
  induction fuel as [| fuel IH]; intros [| x queue] visited r H;
    try discriminate.
  cbn [queue2_loop] in H. cbv zeta in H.
  destruct (map_get m x) as [l |] eqn:Hl; [| eauto].
  destruct (getPathToAncestor (S fuel) allPeople person1Id (id l))
    as [[p1 |] | |] eqn:H1; simpl in H; try discriminate;
  destruct (getPathToAncestor (S fuel) allPeople person2Id (id l))
    as [[p2 |] | |] eqn:H2; simpl in H; try discriminate; eauto.
  injection H as <-.
  apply Hm in Hl. pose proof (getPersonById_id _ _ _ Hl) as Hid.
  constructor; simpl.
  - now rewrite Hid.
  - now apply getPathToAncestor_sound in H1.
  - now apply getPathToAncestor_sound in H2.
Qed.

Lemma findLcaAndPaths_sound (fuel : nat) (person1Id person2Id : string)
    (allPeople : list Person) (r : LcaResult) :
  findLcaAndPaths fuel person1Id person2Id allPeople = Done (Some r) ->
  lcaSound allPeople person1Id person2Id r.
Proof.
  unfold findLcaAndPaths. intros H.
  destruct (p1Ancestors_loop fuel allPeople [person1Id] [] []) as [m | |] eqn:Hm;
    simpl in H; try discriminate.
  eapply queue2_loop_sound; [| exact H].
  eapply p1Ancestors_loop_mapOk; [| exact Hm].
  intros k v Hk. discriminate.
Qed.

Lemma lcaSound_related (allPeople : list Person) (person1Id person2Id : string)
    (r : LcaResult) :
  lcaSound allPeople person1Id person2Id r ->
  related allPeople person1Id (id (lca r)) /\
  related allPeople person2Id (id (lca r)).
Proof.
  intros [_ (p1 & Hp1 & Hpath1 & _) (p2 & Hp2 & Hpath2 & _)].
  apply pathTo_related in Hpath1, Hpath2.
  rewrite (getPersonById_id _ _ _ Hp1) in Hpath1.
  rewrite (getPersonById_id _ _ _ Hp2) in Hpath2.
  now split.
Qed.

Lemma findLcaAndPaths_related (fuel : nat) (person1Id person2Id : string)
    (allPeople : list Person) (r : LcaResult) :
  findLcaAndPaths fuel person1Id person2Id allPeople = Done (Some r) ->
  related allPeople person1Id person2Id.
Proof.
  intros H. apply findLcaAndPaths_sound, lcaSound_related in H.
  destruct H as [H1 H2].
  eapply related_trans; [exact H1 | now apply related_sym].
Qed.

(** ** What the generic path finder returns *)

Section GenericPath.

Variable allPeople : list Person.
Variable person1 : Person.

Lemma findGenericPath_neighbors_entryOk (personId : string) (cp : Person)
    (path : list Person) :
  related allPeople (id person1) personId ->
  getPersonById personId allPeople = Some cp ->
  forall neighbors queue visited,
    incl neighbors (neighborsOf cp) ->
    Forall (entryOk allPeople person1) queue ->
    Forall (entryOk allPeople person1)
      (fst (findGenericPath_neighbors allPeople path neighbors queue visited)).
Proof.
  intros Hconn Hcp.
  induction neighbors as [| x rest IH]; simpl; intros queue visited Hincl Hq; auto.
  assert (Hx : In x (neighborsOf cp)) by (apply Hincl; now left).
  assert (Hrest : incl rest (neighborsOf cp)) by (intros y Hy; apply Hincl; now right).
  destruct (set_has visited x); [now apply IH |].
  destruct (getPersonById x allPeople) as [np |] eqn:Hnp; [| now apply IH].
  apply IH; auto. apply Forall_app. split; auto.
  constructor; [| constructor]. split; simpl.
  - eapply related_link; [exact Hconn |]. now exists cp, np.
  - exists np. split; [apply lastPerson_app | assumption].
Qed.

Lemma findGenericPath_loop_sound (person2 : Person) (fuel : nat) :
  forall queue visited rel,
    Forall (entryOk allPeople person1) queue ->
    findGenericPath_loop fuel person2 allPeople queue visited = Done (Some rel) ->
    related allPeople (id person1) (id person2).
Proof.
  induction fuel as [| fuel IH]; intros [| [x path] queue] visited rel Hq H;
    simpl in H; try discriminate.
  inversion Hq as [| e q' [Hconn (cp & Hlast & Hcp)] Hq']; subst. simpl in *.
  destruct (String.eqb x (id person2)) eqn:E.
  - apply String.eqb_eq in E. now subst x.
  - rewrite Hlast in H.
    pose proof (findGenericPath_neighbors_entryOk x cp path Hconn Hcp
                  (neighborsOf cp) queue visited (incl_refl _) Hq') as Hq''.
    destruct (findGenericPath_neighbors allPeople path (neighborsOf cp) queue visited)
      as [queue' visited'].
    eapply IH; [exact Hq'' | exact H].
Qed.

End GenericPath.

Lemma findGenericPath_sound (fuel : nat) (person1 person2 : Person)
    (allPeople : list Person) (rel : Relationship) :
  getPersonById (id person1) allPeople = Some person1 ->
  findGenericPath fuel person1 person2 allPeople = Done (Some rel) ->
  related allPeople (id person1) (id person2).
Proof.
  intros H1 H. unfold findGenericPath in H.
  eapply findGenericPath_loop_sound with (person1 := person1); [| exact H].
  constructor; [| constructor]. split; simpl.
  - apply related_refl.
  - exists person1. now split.
Qed.

(** The generic path finder only ever returns a [Path]. *)
Lemma findGenericPath_loop_Path (person2 : Person) (allPeople : list Person)
    (fuel : nat) :
  forall queue visited rel,
    findGenericPath_loop fuel person2 allPeople queue visited = Done (Some rel) ->
    exists path, rel = Path (generatePathDescription path) path.
Proof.
  induction fuel as [| fuel IH]; intros [| [x path] queue] visited rel H;
    simpl in H; try discriminate.
  destruct (String.eqb x (id person2)).
  - injection H as <-. now exists path.
  - destruct (lastPerson path); [| discriminate].
    destruct (findGenericPath_neighbors allPeople path (neighborsOf p) queue visited).
    eauto.
Qed.

(** ** What the aggregator returns *)

Lemma findRelationship_inLaw_related (fuel : nat) (person1Id : string)
    (person1 person2 : Person) (allPeople : list Person) (person2Id : string) :
  getPersonById person2Id allPeople = Some person2 ->
  forall ms rel,
    incl ms (orEmpty (marriages person2)) ->
    findRelationship_inLaw fuel person1Id person1 person2 allPeople ms
      = Done (Some rel) ->
    related allPeople person1Id person2Id.
Proof.
  intros Hp2. induction ms as [| m rest IH]; simpl; intros rel Hincl H;
    [discriminate |].
  assert (Hrest : incl rest (orEmpty (marriages person2)))
    by (intros y Hy; apply Hincl; now right).
  destruct (getPersonById (spouseId m) allPeople) as [sp |] eqn:Hsp; [| eauto].
  destruct (findLcaAndPaths fuel person1Id (id sp) allPeople) as [[r |] | |] eqn:Hl;
    simpl in H; try discriminate; eauto.
  destruct (String.eqb (id (lca r)) person1Id); [| eauto].
  destruct (negb (falsy (inLawDescription (gender person2) (len (path2 r) - 1))));
    [| eauto].
  apply findLcaAndPaths_related in Hl.
  rewrite (getPersonById_id _ _ _ Hsp) in Hl.
  eapply related_trans; [exact Hl |]. apply related_sym, rst_step.
  exists person2, sp. split; [assumption |]. split; [| assumption].
  unfold neighborsOf. apply in_or_app. right. apply in_or_app. right.
  apply in_map. apply Hincl. now left.
Qed.

(** Every answer of [findRelationship] other than "none" comes with a chain
    of links between the two people. *)
Lemma findRelationship_related (fuel : nat) (person1Id person2Id : string)
    (allPeople : list Person) (rel : Relationship) :
  findRelationship fuel person1Id person2Id allPeople = Done (Some rel) ->
  isNone rel = false ->
  related allPeople person1Id person2Id.
Proof.
  unfold findRelationship. intros H Hrel.
  destruct (falsy person1Id || falsy person2Id || String.eqb person1Id person2Id);
    [discriminate |].
  destruct (getPersonById person1Id allPeople) as [p1 |] eqn:Hp1; [| discriminate].
  destruct (getPersonById person2Id allPeople) as [p2 |] eqn:Hp2; [| discriminate].
  destruct (marriedTo p1 person2Id) eqn:Hm.
  { apply rst_step. eapply marriage_link; eauto. }
  destruct (findLcaAndPaths fuel person1Id person2Id allPeople) as [[r |] | |] eqn:Hl;
    simpl in H; try discriminate.
  { eapply findLcaAndPaths_related; eauto. }
  destruct (findRelationship_inLaw fuel person1Id p1 p2 allPeople
              (orEmpty (marriages p2))) as [[r |] | |] eqn:Hi;
    simpl in H; try discriminate.
  { eapply findRelationship_inLaw_related; eauto. apply incl_refl. }
  destruct (findGenericPath fuel p1 p2 allPeople) as [[r |] | |] eqn:Hg;
    simpl in H; try discriminate.
  - apply findGenericPath_sound in Hg.
    + now rewrite (getPersonById_id _ _ _ Hp1), (getPersonById_id _ _ _ Hp2) in Hg.
    + now rewrite (getPersonById_id _ _ _ Hp1).
  - injection H as <-. discriminate.
Qed.

Lemma describeBloodRelationship_total (person1 person2 l : Person)
    (path1 path2 : list Person) :
  path1 <> [] -> path2 <> [] ->
  exists s, describeBloodRelationship person1 person2 l path1 path2 = Done s.
Proof.
  intros H1 H2.
  assert (L1 : (1 <= len path1)%Z) by (destruct path1; [congruence | unfold len; simpl; lia]).
  assert (L2 : (1 <= len path2)%Z) by (destruct path2; [congruence | unfold len; simpl; lia]).
  unfold describeBloodRelationship, js_repeat.
  destruct (String.eqb (id l) (id person1)).
  - destruct (Z.eqb_spec (len path2 - 1) 0); [eauto |].
    destruct (Z.eqb_spec (len path2 - 1) 1); [eauto |].
    destruct (Z.eqb_spec (len path2 - 1) 2); [eauto |].
    destruct (Z.ltb_spec (len path2 - 1 - 2) 0); [lia | simpl; eauto].
  - destruct (String.eqb (id l) (id person2)).
    + destruct (Z.eqb_spec (len path1 - 1) 0); [eauto |].
      destruct (Z.eqb_spec (len path1 - 1) 1); [eauto |].
      destruct (Z.eqb_spec (len path1 - 1) 2); [eauto |].
      destruct (Z.ltb_spec (len path1 - 1 - 2) 0); [lia | simpl; eauto].
    + destruct ((len path1 - 1 =? 1)%Z && (len path2 - 1 =? 1)%Z); [eauto |].
      destruct (Z.min (len path1 - 1) (len path2 - 1) - 1 =? 0)%Z; [| eauto].
      destruct (len path1 - 1 <? len path2 - 1)%Z; eauto.
Qed.

Lemma pathTo_nonempty (allPeople : list Person) (start : Person)
    (personId : string) (path : list Person) :
  pathTo allPeople start personId path -> path <> [].
Proof.
  intros [H _ _ _ _ _] ->. discriminate.
Qed.

Lemma enoughFuel_graphSize (allPeople : list Person) (fuel : nat) :
  enoughFuel allPeople <= fuel -> 2 * graphSize allPeople + 3 <= fuel.
Proof. unfold enoughFuel. lia. Qed.

Lemma findRelationship_inLaw_terminates (fuel : nat) (person1Id : string)
    (person1 person2 : Person) (allPeople : list Person) :
  enoughFuel allPeople <= fuel ->
  forall ms,
    exists r,
      findRelationship_inLaw fuel person1Id person1 person2 allPeople ms = Done r.
Proof.
  intros Hfuel. induction ms as [| m rest IH]; simpl; [eexists; reflexivity |].
  destruct (getPersonById (spouseId m) allPeople) as [sp |]; [| exact IH].
  destruct (findLcaAndPaths_terminates fuel person1Id (id sp) allPeople Hfuel)
    as [r ->]. simpl.
  destruct r as [r |]; [| exact IH].
  destruct (String.eqb (id (lca r)) person1Id); [| exact IH].
  destruct (negb (falsy (inLawDescription (gender person2) (len (path2 r) - 1))));
    [eexists; reflexivity | exact IH].
Qed.

Lemma findRelationship_terminates (fuel : nat) (person1Id person2Id : string)
    (allPeople : list Person) :
  enoughFuel allPeople <= fuel ->
  exists r, findRelationship fuel person1Id person2Id allPeople = Done r.
Proof.
  intros Hfuel. unfold findRelationship.
  destruct (falsy person1Id || falsy person2Id || String.eqb person1Id person2Id);
    [eexists; reflexivity |].
  destruct (getPersonById person1Id allPeople) as [p1 |] eqn:Hp1;
    [| eexists; reflexivity].
  destruct (getPersonById person2Id allPeople) as [p2 |] eqn:Hp2;
    [| eexists; reflexivity].
  destruct (marriedTo p1 person2Id); [eexists; reflexivity |].
  destruct (findLcaAndPaths_terminates fuel person1Id person2Id allPeople Hfuel)
    as [r Hr]. rewrite Hr. simpl.
  destruct r as [r |].
  - apply findLcaAndPaths_sound in Hr.
    destruct Hr as [_ (q1 & _ & Hpath1 & _) (q2 & _ & Hpath2 & _)].
    apply pathTo_nonempty in Hpath1, Hpath2.
    destruct (describeBloodRelationship_total p1 p2 (lca r) _ _ Hpath1 Hpath2)
      as [s ->].
    simpl. eexists; reflexivity.
  - destruct (findRelationship_inLaw_terminates fuel person1Id p1 p2 allPeople Hfuel
                (orEmpty (marriages p2))) as [ri ->]. simpl.
    destruct ri as [ri |]; [eexists; reflexivity |].
    destruct (findGenericPath_terminates fuel p1 p2 allPeople) as [rg ->].
    + apply getPersonById_In in Hp1.
      pose proof (neighborsOf_length_le allPeople p1 Hp1).
      apply enoughFuel_graphSize in Hfuel. lia.
    + simpl. destruct rg; eexists; reflexivity.
Qed.

Lemma getAncestors_loop_incl (allPeople : list Person) (fuel : nat) :
  forall queue visited ancestors r,
    incl ancestors allPeople ->
    getAncestors_loop fuel allPeople queue visited ancestors = Done r ->
    incl r allPeople.
Proof.
  induction fuel as [| fuel IH]; intros [| x queue] visited acc r Hacc H;
    simpl in H; try discriminate; try (injection H as <-; assumption).
  destruct (set_has visited x || falsy x); [eauto |].
  destruct (getPersonById x allPeople) as [p |] eqn:Hp; [| eauto].
  eapply IH; [| exact H]. apply incl_app; [assumption |].
  intros y [<- | []]. eapply getPersonById_In; eauto.
Qed.

Lemma getAllBloodRelativesIds_loop_terminates (fuel : nat)
    (allPeople : list Person) :
  forall allProgenitors bloodRelatives,
    (forall p, In p allProgenitors ->
               List.length (childrenOf p) + graphSize allPeople <= fuel) ->
    exists r,
      getAllBloodRelativesIds_loop fuel allPeople allProgenitors bloodRelatives
        = Done r.
Proof.
  induction allProgenitors as [| p rest IH]; simpl; intros s Hfuel;
    [eexists; reflexivity |].
  destruct (getDescendants_terminates fuel p allPeople) as [d ->]; [auto |].
  simpl. apply IH. auto.
Qed.

Lemma childrenOf_length_le (p : Person) :
  List.length (childrenOf p) <= List.length (neighborsOf p).
Proof. unfold childrenOf, neighborsOf. rewrite !length_app. lia. Qed.

Lemma parentsOf_length_le (p : Person) :
  List.length (parentsOf p) <= List.length (neighborsOf p).
Proof. unfold parentsOf, neighborsOf. rewrite !length_app. lia. Qed.

Lemma getAllBloodRelativesIds_terminates (fuel : nat) (focalPerson : Person)
    (allPeople : list Person) :
  List.length (neighborsOf focalPerson) + graphSize allPeople <= fuel ->
  2 * graphSize allPeople <= fuel ->
  exists r, getAllBloodRelativesIds fuel focalPerson allPeople = Done r.
Proof.
  intros Hfuel Hfuel2. unfold getAllBloodRelativesIds.
  pose proof (parentsOf_length_le focalPerson) as Hp.
  pose proof (childrenOf_length_le focalPerson) as Hc.
  destruct (getAncestors_terminates fuel focalPerson allPeople) as [a Ha]; [lia |].
  rewrite Ha. cbn [bind]. apply getAllBloodRelativesIds_loop_terminates.
  intros p [<- | Hin]; [lia |].
  apply getAncestors_loop_incl in Ha; [| intros y []].
  pose proof (neighborsOf_length_le allPeople p (Ha p Hin)).
  pose proof (childrenOf_length_le p). lia.
Qed.

Lemma findAllRelationships_loop_terminates (fuel : nat)
    (person1Id person2Id : string) (person2 : Person) (allPeople : list Person) :
  enoughFuel allPeople <= fuel ->
  forall relatives relationships,
    exists r,
      findAllRelationships_loop fuel person1Id person2Id person2 allPeople
        relatives relationships = Done r.
Proof.
  intros Hfuel. induction relatives as [| x rest IH]; simpl; intros rels;
    [eexists; reflexivity |].
  destruct (getPersonById x allPeople) as [br |]; [| apply IH].
  destruct (negb (String.eqb (id br) person1Id) && marriedTo br person2Id);
    [| apply IH].
  destruct (findRelationship_terminates fuel person1Id (id br) allPeople Hfuel)
    as [r ->]. simpl.
  destruct r as [[d q1 q2 l | d q | d] |]; apply IH.
Qed.

Lemma findAllRelationships_terminates (fuel : nat) (person1Id person2Id : string)
    (allPeople : list Person) :
  enoughFuel allPeople <= fuel ->
  exists r, findAllRelationships fuel person1Id person2Id allPeople = Done r.
Proof.
  intros Hfuel. unfold findAllRelationships.
  destruct (getPersonById person1Id allPeople) as [p1 |] eqn:Hp1;
    [| eexists; reflexivity].
  destruct (getPersonById person2Id allPeople) as [p2 |] eqn:Hp2;
    [| eexists; reflexivity].
  destruct (String.eqb person1Id person2Id); [eexists; reflexivity |].
  destruct (findRelationship_terminates fuel person1Id person2Id allPeople Hfuel)
    as [r ->]. simpl.
  destruct (getAllBloodRelativesIds_terminates fuel p1 allPeople) as [s ->].
  { apply getPersonById_In in Hp1.
    pose proof (neighborsOf_length_le allPeople p1 Hp1).
    apply enoughFuel_graphSize in Hfuel. lia. }
  { apply enoughFuel_graphSize in Hfuel. lia. }
  simpl.
  destruct (findAllRelationships_loop_terminates fuel person1Id person2Id p2
              allPeople Hfuel s
              match r with Some rel => addRelationship [] rel | None => [] end)
    as [l ->]. simpl.
  destruct l; eexists; reflexivity.
Qed.

(** Without a chain of links between the two people no relative of
    person 1 contributes an in-law relationship. *)
Lemma findAllRelationships_loop_unrelated (fuel : nat)
    (person1Id person2Id : string) (person2 : Person) (allPeople : list Person) :
  enoughFuel allPeople <= fuel ->
  getPersonById person2Id allPeople = Some person2 ->
  ~ related allPeople person1Id person2Id ->
  forall relatives relationships,
    findAllRelationships_loop fuel person1Id person2Id person2 allPeople
      relatives relationships = Done relationships.
Proof.
  intros Hfuel Hp2 Hnc. induction relatives as [| x rest IH]; simpl; intros rels;
    [reflexivity |].
  destruct (getPersonById x allPeople) as [br |] eqn:Hbr; [| apply IH].
  destruct (negb (String.eqb (id br) person1Id)); simpl; [| apply IH].
  destruct (marriedTo br person2Id) eqn:Hm; [| apply IH].
  destruct (findRelationship_terminates fuel person1Id (id br) allPeople Hfuel)
    as [r Hr]. rewrite Hr. simpl.
  assert (Hlink : link allPeople (id br) person2Id).
  { eapply marriage_link; [| exact Hm | exact Hp2].
    now rewrite (getPersonById_id _ _ _ Hbr). }
  destruct r as [[d q1 q2 l | d q | d] |]; try apply IH;
    exfalso; apply Hnc; (eapply related_link; [| exact Hlink]);
    eapply findRelationship_related; eauto.
Qed.

Lemma findRelationship_unrelated (fuel : nat) (person1Id person2Id : string)
    (person1 person2 : Person) (allPeople : list Person) :
  getPersonById person1Id allPeople = Some person1 ->
  getPersonById person2Id allPeople = Some person2 ->
  person1Id <> "" -> person2Id <> "" ->
  ~ related allPeople person1Id person2Id ->
  enoughFuel allPeople <= fuel ->
  findRelationship fuel person1Id person2Id allPeople
    = Done (Some (NoRelationship noRelationshipMessage)).
Proof.
  intros Hp1 Hp2 Hn1 Hn2 Hnc Hfuel.
  destruct (findRelationship_terminates fuel person1Id person2Id allPeople Hfuel)
    as [r Hr].
  pose proof (findRelationship_related fuel person1Id person2Id allPeople) as Hc.
  rewrite Hr. revert Hr Hc. unfold findRelationship.
  assert (E : falsy person1Id || falsy person2Id
              || String.eqb person1Id person2Id = false).
  { unfold falsy. apply String.eqb_neq in Hn1, Hn2. rewrite Hn1, Hn2. simpl.
    apply String.eqb_neq. intros ->. apply Hnc, related_refl. }
  rewrite E, Hp1, Hp2.
  destruct (marriedTo person1 person2Id).
  { intros _ Hc. exfalso. apply Hnc. eapply Hc; reflexivity. }
  destruct (findLcaAndPaths fuel person1Id person2Id allPeople) as [[l |] | |] eqn:Hl;
    simpl; try discriminate.
  { apply findLcaAndPaths_related in Hl. contradiction. }
  destruct (findRelationship_inLaw fuel person1Id person1 person2 allPeople
              (orEmpty (marriages person2))) as [[ri |] | |] eqn:Hi;
    simpl; try discriminate.
  { eapply findRelationship_inLaw_related in Hi; eauto using incl_refl.
    contradiction. }
  destruct (findGenericPath fuel person1 person2 allPeople) as [[rg |] | |] eqn:Hg;
    simpl; try discriminate.
  { apply findGenericPath_sound in Hg.
    - rewrite (getPersonById_id _ _ _ Hp1), (getPersonById_id _ _ _ Hp2) in Hg.
      contradiction.
    - now rewrite (getPersonById_id _ _ _ Hp1). }
  now intros <- _.
Qed.

Lemma findRelationship_unconnected (fuel : nat) (person1Id person2Id : string)
    (person1 person2 : Person) (allPeople : list Person) :
  getPersonById person1Id allPeople = Some person1 ->
  getPersonById person2Id allPeople = Some person2 ->
  person1Id <> "" -> person2Id <> "" ->
  ~ connected allPeople person1Id person2Id ->
  enoughFuel allPeople <= fuel ->
  findRelationship fuel person1Id person2Id allPeople
    = Done (Some (NoRelationship noRelationshipMessage)).
Proof.
  intros Hp1 Hp2 Hn1 Hn2 Hnc Hfuel.
  eapply findRelationship_unrelated; eauto.
  intros H. now apply Hnc, related_connected.
Qed.

(** ** Frames of the store-level functions *)

Module StoreFacts.
Import Store.

Lemma freshFrom_app (n : nat) (h : heap) (c : cell) :
  freshFrom n h -> freshCell n c -> freshFrom n (h ++ [c]).
Proof.
  intros Hf Hc l c' Hl E.
  destruct (Nat.lt_ge_cases l (List.length h)) as [Hlt | Hge].
  - rewrite nth_error_app1 in E by assumption. eauto.
  - rewrite nth_error_app2 in E by assumption.
    destruct (l - List.length h) as [| k]; simpl in E.
    + now injection E as <-.
    + destruct k; discriminate.
Qed.

Lemma freshFrom_update (n : nat) (h : heap) (l : loc) (c : cell) :
  freshFrom n h -> freshCell n c -> l < List.length h ->
  freshFrom n (firstn l h ++ c :: skipn (S l) h).
Proof.
  intros Hf Hc Hlt l' c' Hl' E.
  assert (Hlen : List.length (firstn l h) = l) by (rewrite length_firstn; lia).
  destruct (Nat.lt_ge_cases l' l) as [Hlt' | Hge].
  - rewrite nth_error_app1 in E by lia.
    rewrite nth_error_firstn in E.
    destruct (Nat.ltb_spec l' l); [eauto | lia].
  - rewrite nth_error_app2 in E by lia. rewrite Hlen in E.
    destruct (l' - l) as [| k] eqn:Ek; cbn [nth_error] in E.
    + now injection E as <-.
    + rewrite nth_error_skipn in E. eapply Hf; [| exact E]. lia.
Qed.

Lemma frame_ret {A : Type} (n : nat) (a : A) (Q : A -> Prop) :
  Q a -> frame n (ret a) Q.
Proof.
  intros HQ h Hn Hf. simpl. split; [reflexivity |]. split; [lia |].
  split; [assumption |]. intros b E. now injection E as <-.
Qed.

Lemma frame_weaken {A : Type} (n : nat) (m : M A) (Q Q' : A -> Prop) :
  frame n m Q -> (forall a, Q a -> Q' a) -> frame n m Q'.
Proof.
  intros Hm HQ h Hn Hf. destruct (Hm h Hn Hf) as (H1 & H2 & H3 & H4).
  repeat split; auto.
Qed.

Lemma frame_bind {A B : Type} (n : nat) (m : M A) (k : A -> M B)
    (Q1 : A -> Prop) (Q : B -> Prop) :
  frame n m Q1 -> (forall a, Q1 a -> frame n (k a) Q) -> frame n (bindM m k) Q.
Proof.
  intros Hm Hk h Hn Hf. unfold bindM.
  destruct (Hm h Hn Hf) as (H1 & H2 & H3 & H4).
  destruct (m h) as [[a | e |] h'] eqn:E; simpl in *.
  - destruct (Hk a (H4 a eq_refl) h') as (K1 & K2 & K3 & K4); [lia | assumption |].
    split; [congruence |]. split; [lia |]. split; assumption.
  - split; [assumption |]. split; [assumption |]. split; [assumption |].
    discriminate.
  - split; [assumption |]. split; [assumption |]. split; [assumption |].
    discriminate.
Qed.

Lemma frame_throw {A : Type} (n : nat) (e : string) (Q : A -> Prop) :
  frame n (throw e) Q.
Proof.
  intros h Hn Hf. simpl. split; [reflexivity |]. split; [lia |].
  split; [assumption | discriminate].
Qed.

Lemma frame_outOfFuel {A : Type} (n : nat) (Q : A -> Prop) :
  frame n outOfFuel Q.
Proof.
  intros h Hn Hf. simpl. split; [reflexivity |]. split; [lia |].
  split; [assumption | discriminate].
Qed.

Lemma frame_lift {A : Type} (n : nat) (o : outcome A) :
  frame n (lift o) (fun _ => True).
Proof.
  intros h Hn Hf. simpl. split; [reflexivity |]. split; [lia |].
  split; [assumption | auto].
Qed.

Lemma frame_alloc (n : nat) (c : cell) :
  freshCell n c -> frame n (alloc c) (fun l => n <= l).
Proof.
  intros Hc h Hn Hf. unfold alloc. simpl. repeat split.
  - rewrite firstn_app. replace (n - List.length h) with 0 by lia.
    simpl. now rewrite app_nil_r.
  - rewrite length_app. lia.
  - now apply freshFrom_app.
  - intros a E. injection E as <-. exact Hn.
Qed.

Lemma frame_read (n : nat) (l : loc) : frame n (read l) (fun _ => True).
Proof.
  intros h Hn Hf. unfold read.
  destruct (nth_error h l); simpl; repeat split; auto.
Qed.

(** A cell the call allocated holds new paths only. *)
Lemma frame_read_new (n : nat) (l : loc) :
  n <= l -> frame n (read l) (freshCell n).
Proof.
  intros Hl h Hn Hf. unfold read.
  destruct (nth_error h l) as [c |] eqn:E; simpl.
  - split; [reflexivity |]. split; [lia |]. split; [assumption |].
    intros a Ha. injection Ha as <-. eauto.
  - split; [reflexivity |]. split; [lia |]. split; [assumption | discriminate].
Qed.

Lemma frame_write (n : nat) (l : loc) (c : cell) :
  n <= l -> freshCell n c -> frame n (write l c) (fun _ => True).
Proof.
  intros Hl Hc h Hn Hf. unfold write.
  destruct (Nat.ltb_spec l (List.length h)); cbn [fst snd]; repeat split; auto.
  - rewrite firstn_app, firstn_firstn, length_firstn.
    replace (Nat.min n l) with n by lia.
    replace (n - Nat.min l (List.length h)) with 0 by lia.
    simpl. now rewrite app_nil_r.
  - rewrite length_app, length_firstn. cbn [List.length].
    rewrite (length_skipn (S l) h). lia.
  - now apply freshFrom_update.
Qed.

Lemma frame_bind_any {A B : Type} (n : nat) (m : M A) (k : A -> M B)
    (Q : B -> Prop) :
  frame n m (fun _ => True) -> (forall a, frame n (k a) Q) ->
  frame n (bindM m k) Q.
Proof. intros Hm Hk. eapply frame_bind; [exact Hm | auto]. Qed.

Lemma frame_forEachM {A : Type} (n : nat) (f : A -> M unit) (l : list A) :
  (forall a, frame n (f a) (fun _ => True)) ->
  frame n (forEachM f l) (fun _ => True).
Proof.
  intros Hf. induction l as [| a l IH]; simpl.
  - now apply frame_ret.
  - apply frame_bind_any; auto.
Qed.

Lemma frame_mapM {A B : Type} (n : nat) (f : A -> M B) (l : list A) :
  (forall a, frame n (f a) (fun _ => True)) ->
  frame n (mapM f l) (fun _ => True).
Proof.
  intros Hf. induction l as [| a l IH]; simpl.
  - now apply frame_ret.
  - apply frame_bind_any; auto. intros b.
    apply frame_bind_any; auto. intros bs. now apply frame_ret.
Qed.

Create HintDb frame.
#[local] Hint Resolve frame_alloc frame_read frame_write frame_throw
  frame_outOfFuel frame_lift : frame.
#[local] Hint Extern 1 (freshCell _ _) =>
  first [ exact I | simpl; repeat (constructor; simpl; auto) ] : frame.

(** Walks through a computation: a bind takes the postcondition of a known
    computation when there is one, anything otherwise. *)
Ltac frame_go :=
  cbv beta;
  lazymatch goal with
  | |- frame _ (bindM _ _) _ =>
      first [ eapply frame_bind; [ solve [eauto 2 with frame] | ]
            | eapply frame_bind_any; [ frame_go | ] ];
      intros; frame_go
  | |- frame _ (forEachM _ _) _ =>
      eapply frame_weaken; [ apply frame_forEachM; intros; frame_go | auto ]
  | |- frame _ (mapM _ _) _ =>
      eapply frame_weaken; [ apply frame_mapM; intros; frame_go | auto ]
  | |- frame _ (match ?x with _ => _ end) _ => destruct x; frame_go
  | |- frame _ (ret _) _ => apply frame_ret; simpl; auto
  | |- frame _ _ _ =>
      first [ solve [eauto 2 with frame]
            | eapply frame_weaken;
                [ solve [eauto 2 with frame] | cbv beta; simpl; auto ]
            | idtac ]
  end.

Lemma frame_readPerson (n : nat) (l : loc) : frame n (readPerson l) (fun _ => True).
Proof. unfold readPerson, typeError. frame_go. Qed.

Lemma frame_readStrings (n : nat) (l : loc) : frame n (readStrings l) (fun _ => True).
Proof. unfold readStrings, typeError. frame_go. Qed.

Lemma frame_readPeople (n : nat) (l : loc) : frame n (readPeople l) (fun _ => True).
Proof. unfold readPeople, typeError. frame_go. Qed.

Lemma frame_readMarriages (n : nat) (l : loc) :
  frame n (readMarriages l) (fun _ => True).
Proof. unfold readMarriages, typeError. frame_go. Qed.

Lemma frame_readEntries (n : nat) (l : loc) : frame n (readEntries l) (fun _ => True).
Proof. unfold readEntries, typeError. frame_go. Qed.

Lemma frame_readMap (n : nat) (l : loc) : frame n (readMap l) (fun _ => True).
Proof. unfold readMap, typeError. frame_go. Qed.

Lemma frame_readRels (n : nat) (l : loc) : frame n (readRels l) (fun _ => True).
Proof. unfold readRels, typeError. frame_go. Qed.

Lemma frame_readLevels (n : nat) (l : loc) : frame n (readLevels l) (fun _ => True).
Proof. unfold readLevels, typeError. frame_go. Qed.

Lemma frame_readRows (n : nat) (l : loc) : frame n (readRows l) (fun _ => True).
Proof. unfold readRows, typeError. frame_go. Qed.

(** The entries of a queue the call allocated carry new paths, and the
    relationships of an array the call allocated have new paths. *)
Lemma frame_readEntries_new (n : nat) (l : loc) :
  n <= l -> frame n (readEntries l) (Forall (fun e => n <= snd e)).
Proof.
  intros Hl. unfold readEntries, typeError.
  eapply frame_bind; [now apply frame_read_new |].
  intros [] Hc; try apply frame_throw. now apply frame_ret.
Qed.

Lemma frame_readRels_new (n : nat) (l : loc) :
  n <= l -> frame n (readRels l) (Forall (freshRelObj n)).
Proof.
  intros Hl. unfold readRels, typeError.
  eapply frame_bind; [now apply frame_read_new |].
  intros [] Hc; try apply frame_throw. now apply frame_ret.
Qed.

#[local] Hint Resolve frame_readPerson frame_readStrings frame_readPeople
  frame_readMarriages frame_readEntries frame_readMap frame_readRels
  frame_readLevels frame_readRows : frame.

Lemma frame_readOptStrings (n : nat) (o : option loc) :
  frame n (readOptStrings o) (fun _ => True).
Proof. unfold readOptStrings. frame_go. Qed.

Lemma frame_readOptMarriages (n : nat) (o : option loc) :
  frame n (readOptMarriages o) (fun _ => True).
Proof. unfold readOptMarriages. frame_go. Qed.

Lemma frame_pushString (n : nat) (arr : loc) (x : string) :
  n <= arr -> frame n (pushString arr x) (fun _ => True).
Proof. intros H. unfold pushString. frame_go. Qed.

Lemma frame_pushStrings (n : nat) (arr : loc) (xs : list string) :
  n <= arr -> frame n (pushStrings arr xs) (fun _ => True).
Proof. intros H. unfold pushStrings. frame_go. Qed.

Lemma frame_shiftString (n : nat) (arr : loc) :
  n <= arr -> frame n (shiftString arr) (fun _ => True).
Proof. intros H. unfold shiftString, typeError. frame_go. Qed.

Lemma frame_pushPerson (n : nat) (arr p : loc) :
  n <= arr -> frame n (pushPerson arr p) (fun _ => True).
Proof. intros H. unfold pushPerson. frame_go. Qed.

Lemma frame_reversePeople (n : nat) (arr : loc) :
  n <= arr -> frame n (reversePeople arr) (fun _ => True).
Proof. intros H. unfold reversePeople. frame_go. Qed.

(** A queue takes an entry whose path is new, and hands out such
    entries. *)
Lemma frame_pushEntry (n : nat) (arr : loc) (e : string * loc) :
  n <= arr -> n <= snd e -> frame n (pushEntry arr e) (fun _ => True).
Proof.
  intros H He. unfold pushEntry.
  eapply frame_bind; [now apply frame_readEntries_new |]. intros s Hs.
  apply frame_write; [assumption |]. simpl.
  apply Forall_app. split; [assumption | now constructor].
Qed.

Lemma frame_shiftEntry (n : nat) (arr : loc) :
  n <= arr -> frame n (shiftEntry arr) (fun e => n <= snd e).
Proof.
  intros H. unfold shiftEntry, typeError.
  eapply frame_bind; [now apply frame_readEntries_new |].
  intros [| x s] Hs; [apply frame_throw |].
  inversion Hs as [| y s' Hx Hs']; subst.
  apply frame_bind_any; [now apply frame_write |]. intros _.
  now apply frame_ret.
Qed.

Lemma frame_pushLevel (n : nat) (arr : loc) (e : string * Z) :
  n <= arr -> frame n (pushLevel arr e) (fun _ => True).
Proof. intros H. unfold pushLevel. frame_go. Qed.

Lemma frame_shiftLevel (n : nat) (arr : loc) :
  n <= arr -> frame n (shiftLevel arr) (fun _ => True).
Proof. intros H. unfold shiftLevel, typeError. frame_go. Qed.

Lemma frame_pushRow (n : nat) (arr : loc) (r : Row) :
  n <= arr -> frame n (pushRow arr r) (fun _ => True).
Proof. intros H. unfold pushRow. frame_go. Qed.

Lemma frame_pushRel (n : nat) (arr : loc) (r : RelObj) :
  n <= arr -> freshRelObj n r -> frame n (pushRel arr r) (fun _ => True).
Proof.
  intros H Hr. unfold pushRel.
  eapply frame_bind; [now apply frame_readRels_new |]. intros s Hs.
  apply frame_write; [assumption |]. simpl.
  apply Forall_app. split; [assumption | now constructor].
Qed.

Lemma frame_setHas (n : nat) (s : loc) (x : string) :
  frame n (setHas s x) (fun _ => True).
Proof. unfold setHas. frame_go. Qed.

Lemma frame_setAdd (n : nat) (s : loc) (x : string) :
  n <= s -> frame n (setAdd s x) (fun _ => True).
Proof. intros H. unfold setAdd. frame_go. Qed.

Lemma frame_mapGet (n : nat) (m : loc) (k : string) :
  frame n (mapGet m k) (fun _ => True).
Proof. unfold mapGet. frame_go. Qed.

Lemma frame_mapSet (n : nat) (m : loc) (k : string) (v : loc) :
  n <= m -> frame n (mapSet m k v) (fun _ => True).
Proof. intros H. unfold mapSet. frame_go. Qed.

#[local] Hint Resolve frame_readOptStrings frame_readOptMarriages
  frame_pushString frame_pushStrings frame_shiftString frame_pushPerson
  frame_reversePeople frame_pushEntry frame_shiftEntry frame_pushLevel
  frame_shiftLevel frame_pushRow frame_pushRel frame_setHas frame_setAdd
  frame_mapGet frame_mapSet : frame.

Lemma frame_viewPerson (n : nat) (l : loc) : frame n (viewPerson l) (fun _ => True).
Proof. unfold viewPerson, readOptional. frame_go. Qed.

#[local] Hint Resolve frame_viewPerson : frame.

Lemma frame_viewPath (n : nat) (l : loc) : frame n (viewPath l) (fun _ => True).
Proof. unfold viewPath. frame_go. Qed.

Lemma frame_findPerson (n : nat) (i : string) (refs : list loc) :
  frame n (findPerson i refs) (fun _ => True).
Proof. induction refs as [| r rest IH]; simpl; frame_go. Qed.

#[local] Hint Resolve frame_viewPath frame_findPerson : frame.

Lemma frame_getPersonById (n : nat) (i : string) (allPeople : loc) :
  frame n (getPersonById i allPeople) (fun _ => True).
Proof. unfold getPersonById. frame_go. Qed.

#[local] Hint Resolve frame_getPersonById : frame.

Lemma frame_getAncestors_loop (n : nat) (allPeople queue visited ancestors : loc)
    (fuel : nat) :
  n <= queue -> n <= visited -> n <= ancestors ->
  frame n (getAncestors_loop fuel allPeople queue visited ancestors)
        (fun r => n <= r).
Proof.
  intros Hq Hv Ha. induction fuel as [| fuel IH]; simpl; frame_go.
Qed.

#[local] Hint Resolve frame_getAncestors_loop : frame.

Lemma frame_getAncestors (n : nat) (fuel : nat) (person allPeople : loc) :
  frame n (getAncestors fuel person allPeople) (fun r => n <= r).
Proof. unfold getAncestors. frame_go. Qed.

Lemma frame_filterM {A : Type} (n : nat) (f : A -> M bool) (l : list A) :
  (forall a, frame n (f a) (fun _ => True)) ->
  frame n (filterM f l) (fun _ => True).
Proof.
  intros Hf. induction l as [| a l IH]; simpl.
  - now apply frame_ret.
  - apply frame_bind_any; auto. intros b.
    apply frame_bind_any; auto. intros bs. now apply frame_ret.
Qed.

Lemma frame_getDescendants_loop (n : nat) (allPeople queue visited descendants : loc)
    (fuel : nat) :
  n <= queue -> n <= visited -> n <= descendants ->
  frame n (getDescendants_loop fuel allPeople queue visited descendants)
        (fun r => n <= r).
Proof.
  intros Hq Hv Ha. induction fuel as [| fuel IH]; simpl; frame_go.
Qed.

#[local] Hint Resolve frame_getDescendants_loop : frame.

Lemma frame_getDescendants (n : nat) (fuel : nat) (person allPeople : loc) :
  frame n (getDescendants fuel person allPeople) (fun r => n <= r).
Proof. unfold getDescendants. frame_go. Qed.

#[local] Hint Resolve frame_getAncestors frame_getDescendants : frame.

Lemma frame_getAllBloodRelativesIds (n : nat) (fuel : nat)
    (focalPerson allPeople : loc) :
  frame n (getAllBloodRelativesIds fuel focalPerson allPeople) (fun r => n <= r).
Proof. unfold getAllBloodRelativesIds. frame_go. Qed.

Lemma frame_getPathToAncestor_parents (n : nat) (allPeople : loc) (endId : string)
    (path queue visited : loc) (parents : list string) :
  n <= queue -> n <= visited ->
  frame n (getPathToAncestor_parents allPeople endId path queue visited parents)
        (freshOpt n).
Proof.
  intros Hq Hv. induction parents as [| x rest IH]; simpl; frame_go.
Qed.

#[local] Hint Resolve frame_getPathToAncestor_parents : frame.

Lemma frame_getPathToAncestor_loop (n : nat) (allPeople : loc) (endId : string)
    (queue visited : loc) (fuel : nat) :
  n <= queue -> n <= visited ->
  frame n (getPathToAncestor_loop fuel allPeople endId queue visited) (freshOpt n).
Proof.
  intros Hq Hv. induction fuel as [| fuel IH]; simpl; frame_go.
Qed.

#[local] Hint Resolve frame_getPathToAncestor_loop : frame.

Lemma frame_getPathToAncestor (n : nat) (fuel : nat) (allPeople : loc)
    (startId endId : string) :
  frame n (getPathToAncestor fuel allPeople startId endId) (freshOpt n).
Proof. unfold getPathToAncestor. frame_go. Qed.

#[local] Hint Resolve frame_getPathToAncestor : frame.

Lemma frame_p1Ancestors_loop (n : nat) (allPeople queue1 visited1 p1Ancestors : loc)
    (fuel : nat) :
  n <= queue1 -> n <= visited1 -> n <= p1Ancestors ->
  frame n (p1Ancestors_loop fuel allPeople queue1 visited1 p1Ancestors)
        (fun _ => True).
Proof.
  intros Hq Hv Hm. induction fuel as [| fuel IH]; simpl; frame_go.
Qed.

Lemma frame_queue2_loop (n : nat) (allPeople : loc) (person1Id person2Id : string)
    (p1Ancestors queue2 visited2 : loc) (fuel : nat) :
  n <= queue2 -> n <= visited2 ->
  frame n (queue2_loop fuel allPeople person1Id person2Id p1Ancestors
             queue2 visited2)
        (freshLca n).
Proof.
  intros Hq Hv. induction fuel as [| fuel IH]; [simpl; frame_go |].
  cbn [queue2_loop].
  apply frame_bind_any; [frame_go |]. intros [| x q]; [frame_go |].
  apply frame_bind_any; [frame_go |]. intros currentId.
  apply frame_bind_any; [frame_go |]. intros hit.
  apply frame_bind with (Q1 := freshLca n).
  - destruct hit as [l |]; [| frame_go].
    apply frame_bind_any; [frame_go |]. intros lo.
    eapply frame_bind; [apply frame_getPathToAncestor |]. intros p1 H1.
    eapply frame_bind; [apply frame_getPathToAncestor |]. intros p2 H2.
    destruct p1, p2; apply frame_ret; simpl in *; auto.
  - intros [r |] Hr; [apply frame_ret; exact Hr |]. frame_go.
Qed.

#[local] Hint Resolve frame_p1Ancestors_loop frame_queue2_loop : frame.

Lemma frame_findLcaAndPaths (n : nat) (fuel : nat) (person1Id person2Id : string)
    (allPeople : loc) :
  frame n (findLcaAndPaths fuel person1Id person2Id allPeople) (freshLca n).
Proof. unfold findLcaAndPaths. frame_go. Qed.

Lemma frame_describeBloodRelationship (n : nat)
    (person1 person2 lca path1 path2 : loc) :
  frame n (Store.describeBloodRelationship person1 person2 lca path1 path2)
        (fun _ => True).
Proof. unfold Store.describeBloodRelationship. frame_go. Qed.

Lemma frame_generatePathDescription (n : nat) (path : loc) :
  frame n (Store.generatePathDescription path) (fun _ => True).
Proof. unfold Store.generatePathDescription. frame_go. Qed.

#[local] Hint Resolve frame_findLcaAndPaths frame_describeBloodRelationship
  frame_generatePathDescription : frame.

(** The path the generic path finder returns is an entry of its own queue,
    and every entry of that queue carries an array the search allocated. *)
Lemma frame_findGenericPath_loop (n : nat) (person2 allPeople queue visited : loc)
    (fuel : nat) :
  n <= queue -> n <= visited ->
  frame n (findGenericPath_loop fuel person2 allPeople queue visited)
        (freshRel n).
Proof.
  intros Hq Hv. induction fuel as [| fuel IH]; simpl.
  - apply frame_bind_any; [frame_go |]. intros [| x q].
    + now apply frame_ret.
    + apply frame_outOfFuel.
  - apply frame_bind_any; [frame_go |]. intros [| x q].
    + now apply frame_ret.
    + eapply frame_bind; [now apply frame_shiftEntry |]. intros e He.
      apply frame_bind_any; [frame_go |]. intros refs.
      apply frame_bind_any; [frame_go |]. intros p2.
      destruct (String.eqb (fst e) (o_id p2)).
      * apply frame_bind_any; [frame_go |]. intros d.
        apply frame_ret. exact He.
      * destruct (nth_error refs (List.length refs - 1)); [| apply frame_throw].
        repeat (apply frame_bind_any; [frame_go |]; intros ?).
        exact IH.
Qed.

#[local] Hint Resolve frame_findGenericPath_loop : frame.

Lemma frame_findGenericPath (n : nat) (fuel : nat) (person1 person2 allPeople : loc) :
  frame n (findGenericPath fuel person1 person2 allPeople) (freshRel n).
Proof. unfold findGenericPath. frame_go. Qed.

(** The path of an in-law relationship is the array literal
    [[person1, spouse, person2]]. *)
Lemma frame_findRelationship_inLaw (n : nat) (fuel : nat) (person1Id : string)
    (person1 person2 allPeople : loc) (ms : list Marriage) :
  frame n (findRelationship_inLaw fuel person1Id person1 person2 allPeople ms)
        (freshRel n).
Proof.
  induction ms as [| m rest IH]; simpl.
  - now apply frame_ret.
  - apply frame_bind_any; [frame_go |]. intros [spouse |]; [| exact IH].
    apply frame_bind_any; [frame_go |]. intros so.
    apply frame_bind_any; [frame_go |]. intros [r |]; [| exact IH].
    apply frame_bind_any; [frame_go |]. intros lo.
    destruct (String.eqb (o_id lo) person1Id); [| exact IH].
    apply frame_bind_any; [frame_go |]. intros refs.
    apply frame_bind_any; [frame_go |]. intros p2.
    destruct (negb (falsy (inLawDescription (o_gender p2) (len refs - 1))));
      [| exact IH].
    eapply frame_bind; [now apply frame_alloc |]. intros path Hpath.
    apply frame_ret. exact Hpath.
Qed.

(** Whatever [findRelationship] returns, its paths are arrays of the
    call. *)
Lemma frame_findRelationship (n : nat) (fuel : nat) (person1Id person2Id : string)
    (allPeople : loc) :
  frame n (findRelationship fuel person1Id person2Id allPeople) (freshRel n).
Proof.
  unfold findRelationship.
  destruct (falsy person1Id || falsy person2Id || String.eqb person1Id person2Id);
    [apply frame_ret; exact I |].
  apply frame_bind_any; [frame_go |]. intros [person1 |];
    (apply frame_bind_any; [frame_go |]); intros [person2 |];
    try (apply frame_ret; exact I).
  apply frame_bind_any; [frame_go |]. intros p1.
  apply frame_bind_any; [frame_go |]. intros p2.
  apply frame_bind_any; [frame_go |]. intros ms1.
  destruct (existsb (fun m => String.eqb (spouseId m) person2Id) ms1).
  { eapply frame_bind; [now apply frame_alloc |]. intros path Hpath.
    apply frame_ret. exact Hpath. }
  eapply frame_bind; [apply frame_findLcaAndPaths |]. intros [r |] Hr.
  { apply frame_bind_any; [frame_go |]. intros d. apply frame_ret. exact Hr. }
  apply frame_bind_any; [frame_go |]. intros ms2.
  eapply frame_bind; [apply frame_findRelationship_inLaw |]. intros [rel |] Hrel.
  { apply frame_ret. exact Hrel. }
  eapply frame_bind; [apply frame_findGenericPath |].
  intros [rel |] Hg; apply frame_ret; [exact Hg | exact I].
Qed.

#[local] Hint Resolve frame_findGenericPath frame_findRelationship : frame.

Lemma frame_addRelationship (n : nat) (relationships : loc) (rel : RelObj) :
  n <= relationships -> freshRelObj n rel ->
  frame n (addRelationship relationships rel) (fun _ => True).
Proof.
  intros H Hrel. unfold addRelationship.
  destruct rel as [d p1 p2 l | d p | d]; [| | now apply frame_ret];
    (apply frame_bind_any; [frame_go |]; intros rels;
     destruct (existsb _ rels); [now apply frame_ret | now apply frame_pushRel]).
Qed.

Lemma frame_getLen (n : nat) (r : RelObj) : frame n (getLen r) (fun _ => True).
Proof. unfold getLen. frame_go. Qed.

Lemma frame_addPath (n : nat) (relationships : loc) (d : string) (path : loc)
    (c : bool) :
  n <= relationships -> n <= path ->
  frame n (if c then addRelationship relationships (RPath d path) else ret tt)
        (fun _ => True).
Proof.
  intros H Hpath.
  destruct c; [now apply frame_addRelationship | now apply frame_ret].
Qed.

#[local] Hint Resolve frame_addRelationship frame_getLen : frame.

Lemma frame_keyed (n : nat) (rels : list RelObj) :
  frame n (mapM (fun r => k <~ getLen r ;; ret (k, r)) rels)
        (fun keyed => map snd keyed = rels).
Proof.
  induction rels as [| r rest IH]; simpl.
  - now apply frame_ret.
  - eapply frame_bind with (Q1 := fun kr => snd kr = r).
    { apply frame_bind_any; [frame_go |]. intros k. now apply frame_ret. }
    intros kr Hkr. eapply frame_bind; [exact IH |]. intros keyed Hkeyed.
    apply frame_ret. simpl. congruence.
Qed.

Lemma sort_insert_In (x y : option Z * RelObj) (sorted : list (option Z * RelObj)) :
  In y (sort_insert x sorted) -> y = x \/ In y sorted.
Proof.
  induction sorted as [| z rest IH]; simpl.
  - intros [<- | []]. now left.
  - destruct (keyLe (fst z) (fst x)); simpl.
    + intros [<- | H]; [right; now left |].
      destruct (IH H) as [-> | H']; [now left | right; now right].
    + intros [<- | [<- | H]]; [now left | right; now left | right; now right].
Qed.

Lemma sorted_In (keyed acc : list (option Z * RelObj)) (y : option Z * RelObj) :
  In y (fold_left (fun acc x => sort_insert x acc) keyed acc) ->
  In y keyed \/ In y acc.
Proof.
  revert acc. induction keyed as [| x rest IH]; simpl; intros acc H.
  - now right.
  - destruct (IH _ H) as [H' | H']; [left; now right |].
    destruct (sort_insert_In _ _ _ H') as [-> | H'']; [left; now left | now right].
Qed.

(** Sorting in place rearranges the relationships of the array. *)
Lemma frame_sortRels (n : nat) (relationships : loc) :
  n <= relationships -> frame n (sortRels relationships) (fun _ => True).
Proof.
  intros H. unfold sortRels.
  eapply frame_bind; [now apply frame_readRels_new |]. intros rels Hrels.
  eapply frame_bind; [apply frame_keyed |]. intros keyed Hkeyed.
  apply frame_write; [assumption |]. simpl.
  apply Forall_forall. intros r Hr.
  apply in_map_iff in Hr. destruct Hr as (y & <- & Hy).
  apply sorted_In in Hy. destruct Hy as [Hy | []].
  rewrite Forall_forall in Hrels. apply Hrels. rewrite <- Hkeyed.
  now apply in_map.
Qed.

#[local] Hint Resolve frame_sortRels : frame.

Lemma frame_findAllRelationships_loop (n : nat) (fuel : nat)
    (person1Id person2Id : string) (person2 allPeople relationships : loc)
    (relatives : list string) :
  n <= relationships ->
  frame n (findAllRelationships_loop fuel person1Id person2Id person2 allPeople
             relationships relatives)
        (fun _ => True).
Proof.
  intros Hrels. induction relatives as [| x rest IH]; simpl; [frame_go |].
  apply frame_bind_any; [frame_go |]. intros found.
  apply frame_bind_any; [| intros _; exact IH].
  destruct found as [bloodRelative |]; [| frame_go].
  apply frame_bind_any; [frame_go |]. intros br.
  apply frame_bind_any; [frame_go |]. intros ms.
  destruct (negb (String.eqb (o_id br) person1Id)
            && existsb (fun m => String.eqb (spouseId m) person2Id) ms);
    [| frame_go].
  eapply frame_bind; [apply frame_findRelationship |].
  intros [[d p1 p2 l | d p | d] |] Hfresh;
    [| | now apply frame_ret | now apply frame_ret].
  - destruct Hfresh as [Hfresh1 Hfresh2].
    apply frame_bind_any; [frame_go |]. intros p2o.
    apply frame_bind with (Q1 := fun path => n <= path); [frame_go |].
    intros path Hpath.
    apply frame_bind_any; [frame_go |]. intros q.
    now apply frame_addPath.
  - apply frame_bind_any; [frame_go |]. intros p2o.
    apply frame_bind with (Q1 := fun path => n <= path); [frame_go |].
    intros path Hpath.
    apply frame_bind_any; [frame_go |]. intros q.
    now apply frame_addPath.
Qed.

#[local] Hint Resolve frame_findAllRelationships_loop
  frame_getAllBloodRelativesIds : frame.

(** The array [findAllRelationships] returns is new; that its relationships
    have new paths is what [frame] keeps of the cells allocated by the
    call. *)
Lemma frame_findAllRelationships (n : nat) (fuel : nat)
    (person1Id person2Id : string) (allPeople : loc) :
  frame n (findAllRelationships fuel person1Id person2Id allPeople)
        (fun r => n <= r).
Proof. unfold findAllRelationships. frame_go. Qed.

Lemma frame_getAncestorsHierarchically_loop (n : nat)
    (allPeople queue visited results : loc) (fuel : nat) :
  n <= queue -> n <= visited -> n <= results ->
  frame n (getAncestorsHierarchically_loop fuel allPeople queue visited results)
        (fun r => n <= r).
Proof.
  intros Hq Hv Ha. induction fuel as [| fuel IH]; simpl; frame_go.
Qed.

Lemma frame_getDescendantsWithRelationship_loop (n : nat)
    (allPeople queue visited results : loc) (fuel : nat) :
  n <= queue -> n <= visited -> n <= results ->
  frame n (getDescendantsWithRelationship_loop fuel allPeople queue visited results)
        (fun r => n <= r).
Proof.
  intros Hq Hv Ha. induction fuel as [| fuel IH]; simpl; frame_go.
Qed.

#[local] Hint Resolve frame_getAncestorsHierarchically_loop
  frame_getDescendantsWithRelationship_loop : frame.

Lemma frame_getAncestorsHierarchically (n : nat) (fuel : nat)
    (person allPeople : loc) :
  frame n (getAncestorsHierarchically fuel person allPeople) (fun r => n <= r).
Proof. unfold getAncestorsHierarchically. frame_go. Qed.

Lemma frame_getDescendantsWithRelationship (n : nat) (fuel : nat)
    (person allPeople : loc) :
  frame n (getDescendantsWithRelationship fuel person allPeople) (fun r => n <= r).
Proof. unfold getDescendantsWithRelationship. frame_go. Qed.

Lemma frame_getSiblingsWithRelationship (n : nat) (person allPeople : loc) :
  frame n (getSiblingsWithRelationship person allPeople) (fun r => n <= r).
Proof.
  unfold getSiblingsWithRelationship.
  apply frame_bind_any; [frame_go |]. intros po.
  destruct (o_parentIds po) as [pl |]; [| frame_go].
  apply frame_bind_any; [frame_go |]. intros [| x parents]; [frame_go |].
  apply frame_bind_any; [frame_go |]. intros filtered.
  apply frame_bind_any; [frame_go |]. intros ids.
  apply frame_bind_any; [frame_go |]. intros parentIdSet.
  apply frame_bind_any; [frame_go |]. intros [| y members]; [frame_go |].
  apply frame_bind_any; [frame_go |]. intros refs.
  apply frame_bind_any.
  { apply frame_filterM. intros a. frame_go. }
  intros kept. frame_go.
Qed.

End StoreFacts.

(** * The claims *)

(** ** C1: the three-generation chain *)

(** C1.  In a chain of three generations, a grandparent [G] whose child is
    [P] whose child is [C] (with [parentIds] and [childrenIds] mirrored), in
    whatever order the collection lists them, [findLcaAndPaths] called with
    person 1 = [C] and person 2 = [G] returns the lowest common ancestor [G]
    with [path1 = [C; P; G]] and [path2 = [G]]; the description of the blood
    relationship, at the generation distance 2, is "Grandfather" for a male
    and "Grandmother" for a female [G]; and [findRelationship] returns that
    blood relationship when the ids are not empty and [C] has no marriage
    with [G]. *)
Theorem C1_three_generation_chain (G P C : Person) (allPeople : list Person)
    (fuel : nat) :
  getPersonById (id G) allPeople = Some G ->
  getPersonById (id P) allPeople = Some P ->
  getPersonById (id C) allPeople = Some C ->
  id G <> id P -> id G <> id C -> id P <> id C ->
  parentsOf G = [] -> parentsOf P = [id G] -> parentsOf C = [id P] ->
  childrenOf G = [id P] -> childrenOf P = [id C] -> childrenOf C = [] ->
  3 <= fuel ->
  findLcaAndPaths fuel (id C) (id G) allPeople
    = Done (Some (mkLcaResult G [C; P; G] [G])) /\
  (gender G = Male ->
   describeBloodRelationship C G G [C; P; G] [G] = Done "Grandfather") /\
  (gender G = Female ->
   describeBloodRelationship C G G [C; P; G] [G] = Done "Grandmother") /\
  (id C <> "" -> id G <> "" -> marriedTo C (id G) = false ->
   findRelationship fuel (id C) (id G) allPeople
     = Done (Some (Blood (byGender (gender G) "Grandfather" "Grandmother"
                                              "Grandparent")
                         [C; P; G] [G] G))).
Proof.
  intros LG LP LC Hgp Hgc Hpc HG HP HC _ _ _ Hfuel.
  assert (Egp : String.eqb (id G) (id P) = false) by now apply String.eqb_neq.
  assert (Egc : String.eqb (id G) (id C) = false) by now apply String.eqb_neq.
  assert (Epc : String.eqb (id P) (id C) = false) by now apply String.eqb_neq.
  assert (Epg : String.eqb (id P) (id G) = false) by (now rewrite String.eqb_sym).
  assert (Ecg : String.eqb (id C) (id G) = false) by (now rewrite String.eqb_sym).
  assert (Ecp : String.eqb (id C) (id P) = false) by (now rewrite String.eqb_sym).
  assert (Hdesc : describeBloodRelationship C G G [C; P; G] [G]
                  = Done (byGender (gender G) "Grandfather" "Grandmother"
                                              "Grandparent")).
  { unfold describeBloodRelationship. rewrite Egc, String.eqb_refl. reflexivity. }
  assert (Hlca : findLcaAndPaths fuel (id C) (id G) allPeople
                 = Done (Some (mkLcaResult G [C; P; G] [G]))).
  { destruct fuel as [| [| [| fuel]]]; try lia.
    unfold parentsOf in HG, HP, HC.
    destruct (parentIds C) as [pc |] eqn:PC; [| discriminate].
    destruct (parentIds P) as [pp |] eqn:PP; [| discriminate].
    simpl in HC, HP. subst pc pp.
    assert (H1 : p1Ancestors_loop (S (S (S fuel))) allPeople [id C] [] []
                 = Done [(id C, C); (id P, P); (id G, G)]).
    { destruct (parentIds G) as [[| x l] |] eqn:PG; try discriminate;
        repeat (progress (simpl;
          rewrite ?set_has_add, ?Egp, ?Egc, ?Epc, ?Epg, ?Ecg, ?Ecp,
                  ?String.eqb_refl, ?LG, ?LP, ?LC, ?PC, ?PP, ?PG));
        destruct fuel; reflexivity. }
    assert (H2 : getPathToAncestor (S (S (S fuel))) allPeople (id C) (id G)
                 = Done (Some [C; P; G])).
    { unfold getPathToAncestor.
      repeat (progress (simpl;
        rewrite ?set_has_add, ?Egp, ?Egc, ?Epc, ?Epg, ?Ecg, ?Ecp,
                ?String.eqb_refl, ?LG, ?LP, ?LC, ?PC, ?PP));
      reflexivity. }
    assert (H3 : getPathToAncestor (S (S (S fuel))) allPeople (id G) (id G)
                 = Done (Some [G])).
    { unfold getPathToAncestor. now rewrite LG, String.eqb_refl. }
    unfold findLcaAndPaths. rewrite H1. cbn [bind queue2_loop map_get].
    rewrite Ecg, Epg, String.eqb_refl, H2, H3. reflexivity. }
  split; [exact Hlca |].
  split; [intros E; rewrite Hdesc, E; reflexivity |].
  split; [intros E; rewrite Hdesc, E; reflexivity |].
  intros HnC HnG Hm. unfold findRelationship, falsy.
  apply String.eqb_neq in HnC, HnG. rewrite HnC, HnG, Ecg, LC, LG, Hm, Hlca.
  cbn [orb bind lca path1 path2]. rewrite Hdesc. reflexivity.
Qed.

(** ** C2: cousins *)

Lemma string_app_assoc (a b c : string) :
  ((a ++ b) ++ c = a ++ (b ++ c))%string.
Proof.
  induction a as [| ch a IH]; simpl; [reflexivity | now rewrite IH].
Qed.

Lemma codeSuffix_table :
  forallb (fun k => String.eqb (codeSuffix (Z.of_nat k))
                               (ordinalSuffix (Z.of_nat k)))
          (seq 0 100) = true.
Proof. vm_compute. reflexivity. Qed.

Lemma codeSuffix_ordinalSuffix (n : Z) :
  (0 < n)%Z -> codeSuffix (Z.rem n 100) = ordinalSuffix n.
Proof.
  intros Hn. rewrite Z.rem_mod_nonneg by lia.
  assert (Hv : (0 <= n mod 100 < 100)%Z) by (apply Z.mod_pos_bound; lia).
  assert (Hs : ordinalSuffix n = ordinalSuffix (n mod 100)).
  { unfold ordinalSuffix. rewrite Z.mod_mod by lia.
    rewrite (Z.mod_mod_divide n 100 10) by (exists 10%Z; reflexivity).
    reflexivity. }
  rewrite Hs.
  pose proof codeSuffix_table as T. rewrite forallb_forall in T.
  specialize (T (Z.to_nat (n mod 100))).
  rewrite Z2Nat.id in T by lia.
  apply String.eqb_eq, T. apply in_seq. lia.
Qed.

Lemma ordinal_spec (n : Z) :
  (0 < n)%Z -> ordinal n = (String_of_Z n ++ ordinalSuffix n)%string.
Proof.
  intros Hn. unfold ordinal.
  destruct (Z.leb_spec n 0); [lia |].
  fold (codeSuffix (Z.rem n 100)). now rewrite codeSuffix_ordinalSuffix.
Qed.

Lemma describeBloodRelationship_cousins (person1 person2 l : Person)
    (path1 path2 : list Person) :
  id l <> id person1 -> id l <> id person2 ->
  (2 <= Z.min (len path1 - 1) (len path2 - 1))%Z ->
  describeBloodRelationship person1 person2 l path1 path2
    = Done (cousinDescription (len path1 - 1) (len path2 - 1)).
Proof.
  intros H1 H2 Hmin. unfold describeBloodRelationship.
  apply String.eqb_neq in H1, H2. rewrite H1, H2.
  destruct (Z.eqb_spec (len path1 - 1) 1) as [E | _]; [lia |]. simpl.
  destruct (Z.eqb_spec (Z.min (len path1 - 1) (len path2 - 1) - 1) 0) as [E | _];
    [lia |].
  rewrite ordinal_spec by lia. unfold cousinDescription, removalSuffix.
  rewrite string_app_assoc. do 3 f_equal.
  set (r := Z.abs (len path1 - 1 - (len path2 - 1))).
  assert (Hr : (0 <= r)%Z) by (unfold r; lia).
  destruct (Z.eqb_spec r 0) as [E0 | N0].
  - rewrite E0. reflexivity.
  - destruct (Z.gtb_spec r 0); [| lia].
    destruct (Z.eqb_spec r 1); [reflexivity |].
    destruct (Z.eqb_spec r 2); [reflexivity |].
    now rewrite string_app_assoc.
Qed.

Lemma findRelationship_inLaw_Path (fuel : nat) (person1Id : string)
    (person1 person2 : Person) (allPeople : list Person) :
  forall ms rel,
    findRelationship_inLaw fuel person1Id person1 person2 allPeople ms
      = Done (Some rel) ->
    exists d p, rel = Path d p.
Proof.
  induction ms as [| m rest IH]; simpl; intros rel H; [discriminate |].
  destruct (getPersonById (spouseId m) allPeople) as [sp |]; [| eauto].
  destruct (findLcaAndPaths fuel person1Id (id sp) allPeople) as [[r |] | |];
    simpl in H; try discriminate; eauto.
  destruct (String.eqb (id (lca r)) person1Id); [| eauto].
  destruct (negb (falsy (inLawDescription (gender person2) (len (path2 r) - 1))));
    [| eauto].
  injection H as <-. eauto.
Qed.

(** A [Blood] result comes from step B. *)
Lemma findRelationship_Blood (fuel : nat) (person1Id person2Id : string)
    (allPeople : list Person) (d : string) (p1 p2 : list Person) (l : Person) :
  findRelationship fuel person1Id person2Id allPeople = Done (Some (Blood d p1 p2 l)) ->
  exists person1 person2,
    getPersonById person1Id allPeople = Some person1 /\
    getPersonById person2Id allPeople = Some person2 /\
    findLcaAndPaths fuel person1Id person2Id allPeople
      = Done (Some (mkLcaResult l p1 p2)) /\
    describeBloodRelationship person1 person2 l p1 p2 = Done d.
Proof.
  unfold findRelationship. intros H.
  destruct (falsy person1Id || falsy person2Id || String.eqb person1Id person2Id);
    [discriminate |].
  destruct (getPersonById person1Id allPeople) as [q1 |]; [| discriminate].
  destruct (getPersonById person2Id allPeople) as [q2 |]; [| discriminate].
  destruct (marriedTo q1 person2Id); [discriminate |].
  destruct (findLcaAndPaths fuel person1Id person2Id allPeople) as [[r |] | |];
    simpl in H; try discriminate.
  - destruct (describeBloodRelationship q1 q2 (lca r) (path1 r) (path2 r))
      as [s | |] eqn:Hd; simpl in H; try discriminate.
    injection H as <- <- <- <-. exists q1, q2. destruct r. simpl in *. auto.
  - destruct (findRelationship_inLaw fuel person1Id q1 q2 allPeople
                (orEmpty (marriages q2))) as [[ri |] | |] eqn:Hi;
      simpl in H; try discriminate.
    + apply findRelationship_inLaw_Path in Hi. destruct Hi as (d' & p' & ->).
      discriminate.
    + destruct (findGenericPath fuel q1 q2 allPeople) as [[rg |] | |] eqn:Hg;
        simpl in H; try discriminate.
      apply findGenericPath_loop_Path in Hg. destruct Hg as (p' & ->).
      discriminate.
Qed.

(** C2.  Whenever [findRelationship] reports a blood relationship whose two
    paths both have a generation distance of at least 2, the description is
    the ordinal of [min d1 d2 - 1] (suffix by the last digit, "th" for 11 to
    13) followed by " cousin" and by the removal suffix for [|d1 - d2|]
    (none when it is 0); in particular it is "2nd cousin" at the distances
    3 and 3 and "1st cousin, twice removed" at the distances 2 and 4. *)
Theorem C2_cousin_description (fuel : nat) (person1Id person2Id : string)
    (allPeople : list Person) (description : string) (p1 p2 : list Person)
    (l : Person) :
  findRelationship fuel person1Id person2Id allPeople
    = Done (Some (Blood description p1 p2 l)) ->
  (2 <= Z.min (len p1 - 1) (len p2 - 1))%Z ->
  description = cousinDescription (len p1 - 1) (len p2 - 1) /\
  ((len p1 - 1 = 3)%Z -> (len p2 - 1 = 3)%Z -> description = "2nd cousin") /\
  ((len p1 - 1 = 2)%Z -> (len p2 - 1 = 4)%Z ->
   description = "1st cousin, twice removed").
Proof.
  intros H Hmin.
  apply findRelationship_Blood in H.
  destruct H as (q1 & q2 & Hq1 & Hq2 & Hl & Hd).
  apply findLcaAndPaths_sound in Hl.
  destruct Hl as [_ (s1 & Hs1 & _ & Hone1 & _) (s2 & Hs2 & _ & Hone2 & _)].
  simpl in *.
  assert (N1 : id l <> id q1).
  { intros E. rewrite (getPersonById_id _ _ _ Hq1) in E.
    rewrite Hone1 in Hmin by congruence. unfold len in Hmin. simpl in Hmin. lia. }
  assert (N2 : id l <> id q2).
  { intros E. rewrite (getPersonById_id _ _ _ Hq2) in E.
    rewrite Hone2 in Hmin by congruence. unfold len in Hmin. simpl in Hmin. lia. }
  rewrite describeBloodRelationship_cousins in Hd by assumption.
  injection Hd as <-.
  split; [reflexivity |].
  split; intros E1 E2; rewrite E1, E2; reflexivity.
Qed.

(** ** C3: marriage comes first *)

(** C3.  For two distinct people [A] and [B] of the collection (each the
    person its non-empty id looks up) with a marriage of [A] naming [B],
    [findRelationship] returns the [Path] result whose description is
    Husband, Wife or Spouse by the gender of [B] and whose path is [A; B],
    whatever else connects them and before any loop runs: the fuel plays no
    part. *)
Theorem C3_marriage_first (fuel : nat) (allPeople : list Person) (A B : Person) :
  getPersonById (id A) allPeople = Some A ->
  getPersonById (id B) allPeople = Some B ->
  id A <> "" -> id B <> "" -> id A <> id B ->
  marriedTo A (id B) = true ->
  findRelationship fuel (id A) (id B) allPeople
    = Done (Some (Path (byGender (gender B) "Husband" "Wife" "Spouse") [A; B])).
Proof.
  intros HA HB HnA HnB Hne Hm. unfold findRelationship, falsy.
  apply String.eqb_neq in HnA, HnB, Hne.
  now rewrite HnA, HnB, Hne, HA, HB, Hm.
Qed.

(** ** C4: aunts, uncles, nieces and nephews *)

(** C4, amended.  Whenever [findRelationship] reports a blood relationship
    with [min d1 d2 = 1] and [d1 <> d2], the description is nephew or niece
    (by the gender of person 2) when person 1 is closer to the common
    ancestor and uncle or aunt when person 2 is, prefixed with one "Grand"
    exactly when the removal [|d1 - d2|] is greater than 1. *)
Theorem C4_aunt_uncle_term (fuel : nat) (person1Id person2Id : string)
    (allPeople : list Person) (person2 : Person) (description : string)
    (p1 p2 : list Person) (l : Person) :
  findRelationship fuel person1Id person2Id allPeople
    = Done (Some (Blood description p1 p2 l)) ->
  getPersonById person2Id allPeople = Some person2 ->
  Z.min (len p1 - 1) (len p2 - 1) = 1%Z ->
  (len p1 - 1 <> len p2 - 1)%Z ->
  description = auntUncleTerm (gender person2) (len p1 - 1) (len p2 - 1).
Proof.
  intros H Hp2 Hmin Hne.
  apply findRelationship_Blood in H.
  destruct H as (q1 & q2 & Hq1 & Hq2 & Hl & Hd).
  assert (q2 = person2) by congruence. subst q2.
  apply findLcaAndPaths_sound in Hl.
  destruct Hl as [_ (s1 & Hs1 & _ & Hone1 & _) (s2 & Hs2 & _ & Hone2 & _)].
  simpl in *.
  assert (N1 : id l <> id q1).
  { intros E. rewrite (getPersonById_id _ _ _ Hq1) in E.
    rewrite Hone1 in Hmin by congruence. unfold len in Hmin. simpl in Hmin. lia. }
  assert (N2 : id l <> id person2).
  { intros E. rewrite (getPersonById_id _ _ _ Hq2) in E.
    rewrite Hone2 in Hmin by congruence. unfold len in Hmin. simpl in Hmin. lia. }
  unfold describeBloodRelationship in Hd.
  apply String.eqb_neq in N1, N2. rewrite N1, N2 in Hd.
  assert (E1 : ((len p1 - 1 =? 1)%Z && (len p2 - 1 =? 1)%Z) = false).
  { apply andb_false_iff.
    destruct (Z.eqb_spec (len p1 - 1) 1); [right | now left].
    apply Z.eqb_neq. lia. }
  rewrite E1, Hmin in Hd. simpl in Hd. unfold auntUncleTerm.
  destruct (Z.abs (len p1 - 1 - (len p2 - 1)) >? 1)%Z;
    destruct (len p1 - 1 <? len p2 - 1)%Z; now injection Hd as <-.
Qed.

(** ** C5: the paths are chains of parent edges *)

(** C5.  For every collection and every result [{lca, path1, path2}] that
    [findLcaAndPaths] returns, every step [path1[i]] to [path1[i+1]] (and of
    [path2] likewise) goes from a person to an id in its [parentIds], all
    people on the paths are people of the collection, [path1] starts at
    person 1 and ends at the [lca], [path2] starts at person 2 and ends at
    the [lca]. *)
Theorem C5_paths_are_parent_chains (fuel : nat) (person1Id person2Id : string)
    (allPeople : list Person) (r : LcaResult) :
  findLcaAndPaths fuel person1Id person2Id allPeople = Done (Some r) ->
  (forall i a b,
     nth_error (path1 r) i = Some a -> nth_error (path1 r) (S i) = Some b ->
     In (id b) (orEmpty (parentIds a))) /\
  (forall i a b,
     nth_error (path2 r) i = Some a -> nth_error (path2 r) (S i) = Some b ->
     In (id b) (orEmpty (parentIds a))) /\
  inGraph allPeople (path1 r) /\ inGraph allPeople (path2 r) /\
  hd_error (path1 r) = getPersonById person1Id allPeople /\
  lastPerson (path1 r) = Some (lca r) /\
  hd_error (path2 r) = getPersonById person2Id allPeople /\
  lastPerson (path2 r) = Some (lca r).
Proof.
  intros H. apply findLcaAndPaths_sound in H.
  destruct H as [Hl (q1 & Hq1 & [A1 A2 A3 A4 A5 A6] & _)
                    (q2 & Hq2 & [B1 B2 B3 B4 B5 B6] & _)].
  repeat split; try assumption; congruence.
Qed.

(** ** C6: the walks terminate *)

(** C6.  For every person and every finite collection, cyclic or not, the
    ancestor walks [getAncestors] and [getAncestorsHierarchically] run to
    completion and return a list, and so do the descendant walk, the search
    for the lowest common ancestor and the generic path search: a number of
    loop iterations bounded by the size of the collection is enough. *)
Theorem C6_walks_terminate (fuel : nat) (person other : Person)
    (allPeople : list Person) :
  List.length (neighborsOf person) + enoughFuel allPeople <= fuel ->
  (exists ancestors, getAncestors fuel person allPeople = Done ancestors) /\
  (exists results, getAncestorsHierarchically fuel person allPeople = Done results) /\
  (exists descendants, getDescendants fuel person allPeople = Done descendants) /\
  (exists ids, getAllBloodRelativesIds fuel person allPeople = Done ids) /\
  (exists r, findLcaAndPaths fuel (id person) (id other) allPeople = Done r) /\
  (exists r, findGenericPath fuel person other allPeople = Done r).
Proof.
  unfold enoughFuel. intros Hfuel.
  pose proof (parentsOf_length_le person).
  pose proof (childrenOf_length_le person).
  repeat split.
  - apply getAncestors_terminates. lia.
  - apply getAncestorsHierarchically_terminates. lia.
  - apply getDescendants_terminates. lia.
  - apply getAllBloodRelativesIds_terminates; lia.
  - apply findLcaAndPaths_terminates. unfold enoughFuel. lia.
  - apply findGenericPath_terminates. lia.
Qed.

(** ** C7: no relationship *)

(** C7.  For two existing people with non-empty ids that no chain of
    parent, child or spouse entries leads from one to the other, each entry
    naming a person of the collection and being read in either direction
    (so the two are distinct, share no ancestor and are not married; an
    entry that names no person, such as an empty slot or the id of a
    deleted person, links nobody), [findRelationship] returns the
    [NoRelationship] result with the fixed message and
    [findAllRelationships] the list of that single result: both return, and
    neither throws. *)
Theorem C7_no_relationship (fuel : nat) (person1Id person2Id : string)
    (person1 person2 : Person) (allPeople : list Person) :
  getPersonById person1Id allPeople = Some person1 ->
  getPersonById person2Id allPeople = Some person2 ->
  person1Id <> "" -> person2Id <> "" ->
  ~ related allPeople person1Id person2Id ->
  enoughFuel allPeople <= fuel ->
  findRelationship fuel person1Id person2Id allPeople
    = Done (Some (NoRelationship "No relationship path could be found.")) /\
  findAllRelationships fuel person1Id person2Id allPeople
    = Done [NoRelationship "No relationship path could be found."].
Proof.
  intros Hp1 Hp2 Hn1 Hn2 Hnc Hfuel.
  pose proof (findRelationship_unrelated fuel _ _ _ _ _ Hp1 Hp2 Hn1 Hn2 Hnc Hfuel)
    as Hrel.
  split; [exact Hrel |].
  unfold findAllRelationships. rewrite Hp1, Hp2.
  assert (E : String.eqb person1Id person2Id = false).
  { apply String.eqb_neq. intros ->. apply Hnc, related_refl. }
  rewrite E, Hrel. cbn [bind addRelationship].
  destruct (getAllBloodRelativesIds_terminates fuel person1 allPeople) as [s ->].
  { apply getPersonById_In in Hp1.
    pose proof (neighborsOf_length_le allPeople person1 Hp1).
    apply enoughFuel_graphSize in Hfuel. lia. }
  { apply enoughFuel_graphSize in Hfuel. lia. }
  cbn [bind].
  now rewrite (findAllRelationships_loop_unrelated fuel _ _ person2 _ Hfuel Hp2 Hnc).
Qed.

(** ** C8: the same person twice *)

(** C8.  For every collection and every id [x], [findRelationship x x]
    returns the no-result value [null] without running a single loop
    iteration and without looking at the collection (the result is the same
    for every fuel, 0 included, and for every collection);
    [findAllRelationships x x] returns the empty list.  Over the store of
    objects the call of [findRelationship] reads and allocates nothing: on
    every store, and whatever the people array refers to (a store without
    a single cell included, where any lookup of a person would throw), it
    returns [null] and leaves the store as it found it, with no queue,
    [Set] or [Map] created. *)
Theorem C8_same_person (fuel : nat) (x : string) (allPeople : list Person) :
  findRelationship fuel x x allPeople = Done None /\
  findRelationship 0 x x [] = Done None /\
  findAllRelationships fuel x x allPeople = Done [] /\
  (forall (h : Store.heap) (people : Store.loc),
     Store.findRelationship fuel x x people h = (Done None, h)) /\
  Store.findRelationship 0 x x 0 [] = (Done None, []).
Proof.
  unfold findRelationship, findAllRelationships, Store.findRelationship.
  rewrite String.eqb_refl, !orb_true_r.
  repeat split. destruct (getPersonById x allPeople); reflexivity.
Qed.

(** ** C9: the engine leaves its input as it is *)

Lemma readPeople_unchanged (h h' : Store.heap) (l : Store.loc)
    (refs : list Store.loc) :
  Store.unchanged h h' ->
  fst (Store.readPeople l h) = Done refs ->
  fst (Store.readPeople l h') = Done refs.
Proof.
  intros Hu.
  unfold Store.readPeople, Store.typeError, Store.throw, Store.bindM,
    Store.ret, Store.read.
  destruct (nth_error h l) as [[] |] eqn:E; simpl; try discriminate.
  now rewrite (Hu _ _ E).
Qed.

Lemma viewPerson_unchanged (h h' : Store.heap) (l : Store.loc) (p : Person) :
  Store.unchanged h h' ->
  fst (Store.viewPerson l h) = Done p -> fst (Store.viewPerson l h') = Done p.
Proof.
  intros Hu.
  unfold Store.viewPerson, Store.readPerson, Store.readOptional,
    Store.readStrings, Store.readMarriages, Store.typeError, Store.throw,
    Store.bindM, Store.ret, Store.read.
  repeat match goal with
  | |- context [nth_error h ?x] =>
      let E := fresh "E" in
      destruct (nth_error h x) as [[] |] eqn:E; simpl; try discriminate;
      rewrite (Hu _ _ E); simpl
  | |- context [match ?o with Some _ => _ | None => _ end] =>
      destruct o; simpl
  end; auto.
Qed.

Lemma freshFrom_length (h : Store.heap) : Store.freshFrom (List.length h) h.
Proof.
  intros l c Hl E.
  assert (Hlt : l < List.length h) by (apply nth_error_Some; congruence). lia.
Qed.

Lemma frame_preserved {A : Type} (m : Store.M A) (Q : A -> Prop) (h : Store.heap) :
  Store.frame (List.length h) m Q ->
  Store.preserved h (snd (m h)) /\ (forall a, fst (m h) = Done a -> Q a).
Proof.
  intros Hm. destruct (Hm h (le_n _) (freshFrom_length h)) as (H1 & H2 & _ & H3).
  split; [| exact H3].
  assert (Hu : Store.unchanged h (snd (m h))).
  { intros l c Hl.
    assert (Hlt : l < List.length h) by (apply nth_error_Some; congruence).
    rewrite <- (firstn_skipn (List.length h) (snd (m h))).
    rewrite nth_error_app1 by (rewrite length_firstn; lia).
    rewrite H1, firstn_all. exact Hl. }
  split; [exact Hu |]. split.
  - intros l refs. now apply readPeople_unchanged.
  - intros l p. now apply viewPerson_unchanged.
Qed.

Lemma frame_newPaths (m : Store.M Store.loc) (h : Store.heap) :
  Store.frame (List.length h) m (fun r => List.length h <= r) ->
  Store.newPaths h (m h).
Proof.
  intros Hm l rels Hl E.
  destruct (Hm h (le_n _) (freshFrom_length h)) as (_ & _ & Hf & HQ).
  exact (Hf l _ (HQ l Hl) E).
Qed.

(** C9.  Whatever the store holds (the people array, every [Person] object
    and its [parentIds], [childrenIds] and [marriages] arrays among it), and
    whatever the outcome of the call, after [findRelationship],
    [findAllRelationships], [getAllBloodRelativesIds], the ancestor and
    descendant walks and the sibling search every cell the store had before
    the call is still there with the same content, so that the people array
    and every [Person] read with all its fields are what they were.  The
    results are built by the call: the arrays these operations return are
    cells the call allocated, and so is every path of a relationship, be
    it the two paths of a blood relationship, the path of a marriage, of an
    in-law relationship or of a generic path that [findRelationship]
    returns, or a path of any relationship in the list that
    [findAllRelationships] returns. *)
Theorem C9_input_unchanged (h : Store.heap) (fuel : nat)
    (person1Id person2Id : string) (person allPeople : Store.loc) :
  let after {A : Type} (m : Store.M A) := snd (m h) in
  Store.preserved h (after (Store.findRelationship fuel person1Id person2Id allPeople)) /\
  Store.preserved h (after (Store.findAllRelationships fuel person1Id person2Id allPeople)) /\
  Store.preserved h (after (Store.getAllBloodRelativesIds fuel person allPeople)) /\
  Store.preserved h (after (Store.getAncestors fuel person allPeople)) /\
  Store.preserved h (after (Store.getDescendants fuel person allPeople)) /\
  Store.preserved h (after (Store.getAncestorsHierarchically fuel person allPeople)) /\
  Store.preserved h (after (Store.getDescendantsWithRelationship fuel person allPeople)) /\
  Store.preserved h (after (Store.getSiblingsWithRelationship person allPeople)) /\
  Store.newArray h (Store.findAllRelationships fuel person1Id person2Id allPeople h) Some /\
  Store.newArray h (Store.getAllBloodRelativesIds fuel person allPeople h) Some /\
  Store.newArray h (Store.getAncestors fuel person allPeople h) Some /\
  Store.newArray h (Store.getDescendants fuel person allPeople h) Some /\
  Store.newArray h (Store.getAncestorsHierarchically fuel person allPeople h) Some /\
  Store.newArray h (Store.getDescendantsWithRelationship fuel person allPeople h) Some /\
  Store.newArray h (Store.getSiblingsWithRelationship person allPeople h) Some /\
  Store.newArray h (Store.findRelationship fuel person1Id person2Id allPeople h)
    (fun o => match o with Some (Store.RBlood _ path1 _ _) => Some path1 | _ => None end) /\
  Store.newArray h (Store.findRelationship fuel person1Id person2Id allPeople h)
    (fun o => match o with Some (Store.RBlood _ _ path2 _) => Some path2 | _ => None end) /\
  Store.newArray h (Store.findRelationship fuel person1Id person2Id allPeople h)
    (fun o => match o with Some (Store.RPath _ path) => Some path | _ => None end) /\
  Store.newPaths h (Store.findAllRelationships fuel person1Id person2Id allPeople h).
Proof.
  cbv zeta. unfold Store.newArray.
  pose proof (frame_preserved _ _ h
    (StoreFacts.frame_findRelationship (List.length h) fuel person1Id person2Id allPeople))
    as [R1 R2].
  pose proof (frame_preserved _ _ h
    (StoreFacts.frame_findAllRelationships (List.length h) fuel person1Id person2Id allPeople))
    as [A1 A2].
  pose proof (frame_preserved _ _ h
    (StoreFacts.frame_getAllBloodRelativesIds (List.length h) fuel person allPeople))
    as [B1 B2].
  pose proof (frame_preserved _ _ h
    (StoreFacts.frame_getAncestors (List.length h) fuel person allPeople)) as [C1 C2].
  pose proof (frame_preserved _ _ h
    (StoreFacts.frame_getDescendants (List.length h) fuel person allPeople)) as [D1 D2].
  pose proof (frame_preserved _ _ h
    (StoreFacts.frame_getAncestorsHierarchically (List.length h) fuel person allPeople))
    as [E1 E2].
  pose proof (frame_preserved _ _ h
    (StoreFacts.frame_getDescendantsWithRelationship (List.length h) fuel person allPeople))
    as [F1 F2].
  pose proof (frame_preserved _ _ h
    (StoreFacts.frame_getSiblingsWithRelationship (List.length h) person allPeople))
    as [G1 G2].
  do 8 (split; [assumption |]).
  do 7 (split; [intros a l Ha E; injection E as <-; auto |]).
  split; [| split; [| split]].
  - intros [[d p1 p2 lc | d p | d] |] l Ha E; try discriminate.
    injection E as <-. now destruct (R2 _ Ha).
  - intros [[d p1 p2 lc | d p | d] |] l Ha E; try discriminate.
    injection E as <-. now destruct (R2 _ Ha).
  - intros [[d p1 p2 lc | d p | d] |] l Ha E; try discriminate.
    injection E as <-. exact (R2 _ Ha).
  - apply frame_newPaths, StoreFacts.frame_findAllRelationships.
Qed.

(** ** C10: no in-law term for the gender [Other] *)

Lemma lastChar_app (a b : string) :
  b <> "" -> lastChar (a ++ b)%string = lastChar b.
Proof.
  intros Hb. induction a as [| c a IH]; simpl; [reflexivity |].
  rewrite <- IH. destruct (a ++ b)%string eqn:E; [| reflexivity].
  destruct a; simpl in E; [congruence | discriminate].
Qed.

Lemma inLawDescription_lastChar (g : Gender) (generation : Z) :
  inLawDescription g generation <> "" ->
  lastChar (inLawDescription g generation) = Some ")"%char.
Proof.
  unfold inLawDescription.
  destruct g;
    destruct (generation =? 1)%Z; try reflexivity;
    destruct (generation =? 2)%Z; try reflexivity;
    destruct (generation >? 2)%Z; try congruence;
    intros _; now rewrite lastChar_app.
Qed.

Lemma generatePathDescription_lastChar (path : list Person) :
  lastChar (generatePathDescription path) = Some "."%char.
Proof.
  unfold generatePathDescription.
  destruct path as [| p0 [| p1 rest]]; try reflexivity.
  now rewrite lastChar_app.
Qed.

Lemma findRelationship_inLaw_Other (fuel : nat) (person1Id : string)
    (person1 person2 : Person) (allPeople : list Person) :
  gender person2 = Other ->
  enoughFuel allPeople <= fuel ->
  forall ms,
    findRelationship_inLaw fuel person1Id person1 person2 allPeople ms = Done None.
Proof.
  intros Hg Hfuel. induction ms as [| m rest IH]; simpl; [reflexivity |].
  destruct (getPersonById (spouseId m) allPeople) as [sp |]; [| exact IH].
  destruct (findLcaAndPaths_terminates fuel person1Id (id sp) allPeople Hfuel)
    as [r ->]. simpl.
  destruct r as [r |]; [| exact IH].
  destruct (String.eqb (id (lca r)) person1Id); [| exact IH].
  rewrite Hg. simpl. exact IH.
Qed.

(** C10.  When the gender of person 2 is [Other] (and there is neither a
    marriage of person 1 naming person 2 nor a blood relationship), step C of
    [findRelationship] produces nothing, whoever person 2 is married to: the
    result is the one of the generic path finder, or [NoRelationship] when
    that finds no path, and its description is none of the in-law terms. *)
Theorem C10_no_inLaw_for_Other (fuel : nat) (person1Id person2Id : string)
    (person1 person2 : Person) (allPeople : list Person) :
  getPersonById person1Id allPeople = Some person1 ->
  getPersonById person2Id allPeople = Some person2 ->
  person1Id <> "" -> person2Id <> "" -> person1Id <> person2Id ->
  gender person2 = Other ->
  marriedTo person1 person2Id = false ->
  findLcaAndPaths fuel person1Id person2Id allPeople = Done None ->
  enoughFuel allPeople <= fuel ->
  findRelationship_inLaw fuel person1Id person1 person2 allPeople
    (orEmpty (marriages person2)) = Done None /\
  exists generic rel,
    findGenericPath fuel person1 person2 allPeople = Done generic /\
    rel = match generic with
          | Some pathResult => pathResult
          | None => NoRelationship "No relationship path could be found."
          end /\
    findRelationship fuel person1Id person2Id allPeople = Done (Some rel) /\
    forall g generation,
      inLawDescription g generation <> "" ->
      rel_description rel <> inLawDescription g generation.
Proof.
  intros Hp1 Hp2 Hn1 Hn2 Hne Hg Hm Hl Hfuel.
  pose proof (findRelationship_inLaw_Other fuel person1Id person1 person2 allPeople
                Hg Hfuel (orEmpty (marriages person2))) as Hi.
  split; [exact Hi |].
  destruct (findGenericPath_terminates fuel person1 person2 allPeople) as [generic Hgen].
  { apply getPersonById_In in Hp1.
    pose proof (neighborsOf_length_le allPeople person1 Hp1).
    apply enoughFuel_graphSize in Hfuel. lia. }
  exists generic. eexists. split; [exact Hgen |]. split; [reflexivity |]. split.
  - unfold findRelationship, falsy.
    apply String.eqb_neq in Hn1, Hn2, Hne.
    rewrite Hn1, Hn2, Hne, Hp1, Hp2, Hm, Hl. cbn [orb bind].
    rewrite Hi. cbn [bind]. rewrite Hgen. cbn [bind].
    now destruct generic.
  - intros g generation Hne' E.
    apply inLawDescription_lastChar in Hne'. rewrite <- E in Hne'.
    destruct generic as [rel |].
    + apply findGenericPath_loop_Path in Hgen. destruct Hgen as (path & ->).
      simpl in Hne'. rewrite generatePathDescription_lastChar in Hne'. discriminate.
    + simpl in Hne'. discriminate.
Qed.

(** * Witnesses and counterexamples *)

Lemma C1_three_generation_chain_witness :
  findLcaAndPaths 3 "c" "g" [chainG; chainP; chainC]
    = Done (Some (mkLcaResult chainG [chainC; chainP; chainG] [chainG])) /\
  (gender chainG = Male ->
   describeBloodRelationship chainC chainG chainG [chainC; chainP; chainG] [chainG]
     = Done "Grandfather") /\
  (gender chainG = Female ->
   describeBloodRelationship chainC chainG chainG [chainC; chainP; chainG] [chainG]
     = Done "Grandmother") /\
  (id chainC <> "" -> id chainG <> "" -> marriedTo chainC (id chainG) = false ->
   findRelationship 3 (id chainC) (id chainG) [chainG; chainP; chainC]
     = Done (Some (Blood "Grandfather" [chainC; chainP; chainG] [chainG] chainG))).
Proof.
  apply (C1_three_generation_chain chainG chainP chainC
           [chainG; chainP; chainC] 3);
    solve [ simpl; discriminate | reflexivity | lia ].
Defined.

Lemma C2_cousin_description_witness :
  "1st cousin, twice removed" = cousinDescription 2 4 /\
  ((2 = 3)%Z -> (4 = 3)%Z -> "1st cousin, twice removed" = "2nd cousin") /\
  ((2 = 2)%Z -> (4 = 4)%Z ->
   "1st cousin, twice removed" = "1st cousin, twice removed").
Proof.
  apply (C2_cousin_description 30 "a2" "b4" family "1st cousin, twice removed"
           [famA2; famA1; famR] [famB4; famB3; famB2; famB1; famR] famR).
  - vm_compute. reflexivity.
  - vm_compute. discriminate.
Defined.

Lemma C3_marriage_first_witness :
  findRelationship 0 "a2" "b2" marriedCousins
    = Done (Some (Path "Wife" [marA2; marB2])).
Proof.
  apply (C3_marriage_first 0 marriedCousins marA2 marB2);
    solve [ reflexivity | simpl; discriminate ].
Defined.

(** The two married cousins of the witness do share an ancestor. *)
Example marriedCousins_share_ancestor :
  findLcaAndPaths 30 "a2" "b2" marriedCousins
    = Done (Some (mkLcaResult marR [marA2; marA1; marR] [marB2; marB1; marR])).
Proof. vm_compute. reflexivity. Qed.

(** C4 as stated fails: at the removal 3 ([d1 = 1], [d2 = 4]) the claim
    asks for two "Grand" prefixes, the code gives "Grandnephew", with
    one. *)
Lemma C4_counterexample :
  exists description p1 p2 l,
    findRelationship 30 "a1" "b4" family
      = Done (Some (Blood description p1 p2 l)) /\
    Z.min (len p1 - 1) (len p2 - 1) = 1%Z /\
    Z.abs ((len p1 - 1) - (len p2 - 1)) = 3%Z /\
    description = "Grandnephew" /\
    occurrences "Grand" description <> 2 /\
    description
      <> auntUncleTermAsWorded (gender famB4) (len p1 - 1) (len p2 - 1).
Proof.
  exists "Grandnephew", [famA1; famR], [famB4; famB3; famB2; famB1; famR], famR.
  repeat split; try (vm_compute; reflexivity); vm_compute; discriminate.
Qed.

Lemma C4_aunt_uncle_term_witness :
  "Grandnephew" = auntUncleTerm (gender famB4) 1 4.
Proof.
  apply (C4_aunt_uncle_term 30 "a1" "b4" family famB4 "Grandnephew"
           [famA1; famR] [famB4; famB3; famB2; famB1; famR] famR).
  - vm_compute. reflexivity.
  - reflexivity.
  - reflexivity.
  - vm_compute. discriminate.
Defined.

Lemma C5_paths_are_parent_chains_witness :
  let r := mkLcaResult famR [famA2; famA1; famR]
                       [famB4; famB3; famB2; famB1; famR] in
  (forall i a b,
     nth_error (path1 r) i = Some a -> nth_error (path1 r) (S i) = Some b ->
     In (id b) (orEmpty (parentIds a))) /\
  (forall i a b,
     nth_error (path2 r) i = Some a -> nth_error (path2 r) (S i) = Some b ->
     In (id b) (orEmpty (parentIds a))) /\
  inGraph family (path1 r) /\ inGraph family (path2 r) /\
  hd_error (path1 r) = getPersonById "a2" family /\
  lastPerson (path1 r) = Some (lca r) /\
  hd_error (path2 r) = getPersonById "b4" family /\
  lastPerson (path2 r) = Some (lca r).
Proof.
  apply (C5_paths_are_parent_chains 30 "a2" "b4" family).
  vm_compute. reflexivity.
Defined.

Lemma C6_walks_terminate_witness :
  (exists ancestors, getAncestors 20 cycleA [cycleA; cycleB] = Done ancestors) /\
  (exists results,
     getAncestorsHierarchically 20 cycleA [cycleA; cycleB] = Done results) /\
  (exists descendants, getDescendants 20 cycleA [cycleA; cycleB] = Done descendants) /\
  (exists ids, getAllBloodRelativesIds 20 cycleA [cycleA; cycleB] = Done ids) /\
  (exists r, findLcaAndPaths 20 (id cycleA) (id cycleB) [cycleA; cycleB] = Done r) /\
  (exists r, findGenericPath 20 cycleA cycleB [cycleA; cycleB] = Done r).
Proof.
  apply (C6_walks_terminate 20 cycleA cycleB [cycleA; cycleB]).
  vm_compute. lia.
Defined.

(** On the cycle the ancestor walk returns both people, each once. *)
Example cycle_ancestors :
  getAncestors 20 cycleA [cycleA; cycleB] = Done [cycleB; cycleA] /\
  getAncestorsHierarchically 20 cycleA [cycleA; cycleB]
    = Done [(cycleB, 1%Z); (cycleA, 2%Z)].
Proof. split; vm_compute; reflexivity. Qed.

Lemma emptySlots_unrelated : ~ related emptySlots "x" "y".
Proof.
  assert (Hlink : forall a b, link emptySlots a b ->
                    (In a ["x"; "xm"] <-> In b ["x"; "xm"])).
  { intros a b (pa & pb & Hpa & Hb & Hpb).
    pose proof (getPersonById_id _ _ _ Hpa) as Hid.
    apply getPersonById_In in Hpa. simpl in Hpa.
    destruct Hpa as [<- | [<- | [<- | [<- | []]]]];
      simpl in Hid; subst a; simpl in Hb;
      repeat (destruct Hb as [<- | Hb]; try discriminate Hpb);
      try contradiction; simpl; split; intros H;
      repeat (destruct H as [H | H]; try discriminate H); auto. }
  assert (Hrel : forall a b, related emptySlots a b ->
                   (In a ["x"; "xm"] <-> In b ["x"; "xm"])).
  { intros a b H. induction H as [a b H | a | a b H IH | a b c H1 IH1 H2 IH2].
    - now apply Hlink.
    - tauto.
    - tauto.
    - tauto. }
  intros H. apply Hrel in H. simpl in H.
  assert (Hx : "x" = "x" \/ "xm" = "x" \/ False) by now left.
  apply H in Hx. destruct Hx as [Hx | [Hx | []]]; discriminate.
Qed.

Lemma C7_no_relationship_witness :
  findRelationship 20 "x" "y" emptySlots
    = Done (Some (NoRelationship "No relationship path could be found.")) /\
  findAllRelationships 20 "x" "y" emptySlots
    = Done [NoRelationship "No relationship path could be found."].
Proof.
  apply (C7_no_relationship 20 "x" "y" slotX slotY emptySlots).
  - reflexivity.
  - reflexivity.
  - discriminate.
  - discriminate.
  - exact emptySlots_unrelated.
  - vm_compute. lia.
Defined.

Lemma C10_no_inLaw_for_Other_witness :
  findRelationship_inLaw 20 "p" lawP lawO inLaws (orEmpty (marriages lawO))
    = Done None /\
  exists generic rel,
    findGenericPath 20 lawP lawO inLaws = Done generic /\
    rel = match generic with
          | Some pathResult => pathResult
          | None => NoRelationship "No relationship path could be found."
          end /\
    findRelationship 20 "p" "o" inLaws = Done (Some rel) /\
    forall g generation,
      inLawDescription g generation <> "" ->
      rel_description rel <> inLawDescription g generation.
Proof.
  apply (C10_no_inLaw_for_Other 20 "p" "o" lawP lawO inLaws).
  - reflexivity.
  - reflexivity.
  - discriminate.
  - discriminate.
  - discriminate.
  - reflexivity.
  - reflexivity.
  - vm_compute. reflexivity.
  - vm_compute. lia.
Defined.

(** In the witness person 2 is married to the son of person 1; with the
    gender [Female] step C would answer "Son's Wife (Bahu)", with [Other]
    the generic path is returned. *)
Example inLaws_generic_path :
  findRelationship 20 "p" "o" inLaws
    = Done (Some (Path "p is the father of s, who is the husband of o."
                       [lawP; lawS; lawO])).
Proof. vm_compute. reflexivity. Qed.

(** The store-level functions agree with the value-level ones on the
    example collections. *)
Example store_agrees_on_family :
  fst (Store.bindM (Store.encodePeople family) (fun people =>
       Store.bindM (Store.findRelationship 30 "a2" "b4" people) Store.viewOptRel) [])
    = findRelationship 30 "a2" "b4" family.
Proof. vm_compute. reflexivity. Qed.

Example store_agrees_on_inLaws :
  fst (Store.bindM (Store.encodePeople inLaws) (fun people =>
       Store.bindM (Store.findAllRelationships 30 "p" "o" people) Store.viewRels) [])
    = findAllRelationships 30 "p" "o" inLaws.
Proof. vm_compute. reflexivity. Qed.

Example store_agrees_on_strangers :
  fst (Store.bindM (Store.encodePeople strangers) (fun people =>
       Store.bindM (Store.findAllRelationships 30 "x" "y" people) Store.viewRels) [])
    = findAllRelationships 30 "x" "y" strangers.
Proof. vm_compute. reflexivity. Qed.

Example store_agrees_on_marriedCousins :
  fst (Store.bindM (Store.encodePeople marriedCousins) (fun people =>
       Store.bindM (Store.findAllRelationships 30 "a1" "b2" people) Store.viewRels) [])
    = findAllRelationships 30 "a1" "b2" marriedCousins.
Proof. vm_compute. reflexivity. Qed.

Example store_agrees_on_emptySlots :
  fst (Store.bindM (Store.encodePeople emptySlots) (fun people =>
       Store.bindM (Store.findAllRelationships 30 "x" "y" people) Store.viewRels) [])
    = findAllRelationships 30 "x" "y" emptySlots.
Proof. vm_compute. reflexivity. Qed.

(** The married cousins take 21 cells of the store.  The list that
    [findAllRelationships] returns for them is the new cell 21, and the
    paths of its two relationships are the new cells 58, 30 and 35; the
    common ancestor of the blood relationship is the caller's own [Person]
    object in cell 3. *)
Example store_paths_are_new :
  let stored := Store.encodePeople marriedCousins [] in
  match fst stored with
  | Done people =>
      let r := Store.findAllRelationships 30 "a1" "b2" people (snd stored) in
      List.length (snd stored) = 21 /\ fst r = Done 21 /\
      nth_error (snd r) 21
        = Some (Store.CRels [Store.RPath "Son's Wife" 58;
                             Store.RBlood "niece" 30 35 3])
  | _ => False
  end.
Proof. vm_compute. repeat split. Qed.

Example store_agrees_on_cycle :
  fst (Store.bindM (Store.encodePeople [cycleA; cycleB]) (fun people =>
       Store.bindM (Store.getPersonById "a" people) (fun found =>
       match found with
       | Some person =>
           Store.bindM (Store.getAncestors 20 person people) Store.viewPath
       | None => Store.ret []
       end)) [])
    = getAncestors 20 cycleA [cycleA; cycleB].
Proof. vm_compute. reflexivity. Qed.

Example store_agrees_on_blood_relatives :
  fst (Store.bindM (Store.encodePeople family) (fun people =>
       Store.bindM (Store.getPersonById "a2" people) (fun found =>
       match found with
       | Some person =>
           Store.bindM (Store.getAllBloodRelativesIds 30 person people)
                       Store.readStrings
       | None => Store.ret []
       end)) [])
    = getAllBloodRelativesIds 30 famA2 family.
Proof. vm_compute. reflexivity. Qed.

Example store_agrees_on_levels :
  fst (Store.bindM (Store.encodePeople family) (fun people =>
       Store.bindM (Store.getPersonById "b4" people) (fun found =>
       match found with
       | Some person =>
           Store.bindM (Store.getAncestorsHierarchically 30 person people) (fun results =>
           Store.bindM (Store.readRows results) (fun rows =>
           Store.mapM (fun row =>
             Store.bindM (Store.viewPerson (Store.row_person row)) (fun p =>
             Store.ret (p, match Store.row_level row with
                           | Some level => level
                           | None => 0%Z
                           end))) rows))
       | None => Store.ret []
       end)) [])
    = getAncestorsHierarchically 30 famB4 family.
Proof. vm_compute. reflexivity. Qed.

(** * Further properties of the engine *)

(** ** The walks return exactly the people they can reach *)

Lemma getAncestors_loop_walk (fuel : nat) (allPeople : list Person) :
  forall queue visited acc,
    getAncestors_loop fuel allPeople queue visited acc
    = walk_loop parentsOf fuel allPeople queue visited acc.
Proof.
  induction fuel as [| fuel IH]; intros [| x queue] visited acc; simpl;
    try reflexivity.
  destruct (set_has visited x || falsy x); [apply IH |].
  destruct (getPersonById x allPeople); apply IH.
Qed.

Lemma getDescendants_loop_walk (fuel : nat) (allPeople : list Person) :
  forall queue visited acc,
    getDescendants_loop fuel allPeople queue visited acc
    = walk_loop childrenOf fuel allPeople queue visited acc.
Proof.
  induction fuel as [| fuel IH]; intros [| x queue] visited acc; simpl;
    try reflexivity.
  destruct (set_has visited x || falsy x); [apply IH |].
  destruct (getPersonById x allPeople); apply IH.
Qed.

Lemma falsy_false (x : string) : falsy x = false <-> x <> "".
Proof. unfold falsy. apply String.eqb_neq. Qed.

Section Walk.

Variable edges : Person -> list string.
Variable allPeople : list Person.
Variable start : list string.

Lemma walkInv_skip (x : string) (queue : list string) (visited : JsSet)
    (acc : list Person) :
  walkInv edges allPeople start (x :: queue) visited acc ->
  set_has visited x || falsy x = true ->
  walkInv edges allPeople start queue visited acc.
Proof.
  intros [Hq Ha Hs Hc Hf Hn Hi] Hx.
  assert (Hskip : forall y, y <> "" -> In y visited \/ In y (x :: queue) ->
                    In y visited \/ In y queue).
  { intros y Hy [H | [<- | H]]; auto.
    apply orb_true_iff in Hx. destruct Hx as [Hx | Hx].
    - left. now apply set_has_In.
    - unfold falsy in Hx. apply String.eqb_eq in Hx. contradiction. }
  constructor; auto.
  - intros y Hy. apply Hq. now right.
  - intros p y Hp Hy Hne. apply Hskip; eauto.
Qed.

Lemma walkInv_missing (x : string) (queue : list string) (visited : JsSet)
    (acc : list Person) :
  walkInv edges allPeople start (x :: queue) visited acc ->
  getPersonById x allPeople = None ->
  walkInv edges allPeople start queue (set_add x visited) acc.
Proof.
  intros [Hq Ha Hs Hc Hf Hn Hi] Hx.
  assert (Hmove : forall y, In y visited \/ In y (x :: queue) ->
                    In y (set_add x visited) \/ In y queue).
  { intros y [H | [<- | H]]; auto; left; apply In_set_add; auto. }
  constructor; auto.
  - intros y Hy. apply Hq. now right.
  - intros p y Hp Hy Hne. apply Hmove; eauto.
  - intros y p Hy Hp. apply In_set_add in Hy. destruct Hy as [-> | Hy]; eauto.
    congruence.
  - intros p Hp. apply In_set_add. right. auto.
Qed.

Lemma walkInv_visit (x : string) (p : Person) (queue : list string)
    (visited : JsSet) (acc : list Person) :
  walkInv edges allPeople start (x :: queue) visited acc ->
  set_has visited x = false -> x <> "" ->
  getPersonById x allPeople = Some p ->
  walkInv edges allPeople start
    (queue ++ filter (fun y => negb (set_has (set_add x visited) y)) (edges p))
    (set_add x visited) (acc ++ [p]).
Proof.
  intros [Hq Ha Hs Hc Hf Hn Hi] Hx Hne Hp.
  assert (Hreach : reaches edges allPeople start p).
  { destruct (Hq x (or_introl eq_refl)) as [H | (q & Hr & H)].
    - eapply reaches_start; eauto.
    - eapply reaches_step; eauto. }
  assert (Hmove : forall y, In y visited \/ In y (x :: queue) ->
                    In y (set_add x visited) \/
                    In y (queue ++ filter (fun z => negb (set_has (set_add x visited) z))
                                          (edges p))).
  { intros y [H | [<- | H]].
    - left. apply In_set_add. auto.
    - left. apply In_set_add. auto.
    - right. apply in_or_app. auto. }
  constructor.
  - intros y Hy. apply in_app_or in Hy. destruct Hy as [Hy | Hy].
    + apply Hq. now right.
    + apply filter_In in Hy. right. exists p. tauto.
  - intros q Hq'. apply in_app_or in Hq'. destruct Hq' as [Hq' | [<- | []]]; auto.
  - intros y Hy Hy'. apply Hmove; auto.
  - intros q y Hq' Hy Hy'. apply in_app_or in Hq'.
    destruct Hq' as [Hq' | [<- | []]].
    + apply Hmove; eauto.
    + destruct (set_has (set_add x visited) y) eqn:E.
      * left. now apply set_has_In.
      * right. apply in_or_app. right. apply filter_In. split; auto.
        now rewrite E.
  - intros y q Hy Hq'. apply in_or_app. apply In_set_add in Hy.
    destruct Hy as [-> | Hy]; [right; left; congruence | left; eauto].
  - rewrite map_app. simpl. apply NoDup_app; auto.
    + repeat constructor. intros [].
    + intros i Hi1 [<- | []]. apply in_map_iff in Hi1.
      destruct Hi1 as (q & E & Hq'). apply Hi in Hq'.
      rewrite E, (getPersonById_id _ _ _ Hp) in Hq'.
      apply set_has_false in Hx. contradiction.
  - intros q Hq'. apply In_set_add. apply in_app_or in Hq'.
    destruct Hq' as [Hq' | [<- | []]]; [right; auto | left].
    apply (getPersonById_id _ _ _ Hp).
Qed.

Lemma walk_loop_inv (fuel : nat) :
  forall queue visited acc r,
    walkInv edges allPeople start queue visited acc ->
    walk_loop edges fuel allPeople queue visited acc = Done r ->
    exists visited', walkInv edges allPeople start [] visited' r.
Proof.
  induction fuel as [| fuel IH]; intros [| x queue] visited acc r Hinv H;
    simpl in H; try discriminate.
  - injection H as <-. eauto.
  - injection H as <-. eauto.
  - destruct (set_has visited x || falsy x) eqn:Hx.
    + eapply IH; [| exact H]. eapply walkInv_skip; eauto.
    + apply orb_false_iff in Hx. destruct Hx as [Hx1 Hx2].
      apply falsy_false in Hx2.
      destruct (getPersonById x allPeople) as [p |] eqn:Hp.
      * eapply IH; [| exact H]. now apply walkInv_visit.
      * eapply IH; [| exact H]. now apply walkInv_missing.
Qed.

Lemma walk_loop_reaches (fuel : nat) (r : list Person) :
  walk_loop edges fuel allPeople start [] [] = Done r ->
  NoDup (map id r) /\ forall p, In p r <-> reaches edges allPeople start p.
Proof.
  intros H.
  assert (Hinit : walkInv edges allPeople start start [] []).
  { constructor; simpl; try tauto; auto. constructor. }
  pose proof (walk_loop_inv fuel start [] [] r Hinit H) as Hfinal.
  destruct Hfinal as (v & [Hq Ha Hs Hc Hf Hn Hi]).
  split; [exact Hn |]. intros p. split; [apply Ha |].
  intros Hr. induction Hr as [x p Hx Hne Hp | q x p Hr IH Hx Hne Hp].
  - destruct (Hs x Hx Hne) as [Hv | []]. eauto.
  - destruct (Hc q x IH Hx Hne) as [Hv | []]. eauto.
Qed.

End Walk.

(** X1.  With fuel for as many iterations as the collection has edge
    entries, [getAncestors] returns a list that holds every person once and
    holds exactly the people reached from the person's [parentIds] by
    following [parentIds] through non-empty ids that name a person of the
    collection. *)
Theorem X1_getAncestors_exact (fuel : nat) (person : Person)
    (allPeople : list Person) :
  List.length (parentsOf person) + graphSize allPeople <= fuel ->
  exists ancestors,
    getAncestors fuel person allPeople = Done ancestors /\
    NoDup (map id ancestors) /\
    forall p, In p ancestors <-> ancestorOf allPeople person p.
Proof.
  intros Hfuel.
  destruct (getAncestors_terminates fuel person allPeople Hfuel) as [r Hr].
  exists r. split; [exact Hr |].
  unfold getAncestors in Hr. rewrite getAncestors_loop_walk in Hr.
  now apply walk_loop_reaches in Hr.
Qed.

Lemma X1_getAncestors_exact_witness :
  exists ancestors,
    getAncestors 30 famB4 family = Done ancestors /\
    NoDup (map id ancestors) /\
    forall p, In p ancestors <-> ancestorOf family famB4 p.
Proof.
  apply (X1_getAncestors_exact 30 famB4 family). vm_compute. lia.
Defined.

(** X2.  Likewise [getDescendants] returns, each once, exactly the people
    reached from the person's [childrenIds] by following [childrenIds]. *)
Theorem X2_getDescendants_exact (fuel : nat) (person : Person)
    (allPeople : list Person) :
  List.length (childrenOf person) + graphSize allPeople <= fuel ->
  exists descendants,
    getDescendants fuel person allPeople = Done descendants /\
    NoDup (map id descendants) /\
    forall p, In p descendants <-> descendantOf allPeople person p.
Proof.
  intros Hfuel.
  destruct (getDescendants_terminates fuel person allPeople Hfuel) as [r Hr].
  exists r. split; [exact Hr |].
  unfold getDescendants in Hr. rewrite getDescendants_loop_walk in Hr.
  now apply walk_loop_reaches in Hr.
Qed.

Lemma X2_getDescendants_exact_witness :
  exists descendants,
    getDescendants 30 famR family = Done descendants /\
    NoDup (map id descendants) /\
    forall p, In p descendants <-> descendantOf family famR p.
Proof.
  apply (X2_getDescendants_exact 30 famR family). vm_compute. lia.
Defined.

(** ** The blood relatives *)

Lemma fold_set_add_In (l : list Person) :
  forall (s : JsSet) (i : string),
    In i (fold_left (fun s d => set_add (id d) s) l s)
    <-> In i s \/ In i (map id l).
Proof.
  induction l as [| d l IH]; simpl; intros s i; [tauto |].
  rewrite IH, In_set_add. intuition auto.
Qed.

Lemma fold_set_add_NoDup (l : list Person) :
  forall s : JsSet,
    NoDup s -> NoDup (fold_left (fun s d => set_add (id d) s) l s).
Proof.
  induction l as [| d l IH]; simpl; intros s Hs; auto using set_add_NoDup.
Qed.

Lemma fold_set_add_hd (l : list Person) :
  forall (s : JsSet) (x : string),
    hd_error s = Some x ->
    hd_error (fold_left (fun s d => set_add (id d) s) l s) = Some x.
Proof.
  induction l as [| d l IH]; simpl; intros s x Hs; auto.
  apply IH. unfold set_add. destruct (set_has s (id d)); auto.
  destruct s; simpl in *; [discriminate | assumption].
Qed.

Lemma getAllBloodRelativesIds_loop_exact (fuel : nat) (allPeople : list Person) :
  forall allProgenitors bloodRelatives r,
    getAllBloodRelativesIds_loop fuel allPeople allProgenitors bloodRelatives
      = Done r ->
    (NoDup bloodRelatives -> NoDup r) /\
    (forall x, hd_error bloodRelatives = Some x -> hd_error r = Some x) /\
    forall i,
      In i r <->
      In i bloodRelatives \/
      exists progenitor,
        In progenitor allProgenitors /\
        (i = id progenitor \/
         exists d, descendantOf allPeople progenitor d /\ i = id d).
Proof.
  induction allProgenitors as [| g rest IH]; simpl; intros s r H.
  - injection H as <-. split; [auto |]. split; [auto |].
    intros i. split; [auto |]. intros [Hi | (g & [] & _)]. exact Hi.
  - destruct (getDescendants fuel g allPeople) as [ds | |] eqn:Hd;
      simpl in H; try discriminate.
    assert (Hds : forall p, In p ds <-> descendantOf allPeople g p).
    { unfold getDescendants in Hd. rewrite getDescendants_loop_walk in Hd.
      now apply walk_loop_reaches in Hd. }
    apply IH in H. destruct H as (Hn & Hh & Hi). split; [| split].
    + intros Hs. apply Hn. apply fold_set_add_NoDup. now apply set_add_NoDup.
    + intros x Hx. apply Hh. apply fold_set_add_hd.
      unfold set_add. destruct (set_has s (id g)); auto.
      destruct s; simpl in *; [discriminate | assumption].
    + intros i. rewrite Hi, fold_set_add_In, In_set_add. split.
      * intros [[[-> | Hs] | Hm] | (q & Hq & Hq')].
        -- right. exists g. auto.
        -- now left.
        -- right. exists g. split; [now left |]. right.
           apply in_map_iff in Hm. destruct Hm as (d & <- & Hd').
           exists d. split; [now apply Hds | reflexivity].
        -- right. exists q. auto.
      * intros [Hs | (q & [<- | Hq] & Hq')].
        -- auto.
        -- destruct Hq' as [-> | (d & Hd' & ->)]; [auto |].
           left. right. apply in_map. now apply Hds.
        -- right. eauto.
Qed.

Lemma getAllBloodRelativesIds_members (fuel : nat) (focalPerson : Person)
    (allPeople : list Person) (r : list string) :
  getAllBloodRelativesIds fuel focalPerson allPeople = Done r ->
  NoDup r /\
  hd_error r = Some (id focalPerson) /\
  forall i,
    In i r <->
    exists progenitor,
      (progenitor = focalPerson \/ ancestorOf allPeople focalPerson progenitor) /\
      (i = id progenitor \/
       exists d, descendantOf allPeople progenitor d /\ i = id d).
Proof.
  intros Hr.
  unfold getAllBloodRelativesIds in Hr.
  destruct (getAncestors fuel focalPerson allPeople) as [a | |] eqn:Ha;
    simpl in Hr; try discriminate.
  assert (Has : forall p, In p a <-> ancestorOf allPeople focalPerson p).
  { unfold getAncestors in Ha. rewrite getAncestors_loop_walk in Ha.
    now apply walk_loop_reaches in Ha. }
  change (getAllBloodRelativesIds_loop fuel allPeople (focalPerson :: a) [] = Done r)
    in Hr.
  pose proof (getAllBloodRelativesIds_loop_exact fuel allPeople _ _ _ Hr)
    as (Hn & Hh & Hi).
  split; [apply Hn; constructor |]. split.
  - clear Hn Hh Hi. simpl in Hr.
    destruct (getDescendants fuel focalPerson allPeople) as [ds | |];
      simpl in Hr; try discriminate.
    apply getAllBloodRelativesIds_loop_exact in Hr.
    destruct Hr as (_ & Hh & _). apply Hh. now apply fold_set_add_hd.
  - intros i. rewrite Hi. split.
    + intros [[] | (g & [<- | Hg] & Hg')].
      * exists focalPerson. auto.
      * exists g. split; [right; now apply Has | exact Hg'].
    + intros (g & [-> | Hg] & Hg'); right.
      * exists focalPerson. split; [now left | exact Hg'].
      * exists g. split; [right; now apply Has | exact Hg'].
Qed.

(** X3.  [getAllBloodRelativesIds] returns a set, without a repeated id and
    with the id of the focal person first, that holds exactly the ids of the
    progenitors (the focal person and its ancestors) and of the descendants
    of each progenitor. *)
Theorem X3_getAllBloodRelativesIds_exact (fuel : nat) (focalPerson : Person)
    (allPeople : list Person) :
  List.length (neighborsOf focalPerson) + 2 * graphSize allPeople <= fuel ->
  exists ids,
    getAllBloodRelativesIds fuel focalPerson allPeople = Done ids /\
    NoDup ids /\
    hd_error ids = Some (id focalPerson) /\
    forall i,
      In i ids <->
      exists progenitor,
        (progenitor = focalPerson \/ ancestorOf allPeople focalPerson progenitor) /\
        (i = id progenitor \/
         exists d, descendantOf allPeople progenitor d /\ i = id d).
Proof.
  intros Hfuel.
  destruct (getAllBloodRelativesIds_terminates fuel focalPerson allPeople)
    as [r Hr]; try lia.
  exists r. split; [exact Hr |].
  now apply getAllBloodRelativesIds_members in Hr.
Qed.

Lemma X3_getAllBloodRelativesIds_exact_witness :
  exists ids,
    getAllBloodRelativesIds 40 famA2 family = Done ids /\
    NoDup ids /\
    hd_error ids = Some (id famA2) /\
    forall i,
      In i ids <->
      exists progenitor,
        (progenitor = famA2 \/ ancestorOf family famA2 progenitor) /\
        (i = id progenitor \/
         exists d, descendantOf family progenitor d /\ i = id d).
Proof.
  apply (X3_getAllBloodRelativesIds_exact 40 famA2 family). vm_compute. lia.
Defined.

(** ** [findLcaAndPaths] finds a common ancestor whenever there is one *)

Lemma upFrom_trans (allPeople : list Person) (a b c : string) :
  upFrom allPeople a b -> upFrom allPeople b c -> upFrom allPeople a c.
Proof.
  intros Hab Hbc. induction Hbc; [assumption | eapply upFrom_step; eauto].
Qed.

Lemma upFrom_start_exists (allPeople : list Person) (a x : string) (p : Person) :
  upFrom allPeople a x -> getPersonById x allPeople = Some p ->
  getPersonById a allPeople <> None.
Proof.
  intros H. revert p. induction H as [| x q y H IH Hq Hy]; intros p Hp.
  - congruence.
  - eapply IH; eauto.
Qed.

Lemma p1Ancestors_loop_closureInv (allPeople : list Person) (person1Id : string)
    (fuel : nat) :
  forall queue visited m m',
    closureInv allPeople person1Id queue visited m ->
    p1Ancestors_loop fuel allPeople queue visited m = Done m' ->
    exists visited', closureInv allPeople person1Id [] visited' m'.
Proof.
  induction fuel as [| fuel IH]; intros [| x queue] visited m m' Hinv H;
    simpl in H; try discriminate; try (injection H as <-; eauto).
  destruct Hinv as [Hq Hm Hs Hc Hf].
  destruct (set_has visited x) eqn:Hx.
  - apply set_has_In in Hx. eapply IH; [| exact H]. constructor; auto.
    + intros y Hy. apply Hq. now right.
    + destruct Hs as [Hs | [<- | Hs]]; auto.
    + intros z p y Hz Hp Hy.
      destruct (Hc z p y Hz Hp Hy) as [H1 | [<- | H1]]; auto.
  - apply set_has_false in Hx.
    destruct (getPersonById x allPeople) as [p |] eqn:Hp.
    + eapply IH; [| exact H]. constructor.
      * intros y Hy. apply in_app_or in Hy. destruct Hy as [Hy | Hy].
        -- apply Hq. now right.
        -- eapply upFrom_step; [apply Hq; now left | exact Hp | exact Hy].
      * intros y q. rewrite map_get_set.
        destruct (String.eqb x y) eqn:E.
        -- apply String.eqb_eq in E. subst y. intros E'. injection E' as <-.
           split; [exact Hp | apply Hq; now left].
        -- apply Hm.
      * destruct Hs as [Hs | [<- | Hs]].
        -- left. apply In_set_add. auto.
        -- left. apply In_set_add. auto.
        -- right. apply in_or_app. auto.
      * intros z q y Hz Hq' Hy. apply In_set_add in Hz.
        destruct Hz as [-> | Hz].
        -- right. apply in_or_app. right.
           assert (q = p) by congruence. subst q. exact Hy.
        -- destruct (Hc z q y Hz Hq' Hy) as [H1 | [<- | H1]].
           ++ left. apply In_set_add. auto.
           ++ left. apply In_set_add. auto.
           ++ right. apply in_or_app. auto.
      * intros z q Hz Hq'. rewrite map_get_set. apply In_set_add in Hz.
        destruct (String.eqb x z) eqn:E.
        -- apply String.eqb_eq in E. subst z. congruence.
        -- destruct Hz as [-> | Hz]; [now rewrite String.eqb_refl in E | auto].
    + eapply IH; [| exact H]. constructor; auto.
      * intros y Hy. apply Hq. now right.
      * destruct Hs as [Hs | [<- | Hs]]; auto; left; apply In_set_add; auto.
      * intros z q y Hz Hq' Hy. apply In_set_add in Hz.
        destruct Hz as [-> | Hz]; [congruence |].
        destruct (Hc z q y Hz Hq' Hy) as [H1 | [<- | H1]]; auto;
          left; apply In_set_add; auto.
      * intros z q Hz Hq'. apply In_set_add in Hz.
        destruct Hz as [-> | Hz]; [congruence | auto].
Qed.

Lemma p1Ancestors_loop_closureOk (allPeople : list Person) (person1Id : string)
    (fuel : nat) (m : JsMap) :
  p1Ancestors_loop fuel allPeople [person1Id] [] [] = Done m ->
  closureOk allPeople person1Id m.
Proof.
  intros H.
  apply p1Ancestors_loop_closureInv with (person1Id := person1Id) in H.
  - destruct H as (v & [Hq Hm Hs Hc Hf]). intros x p. split; [apply Hm |].
    intros [Hp Hup]. apply Hf; [| exact Hp].
    clear p Hp. induction Hup as [| x q y Hup IH Hq' Hy].
    + destruct Hs as [Hs | []]. exact Hs.
    + destruct (Hc x q y IH Hq' Hy) as [H1 | []]. exact H1.
  - constructor; simpl; try tauto.
    + intros x [<- | []]. constructor.
    + discriminate.
Qed.

Lemma getPathToAncestor_parents_search (allPeople : list Person) (endId : string)
    (path : list Person) :
  getPersonById endId allPeople <> None ->
  forall parents queue visited queue' visited',
    getPathToAncestor_parents allPeople endId path parents queue visited
      = inr (queue', visited') ->
    ~ In endId visited ->
    ~ In endId visited' /\
    (forall y, In y parents -> In y visited') /\
    (forall z, In z visited -> In z visited') /\
    (forall z, In z (map fst queue) -> In z (map fst queue')) /\
    (forall z, In z visited' ->
       In z visited \/ In z (map fst queue') \/ getPersonById z allPeople = None).
Proof.
  intros Hend.
  induction parents as [| y rest IH]; simpl; intros queue visited queue' visited' H He.
  - injection H as <- <-. repeat split; auto. intros y [].
  - destruct (set_has visited y) eqn:Hy.
    + apply set_has_In in Hy. apply IH in H; auto.
      destruct H as (H1 & H2 & H3 & H4 & H5). repeat split; auto.
      intros z [<- | Hz]; auto.
    + destruct (getPersonById y allPeople) as [pp |] eqn:Hpp.
      * destruct (String.eqb y endId) eqn:E; [discriminate |].
        apply String.eqb_neq in E. apply IH in H.
        -- destruct H as (H1 & H2 & H3 & H4 & H5).
           assert (Hy' : In y visited') by (apply H3, In_set_add; auto).
           repeat split; auto.
           ++ intros z [<- | Hz]; auto.
           ++ intros z Hz. apply H3, In_set_add. auto.
           ++ intros z Hz. apply H4. rewrite map_app. apply in_or_app. auto.
           ++ intros z Hz. destruct (H5 z Hz) as [Hz' | [Hz' | Hz']]; auto.
              apply In_set_add in Hz'. destruct Hz' as [-> | Hz']; auto.
              right. left. apply H4. rewrite map_app. apply in_or_app.
              right. now left.
        -- intros Hin. apply In_set_add in Hin. destruct Hin; congruence.
      * apply IH in H.
        -- destruct H as (H1 & H2 & H3 & H4 & H5).
           assert (Hy' : In y visited') by (apply H3, In_set_add; auto).
           repeat split; auto.
           ++ intros z [<- | Hz]; auto.
           ++ intros z Hz. apply H3, In_set_add. auto.
           ++ intros z Hz. destruct (H5 z Hz) as [Hz' | [Hz' | Hz']]; auto.
              apply In_set_add in Hz'. destruct Hz' as [-> | Hz']; auto.
        -- intros Hin. apply In_set_add in Hin. destruct Hin as [-> | Hin]; auto.
Qed.

Lemma upFrom_closed (allPeople : list Person) (startId : string)
    (visited : list string) :
  In startId visited ->
  (forall x p y, In x visited -> getPersonById x allPeople = Some p ->
                 In y (parentsOf p) -> In y visited) ->
  forall z, upFrom allPeople startId z -> In z visited.
Proof.
  intros Hs Hc z Hup. induction Hup as [| x p y Hup IH Hp Hy]; eauto.
Qed.

Lemma getPathToAncestor_loop_complete (allPeople : list Person)
    (startId endId : string) (fuel : nat) :
  getPersonById endId allPeople <> None ->
  upFrom allPeople startId endId ->
  forall queue visited,
    searchInv allPeople startId endId queue visited ->
    getPathToAncestor_loop fuel allPeople endId queue visited <> Done None.
Proof.
  intros Hend Hup.
  induction fuel as [| fuel IH]; intros [| [x path] queue] visited Hinv;
    simpl; try discriminate.
  - (* the queue is empty: everything above the start has been seen *)
    intros _. destruct Hinv as [Hs He Hc]. apply He.
    apply (upFrom_closed allPeople startId visited); auto.
    intros x p y Hx Hp Hy. destruct (Hc x Hx) as [[] | Hc']. eauto.
  - intros _. destruct Hinv as [Hs He Hc]. apply He.
    apply (upFrom_closed allPeople startId visited); auto.
    intros x p y Hx Hp Hy. destruct (Hc x Hx) as [[] | Hc']. eauto.
  - destruct Hinv as [Hs He Hc].
    assert (Hdrop : forall p, getPersonById x allPeople = Some p ->
                      parentsOf p = [] ->
                      searchInv allPeople startId endId queue visited).
    { intros p Hp Hnil. constructor; auto. intros z Hz.
      destruct (Hc z Hz) as [[<- | Hq] | Hq]; auto.
      right. intros q y Hq' Hy. simpl in Hq'.
      assert (q = p) by congruence. subst q. rewrite Hnil in Hy. destruct Hy. }
    destruct (getPersonById x allPeople) as [cp |] eqn:Hcp.
    + destruct (parentIds cp) as [parents |] eqn:Hps.
      * destruct (getPathToAncestor_parents allPeople endId path parents queue visited)
          as [newPath | [queue' visited']] eqn:Hin; [discriminate |].
        apply getPathToAncestor_parents_search in Hin; auto.
        destruct Hin as (H1 & H2 & H3 & H4 & H5).
        apply IH. constructor; auto. intros z Hz.
        destruct (H5 z Hz) as [Hz' | [Hz' | Hz']]; auto.
        -- destruct (Hc z Hz') as [[<- | Hq] | Hq].
           ++ right. intros q y Hq' Hy. simpl in Hq'.
              assert (q = cp) by congruence. subst q.
              apply H2. unfold parentsOf in Hy. now rewrite Hps in Hy.
           ++ auto.
           ++ right. intros q y Hq' Hy. eauto.
        -- right. intros q y Hq'. congruence.
      * apply IH. apply (Hdrop cp eq_refl). unfold parentsOf. now rewrite Hps.
    + apply IH. constructor; auto. intros z Hz.
      destruct (Hc z Hz) as [[<- | Hq] | Hq]; auto.
      right. intros q y Hq'. simpl in Hq'. congruence.
Qed.

Lemma getPathToAncestor_complete (fuel : nat) (allPeople : list Person)
    (startId endId : string) :
  getPersonById startId allPeople <> None ->
  getPersonById endId allPeople <> None ->
  upFrom allPeople startId endId ->
  getPathToAncestor fuel allPeople startId endId <> Done None.
Proof.
  intros Hs He Hup. unfold getPathToAncestor.
  destruct (getPersonById startId allPeople) as [sp |]; [| congruence].
  destruct (String.eqb startId endId) eqn:E; [discriminate |].
  apply String.eqb_neq in E.
  apply getPathToAncestor_loop_complete with (startId := startId); auto.
  constructor.
  - now left.
  - intros [H | []]. congruence.
  - intros z [<- | []]. left. now left.
Qed.

Lemma queue2_parents_spec :
  forall parents queue visited queue' visited',
    queue2_parents parents queue visited = (queue', visited') ->
    (forall y, In y parents -> In y visited') /\
    (forall z, In z visited -> In z visited') /\
    (forall z, In z queue -> In z queue') /\
    (forall z, In z visited' -> In z visited \/ (In z parents /\ In z queue')) /\
    (forall z, In z queue' -> In z queue \/ In z parents).
Proof.
  induction parents as [| y rest IH]; simpl; intros queue visited queue' visited' H.
  - injection H as <- <-. repeat split; auto. intros y [].
  - destruct (set_has visited y) eqn:Hy.
    + apply set_has_In in Hy. apply IH in H.
      destruct H as (H1 & H2 & H3 & H4 & H5). repeat split; auto.
      * intros z [<- | Hz]; auto.
      * intros z Hz. destruct (H4 z Hz) as [Hz' | [Hz' Hz'']]; auto.
      * intros z Hz. destruct (H5 z Hz); auto.
    + apply IH in H. destruct H as (H1 & H2 & H3 & H4 & H5).
      assert (Hy' : In y visited') by (apply H2, In_set_add; auto).
      assert (Hq : In y queue') by (apply H3, in_or_app; right; now left).
      repeat split; auto.
      * intros z [<- | Hz]; auto.
      * intros z Hz. apply H2, In_set_add. auto.
      * intros z Hz. apply H3, in_or_app. auto.
      * intros z Hz. destruct (H4 z Hz) as [Hz' | [Hz' Hz'']]; auto.
        apply In_set_add in Hz'. destruct Hz' as [-> | Hz']; auto.
      * intros z Hz. destruct (H5 z Hz) as [Hz' | Hz']; auto.
        apply in_app_or in Hz'. destruct Hz' as [Hz' | [<- | []]]; auto.
Qed.

Lemma queue2_push_inv (allPeople : list Person) (person2Id : string) (m : JsMap)
    (x : string) (queue : list string) (visited : JsSet) :
  queue2Inv allPeople person2Id m (x :: queue) visited ->
  map_get m x = None ->
  queue2Inv allPeople person2Id m
    (fst (queue2_push allPeople x queue visited))
    (snd (queue2_push allPeople x queue visited)).
Proof.
  intros [Hs Hu Hb Hc] Hm. unfold queue2_push.
  destruct (getPersonById x allPeople) as [p |] eqn:Hp.
  - destruct (queue2_parents (orEmpty (parentIds p)) queue visited)
      as [queue' visited'] eqn:E. simpl.
    apply queue2_parents_spec in E. destruct E as (H1 & H2 & H3 & H4 & H5).
    assert (Hx : upFrom allPeople person2Id x) by (apply Hu, Hb; now left).
    constructor; auto.
    + intros z Hz. destruct (H4 z Hz) as [Hz' | [Hz' _]]; auto.
      eapply upFrom_step; eauto.
    + intros z Hz. destruct (H5 z Hz) as [Hz' | Hz']; auto.
      apply H2, Hb. now right.
    + intros z Hz. destruct (H4 z Hz) as [Hz' | [_ Hz']]; auto.
      destruct (Hc z Hz') as [[<- | Hq] | [Hq1 Hq2]]; auto.
      * right. split; [exact Hm |]. intros q y Hq Hy.
        assert (q = p) by congruence. subst q. now apply H1.
      * right. split; [exact Hq1 |]. eauto.
  - simpl. constructor; auto.
    + intros z Hz. apply Hb. now right.
    + intros z Hz. destruct (Hc z Hz) as [[<- | Hq] | Hq]; auto.
      right. split; [exact Hm |]. intros q y Hq. congruence.
Qed.

Lemma queue2_loop_common (allPeople : list Person) (person1Id person2Id : string)
    (m : JsMap) (fuel : nat) :
  closureOk allPeople person1Id m ->
  forall queue2 visited2 o,
    queue2Inv allPeople person2Id m queue2 visited2 ->
    queue2_loop fuel allPeople person1Id person2Id m queue2 visited2 = Done o ->
    match o with
    | Some r => commonAncestor allPeople person1Id person2Id (lca r)
    | None => forall c, ~ commonAncestor allPeople person1Id person2Id c
    end.
Proof.
  intros Hm.
  assert (Hend : forall visited2,
            queue2Inv allPeople person2Id m [] visited2 ->
            forall c, ~ commonAncestor allPeople person1Id person2Id c).
  { intros visited2 [Hs Hu Hb Hc] c (Hc1 & Hc2 & Hc3).
    assert (Hin : In (id c) visited2).
    { apply (upFrom_closed allPeople person2Id visited2); auto.
      intros x p y Hx Hp Hy. destruct (Hc x Hx) as [[] | [_ Hc']]. eauto. }
    destruct (Hc _ Hin) as [[] | [Hnone _]].
    assert (Hsome : map_get m (id c) = Some c) by (apply Hm; auto).
    congruence. }
  induction fuel as [| fuel IH]; intros [| x queue] visited o Hinv H;
    try discriminate.
  - injection H as <-. eauto.
  - injection H as <-. eauto.
  - cbn [queue2_loop] in H. cbv zeta in H.
    destruct (map_get m x) as [l |] eqn:Hl.
    + apply Hm in Hl. destruct Hl as [Hl Hup1].
      pose proof (getPersonById_id _ _ _ Hl) as Hid.
      assert (Hup2 : upFrom allPeople person2Id x).
      { destruct Hinv as [_ Hu Hb _]. apply Hu, Hb. now left. }
      assert (E1 : getPathToAncestor (S fuel) allPeople person1Id (id l) <> Done None).
      { rewrite Hid. apply getPathToAncestor_complete; auto; try congruence.
        eapply upFrom_start_exists; eauto. }
      assert (E2 : getPathToAncestor (S fuel) allPeople person2Id (id l) <> Done None).
      { rewrite Hid. apply getPathToAncestor_complete; auto; try congruence.
        eapply upFrom_start_exists; eauto. }
      destruct (getPathToAncestor (S fuel) allPeople person1Id (id l))
        as [[p1 |] | |]; simpl in H; try discriminate; try congruence.
      destruct (getPathToAncestor (S fuel) allPeople person2Id (id l))
        as [[p2 |] | |]; simpl in H; try discriminate; try congruence.
      injection H as <-. simpl. unfold commonAncestor. rewrite Hid. auto.
    + eapply IH; [| exact H]. now apply queue2_push_inv.
Qed.

Lemma findLcaAndPaths_common (fuel : nat) (person1Id person2Id : string)
    (allPeople : list Person) (o : option LcaResult) :
  findLcaAndPaths fuel person1Id person2Id allPeople = Done o ->
  match o with
  | Some r => commonAncestor allPeople person1Id person2Id (lca r)
  | None => forall c, ~ commonAncestor allPeople person1Id person2Id c
  end.
Proof.
  intros Ho. unfold findLcaAndPaths in Ho.
  destruct (p1Ancestors_loop fuel allPeople [person1Id] [] []) as [m | |] eqn:Hm;
    simpl in Ho; try discriminate.
  apply p1Ancestors_loop_closureOk in Hm.
  eapply queue2_loop_common; [exact Hm | | exact Ho].
  constructor.
  - now left.
  - intros x [<- | []]. constructor.
  - auto.
  - intros x [<- | []]. left. now left.
Qed.

(** X4.  With enough fuel [findLcaAndPaths] returns a result exactly when
    the two ids have a common ancestor (a person of the collection to whom
    both lead by following [parentIds] through people of the collection, the
    two themselves included), and the [lca] it returns is one; it returns
    [null] exactly when they have none. *)
Theorem X4_findLcaAndPaths_complete (fuel : nat) (person1Id person2Id : string)
    (allPeople : list Person) :
  enoughFuel allPeople <= fuel ->
  (exists r,
     findLcaAndPaths fuel person1Id person2Id allPeople = Done (Some r) /\
     commonAncestor allPeople person1Id person2Id (lca r)) \/
  (findLcaAndPaths fuel person1Id person2Id allPeople = Done None /\
   forall c, ~ commonAncestor allPeople person1Id person2Id c).
Proof.
  intros Hfuel.
  destruct (findLcaAndPaths_terminates fuel person1Id person2Id allPeople Hfuel)
    as [o Ho].
  pose proof (findLcaAndPaths_common _ _ _ _ _ Ho) as Hspec.
  destruct o as [r |]; [left; exists r | right]; auto.
Qed.

Lemma X4_findLcaAndPaths_complete_witness :
  (exists r,
     findLcaAndPaths 30 "a2" "b4" family = Done (Some r) /\
     commonAncestor family "a2" "b4" (lca r)) \/
  (findLcaAndPaths 30 "a2" "b4" family = Done None /\
   forall c, ~ commonAncestor family "a2" "b4" c).
Proof.
  apply (X4_findLcaAndPaths_complete 30 "a2" "b4" family). vm_compute. lia.
Defined.

(** ** The generic path finder finds a path whenever there is one *)

Lemma stepsAreEdges_single (p : Person) : stepsAreEdges [p].
Proof.
  intros i a b Ha Hb. destruct i as [| i]; simpl in Hb; [discriminate |].
  destruct i; discriminate.
Qed.

Lemma stepsAreEdges_app (path : list Person) (cur x : Person) :
  stepsAreEdges path -> lastPerson path = Some cur ->
  In (id x) (neighborsOf cur) -> stepsAreEdges (path ++ [x]).
Proof.
  intros Hsteps Hlast Hx i a b Ha Hb.
  assert (Hi : S i < List.length (path ++ [x])).
  { apply nth_error_Some. congruence. }
  rewrite length_app in Hi. simpl in Hi.
  destruct (Nat.eq_dec (S i) (List.length path)) as [E | NE].
  - rewrite nth_error_app1 in Ha by lia.
    rewrite nth_error_app2 in Hb by lia.
    rewrite E, Nat.sub_diag in Hb. simpl in Hb. injection Hb as <-.
    unfold lastPerson in Hlast. rewrite <- E in Hlast. simpl in Hlast.
    rewrite Nat.sub_0_r in Hlast. congruence.
  - rewrite nth_error_app1 in Ha, Hb by lia. eauto.
Qed.

Lemma findGenericPath_neighbors_spec (allPeople : list Person) (person1 cur : Person)
    (personId : string) (path : list Person) :
  genEntry allPeople person1 (personId, path) ->
  getPersonById personId allPeople = Some cur ->
  forall neighbors queue visited queue' visited',
    incl neighbors (neighborsOf cur) ->
    findGenericPath_neighbors allPeople path neighbors queue visited
      = (queue', visited') ->
    Forall (genEntry allPeople person1) queue ->
    Forall (genEntry allPeople person1) queue' /\
    (forall y, In y neighbors -> In y visited') /\
    (forall z, In z visited -> In z visited') /\
    (forall z, In z (map fst queue) -> In z (map fst queue')) /\
    (forall z, In z visited' ->
       In z visited \/ In z (map fst queue') \/ getPersonById z allPeople = None).
Proof.
  intros [G1 G2 G3 G4 G5] Hcur. simpl in *.
  induction neighbors as [| y rest IH]; simpl;
    intros queue visited queue' visited' Hincl H Hq.
  - injection H as <- <-. repeat split; auto. intros y [].
  - assert (Hy0 : In y (neighborsOf cur)) by (apply Hincl; now left).
    assert (Hrest : incl rest (neighborsOf cur))
      by (intros z Hz; apply Hincl; now right).
    destruct (set_has visited y) eqn:Hy.
    + apply set_has_In in Hy. apply IH in H; auto.
      destruct H as (H0 & H1 & H2 & H3 & H4). repeat split; auto.
      intros z [<- | Hz]; auto.
    + destruct (getPersonById y allPeople) as [np |] eqn:Hnp.
      * pose proof (getPersonById_id _ _ _ Hnp) as Hid.
        apply IH in H; auto.
        -- destruct H as (H0 & H1 & H2 & H3 & H4).
           assert (Hy' : In y visited') by (apply H2, In_set_add; auto).
           repeat split; auto.
           ++ intros z [<- | Hz]; auto.
           ++ intros z Hz. apply H2, In_set_add. auto.
           ++ intros z Hz. apply H3. rewrite map_app. apply in_or_app. auto.
           ++ intros z Hz. destruct (H4 z Hz) as [Hz' | [Hz' | Hz']]; auto.
              apply In_set_add in Hz'. destruct Hz' as [-> | Hz']; auto.
              right. left. apply H3. rewrite map_app. apply in_or_app.
              right. now left.
        -- apply Forall_app. split; auto. constructor; [| constructor].
           constructor; simpl.
           ++ now apply hd_error_app.
           ++ rewrite lastPerson_app. now symmetry.
           ++ congruence.
           ++ apply stepsAreEdges_app with (cur := cur);
                [assumption | congruence | now rewrite Hid].
           ++ apply inGraph_app; [assumption | now rewrite Hid].
      * apply IH in H; auto.
        destruct H as (H0 & H1 & H2 & H3 & H4).
        assert (Hy' : In y visited') by (apply H2, In_set_add; auto).
        repeat split; auto.
        -- intros z [<- | Hz]; auto.
        -- intros z Hz. apply H2, In_set_add. auto.
        -- intros z Hz. destruct (H4 z Hz) as [Hz' | [Hz' | Hz']]; auto.
           apply In_set_add in Hz'. destruct Hz' as [-> | Hz']; auto.
Qed.

Lemma linkedFrom_closed (allPeople : list Person) (startId : string)
    (visited : list string) :
  In startId visited ->
  (forall x p y, In x visited -> getPersonById x allPeople = Some p ->
                 In y (neighborsOf p) -> In y visited) ->
  forall z, linkedFrom allPeople startId z -> In z visited.
Proof.
  intros Hs Hc z Hup. induction Hup as [| x p y Hup IH Hp Hy]; eauto.
Qed.

Lemma findGenericPath_loop_spec (allPeople : list Person) (person1 person2 : Person)
    (fuel : nat) :
  getPersonById (id person2) allPeople = Some person2 ->
  forall queue visited o,
    genInv allPeople person1 person2 queue visited ->
    findGenericPath_loop fuel person2 allPeople queue visited = Done o ->
    match o with
    | Some rel =>
        exists path,
          rel = Path (generatePathDescription path) path /\
          genEntry allPeople person1 (id person2, path)
    | None => ~ linkedFrom allPeople (id person1) (id person2)
    end.
Proof.
  intros Hp2.
  assert (Hend : forall visited,
            genInv allPeople person1 person2 [] visited ->
            ~ linkedFrom allPeople (id person1) (id person2)).
  { intros visited [_ Hs Hc] Hl.
    assert (Hin : In (id person2) visited).
    { apply (linkedFrom_closed allPeople (id person1) visited); auto.
      intros x p y Hx Hp Hy. destruct (Hc x Hx) as [[] | [_ Hc']]. eauto. }
    destruct (Hc _ Hin) as [[] | [Hne _]]. now apply Hne. }
  induction fuel as [| fuel IH]; intros [| [x path] queue] visited o Hinv H;
    simpl in H; try discriminate.
  - injection H as <-. eauto.
  - injection H as <-. eauto.
  - destruct Hinv as [He Hs Hc].
    inversion He as [| e q' Hentry He']; subst.
    destruct (String.eqb x (id person2)) eqn:E.
    + apply String.eqb_eq in E. subst x. injection H as <-. eauto.
    + apply String.eqb_neq in E.
      pose proof Hentry as [G1 G2 G3 G4 G5]. simpl in *.
      destruct (getPersonById x allPeople) as [cur |] eqn:Hcur; [| congruence].
      rewrite G2 in H.
      destruct (findGenericPath_neighbors allPeople path (neighborsOf cur) queue visited)
        as [queue' visited'] eqn:Hn.
      eapply findGenericPath_neighbors_spec in Hn; eauto using incl_refl.
      destruct Hn as (H0 & H1 & H2 & H3 & H4).
      eapply IH; [| exact H]. constructor; auto.
      intros z Hz. destruct (H4 z Hz) as [Hz' | [Hz' | Hz']]; auto.
      * destruct (Hc z Hz') as [[<- | Hq] | [Hq1 Hq2]]; auto.
        -- right. split; [exact E |]. intros q y Hq Hy.
           assert (q = cur) by congruence. subst q. now apply H1.
        -- right. split; [exact Hq1 |]. eauto.
      * right. split; [congruence |]. intros q y Hq. congruence.
Qed.

Lemma path_linkedFrom (allPeople : list Person) (person1 : Person)
    (path : list Person) :
  hd_error path = Some person1 -> inGraph allPeople path -> stepsAreEdges path ->
  forall i a, nth_error path i = Some a ->
              linkedFrom allPeople (id person1) (id a).
Proof.
  intros Hhd Hg Hsteps. induction i as [| i IH]; intros a Ha.
  - destruct path; simpl in *; [discriminate |].
    assert (a = person1) by congruence. subst a. constructor.
  - destruct (nth_error path i) as [b |] eqn:Hb.
    + apply linkedFrom_step with (x := id b) (p := b).
      * now apply IH.
      * unfold inGraph in Hg. rewrite Forall_forall in Hg.
        apply Hg. eapply nth_error_In; eauto.
      * eapply Hsteps; eauto.
    + apply nth_error_None in Hb.
      assert (S i < List.length path) by (apply nth_error_Some; congruence).
      lia.
Qed.

Lemma genInv_init (allPeople : list Person) (person1 person2 : Person) :
  getPersonById (id person1) allPeople = Some person1 ->
  genInv allPeople person1 person2 [(id person1, [person1])] [id person1].
Proof.
  intros Hp1. constructor.
  - constructor; [| constructor]. constructor; simpl.
    + reflexivity.
    + unfold lastPerson. simpl. now symmetry.
    + congruence.
    + apply stepsAreEdges_single.
    + constructor; [assumption | constructor].
  - now left.
  - intros x [<- | []]. left. now left.
Qed.

Lemma getPathSegmentDescription_neighbor (p1 p2 : Person) :
  In (id p2) (neighborsOf p1) ->
  In (getPathSegmentDescription p1 p2) segmentPhrases.
Proof.
  unfold neighborsOf, getPathSegmentDescription, segmentPhrases. intros H.
  destruct (includes (orEmpty (childrenIds p1)) (id p2)) eqn:Ec.
  { destruct (gender p1); simpl; tauto. }
  destruct (includes (orEmpty (parentIds p1)) (id p2)) eqn:Ep.
  { destruct (gender p1); simpl; tauto. }
  destruct (existsb (fun m => String.eqb (spouseId m) (id p2))
              (orEmpty (marriages p1))) eqn:Em.
  { destruct (gender p1); simpl; tauto. }
  exfalso. apply in_app_or in H. destruct H as [H | H].
  { apply includes_In in H. congruence. }
  apply in_app_or in H. destruct H as [H | H].
  { apply includes_In in H. congruence. }
  apply in_map_iff in H. destruct H as (m & Hm & Hin).
  assert (existsb (fun m => String.eqb (spouseId m) (id p2))
            (orEmpty (marriages p1)) = true).
  { apply existsb_exists. exists m. split; [assumption |].
    now apply String.eqb_eq. }
  congruence.
Qed.

(** X5.  For two people of the collection (each the person its id looks
    up) and enough fuel, [findGenericPath] returns a path exactly when the id
    of person 2 can be reached from person 1 by following [parentIds],
    [childrenIds] and [marriages] entries of people of the collection; the
    path it returns starts at person 1, ends at person 2, and each of its
    steps follows such an entry of the person it leaves.  Otherwise it
    returns [null]. *)
Theorem X5_findGenericPath_exact (fuel : nat) (person1 person2 : Person)
    (allPeople : list Person) :
  getPersonById (id person1) allPeople = Some person1 ->
  getPersonById (id person2) allPeople = Some person2 ->
  enoughFuel allPeople <= fuel ->
  (exists path,
     findGenericPath fuel person1 person2 allPeople
       = Done (Some (Path (generatePathDescription path) path)) /\
     hd_error path = Some person1 /\ lastPerson path = Some person2 /\
     stepsAreEdges path /\ inGraph allPeople path /\
     linkedFrom allPeople (id person1) (id person2)) \/
  (findGenericPath fuel person1 person2 allPeople = Done None /\
   ~ linkedFrom allPeople (id person1) (id person2)).
Proof.
  intros Hp1 Hp2 Hfuel.
  destruct (findGenericPath_terminates fuel person1 person2 allPeople) as [o Ho].
  { pose proof (neighborsOf_length_le allPeople person1
                  (getPersonById_In _ _ _ Hp1)).
    apply enoughFuel_graphSize in Hfuel. lia. }
  pose proof Ho as Hspec. unfold findGenericPath in Hspec.
  eapply findGenericPath_loop_spec with (person1 := person1) in Hspec; auto.
  - destruct o as [rel |]; [left | right; auto].
    destruct Hspec as (path & -> & [G1 G2 G3 G4 G5]). simpl in *.
    exists path. repeat split; auto; try congruence.
    apply (path_linkedFrom allPeople person1 path G1 G5 G4
             (List.length path - 1) person2).
    unfold lastPerson in G2. congruence.
  - now apply genInv_init.
Qed.

Lemma X5_findGenericPath_exact_witness :
  exists path,
    findGenericPath 30 lawS lawO inLaws
      = Done (Some (Path (generatePathDescription path) path)) /\
    hd_error path = Some lawS.
Proof.
  destruct (X5_findGenericPath_exact 30 lawS lawO inLaws)
    as [(path & H & Hhd & _) | [H _]];
    [reflexivity | reflexivity | vm_compute; lia | | ].
  - exists path. now split.
  - vm_compute in H. discriminate.
Defined.

(** X6.  Every step of a path returned by [findGenericPath] (for two people
    of the collection) is described by [getPathSegmentDescription] with one
    of its nine phrases for a parent, a child or a spouse: the fallback
    phrase [is related to] never appears in the sentence built from such a
    path. *)
Theorem X6_generic_path_segments (fuel : nat) (person1 person2 : Person)
    (allPeople : list Person) (rel : Relationship) :
  getPersonById (id person1) allPeople = Some person1 ->
  getPersonById (id person2) allPeople = Some person2 ->
  findGenericPath fuel person1 person2 allPeople = Done (Some rel) ->
  exists path,
    rel = Path (generatePathDescription path) path /\
    forall i a b,
      nth_error path i = Some a -> nth_error path (S i) = Some b ->
      In (getPathSegmentDescription a b) segmentPhrases /\
      getPathSegmentDescription a b <> "is related to".
Proof.
  intros Hp1 Hp2 H. unfold findGenericPath in H.
  eapply findGenericPath_loop_spec with (person1 := person1) in H;
    [| assumption | now apply genInv_init].
  destruct H as (path & -> & [G1 G2 G3 G4 G5]). simpl in *.
  exists path. split; [reflexivity |]. intros i a b Ha Hb.
  pose proof (getPathSegmentDescription_neighbor a b (G4 i a b Ha Hb)) as Hin.
  split; [exact Hin |]. intros E. rewrite E in Hin.
  unfold segmentPhrases in Hin. simpl in Hin.
  repeat (destruct Hin as [Hin | Hin]; [discriminate |]). exact Hin.
Qed.

Lemma X6_generic_path_segments_witness :
  exists path,
    Path "p is the father of s, who is the husband of o." [lawP; lawS; lawO]
      = Path (generatePathDescription path) path /\
    forall i a b,
      nth_error path i = Some a -> nth_error path (S i) = Some b ->
      In (getPathSegmentDescription a b) segmentPhrases /\
      getPathSegmentDescription a b <> "is related to".
Proof.
  apply (X6_generic_path_segments 30 lawP lawO inLaws);
    [reflexivity | reflexivity | vm_compute; reflexivity].
Defined.

(** ** What [findRelationship] answers *)

Lemma falsy_true (x : string) : falsy x = true <-> x = "".
Proof. unfold falsy. apply String.eqb_eq. Qed.

(** X7.  With enough fuel [findRelationship] returns without throwing, and
    it returns [null] exactly when one of the ids is empty, the two ids are
    equal, or one of them is the id of no person of the collection; in every
    other case it returns a relationship object. *)
Theorem X7_findRelationship_null (fuel : nat) (person1Id person2Id : string)
    (allPeople : list Person) :
  enoughFuel allPeople <= fuel ->
  exists r,
    findRelationship fuel person1Id person2Id allPeople = Done r /\
    (r = None <->
     person1Id = "" \/ person2Id = "" \/ person1Id = person2Id \/
     getPersonById person1Id allPeople = None \/
     getPersonById person2Id allPeople = None).
Proof.
  intros Hfuel.
  destruct (findRelationship_terminates fuel person1Id person2Id allPeople Hfuel)
    as [r Hr].
  exists r. split; [exact Hr |].
  unfold findRelationship in Hr.
  destruct (falsy person1Id) eqn:E1.
  { apply falsy_true in E1. simpl in Hr. injection Hr as <-. tauto. }
  destruct (falsy person2Id) eqn:E2.
  { apply falsy_true in E2. simpl in Hr. injection Hr as <-. tauto. }
  destruct (String.eqb person1Id person2Id) eqn:E3.
  { apply String.eqb_eq in E3. simpl in Hr. injection Hr as <-. tauto. }
  apply falsy_false in E1, E2. apply String.eqb_neq in E3. simpl in Hr.
  destruct (getPersonById person1Id allPeople) as [p1 |] eqn:Hp1.
  2: { injection Hr as <-. tauto. }
  destruct (getPersonById person2Id allPeople) as [p2 |] eqn:Hp2.
  2: { injection Hr as <-. tauto. }
  assert (Hsome : r <> None).
  { destruct (marriedTo p1 person2Id); [congruence |].
    destruct (findLcaAndPaths fuel person1Id person2Id allPeople) as [[l |] | |];
      simpl in Hr; try discriminate.
    - destruct (describeBloodRelationship p1 p2 (lca l) (path1 l) (path2 l));
        simpl in Hr; congruence.
    - destruct (findRelationship_inLaw fuel person1Id p1 p2 allPeople
                  (orEmpty (marriages p2))) as [[rel |] | |];
        simpl in Hr; try congruence.
      destruct (findGenericPath fuel p1 p2 allPeople) as [[rel |] | |];
        simpl in Hr; congruence. }
  split; [congruence |].
  intros [H | [H | [H | [H | H]]]]; congruence.
Qed.

Lemma X7_findRelationship_null_witness :
  exists r,
    findRelationship 20 "x" "nobody" strangers = Done r /\
    (r = None <->
     "x" = "" \/ "nobody" = "" \/ "x" = "nobody" \/
     getPersonById "x" strangers = None \/
     getPersonById "nobody" strangers = None).
Proof.
  apply (X7_findRelationship_null 20 "x" "nobody" strangers). vm_compute. lia.
Defined.

(** X8.  When [findRelationship] answers with a relationship of type
    [none], its description is the fixed message, both ids are ids of people
    of the collection, person 1 has no marriage to person 2, the two have no
    common ancestor, and no chain of [parentIds], [childrenIds] and
    [marriages] entries leads from person 1 to person 2. *)
Theorem X8_findRelationship_none (fuel : nat) (person1Id person2Id : string)
    (allPeople : list Person) (description : string) :
  findRelationship fuel person1Id person2Id allPeople
    = Done (Some (NoRelationship description)) ->
  description = "No relationship path could be found." /\
  (exists person1 person2,
     getPersonById person1Id allPeople = Some person1 /\
     getPersonById person2Id allPeople = Some person2 /\
     marriedTo person1 person2Id = false) /\
  (forall c, ~ commonAncestor allPeople person1Id person2Id c) /\
  ~ linkedFrom allPeople person1Id person2Id.
Proof.
  unfold findRelationship. intros H.
  destruct (falsy person1Id || falsy person2Id || String.eqb person1Id person2Id);
    [discriminate |].
  destruct (getPersonById person1Id allPeople) as [p1 |] eqn:Hp1; [| discriminate].
  destruct (getPersonById person2Id allPeople) as [p2 |] eqn:Hp2; [| discriminate].
  destruct (marriedTo p1 person2Id) eqn:Hm; [discriminate |].
  destruct (findLcaAndPaths fuel person1Id person2Id allPeople)
    as [[l |] | |] eqn:Hl; simpl in H; try discriminate.
  { destruct (describeBloodRelationship p1 p2 (lca l) (path1 l) (path2 l));
      simpl in H; discriminate. }
  apply findLcaAndPaths_common in Hl.
  destruct (findRelationship_inLaw fuel person1Id p1 p2 allPeople
              (orEmpty (marriages p2))) as [[rel |] | |] eqn:Hi;
    simpl in H; try discriminate.
  { apply findRelationship_inLaw_Path in Hi. destruct Hi as (d & p & ->).
    discriminate. }
  pose proof (getPersonById_id _ _ _ Hp1) as Hid1.
  pose proof (getPersonById_id _ _ _ Hp2) as Hid2.
  destruct (findGenericPath fuel p1 p2 allPeople) as [[rel |] | |] eqn:Hg;
    simpl in H; try discriminate.
  { unfold findGenericPath in Hg. apply findGenericPath_loop_Path in Hg.
    destruct Hg as (path & ->). discriminate. }
  injection H as <-.
  unfold findGenericPath in Hg.
  eapply findGenericPath_loop_spec with (person1 := p1) in Hg;
    [| now rewrite Hid2 | apply genInv_init; now rewrite Hid1].
  rewrite Hid1, Hid2 in Hg.
  split; [reflexivity |]. split; [| split; assumption].
  exists p1, p2. auto.
Qed.

Lemma X8_findRelationship_none_witness :
  "No relationship path could be found." = "No relationship path could be found." /\
  (exists person1 person2,
     getPersonById "x" strangers = Some person1 /\
     getPersonById "y" strangers = Some person2 /\
     marriedTo person1 "y" = false) /\
  (forall c, ~ commonAncestor strangers "x" "y" c) /\
  ~ linkedFrom strangers "x" "y".
Proof.
  apply (X8_findRelationship_none 20 "x" "y" strangers). vm_compute. reflexivity.
Defined.

(** ** The direct line *)

Lemma findLcaAndPaths_ancestor (fuel : nat) (person1Id person2Id : string)
    (allPeople : list Person) (person1 person2 : Person) :
  enoughFuel allPeople <= fuel ->
  getPersonById person1Id allPeople = Some person1 ->
  getPersonById person2Id allPeople = Some person2 ->
  person1Id <> person2Id ->
  upFrom allPeople person1Id person2Id ->
  exists path1,
    findLcaAndPaths fuel person1Id person2Id allPeople
      = Done (Some (mkLcaResult person2 path1 [person2])) /\
    pathTo allPeople person1 person2Id path1 /\
    2 <= List.length path1.
Proof.
  intros Hfuel Hp1 Hp2 Hne Hup.
  pose proof (getPersonById_id _ _ _ Hp2) as Hid2.
  unfold findLcaAndPaths.
  destruct (p1Ancestors_loop_terminates allPeople fuel [person1Id] [] [])
    as [m Hm].
  { pose proof (pending_parents_le allPeople []).
    unfold enoughFuel in Hfuel. simpl. lia. }
  rewrite Hm. cbn [bind].
  apply p1Ancestors_loop_closureOk in Hm.
  assert (Hget : map_get m person2Id = Some person2) by (apply Hm; auto).
  pose proof (allParentIds_length allPeople) as HN.
  destruct fuel as [| fuel]; [unfold enoughFuel in Hfuel; lia |].
  cbn [queue2_loop]. cbv zeta. rewrite Hget, Hid2.
  destruct (getPathToAncestor_terminates (S fuel) allPeople person1Id person2Id)
    as [o1 Ho1]; [unfold enoughFuel in Hfuel; lia |].
  rewrite Ho1. cbn [bind].
  assert (Ho2 : getPathToAncestor (S fuel) allPeople person2Id person2Id
                = Done (Some [person2])).
  { unfold getPathToAncestor. now rewrite Hp2, String.eqb_refl. }
  rewrite Ho2. cbn [bind].
  destruct o1 as [path1 |].
  - exists path1. split; [reflexivity |].
    apply getPathToAncestor_sound in Ho1.
    destruct Ho1 as (start & Hs & Hpath & _ & Hlen).
    assert (start = person1) by congruence. subst start. auto.
  - exfalso. revert Ho1. apply getPathToAncestor_complete; congruence.
Qed.

Lemma termOfAncestor_described (person1 person2 : Person) (path1 : list Person) :
  id person1 <> id person2 -> 2 <= List.length path1 ->
  describeBloodRelationship person1 person2 person2 path1 [person2]
    = Done (termOfAncestor (gender person2) (len path1 - 1)).
Proof.
  intros Hne Hlen. unfold describeBloodRelationship, termOfAncestor, js_repeat.
  assert (L : (2 <= len path1)%Z) by (unfold len; lia).
  rewrite String.eqb_refl.
  destruct (String.eqb_spec (id person2) (id person1)); [congruence |].
  destruct (Z.eqb_spec (len path1 - 1) 0); [lia |].
  destruct (Z.eqb_spec (len path1 - 1) 1); [reflexivity |].
  destruct (Z.eqb_spec (len path1 - 1) 2); [reflexivity |].
  destruct (Z.ltb_spec (len path1 - 1 - 2) 0); [lia | reflexivity].
Qed.

(** ** Descriptions that never appear *)

Lemma repeat_Great_lastChar (n : nat) (t : string) :
  t <> "" -> lastChar (repeat_string "Great-" n ++ t)%string = lastChar t.
Proof. intros Ht. now apply lastChar_app. Qed.

Lemma lastChar_removed (a x : string) :
  lastChar (a ++ " cousin" ++ ", " ++ x ++ " removed")%string = Some "d"%char.
Proof.
  rewrite (lastChar_app a) by discriminate.
  rewrite (lastChar_app " cousin") by discriminate.
  rewrite (lastChar_app ", ") by (destruct x; discriminate).
  now rewrite (lastChar_app x) by discriminate.
Qed.

Lemma describeBloodRelationship_lastChar (person1 person2 l : Person)
    (path1 path2 : list Person) (s : string) :
  (id l = id person1 -> 2 <= List.length path2) ->
  (id l = id person2 -> 2 <= List.length path1) ->
  describeBloodRelationship person1 person2 l path1 path2 = Done s ->
  exists c, lastChar s = Some c /\ c <> "f"%char.
Proof.
  intros H1 H2. unfold describeBloodRelationship, js_repeat.
  destruct (String.eqb_spec (id l) (id person1)) as [E1 | E1].
  { specialize (H1 E1). assert (L : (2 <= len path2)%Z) by (unfold len; lia).
    destruct (Z.eqb_spec (len path2 - 1) 0); [lia |].
    destruct (Z.eqb_spec (len path2 - 1) 1).
    { intros H. injection H as <-.
      destruct (gender person2); simpl; eexists; split;
        try reflexivity; discriminate. }
    destruct (Z.eqb_spec (len path2 - 1) 2).
    { intros H. injection H as <-.
      destruct (gender person2); simpl; eexists; split;
        try reflexivity; discriminate. }
    destruct (Z.ltb_spec (len path2 - 1 - 2) 0) as [Hlt | Hge]; [lia |].
    cbn [bind]. intros H. injection H as <-.
    rewrite repeat_Great_lastChar by (destruct (gender person2); discriminate).
    destruct (gender person2); simpl; eexists; split;
      try reflexivity; discriminate. }
  destruct (String.eqb_spec (id l) (id person2)) as [E2 | E2].
  { specialize (H2 E2). assert (L : (2 <= len path1)%Z) by (unfold len; lia).
    destruct (Z.eqb_spec (len path1 - 1) 0); [lia |].
    destruct (Z.eqb_spec (len path1 - 1) 1).
    { intros H. injection H as <-.
      destruct (gender person2); simpl; eexists; split;
        try reflexivity; discriminate. }
    destruct (Z.eqb_spec (len path1 - 1) 2).
    { intros H. injection H as <-.
      destruct (gender person2); simpl; eexists; split;
        try reflexivity; discriminate. }
    destruct (Z.ltb_spec (len path1 - 1 - 2) 0) as [Hlt | Hge]; [lia |].
    cbn [bind]. intros H. injection H as <-.
    rewrite repeat_Great_lastChar by (destruct (gender person2); discriminate).
    destruct (gender person2); simpl; eexists; split;
      try reflexivity; discriminate. }
  destruct ((len path1 - 1 =? 1)%Z && (len path2 - 1 =? 1)%Z).
  { intros H. injection H as <-.
    destruct (gender person2); simpl; eexists; split;
      try reflexivity; discriminate. }
  destruct (Z.min (len path1 - 1) (len path2 - 1) - 1 =? 0)%Z.
  { destruct (Z.abs (len path1 - 1 - (len path2 - 1)) >? 1)%Z,
             (len path1 - 1 <? len path2 - 1)%Z;
      intros H; injection H as <-;
      destruct (gender person2); simpl; eexists; split;
        try reflexivity; discriminate. }
  intros H. injection H as <-.
  destruct (Z.abs (len path1 - 1 - (len path2 - 1)) >? 0)%Z.
  - eexists; split; [apply lastChar_removed | discriminate].
  - rewrite lastChar_app by discriminate.
    simpl. eexists; split; [reflexivity | discriminate].
Qed.

Lemma findRelationship_inLaw_lastChar (fuel : nat) (person1Id : string)
    (person1 person2 : Person) (allPeople : list Person) :
  forall ms rel,
    findRelationship_inLaw fuel person1Id person1 person2 allPeople ms
      = Done (Some rel) ->
    lastChar (rel_description rel) = Some ")"%char.
Proof.
  induction ms as [| m rest IH]; simpl; intros rel H; [discriminate |].
  destruct (getPersonById (spouseId m) allPeople) as [sp |]; [| eauto].
  destruct (findLcaAndPaths fuel person1Id (id sp) allPeople) as [[r |] | |];
    simpl in H; try discriminate; eauto.
  destruct (String.eqb (id (lca r)) person1Id); [| eauto].
  destruct (falsy (inLawDescription (gender person2) (len (path2 r) - 1))) eqn:E;
    simpl in H; [eauto |].
  injection H as <-. simpl. apply inLawDescription_lastChar.
  now apply falsy_false.
Qed.

Lemma lastChar_not_Self (s : string) (c : ascii) :
  lastChar s = Some c -> c <> "f"%char -> s <> "Self" /\ s <> "".
Proof.
  intros H Hc. split; intros ->; simpl in H; congruence.
Qed.

(** X9.  The description of a relationship returned by [findRelationship]
    is never empty and never [Self]: the two ids differ, so neither of the
    two paths to the common ancestor can have length 1 on the side where
    [describeBloodRelationship] would say [Self]. *)
Theorem X9_findRelationship_never_Self (fuel : nat) (person1Id person2Id : string)
    (allPeople : list Person) (rel : Relationship) :
  findRelationship fuel person1Id person2Id allPeople = Done (Some rel) ->
  rel_description rel <> "Self" /\ rel_description rel <> "".
Proof.
  unfold findRelationship. intros H.
  destruct (falsy person1Id); [discriminate |].
  destruct (falsy person2Id); [discriminate |].
  destruct (String.eqb_spec person1Id person2Id) as [| Hne]; [discriminate |].
  simpl in H.
  destruct (getPersonById person1Id allPeople) as [p1 |] eqn:Hp1; [| discriminate].
  destruct (getPersonById person2Id allPeople) as [p2 |] eqn:Hp2; [| discriminate].
  pose proof (getPersonById_id _ _ _ Hp1) as Hid1.
  pose proof (getPersonById_id _ _ _ Hp2) as Hid2.
  destruct (marriedTo p1 person2Id).
  { injection H as <-. destruct (gender p2); simpl; split; discriminate. }
  destruct (findLcaAndPaths fuel person1Id person2Id allPeople)
    as [[l |] | |] eqn:Hl; simpl in H; try discriminate.
  { apply findLcaAndPaths_sound in Hl.
    destruct Hl as [_ (q1 & _ & _ & _ & Hlen1) (q2 & _ & _ & _ & Hlen2)].
    destruct (describeBloodRelationship p1 p2 (lca l) (path1 l) (path2 l))
      as [d | |] eqn:Hd; simpl in H; try discriminate.
    injection H as <-. simpl.
    apply describeBloodRelationship_lastChar in Hd.
    - destruct Hd as (c & Hc & Hf). eapply lastChar_not_Self; eauto.
    - intros E. apply Hlen2. congruence.
    - intros E. apply Hlen1. congruence. }
  destruct (findRelationship_inLaw fuel person1Id p1 p2 allPeople
              (orEmpty (marriages p2))) as [[r |] | |] eqn:Hi;
    simpl in H; try discriminate.
  { injection H as <-. apply findRelationship_inLaw_lastChar in Hi.
    eapply lastChar_not_Self; [exact Hi | discriminate]. }
  destruct (findGenericPath fuel p1 p2 allPeople) as [[r |] | |] eqn:Hg;
    simpl in H; try discriminate.
  - injection H as <-. unfold findGenericPath in Hg.
    apply findGenericPath_loop_Path in Hg. destruct Hg as (path & ->). simpl.
    eapply lastChar_not_Self; [apply generatePathDescription_lastChar |].
    discriminate.
  - injection H as <-. simpl. split; discriminate.
Qed.

Lemma X9_findRelationship_never_Self_witness :
  rel_description (Blood "Grandfather" [chainC; chainP; chainG] [chainG] chainG)
    <> "Self" /\
  rel_description (Blood "Grandfather" [chainC; chainP; chainG] [chainG] chainG)
    <> "".
Proof.
  apply (X9_findRelationship_never_Self 20 "c" "g" [chainG; chainP; chainC]).
  vm_compute. reflexivity.
Defined.

(** ** The list of all relationships *)

Lemma findAllRelationships_loop_spec (fuel : nat) (person1Id person2Id : string)
    (person2 : Person) (allPeople : list Person) :
  forall relatives relationships out,
    findAllRelationships_loop fuel person1Id person2Id person2 allPeople
      relatives relationships = Done out ->
    exists added,
      out = fold_left addRelationship added relationships /\
      Forall (viaMarriage person2) added.
Proof.
  induction relatives as [| x rest IH]; simpl; intros rels out H.
  { injection H as <-. exists []. split; [reflexivity | constructor]. }
  destruct (getPersonById x allPeople) as [b |]; [| eauto].
  destruct (negb (String.eqb (id b) person1Id) && marriedTo b person2Id);
    [| eauto].
  destruct (findRelationship fuel person1Id (id b) allPeople) as [[rel |] | |];
    simpl in H; try discriminate; eauto.
  destruct rel as [d p1 p2 l | d p | d]; eauto.
  - destruct (len (removelast p1 ++ rev p2 ++ [person2]) >? 0)%Z; eauto.
    apply IH in H. destruct H as (added & -> & Hadded).
    exists (Path (d ++ "'s " ++
                  match gender person2 with Male => "Husband" | _ => "Wife" end)
              (removelast p1 ++ rev p2 ++ [person2]) :: added).
    split; [reflexivity |]. constructor; [| assumption].
    exists d, (removelast p1 ++ rev p2 ++ [person2]). split; [reflexivity |].
    rewrite app_assoc. apply lastPerson_app.
  - destruct (len (p ++ [person2]) >? 0)%Z; eauto.
    apply IH in H. destruct H as (added & -> & Hadded).
    exists (Path (d ++ "'s " ++
                  match gender person2 with Male => "Husband" | _ => "Wife" end)
              (p ++ [person2]) :: added).
    split; [reflexivity |]. constructor; [| assumption].
    exists d, (p ++ [person2]). split; [reflexivity |]. apply lastPerson_app.
Qed.

Lemma addRelationship_In (rels : list Relationship) (x r : Relationship) :
  In r (addRelationship rels x) -> In r rels \/ r = x.
Proof.
  unfold addRelationship.
  destruct x; auto;
    match goal with
    | |- context [existsb ?f rels] => destruct (existsb f rels); auto
    end;
    intros H; apply in_app_or in H; destruct H as [H | [H | []]]; auto.
Qed.

Lemma addRelationship_keeps (rels : list Relationship) (x r : Relationship) :
  In r rels -> In r (addRelationship rels x).
Proof.
  unfold addRelationship. intros H.
  destruct x; auto;
    match goal with
    | |- context [existsb ?f rels] => destruct (existsb f rels); auto
    end;
    apply in_or_app; auto.
Qed.

Lemma addRelationship_notNone (rels : list Relationship) (x : Relationship) :
  Forall (fun r => isNone r = false) rels ->
  Forall (fun r => isNone r = false) (addRelationship rels x).
Proof.
  unfold addRelationship. intros H.
  destruct x; auto;
    match goal with
    | |- context [existsb ?f rels] => destruct (existsb f rels); auto
    end;
    apply Forall_app; split; auto.
Qed.

Lemma addRelationship_NoDup (rels : list Relationship) (x : Relationship) :
  NoDup (map rel_description rels) ->
  NoDup (map rel_description (addRelationship rels x)).
Proof.
  intros H.
  assert (Hadd :
    existsb (fun r => String.eqb (rel_description r) (rel_description x)) rels
      = false ->
    NoDup (map rel_description (rels ++ [x]))).
  { intros E. rewrite map_app. simpl.
    apply (Permutation_NoDup (Permutation_cons_append _ _)).
    constructor; [| assumption].
    intros Hin. apply in_map_iff in Hin. destruct Hin as (r & Hr & Hin).
    assert (existsb (fun r => String.eqb (rel_description r) (rel_description x))
              rels = true); [| congruence].
    apply existsb_exists. exists r. split; [assumption |].
    now apply String.eqb_eq. }
  unfold addRelationship. destruct x; auto;
    match goal with
    | |- context [existsb ?f rels] => destruct (existsb f rels) eqn:E; auto
    end.
Qed.

Lemma fold_addRelationship_In (added rels : list Relationship) (r : Relationship) :
  In r (fold_left addRelationship added rels) -> In r rels \/ In r added.
Proof.
  revert rels. induction added as [| x added IH]; simpl; intros rels H; auto.
  apply IH in H. destruct H as [H | H]; auto.
  apply addRelationship_In in H. destruct H as [H | ->]; auto.
Qed.

Lemma fold_addRelationship_keeps (added rels : list Relationship)
    (r : Relationship) :
  In r rels -> In r (fold_left addRelationship added rels).
Proof.
  revert rels. induction added as [| x added IH]; simpl; intros rels H; auto.
  apply IH. now apply addRelationship_keeps.
Qed.

Lemma fold_addRelationship_notNone (added rels : list Relationship) :
  Forall (fun r => isNone r = false) rels ->
  Forall (fun r => isNone r = false) (fold_left addRelationship added rels).
Proof.
  revert rels. induction added as [| x added IH]; simpl; intros rels H; auto.
  apply IH. now apply addRelationship_notNone.
Qed.

Lemma fold_addRelationship_NoDup (added rels : list Relationship) :
  NoDup (map rel_description rels) ->
  NoDup (map rel_description (fold_left addRelationship added rels)).
Proof.
  revert rels. induction added as [| x added IH]; simpl; intros rels H; auto.
  apply IH. now apply addRelationship_NoDup.
Qed.

Lemma sort_insert_perm (x : Relationship) (l : list Relationship) :
  Permutation (sort_insert x l) (x :: l).
Proof.
  induction l as [| y l IH]; simpl; [reflexivity |].
  destruct (lenLe y x); [| reflexivity].
  rewrite IH. apply perm_swap.
Qed.

Lemma sortByLen_perm (l : list Relationship) : Permutation (sortByLen l) l.
Proof.
  unfold sortByLen.
  assert (H : forall acc,
            Permutation (fold_left (fun acc x => sort_insert x acc) l acc)
                        (acc ++ l)).
  { induction l as [| x l IH]; simpl; intros acc.
    - now rewrite app_nil_r.
    - rewrite IH, sort_insert_perm. apply Permutation_middle. }
  apply (H []).
Qed.

Lemma lenLe_total (a b : Relationship) : lenLe a b = false -> lenLe b a = true.
Proof.
  unfold lenLe. destruct (getLen a), (getLen b); try congruence.
  intros H. apply Z.leb_gt in H. apply Z.leb_le. lia.
Qed.

Lemma lenLe_trans (a b c : Relationship) :
  lenLe a b = true -> lenLe b c = true -> lenLe a c = true.
Proof.
  unfold lenLe. destruct (getLen a), (getLen b), (getLen c); try congruence.
  rewrite !Z.leb_le. lia.
Qed.

Lemma sort_insert_sorted (x : Relationship) (l : list Relationship) :
  StronglySorted (fun a b => lenLe a b = true) l ->
  StronglySorted (fun a b => lenLe a b = true) (sort_insert x l).
Proof.
  induction l as [| y l IH]; simpl; intros H.
  - repeat constructor.
  - apply StronglySorted_inv in H. destruct H as [Hs Hy].
    destruct (lenLe y x) eqn:E.
    + constructor; [now apply IH |].
      apply (Permutation_Forall (Permutation_sym (sort_insert_perm x l))).
      now constructor.
    + apply lenLe_total in E. constructor; [now constructor |].
      constructor; [assumption |].
      eapply Forall_impl; [| exact Hy]. intros z Hz. eapply lenLe_trans; eauto.
Qed.

Lemma sortByLen_sorted (l : list Relationship) :
  StronglySorted (fun a b => lenLe a b = true) (sortByLen l).
Proof.
  unfold sortByLen.
  assert (H : forall acc,
            StronglySorted (fun a b => lenLe a b = true) acc ->
            StronglySorted (fun a b => lenLe a b = true)
              (fold_left (fun acc x => sort_insert x acc) l acc)).
  { induction l as [| x l IH]; simpl; intros acc Hacc; [assumption |].
    apply IH. now apply sort_insert_sorted. }
  apply H. constructor.
Qed.

Lemma sorted_fewerSteps (l : list Relationship) :
  Forall (fun r => isNone r = false) l ->
  StronglySorted (fun a b => lenLe a b = true) l ->
  StronglySorted fewerSteps l.
Proof.
  intros Hn Hs. induction Hs as [| a l Hs IH Ha]; [constructor |].
  inversion Hn as [| a' l' Hna Hnl]; subst.
  constructor; [now apply IH |].
  rewrite Forall_forall in *. intros b Hb.
  specialize (Ha b Hb). specialize (Hnl b Hb).
  unfold fewerSteps, lenLe in *.
  destruct a, b; simpl in *; try discriminate;
    eexists; eexists; (split; [reflexivity |]); (split; [reflexivity |]);
    now apply Z.leb_le.
Qed.

Lemma findAllRelationships_unfold (fuel : nat) (person1Id person2Id : string)
    (allPeople : list Person) (person1 person2 : Person)
    (l : list Relationship) :
  getPersonById person1Id allPeople = Some person1 ->
  getPersonById person2Id allPeople = Some person2 ->
  person1Id <> person2Id ->
  findAllRelationships fuel person1Id person2Id allPeople = Done l ->
  exists primaryRel added,
    findRelationship fuel person1Id person2Id allPeople = Done primaryRel /\
    Forall (viaMarriage person2) added /\
    let relationships :=
      fold_left addRelationship added
        match primaryRel with
        | Some rel => addRelationship [] rel
        | None => []
        end in
    l = match relationships with
        | [] => [NoRelationship noRelationshipMessage]
        | _ => sortByLen relationships
        end.
Proof.
  intros Hp1 Hp2 Hne H. unfold findAllRelationships in H.
  rewrite Hp1, Hp2 in H. apply String.eqb_neq in Hne. rewrite Hne in H.
  destruct (findRelationship fuel person1Id person2Id allPeople)
    as [primaryRel | |]; simpl in H; try discriminate.
  destruct (getAllBloodRelativesIds fuel person1 allPeople) as [ids | |];
    simpl in H; try discriminate.
  match type of H with
  | bind ?c _ = _ => destruct c as [out | |] eqn:Hloop
  end; simpl in H; try discriminate.
  apply findAllRelationships_loop_spec in Hloop.
  destruct Hloop as (added & -> & Hadded).
  exists primaryRel, added. split; [reflexivity |]. split; [assumption |].
  cbv zeta.
  match type of H with
  | match ?x with _ => _ end = _ => destruct x
  end; injection H as <-; reflexivity.
Qed.

Lemma findRelationship_Some_people (fuel : nat) (person1Id person2Id : string)
    (allPeople : list Person) (rel : Relationship) :
  findRelationship fuel person1Id person2Id allPeople = Done (Some rel) ->
  person1Id <> person2Id /\
  exists person1 person2,
    getPersonById person1Id allPeople = Some person1 /\
    getPersonById person2Id allPeople = Some person2.
Proof.
  unfold findRelationship. intros H.
  destruct (falsy person1Id); [discriminate |].
  destruct (falsy person2Id); [discriminate |].
  destruct (String.eqb_spec person1Id person2Id) as [| Hne]; [discriminate |].
  destruct (getPersonById person1Id allPeople) as [p1 |]; [| discriminate].
  destruct (getPersonById person2Id allPeople) as [p2 |]; [| discriminate].
  split; [assumption |]. now exists p1, p2.
Qed.

Lemma sortByLen_nil (l : list Relationship) : sortByLen l = [] -> l = [].
Proof.
  intros H. pose proof (sortByLen_perm l) as P. rewrite H in P.
  now apply Permutation_nil in P.
Qed.

(** X10.  With enough fuel [findAllRelationships] returns a list without
    throwing, and the list is empty exactly when one of the two ids is the
    id of no person of the collection or the two ids are equal. *)
Theorem X10_findAllRelationships_empty (fuel : nat) (person1Id person2Id : string)
    (allPeople : list Person) :
  enoughFuel allPeople <= fuel ->
  exists l,
    findAllRelationships fuel person1Id person2Id allPeople = Done l /\
    (l = [] <->
     getPersonById person1Id allPeople = None \/
     getPersonById person2Id allPeople = None \/
     person1Id = person2Id).
Proof.
  intros Hfuel.
  destruct (findAllRelationships_terminates fuel person1Id person2Id allPeople Hfuel)
    as [l Hl].
  exists l. split; [exact Hl |].
  destruct (getPersonById person1Id allPeople) as [p1 |] eqn:Hp1.
  2: { unfold findAllRelationships in Hl. rewrite Hp1 in Hl.
       injection Hl as <-. tauto. }
  destruct (getPersonById person2Id allPeople) as [p2 |] eqn:Hp2.
  2: { unfold findAllRelationships in Hl. rewrite Hp1, Hp2 in Hl.
       injection Hl as <-. tauto. }
  destruct (String.eqb_spec person1Id person2Id) as [E | Hne].
  { unfold findAllRelationships in Hl. rewrite Hp1, Hp2 in Hl.
    apply String.eqb_eq in E. rewrite E in Hl. injection Hl as <-.
    apply String.eqb_eq in E. tauto. }
  destruct (findAllRelationships_unfold _ _ _ _ _ _ _ Hp1 Hp2 Hne Hl)
    as (primaryRel & added & _ & _ & Hshape).
  cbv zeta in Hshape.
  split; [| intros [H | [H | H]]; congruence].
  intros ->.
  destruct (fold_left addRelationship added
              match primaryRel with
              | Some rel => addRelationship [] rel
              | None => []
              end) as [| x rest]; [discriminate |].
  symmetry in Hshape. apply sortByLen_nil in Hshape. discriminate.
Qed.

Lemma X10_findAllRelationships_empty_witness :
  exists l,
    findAllRelationships 30 "a2" "nobody" family = Done l /\
    (l = [] <->
     getPersonById "a2" family = None \/
     getPersonById "nobody" family = None \/
     "a2" = "nobody").
Proof.
  apply (X10_findAllRelationships_empty 30 "a2" "nobody" family).
  vm_compute. lia.
Defined.

(** X11.  A list returned by [findAllRelationships] is either the single
    relationship of type [none] with the fixed message, or it holds no
    relationship of type [none] at all; in the second case no two entries
    have the same description, and the entries are in ascending order of
    their number of steps. *)
Theorem X11_findAllRelationships_shape (fuel : nat) (person1Id person2Id : string)
    (allPeople : list Person) (l : list Relationship) :
  findAllRelationships fuel person1Id person2Id allPeople = Done l ->
  l = [NoRelationship "No relationship path could be found."] \/
  (Forall (fun r => isNone r = false) l /\
   NoDup (map rel_description l) /\
   StronglySorted fewerSteps l).
Proof.
  intros Hl.
  assert (Hnil : Forall (fun r => isNone r = false) [] /\
                 NoDup (map rel_description []) /\
                 StronglySorted fewerSteps []).
  { repeat constructor. }
  destruct (getPersonById person1Id allPeople) as [p1 |] eqn:Hp1.
  2: { unfold findAllRelationships in Hl. rewrite Hp1 in Hl.
       injection Hl as <-. now right. }
  destruct (getPersonById person2Id allPeople) as [p2 |] eqn:Hp2.
  2: { unfold findAllRelationships in Hl. rewrite Hp1, Hp2 in Hl.
       injection Hl as <-. now right. }
  destruct (String.eqb_spec person1Id person2Id) as [E | Hne].
  { unfold findAllRelationships in Hl. rewrite Hp1, Hp2 in Hl.
    apply String.eqb_eq in E. rewrite E in Hl. injection Hl as <-. now right. }
  destruct (findAllRelationships_unfold _ _ _ _ _ _ _ Hp1 Hp2 Hne Hl)
    as (primaryRel & added & _ & _ & Hshape).
  cbv zeta in Hshape.
  set (init := match primaryRel with
               | Some rel => addRelationship [] rel
               | None => []
               end) in Hshape.
  assert (Hinit : Forall (fun r => isNone r = false) init /\
                  NoDup (map rel_description init)).
  { unfold init. destruct primaryRel as [rel |].
    - split; [apply addRelationship_notNone | apply addRelationship_NoDup];
        constructor.
    - split; constructor. }
  destruct Hinit as [Hn Hd].
  apply (fold_addRelationship_notNone added) in Hn.
  apply (fold_addRelationship_NoDup added) in Hd.
  destruct (fold_left addRelationship added init) as [| x rest] eqn:E.
  { left. exact Hshape. }
  right. rewrite <- E in *. subst l.
  pose proof (sortByLen_perm (fold_left addRelationship added init)) as P.
  assert (Hn' : Forall (fun r => isNone r = false)
                  (sortByLen (fold_left addRelationship added init))).
  { apply (Permutation_Forall (Permutation_sym P)). exact Hn. }
  split; [exact Hn' |]. split.
  - apply (Permutation_NoDup
             (Permutation_map rel_description (Permutation_sym P))).
    exact Hd.
  - apply sorted_fewerSteps; [exact Hn' | apply sortByLen_sorted].
Qed.

(** X12.  When the primary relationship of two people, the answer of
    [findRelationship], is not of type [none], the list of
    [findAllRelationships] contains it, and every other entry of the list
    is a path ending in person 2 that is described as the husband or the
    wife of a relative of person 1. *)
Theorem X12_primary_relationship_listed (fuel : nat)
    (person1Id person2Id : string) (allPeople : list Person)
    (rel : Relationship) (l : list Relationship) :
  findRelationship fuel person1Id person2Id allPeople = Done (Some rel) ->
  isNone rel = false ->
  findAllRelationships fuel person1Id person2Id allPeople = Done l ->
  In rel l /\
  exists person2,
    getPersonById person2Id allPeople = Some person2 /\
    forall r, In r l -> r = rel \/ viaMarriage person2 r.
Proof.
  intros Hrel Hnone Hl.
  destruct (findRelationship_Some_people _ _ _ _ _ Hrel)
    as (Hne & p1 & p2 & Hp1 & Hp2).
  destruct (findAllRelationships_unfold _ _ _ _ _ _ _ Hp1 Hp2 Hne Hl)
    as (primaryRel & added & Hprim & Hadded & Hshape).
  assert (primaryRel = Some rel) by congruence. subst primaryRel.
  cbv zeta in Hshape.
  assert (Hinit : addRelationship [] rel = [rel]).
  { destruct rel; simpl in *; [reflexivity | reflexivity | discriminate]. }
  rewrite Hinit in Hshape.
  assert (Hin : In rel (fold_left addRelationship added [rel])).
  { apply fold_addRelationship_keeps. now left. }
  destruct (fold_left addRelationship added [rel]) as [| x rest] eqn:E;
    [destruct Hin |].
  rewrite <- E in *. subst l.
  pose proof (sortByLen_perm (fold_left addRelationship added [rel])) as P.
  split.
  - apply (Permutation_in _ (Permutation_sym P)). exact Hin.
  - exists p2. split; [exact Hp2 |]. intros r Hr.
    apply (Permutation_in _ P) in Hr.
    apply fold_addRelationship_In in Hr. destruct Hr as [[<- | []] | Hr]; auto.
    right. rewrite Forall_forall in Hadded. now apply Hadded.
Qed.

Lemma X11_findAllRelationships_shape_witness :
  let l := [Path "Son's Wife" [marA1; marA2; marB2];
            Blood "niece" [marA1; marR] [marB2; marB1; marR] marR] in
  l = [NoRelationship "No relationship path could be found."] \/
  (Forall (fun r => isNone r = false) l /\
   NoDup (map rel_description l) /\
   StronglySorted fewerSteps l).
Proof.
  apply (X11_findAllRelationships_shape 30 "a1" "b2" marriedCousins).
  vm_compute. reflexivity.
Defined.

Lemma X12_primary_relationship_listed_witness :
  let rel := Blood "niece" [marA1; marR] [marB2; marB1; marR] marR in
  let l := [Path "Son's Wife" [marA1; marA2; marB2]; rel] in
  In rel l /\
  exists person2,
    getPersonById "b2" marriedCousins = Some person2 /\
    forall r, In r l -> r = rel \/ viaMarriage person2 r.
Proof.
  apply (X12_primary_relationship_listed 30 "a1" "b2" marriedCousins);
    vm_compute; reflexivity.
Defined.

(** * The reports *)

(** ** Levels of a breadth-first walk *)

Lemma set_add_new (x : string) (s : JsSet) :
  set_has s x = false -> set_add x s = s ++ [x].
Proof. intros H. unfold set_add. now rewrite H. Qed.

Lemma sorted_app_const (l l2 : list Z) (c : Z) :
  StronglySorted Z.le l -> Forall (fun a => (a <= c)%Z) l ->
  Forall (eq c) l2 -> StronglySorted Z.le (l ++ l2).
Proof.
  intros Hs Hle Hc. induction Hs as [| a l Hs IH Ha]; simpl.
  - induction Hc as [| b l2 Hb Hc IH]; constructor; [assumption |].
    subst b. eapply Forall_impl; [| exact Hc]. intros z <-. lia.
  - inversion Hle as [| a' l' Hac Hl]; subst.
    constructor; [now apply IH |].
    apply Forall_app. split; [assumption |].
    eapply Forall_impl; [| exact Hc]. intros z <-. assumption.
Qed.

Lemma level_loop_fst (edges : Person -> list string) (allPeople : list Person)
    (fuel : nat) :
  forall queue visited results,
    mapDone (map fst) (level_loop edges fuel allPeople queue visited results)
    = walk_loop edges fuel allPeople (map fst queue) visited (map fst results).
Proof.
  induction fuel as [| fuel IH]; intros [| [x n] queue] visited results; simpl;
    try reflexivity.
  rewrite (orb_comm (falsy x)).
  destruct (set_has visited x || falsy x); [apply IH |].
  destruct (getPersonById x allPeople) as [p |]; [| apply IH].
  rewrite IH, !map_app, map_map. simpl. now rewrite map_id.
Qed.

Lemma getAncestorsHierarchically_loop_level (fuel : nat) (allPeople : list Person) :
  forall queue visited results,
    getAncestorsHierarchically_loop fuel allPeople queue visited results
    = level_loop parentsOf fuel allPeople queue visited results.
Proof.
  induction fuel as [| fuel IH]; intros [| [x n] queue] visited results; simpl;
    try reflexivity.
  destruct (falsy x || set_has visited x); [apply IH |].
  destruct (getPersonById x allPeople); apply IH.
Qed.

Lemma NoDup_fst_unique {A B : Type} (l : list (A * B)) (x : A) (a b : B) :
  NoDup (map fst l) -> In (x, a) l -> In (x, b) l -> a = b.
Proof.
  induction l as [| [y j] l IH]; simpl; intros Hnd Ha Hb; [contradiction |].
  inversion Hnd as [| y' l' Hnot Hnd']; subst.
  destruct Ha as [Ha | Ha], Hb as [Hb | Hb].
  - congruence.
  - injection Ha as -> ->. exfalso. apply Hnot. apply in_map_iff.
    now exists (x, b).
  - injection Hb as -> ->. exfalso. apply Hnot. apply in_map_iff.
    now exists (x, a).
  - eauto.
Qed.

Section Levels.

Variable edges : Person -> list string.
Variable allPeople : list Person.
Variable start : list string.

Lemma stepsFrom_pos (n : Z) (x : string) :
  stepsFrom edges allPeople start n x -> (1 <= n)%Z.
Proof. induction 1; lia. Qed.

Lemma lev_of_visited (lev : list (string * Z)) (visited : JsSet) (x : string) :
  map fst lev = visited -> In x visited -> exists k, In (x, k) lev.
Proof.
  intros <- H. apply in_map_iff in H. destruct H as ([y k] & <- & H).
  now exists k.
Qed.

Lemma levelInv_skip (queue : list (string * Z)) (visited : JsSet)
    (results : list (Person * Z)) (lev : list (string * Z)) (x : string) (n : Z) :
  levelInv edges allPeople start ((x, n) :: queue) visited results lev ->
  falsy x || set_has visited x = true ->
  levelInv edges allPeople start queue visited results lev.
Proof.
  intros [Hv Hnd Hne Hq Hl Hr Hb Hs Hw Hst Hc Hsr] Hx.
  assert (Hseen : x <> "" -> exists k, In (x, k) lev /\ (k <= n)%Z).
  { intros Hx0. apply orb_true_iff in Hx. destruct Hx as [Hx | Hx].
    - apply falsy_true in Hx. contradiction.
    - apply set_has_In in Hx.
      destruct (lev_of_visited lev visited x Hv Hx) as [k Hk].
      exists k. split; [assumption |]. eapply Hb; [exact Hk | now left]. }
  constructor; auto.
  - intros y m Hy. apply Hq. now right.
  - intros y m z k Hy Hz. eapply Hb; [exact Hy | right; exact Hz].
  - simpl in Hs. now apply StronglySorted_inv in Hs.
  - intros y m z k Hy Hz. eapply Hw; right; eassumption.
  - intros y Hy Hy0. destruct (Hst y Hy Hy0) as [H | [H | H]]; auto.
    injection H as <- <-. left. destruct (Hseen Hy0) as (k & Hk & Hle). eauto.
  - intros y m p z Hy Hp Hz Hz0.
    destruct (Hc y m p z Hy Hp Hz Hz0) as [H | [H | H]]; auto.
    injection H as <- <-. left. destruct (Hseen Hz0) as (k & Hk & Hle). eauto.
Qed.

Lemma levelInv_visit (queue : list (string * Z)) (visited : JsSet)
    (results : list (Person * Z)) (lev : list (string * Z)) (x : string) (n : Z) :
  levelInv edges allPeople start ((x, n) :: queue) visited results lev ->
  falsy x || set_has visited x = false ->
  levelInv edges allPeople start
    (queue ++ match getPersonById x allPeople with
              | Some p =>
                  map (fun y => (y, (n + 1)%Z))
                      (filter (fun y => negb (set_has (set_add x visited) y))
                              (edges p))
              | None => []
              end)
    (set_add x visited)
    (results ++ match getPersonById x allPeople with
                | Some p => [(p, n)]
                | None => []
                end)
    (lev ++ [(x, n)]).
Proof.
  intros [Hv Hnd Hne Hq Hl Hr Hb Hs Hw Hst Hc Hsr] Hx.
  apply orb_false_iff in Hx. destruct Hx as [Hx0 Hx].
  apply falsy_false in Hx0.
  assert (Hhead : stepsFrom edges allPeople start n x) by (apply Hq; now left).
  assert (Htail : Forall (fun m => (n <= m)%Z) (map snd queue)).
  { simpl in Hs. now apply StronglySorted_inv in Hs. }
  assert (Htail' : forall y m, In (y, m) queue -> (n <= m <= n + 1)%Z).
  { intros y m Hy. split.
    - rewrite Forall_forall in Htail. apply Htail.
      apply in_map_iff. now exists (y, m).
    - eapply Hw; [now left | right; exact Hy]. }
  assert (Hnews : forall y m,
            In (y, m) match getPersonById x allPeople with
                      | Some p =>
                          map (fun y => (y, (n + 1)%Z))
                              (filter (fun y => negb (set_has (set_add x visited) y))
                                      (edges p))
                      | None => []
                      end ->
            m = (n + 1)%Z /\
            exists p, getPersonById x allPeople = Some p /\ In y (edges p)).
  { intros y m Hy. destruct (getPersonById x allPeople) as [p |]; [| destruct Hy].
    apply in_map_iff in Hy. destruct Hy as (z & Hz & Hin).
    injection Hz as -> <-. apply filter_In in Hin. destruct Hin as [Hin _].
    split; [reflexivity |]. now exists p. }
  assert (Hlev' : forall y m, In (y, m) (lev ++ [(x, n)]) -> (m <= n)%Z).
  { intros y m Hy. apply in_app_or in Hy. destruct Hy as [Hy | [Hy | []]].
    - eapply Hb; [exact Hy | now left].
    - injection Hy as <- <-. lia. }
  constructor.
  - rewrite map_app, Hv. simpl. symmetry. now apply set_add_new.
  - now apply set_add_NoDup.
  - intros y m Hy. apply in_app_or in Hy. destruct Hy as [Hy | [Hy | []]]; eauto.
    now injection Hy as <- <-.
  - intros y m Hy. apply in_app_or in Hy. destruct Hy as [Hy | Hy].
    + apply Hq. now right.
    + destruct (Hnews y m Hy) as (-> & p & Hp & Hin).
      now apply stepsFrom_step with (x := x) (p := p).
  - intros y m Hy. apply in_app_or in Hy. destruct Hy as [Hy | [Hy | []]]; eauto.
    now injection Hy as <- <-.
  - intros p m Hp. apply in_app_or in Hp. destruct Hp as [Hp | Hp].
    + destruct (Hr p m Hp) as [H1 H2]. split; [| assumption].
      apply in_or_app. now left.
    + destruct (getPersonById x allPeople) as [q |] eqn:Hq'; [| destruct Hp].
      destruct Hp as [Hp | []]. injection Hp as <- <-.
      pose proof (getPersonById_id _ _ _ Hq') as Hid. rewrite Hid.
      split; [| assumption]. apply in_or_app. right. now left.
  - intros y m z k Hy Hz. specialize (Hlev' y m Hy).
    apply in_app_or in Hz. destruct Hz as [Hz | Hz].
    + specialize (Htail' z k Hz). lia.
    + destruct (Hnews z k Hz) as (-> & _). lia.
  - rewrite map_app. apply sorted_app_const with (c := (n + 1)%Z).
    + simpl in Hs. now apply StronglySorted_inv in Hs.
    + apply Forall_forall. intros m Hm. apply in_map_iff in Hm.
      destruct Hm as ([y m'] & <- & Hm). apply (Htail' y m' Hm).
    + apply Forall_forall. intros m Hm. apply in_map_iff in Hm.
      destruct Hm as ([y m'] & <- & Hm). simpl.
      now destruct (Hnews y m' Hm) as (-> & _).
  - intros y m z k Hy Hz.
    assert (Hy' : (n <= m <= n + 1)%Z).
    { apply in_app_or in Hy. destruct Hy as [Hy | Hy]; [eauto |].
      destruct (Hnews y m Hy) as (-> & _). lia. }
    assert (Hz' : (n <= k <= n + 1)%Z).
    { apply in_app_or in Hz. destruct Hz as [Hz | Hz]; [eauto |].
      destruct (Hnews z k Hz) as (-> & _). lia. }
    lia.
  - intros y Hy Hy0. destruct (Hst y Hy Hy0) as [(k & Hk & Hle) | [H | H]].
    + left. exists k. split; [apply in_or_app; now left | assumption].
    + injection H as Hxy Hn. subst y. left. exists n.
      split; [apply in_or_app; right; now left | lia].
    + right. apply in_or_app. now left.
  - intros y m p z Hy Hp Hz Hz0. apply in_app_or in Hy.
    destruct Hy as [Hy | [Hy | []]].
    + destruct (Hc y m p z Hy Hp Hz Hz0) as [(k & Hk & Hle) | [H | H]].
      * left. exists k. split; [apply in_or_app; now left | assumption].
      * injection H as Hxz Hn. subst z. left. exists n.
        split; [apply in_or_app; right; now left | lia].
      * right. apply in_or_app. now left.
    + injection Hy as <- <-. rewrite Hp.
      destruct (set_has (set_add x visited) z) eqn:Ez.
      * left. apply set_has_In in Ez.
        assert (Hv' : map fst (lev ++ [(x, n)]) = set_add x visited).
        { rewrite map_app, Hv. simpl. symmetry. now apply set_add_new. }
        destruct (lev_of_visited _ _ z Hv' Ez) as [k Hk].
        exists k. split; [assumption |]. specialize (Hlev' z k Hk). lia.
      * right. apply in_or_app. right. apply in_map_iff. exists z.
        split; [reflexivity |]. apply filter_In. split; [assumption |].
        now rewrite Ez.
  - rewrite map_app. apply sorted_app_const with (c := n); [assumption | |].
    + apply Forall_forall. intros m Hm. apply in_map_iff in Hm.
      destruct Hm as ([p m'] & <- & Hm). simpl.
      destruct (Hr p m' Hm) as [Hin _]. eapply Hb; [exact Hin | now left].
    + destruct (getPersonById x allPeople); repeat constructor.
Qed.

Lemma level_loop_inv (fuel : nat) :
  forall queue visited results lev r,
    levelInv edges allPeople start queue visited results lev ->
    level_loop edges fuel allPeople queue visited results = Done r ->
    exists visited' lev', levelInv edges allPeople start [] visited' r lev'.
Proof.
  induction fuel as [| fuel IH]; intros [| [x n] queue] visited results lev r Hinv H;
    simpl in H; try discriminate.
  - injection H as <-. eauto.
  - injection H as <-. eauto.
  - destruct (falsy x || set_has visited x) eqn:Hx.
    + eapply IH; [| exact H]. eapply levelInv_skip; eauto.
    + pose proof (levelInv_visit _ _ _ _ _ _ Hinv Hx) as Hnext.
      destruct (getPersonById x allPeople) as [p |].
      * eapply IH; [exact Hnext | exact H].
      * rewrite !app_nil_r in Hnext. eapply IH; [exact Hnext | exact H].
Qed.

Lemma level_loop_spec (fuel : nat) (r : list (Person * Z)) :
  level_loop edges fuel allPeople (map (fun i => (i, 1%Z)) start) [] [] = Done r ->
  StronglySorted Z.le (map snd r) /\
  forall p l, In (p, l) r ->
    getPersonById (id p) allPeople = Some p /\
    generationOf edges allPeople start (id p) l.
Proof.
  intros H.
  assert (Hinit : levelInv edges allPeople start
                    (map (fun i => (i, 1%Z)) start) [] [] []).
  { constructor; simpl; try tauto.
    - constructor.
    - intros x n Hx. apply in_map_iff in Hx. destruct Hx as (y & Hy & Hin).
      injection Hy as -> <-. now constructor.
    - rewrite map_map. simpl. clear H.
      induction start as [| a l IH]; simpl; constructor; [assumption |].
      apply Forall_forall. intros z Hz. apply in_map_iff in Hz.
      destruct Hz as (y & <- & _). lia.
    - intros x n y m Hx Hy. apply in_map_iff in Hx, Hy.
      destruct Hx as (x' & Hx & _), Hy as (y' & Hy & _).
      injection Hx as _ <-. injection Hy as _ <-. lia.
    - intros x Hx _. right. apply in_map_iff. now exists x.
    - constructor. }
  destruct (level_loop_inv fuel _ _ _ _ r Hinit H)
    as (v & lev & [Hv Hnd Hne Hq Hl Hr Hb Hs Hw Hst Hc Hsr]).
  split; [exact Hsr |]. intros p l Hp.
  destruct (Hr p l Hp) as [Hin Hfound]. split; [exact Hfound |].
  split; [now apply Hl |].
  assert (Hmin : forall m y, stepsFrom edges allPeople start m y -> y <> "" ->
                             exists k, In (y, k) lev /\ (k <= m)%Z).
  { intros m y Hsteps. induction Hsteps as [y Hy | m x q y Hsteps IH Hx0 Hq' Hy];
      intros Hy0.
    - destruct (Hst y Hy Hy0) as [H1 | []]. exact H1.
    - destruct (IH Hx0) as (k & Hk & Hle).
      destruct (Hc x k q y Hk Hq' Hy Hy0) as [(k' & Hk' & Hle') | []].
      exists k'. split; [assumption | lia]. }
  intros m Hm.
  destruct (Hmin m (id p) Hm (Hne _ _ Hin)) as (k & Hk & Hle).
  assert (k = l); [| lia].
  subst v. eapply NoDup_fst_unique; eauto.
Qed.

End Levels.

Lemma mapDone_Done {A B : Type} (f : A -> B) (o : outcome A) (b : B) :
  mapDone f o = Done b -> exists a, o = Done a /\ b = f a.
Proof. destruct o; simpl; intros H; try discriminate. injection H as <-. eauto. Qed.

(** ** Ancestors by level *)

(** X13.  With fuel for as many iterations as the collection has edge
    entries, [getAncestorsHierarchically] returns the people of
    [getAncestors] in the same order, each with a level; the levels never
    decrease along the list, and the level of a person is the number of
    [parentIds] entries on a shortest chain from the person's [parentIds] to
    that person. *)
Theorem X13_getAncestorsHierarchically_levels (fuel : nat) (person : Person)
    (allPeople : list Person) :
  List.length (parentsOf person) + graphSize allPeople <= fuel ->
  exists results,
    getAncestorsHierarchically fuel person allPeople = Done results /\
    getAncestors fuel person allPeople = Done (map fst results) /\
    StronglySorted Z.le (map snd results) /\
    forall p l, In (p, l) results ->
      generationOf parentsOf allPeople (parentsOf person) (id p) l.
Proof.
  intros Hfuel.
  destruct (getAncestorsHierarchically_terminates fuel person allPeople Hfuel)
    as [results Hr].
  exists results. split; [exact Hr |].
  unfold getAncestorsHierarchically in Hr. unfold getAncestors, parentsOf.
  destruct (parentIds person) as [pids |]; simpl.
  - rewrite getAncestorsHierarchically_loop_level in Hr.
    split.
    + rewrite getAncestors_loop_walk.
      pose proof (level_loop_fst parentsOf allPeople fuel
                    (map (fun i => (i, 1%Z)) pids) [] []) as Hfst.
      rewrite Hr in Hfst. simpl in Hfst. rewrite map_map in Hfst. simpl in Hfst.
      rewrite map_id in Hfst. now symmetry.
    + apply level_loop_spec in Hr. destruct Hr as [Hs Hg].
      split; [exact Hs |]. intros p l Hp. now apply Hg.
  - injection Hr as <-. simpl. split; [destruct fuel; reflexivity |].
    split; [constructor |]. intros p l [].
Qed.

Lemma X13_getAncestorsHierarchically_levels_witness :
  exists results,
    getAncestorsHierarchically 30 famB4 family = Done results /\
    getAncestors 30 famB4 family = Done (map fst results) /\
    StronglySorted Z.le (map snd results) /\
    forall p l, In (p, l) results ->
      generationOf parentsOf family (parentsOf famB4) (id p) l.
Proof.
  apply (X13_getAncestorsHierarchically_levels 30 famB4 family). vm_compute. lia.
Defined.

(** ** Descendants with their relationship *)

Lemma descendantTerm_total (g : Gender) (generation : Z) :
  (1 <= generation)%Z ->
  Store.descendantTerm g generation = Done (termOfDescendant g generation).
Proof.
  intros H. unfold Store.descendantTerm, termOfDescendant, js_repeat.
  destruct (Z.eqb_spec generation 1); [reflexivity |].
  destruct (Z.eqb_spec generation 2); [reflexivity |].
  destruct (Z.ltb_spec (generation - 2) 0); [lia | reflexivity].
Qed.

Lemma getDescendantsWithRelationship_loop_level (fuel : nat)
    (allPeople : list Person) :
  forall queue visited results,
    (forall x n, In (x, n) queue -> (1 <= n)%Z) ->
    getDescendantsWithRelationship_loop fuel allPeople queue visited
      (map descendantRow results)
    = mapDone (map descendantRow)
        (level_loop childrenOf fuel allPeople queue visited results).
Proof.
  induction fuel as [| fuel IH]; intros [| [x n] queue] visited results Hpos;
    simpl; try reflexivity.
  assert (Hn : (1 <= n)%Z) by (apply (Hpos x n); now left).
  assert (Htail : forall y m, In (y, m) queue -> (1 <= m)%Z)
    by (intros y m Hy; apply (Hpos y m); now right).
  destruct (falsy x || set_has visited x); [now apply IH |].
  destruct (getPersonById x allPeople) as [p |]; [| now apply IH].
  rewrite descendantTerm_total by assumption. cbn [bind].
  rewrite <- IH.
  - now rewrite map_app.
  - intros y m Hy. apply in_app_or in Hy. destruct Hy as [Hy | Hy]; [eauto |].
    apply in_map_iff in Hy. destruct Hy as (z & Hz & _). injection Hz as _ <-.
    lia.
Qed.

(** X14.  With fuel for as many iterations as the collection has edge
    entries, [getDescendantsWithRelationship] returns without throwing (the
    count of [repeat] is never negative) the people of [getDescendants] in
    the same order; the generations never decrease along the list, the
    generation of a person is the number of [childrenIds] entries on a
    shortest chain from the person's [childrenIds] to that person, and the
    relationship is the term of the direct line for that generation: Son,
    Daughter or Child for 1, the Grand- term for 2, and one [Great-] more
    for each further generation. *)
Theorem X14_getDescendantsWithRelationship_rows (fuel : nat) (person : Person)
    (allPeople : list Person) :
  List.length (childrenOf person) + graphSize allPeople <= fuel ->
  exists rows,
    getDescendantsWithRelationship fuel person allPeople = Done rows /\
    getDescendants fuel person allPeople
      = Done (map (fun row => fst (fst row)) rows) /\
    StronglySorted Z.le (map snd rows) /\
    forall p relationship generation,
      In (p, relationship, generation) rows ->
      generationOf childrenOf allPeople (childrenOf person) (id p) generation /\
      relationship = termOfDescendant (gender p) generation.
Proof.
  intros Hfuel.
  destruct (getDescendants_terminates fuel person allPeople Hfuel) as [ds Hds].
  unfold getDescendantsWithRelationship.
  unfold getDescendants, childrenOf in Hds |- *.
  destruct (childrenIds person) as [cids |]; simpl in *.
  - rewrite getDescendants_loop_walk in Hds |- *.
    pose proof (level_loop_fst childrenOf allPeople fuel
                  (map (fun i => (i, 1%Z)) cids) [] []) as Hfst.
    rewrite map_map in Hfst. simpl in Hfst. rewrite map_id, Hds in Hfst.
    apply mapDone_Done in Hfst. destruct Hfst as (levels & Hlevels & ->).
    exists (map descendantRow levels).
    pose proof (getDescendantsWithRelationship_loop_level fuel allPeople
                  (map (fun i => (i, 1%Z)) cids) [] []) as Hrows.
    simpl in Hrows. rewrite Hrows, Hlevels.
    2: { intros x n Hx. apply in_map_iff in Hx. destruct Hx as (y & Hy & _).
         injection Hy as _ <-. lia. }
    split; [reflexivity |]. split; [now rewrite map_map |].
    apply level_loop_spec in Hlevels. destruct Hlevels as [Hs Hg].
    split; [now rewrite map_map |].
    intros p relationship generation Hin. apply in_map_iff in Hin.
    destruct Hin as ([q g] & Hq & Hin). unfold descendantRow in Hq. simpl in Hq.
    injection Hq as <- <- <-. split; [| reflexivity]. now apply Hg.
  - exists []. split; [reflexivity |].
    split; [destruct fuel; reflexivity |].
    split; [constructor | intros p r g []].
Qed.

Lemma X14_getDescendantsWithRelationship_rows_witness :
  exists rows,
    getDescendantsWithRelationship 30 famR family = Done rows /\
    getDescendants 30 famR family
      = Done (map (fun row => fst (fst row)) rows) /\
    StronglySorted Z.le (map snd rows) /\
    forall p relationship generation,
      In (p, relationship, generation) rows ->
      generationOf childrenOf family (childrenOf famR) (id p) generation /\
      relationship = termOfDescendant (gender p) generation.
Proof.
  apply (X14_getDescendantsWithRelationship_rows 30 famR family).
  vm_compute. lia.
Defined.

(** The store embedding gives the same rows. *)
Example store_agrees_on_descendant_rows :
  fst (Store.bindM (Store.encodePeople family) (fun people =>
       Store.bindM (Store.getPersonById "r" people) (fun found =>
       match found with
       | Some person =>
           Store.bindM (Store.getDescendantsWithRelationship 30 person people)
             (fun results =>
           Store.bindM (Store.readRows results) (fun rows =>
           Store.mapM (fun row =>
             Store.bindM (Store.viewPerson (Store.row_person row)) (fun p =>
             Store.ret (p,
                        match Store.row_relationship row with
                        | Some relationship => relationship
                        | None => ""
                        end,
                        match Store.row_level row with
                        | Some level => level
                        | None => 0%Z
                        end))) rows))
       | None => Store.ret []
       end)) [])
    = getDescendantsWithRelationship 30 famR family.
Proof. vm_compute. reflexivity. Qed.

(** ** Siblings *)

Example store_agrees_on_siblings :
  fst (Store.bindM (Store.encodePeople family) (fun people =>
       Store.bindM (Store.getPersonById "b1" people) (fun found =>
       match found with
       | Some person =>
           Store.bindM (Store.getSiblingsWithRelationship person people)
             (fun results =>
           Store.bindM (Store.readRows results) (fun rows =>
           Store.bindM
             (Store.mapM (fun row =>
                Store.bindM (Store.viewPerson (Store.row_person row)) (fun p =>
                Store.ret (p,
                           match Store.row_relationship row with
                           | Some relationship => relationship
                           | None => ""
                           end))) rows)
             (fun l => Store.ret l)))
       | None => Store.ret []
       end)) [])
    = Done (getSiblingsWithRelationship famB1 family).
Proof. vm_compute. reflexivity. Qed.

Lemma fold_ids_In (l : list string) :
  forall (s : JsSet) (i : string),
    In i (fold_left (fun s x => set_add x s) l s) <-> In i s \/ In i l.
Proof.
  induction l as [| x l IH]; simpl; intros s i; [tauto |].
  rewrite IH, In_set_add. intuition auto.
Qed.

Lemma parentIdSet_In (pids : list string) (i : string) :
  In i (fold_left (fun s x => set_add x s)
          (filter (fun x => negb (falsy x)) pids) [])
  <-> i <> "" /\ In i pids.
Proof.
  rewrite fold_ids_In, filter_In. simpl.
  rewrite negb_true_iff, falsy_false. tauto.
Qed.

Lemma parentIdSet_nonempty (pids : list string) (pid : string) :
  pid <> "" -> In pid pids ->
  (len pids =? 0)%Z = false /\
  (len (fold_left (fun s x => set_add x s)
          (filter (fun x => negb (falsy x)) pids) []) =? 0)%Z = false.
Proof.
  intros Hpid Hin. split.
  - destruct pids; [destruct Hin |]. apply Z.eqb_neq. unfold len. simpl. lia.
  - assert (H : In pid (fold_left (fun s x => set_add x s)
                          (filter (fun x => negb (falsy x)) pids) []))
      by (apply parentIdSet_In; auto).
    destruct (fold_left (fun s x => set_add x s)
                (filter (fun x => negb (falsy x)) pids) []); [destruct H |].
    apply Z.eqb_neq. unfold len. simpl. lia.
Qed.

Lemma getSiblingsWithRelationship_shares (person : Person)
    (allPeople : list Person) (q : Person) (relationship : string) :
  In (q, relationship) (getSiblingsWithRelationship person allPeople) ->
  In q allPeople /\ id q <> id person /\ shareParent person q /\
  relationship = byGender (gender q) "Brother" "Sister" "Sibling".
Proof.
  unfold getSiblingsWithRelationship, shareParent, parentsOf.
  destruct (parentIds person) as [pids |]; simpl; [| intros []].
  destruct (len pids =? 0)%Z; [intros [] |].
  destruct (len _ =? 0)%Z; [intros [] |].
  rewrite in_map_iff. intros (s & Hs & Hin). injection Hs as -> <-.
  apply filter_In in Hin. destruct Hin as [Hin Hkeep].
  destruct (String.eqb_spec (id q) (id person)) as [| Hne]; [discriminate |].
  destruct (parentIds q) as [l |]; [| discriminate].
  apply existsb_exists in Hkeep. destruct Hkeep as (pid & Hpid & Hhas).
  apply set_has_In, parentIdSet_In in Hhas. destruct Hhas as [Hpid0 Hpids].
  repeat split; auto. exists pid. auto.
Qed.

Lemma getSiblingsWithRelationship_lists (person : Person)
    (allPeople : list Person) (q : Person) :
  In q allPeople -> id q <> id person -> shareParent person q ->
  In (q, byGender (gender q) "Brother" "Sister" "Sibling")
     (getSiblingsWithRelationship person allPeople).
Proof.
  unfold getSiblingsWithRelationship, shareParent, parentsOf.
  intros Hin Hne (pid & Hpid0 & Hpids & Hq).
  destruct (parentIds person) as [pids |]; simpl in *; [| destruct Hpids].
  destruct (parentIdSet_nonempty pids pid Hpid0 Hpids) as [-> ->].
  apply in_map_iff. exists q. split; [reflexivity |].
  apply filter_In. split; [assumption |].
  destruct (String.eqb_spec (id q) (id person)) as [| _]; [contradiction |].
  destruct (parentIds q) as [l |]; [| destruct Hq].
  apply existsb_exists. exists pid. split; [assumption |].
  apply set_has_In, parentIdSet_In. auto.
Qed.

(** X15.  [getSiblingsWithRelationship] lists exactly the people of the
    collection whose id differs from the person's and who list one of the
    person's non-empty parent ids among their own [parentIds], each as
    Brother, Sister or Sibling by gender; so a person without [parentIds],
    or with only empty ones, has no siblings, and the person itself is never
    listed. *)
Theorem X15_getSiblingsWithRelationship_exact (person : Person)
    (allPeople : list Person) (q : Person) (relationship : string) :
  In (q, relationship) (getSiblingsWithRelationship person allPeople) <->
  In q allPeople /\ id q <> id person /\ shareParent person q /\
  relationship = byGender (gender q) "Brother" "Sister" "Sibling".
Proof.
  split.
  - apply getSiblingsWithRelationship_shares.
  - intros (Hin & Hne & Hshare & ->).
    now apply getSiblingsWithRelationship_lists.
Qed.

(** X16.  Being a sibling is symmetric: when [b] is listed among the
    siblings of a person [a] of the collection, [a] is listed among the
    siblings of [b]. *)
Theorem X16_siblings_symmetric (a b : Person) (allPeople : list Person)
    (relationship : string) :
  In a allPeople ->
  In (b, relationship) (getSiblingsWithRelationship a allPeople) ->
  In (a, byGender (gender a) "Brother" "Sister" "Sibling")
     (getSiblingsWithRelationship b allPeople).
Proof.
  intros Ha Hb. apply getSiblingsWithRelationship_shares in Hb.
  destruct Hb as (Hin & Hne & (pid & Hpid & H1 & H2) & _).
  apply getSiblingsWithRelationship_lists; auto.
  exists pid. auto.
Qed.

Lemma X16_siblings_symmetric_witness :
  In (famA1, "Sister") (getSiblingsWithRelationship famB1 family).
Proof.
  apply (X16_siblings_symmetric famA1 famB1 family "Brother").
  - simpl. tauto.
  - vm_compute. tauto.
Defined.

(** ** Blood relatives are described as such *)

Lemma ancestorOf_upFrom (allPeople : list Person) (focalPerson g : Person) :
  getPersonById (id focalPerson) allPeople = Some focalPerson ->
  ancestorOf allPeople focalPerson g ->
  upFrom allPeople (id focalPerson) (id g) /\
  getPersonById (id g) allPeople = Some g /\ id g <> "".
Proof.
  intros Hf Hg. unfold ancestorOf in Hg.
  induction Hg as [x p Hx Hne Hp | q x p Hq IH Hx Hne Hp].
  - pose proof (getPersonById_id _ _ _ Hp) as Hid. rewrite Hid.
    repeat split; auto.
    apply upFrom_step with (x := id focalPerson) (p := focalPerson);
      [constructor | assumption | assumption].
  - destruct IH as (Hup & Hq' & _).
    pose proof (getPersonById_id _ _ _ Hp) as Hid. rewrite Hid.
    repeat split; auto.
    now apply upFrom_step with (x := id q) (p := q).
Qed.

Lemma descendantOf_upFrom (allPeople : list Person) (g d : Person) :
  parentsListed allPeople ->
  getPersonById (id g) allPeople = Some g ->
  descendantOf allPeople g d ->
  upFrom allPeople (id d) (id g) /\
  getPersonById (id d) allPeople = Some d /\ id d <> "".
Proof.
  intros Hmirror Hg Hd. unfold descendantOf in Hd.
  induction Hd as [x p Hx Hne Hp | q x p Hq IH Hx Hne Hp].
  - pose proof (getPersonById_id _ _ _ Hp) as Hid. rewrite Hid.
    repeat split; auto.
    apply upFrom_step with (x := x) (p := p); [constructor | assumption |].
    eapply Hmirror; eauto.
  - destruct IH as (Hup & Hq' & _).
    pose proof (getPersonById_id _ _ _ Hp) as Hid. rewrite Hid.
    repeat split; auto.
    apply upFrom_trans with (b := id q); [| assumption].
    apply upFrom_step with (x := x) (p := p); [constructor | assumption |].
    eapply Hmirror; eauto.
Qed.

(** X17.  In a collection where every child entry is mirrored by a parent
    entry, each id that [getAllBloodRelativesIds] returns for a focal person
    of the collection, other than the focal person's own, has a common
    ancestor with the focal person; so [findRelationship] from the focal
    person to that id answers with a blood relationship, unless the focal
    person has a marriage to that id, which it reports first. *)
Theorem X17_blood_relatives_described (fuel : nat) (focalPerson : Person)
    (allPeople : list Person) (ids : list string) (relativeId : string) :
  enoughFuel allPeople <= fuel ->
  parentsListed allPeople ->
  getPersonById (id focalPerson) allPeople = Some focalPerson ->
  id focalPerson <> "" ->
  getAllBloodRelativesIds fuel focalPerson allPeople = Done ids ->
  In relativeId ids -> relativeId <> id focalPerson ->
  (exists c, commonAncestor allPeople (id focalPerson) relativeId c) /\
  exists rel,
    findRelationship fuel (id focalPerson) relativeId allPeople = Done (Some rel) /\
    match rel with
    | Blood _ _ _ l => commonAncestor allPeople (id focalPerson) relativeId l
    | Path _ _ => marriedTo focalPerson relativeId = true
    | NoRelationship _ => False
    end.
Proof.
  intros Hfuel Hmirror Hf Hf0 Hids Hin Hne.
  apply getAllBloodRelativesIds_members in Hids.
  destruct Hids as (_ & _ & Hmem). apply Hmem in Hin.
  destruct Hin as (g & Hg & Hrel).
  assert (Hg' : upFrom allPeople (id focalPerson) (id g) /\
                getPersonById (id g) allPeople = Some g /\ id g <> "").
  { destruct Hg as [-> | Hg]; [repeat split; auto; constructor |].
    now apply ancestorOf_upFrom. }
  destruct Hg' as (Hup1 & Hgl & Hg0).
  assert (Hr : upFrom allPeople relativeId (id g) /\
               getPersonById relativeId allPeople <> None /\ relativeId <> "").
  { destruct Hrel as [-> | (d & Hd & ->)].
    - repeat split; auto; [constructor | congruence].
    - destruct (descendantOf_upFrom allPeople g d Hmirror Hgl Hd)
        as (Hup & Hdl & Hd0).
      repeat split; auto. congruence. }
  destruct Hr as (Hup2 & Hrl & Hr0).
  assert (Hc : commonAncestor allPeople (id focalPerson) relativeId g)
    by (repeat split; assumption).
  split; [now exists g |].
  destruct (getPersonById relativeId allPeople) as [p |] eqn:Hp; [| congruence].
  unfold findRelationship.
  apply falsy_false in Hf0, Hr0.
  assert (Hne' : String.eqb (id focalPerson) relativeId = false)
    by (apply String.eqb_neq; congruence).
  rewrite Hf0, Hr0, Hne', Hf, Hp. cbn [orb].
  destruct (marriedTo focalPerson relativeId) eqn:Hm.
  { eexists. split; [reflexivity | reflexivity]. }
  destruct (findLcaAndPaths_terminates fuel (id focalPerson) relativeId allPeople
              Hfuel) as [o Ho].
  rewrite Ho. cbn [bind].
  pose proof (findLcaAndPaths_common _ _ _ _ _ Ho) as Hcommon.
  destruct o as [r |]; [| exfalso; now apply (Hcommon g)].
  apply findLcaAndPaths_sound in Ho.
  destruct Ho as [_ (q1 & _ & [Hh1 _ _ _ _ _] & _) (q2 & _ & [Hh2 _ _ _ _ _] & _)].
  destruct (describeBloodRelationship_total focalPerson p (lca r)
              (path1 r) (path2 r)) as [d Hd].
  { intros E. rewrite E in Hh1. discriminate. }
  { intros E. rewrite E in Hh2. discriminate. }
  rewrite Hd. cbn [bind]. eexists. split; [reflexivity |]. exact Hcommon.
Qed.

Lemma X17_blood_relatives_described_witness :
  (exists c, commonAncestor family (id famA2) "b3" c) /\
  exists rel,
    findRelationship 40 (id famA2) "b3" family = Done (Some rel) /\
    match rel with
    | Blood _ _ _ l => commonAncestor family (id famA2) "b3" l
    | Path _ _ => marriedTo famA2 "b3" = true
    | NoRelationship _ => False
    end.
Proof.
  apply (X17_blood_relatives_described 40 famA2 family
           ["a2"; "a1"; "r"; "b1"; "b2"; "b3"; "b4"]).
  - vm_compute. lia.
  - intros q x p Hq Hx Hp.
    assert (Hin : In q family) by (eapply getPersonById_In; eassumption).
    simpl in Hin.
    repeat (destruct Hin as [<- | Hin];
            [simpl in Hx;
             repeat (destruct Hx as [<- | Hx];
                     [vm_compute in Hp; injection Hp as <-; simpl; tauto |]);
             destruct Hx |]).
    destruct Hin.
  - reflexivity.
  - discriminate.
  - vm_compute. reflexivity.
  - simpl. tauto.
  - discriminate.
Defined.

(** * Shortest chains *)

Lemma sorted_snoc (l : list nat) (c : nat) :
  StronglySorted le l -> Forall (fun a => a <= c) l ->
  StronglySorted le (l ++ [c]).
Proof.
  intros Hs Hle. induction Hs as [| a l Hs IH Ha]; simpl.
  - repeat constructor.
  - inversion Hle as [| a' l' Hac Hl]; subst.
    constructor; [now apply IH |].
    apply Forall_app. split; [assumption | now repeat constructor].
Qed.

Lemma closedAt_mono (edges : Person -> list string) (allPeople : list Person)
    (lev lev' : list (string * nat)) (z : string) (k : nat) :
  (forall e, In e lev -> In e lev') ->
  closedAt edges allPeople lev z k -> closedAt edges allPeople lev' z k.
Proof.
  intros Hsub Hc p y Hp Hy. destruct (Hc p y Hp Hy) as (k' & Hk' & Hle). eauto.
Qed.

Lemma chain_hopsIn (allPeople : list Person) (startId : string)
    (chain : list Person) (s : Person) :
  hd_error chain = Some s -> id s = startId ->
  inGraph allPeople chain -> stepsAreParentEdges chain ->
  forall i a, nth_error chain i = Some a -> hopsIn parentsOf allPeople startId i (id a).
Proof.
  intros Hhd Hid Hg Hsteps. induction i as [| i IH]; intros a Ha.
  - destruct chain; simpl in *; [discriminate |].
    assert (a = s) by congruence. subst a. rewrite Hid. constructor.
  - destruct (nth_error chain i) as [b |] eqn:Hb.
    + apply hopsIn_step with (x := id b) (p := b).
      * now apply IH.
      * unfold inGraph in Hg. rewrite Forall_forall in Hg.
        apply Hg. eapply nth_error_In; eauto.
      * eapply Hsteps; eauto.
    + apply nth_error_None in Hb.
      assert (S i < List.length chain) by (apply nth_error_Some; congruence).
      lia.
Qed.

Lemma parentChain_hopsIn (allPeople : list Person) (startId endId : string)
    (chain : list Person) :
  parentChain allPeople startId endId chain ->
  exists m, List.length chain = S m /\ hopsIn parentsOf allPeople startId m endId.
Proof.
  intros ((s & Hs & Hid) & (e & He & Hide) & Hsteps & Hg).
  destruct chain as [| c chain]; [discriminate |].
  exists (List.length chain). split; [reflexivity |].
  rewrite <- Hide. eapply chain_hopsIn; eauto.
  unfold lastPerson in He. simpl in He. now rewrite Nat.sub_0_r in He.
Qed.

Section Search.

Variable edges : Person -> list string.
Variable allPeople : list Person.
Variable startId : string.

Lemma searchLevelsAt_far (L : nat) (x : string)
    (queue : list (string * list Person)) (visited : JsSet)
    (lev : list (string * nat)) :
  searchLevelsAt edges allPeople startId L x queue visited lev ->
  forall m z, hopsIn edges allPeople startId m z ->
    (exists k, In (z, k) lev /\ k <= m) \/ L <= m.
Proof.
  intros [Hv Hs Hd Hso Hr Hb] m z Hup.
  induction Hup as [| m z p y Hup IH Hp Hy].
  - left. exists 0. auto.
  - destruct IH as [(k & Hk & Hle) | IH]; [| right; lia].
    destruct (Hd z k Hk) as [Hc | [Hn | [[-> HL] | (path & Hin & Hlen)]]].
    + destruct (Hc p y Hp Hy) as (k' & Hk' & Hle'). left. exists k'.
      split; [assumption | lia].
    + congruence.
    + right. lia.
    + right. specialize (Hr _ Hin). simpl in Hr. lia.
Qed.

Lemma searchLevels_pop (x : string) (path : list Person)
    (queue : list (string * list Person)) (visited : JsSet)
    (lev : list (string * nat)) :
  searchLevels edges allPeople startId ((x, path) :: queue) visited lev ->
  searchLevelsAt edges allPeople startId (List.length path) x queue visited lev.
Proof.
  intros [Hv Hs Hd Hso Hw Hb]. simpl in Hso.
  apply StronglySorted_inv in Hso. destruct Hso as [Hso Hhd].
  constructor; auto.
  - intros z k Hz.
    destruct (Hd z k Hz) as [Hc | [Hn | (pz & [Hin | Hin] & Hlen)]]; auto.
    + injection Hin as <- <-. auto.
    + right. right. right. now exists pz.
  - intros e He. split.
    + rewrite Forall_forall in Hhd. apply Hhd. apply in_map_iff. now exists e.
    + apply (Hw (x, path) e); [now left | now right].
  - intros z k Hz. apply (Hb z k (x, path) Hz). now left.
Qed.

Lemma searchLevels_next (L : nat) (x : string)
    (queue : list (string * list Person)) (visited : JsSet)
    (lev : list (string * nat)) :
  searchLevelsAt edges allPeople startId L x queue visited lev ->
  (forall k, S k = L ->
     closedAt edges allPeople lev x k \/ getPersonById x allPeople = None) ->
  searchLevels edges allPeople startId queue visited lev.
Proof.
  intros [Hv Hs Hd Hso Hr Hb] Hx. constructor; auto.
  - intros z k Hz.
    destruct (Hd z k Hz) as [Hc | [Hn | [[-> HL] | (pz & Hin & Hlen)]]]; auto.
    + destruct (Hx k HL); auto.
    + right. right. now exists pz.
  - intros e e' He He'. pose proof (Hr e He). pose proof (Hr e' He'). lia.
  - intros z k e Hz He. pose proof (Hb z k Hz). pose proof (Hr e He). lia.
Qed.

End Search.

Section Shortest.

Variable allPeople : list Person.
Variable startId endId : string.

Lemma getPathToAncestor_parents_levels (path : list Person) (x : string) :
  forall parents queue visited lev,
    searchLevelsAt parentsOf allPeople startId (List.length path) x queue visited lev ->
    match getPathToAncestor_parents allPeople endId path parents queue visited with
    | inl newPath =>
        forall m, hopsIn parentsOf allPeople startId m endId -> List.length newPath <= S m
    | inr (queue', visited') =>
        exists lev',
          searchLevelsAt parentsOf allPeople startId (List.length path) x queue' visited' lev' /\
          (forall y, In y parents -> In y visited') /\
          (forall e, In e lev -> In e lev')
    end.
Proof.
  induction parents as [| y rest IH]; simpl; intros queue visited lev Hinv.
  { exists lev. split; [assumption |]. split; [intros y [] | auto]. }
  destruct (set_has visited y) eqn:Hy.
  { specialize (IH queue visited lev Hinv).
    destruct (getPathToAncestor_parents allPeople endId path rest queue visited)
      as [newPath | [q' v']]; [assumption |].
    destruct IH as (lev' & Hinv' & Hall & Hsub).
    exists lev'. split; [assumption |]. split; [| assumption].
    intros z [<- | Hz]; [| auto].
    apply set_has_In in Hy. destruct Hinv as [Hv _ _ _ _ _],
      Hinv' as [Hv' _ _ _ _ _].
    rewrite <- Hv in Hy. apply in_map_iff in Hy. destruct Hy as ([z k] & <- & Hk).
    rewrite <- Hv'. apply in_map_iff. exists (z, k). auto. }
  pose proof Hinv as [Hv Hs Hd Hso Hr Hb].
  assert (Hv' : map fst (lev ++ [(y, List.length path)]) = set_add y visited).
  { rewrite map_app, Hv. simpl. symmetry. now apply set_add_new. }
  assert (Hsub0 : forall e, In e lev -> In e (lev ++ [(y, List.length path)]))
    by (intros e He; apply in_or_app; now left).
  destruct (getPersonById y allPeople) as [pp |] eqn:Hpp.
  - destruct (String.eqb_spec y endId) as [E | E].
    + subst y. intros m Hup. rewrite length_app. simpl.
      destruct (searchLevelsAt_far _ _ _ _ _ _ _ _ Hinv m endId Hup)
        as [(k & Hk & _) | Hfar]; [| lia].
      exfalso. apply set_has_false in Hy. apply Hy. rewrite <- Hv.
      apply in_map_iff. now exists (endId, k).
    + assert (Hnext : searchLevelsAt parentsOf allPeople startId (List.length path) x
                        (queue ++ [(y, path ++ [pp])]) (set_add y visited)
                        (lev ++ [(y, List.length path)])).
      { constructor.
        - exact Hv'.
        - auto.
        - intros z k Hz. apply in_app_or in Hz. destruct Hz as [Hz | [Hz | []]].
          + destruct (Hd z k Hz) as [Hc | [Hn | [Hx | (pz & Hin & Hlen)]]]; auto.
            * left. eapply closedAt_mono; eauto.
            * right. right. right. exists pz.
              split; [apply in_or_app; now left | assumption].
          + injection Hz as <- <-. right. right. right. exists (path ++ [pp]).
            split; [apply in_or_app; right; now left |].
            rewrite length_app. simpl. lia.
        - rewrite map_app. simpl. rewrite length_app. simpl.
          replace (List.length path + 1) with (S (List.length path)) by lia.
          apply sorted_snoc; [assumption |].
          apply Forall_forall. intros a Ha. apply in_map_iff in Ha.
          destruct Ha as (e & <- & He). apply (Hr e He).
        - intros e He. apply in_app_or in He. destruct He as [He | [<- | []]];
            [now apply Hr |].
          simpl. rewrite length_app. simpl. lia.
        - intros z k Hz. apply in_app_or in Hz. destruct Hz as [Hz | [Hz | []]];
            [eauto |].
          injection Hz as <- <-. lia. }
      specialize (IH _ _ _ Hnext).
      destruct (getPathToAncestor_parents allPeople endId path rest
                  (queue ++ [(y, path ++ [pp])]) (set_add y visited))
        as [newPath | [q' v']]; [assumption |].
      destruct IH as (lev' & Hinv' & Hall & Hsub).
      exists lev'. split; [assumption |]. split; [| now auto].
      intros z [<- | Hz]; [| auto].
      destruct Hinv' as [Hv'' _ _ _ _ _]. rewrite <- Hv''.
      apply in_map_iff. exists (y, List.length path). split; [reflexivity |].
      apply Hsub. apply in_or_app. right. now left.
  - assert (Hnext : searchLevelsAt parentsOf allPeople startId (List.length path) x
                      queue (set_add y visited)
                      (lev ++ [(y, List.length path)])).
    { constructor; auto.
      - intros z k Hz. apply in_app_or in Hz. destruct Hz as [Hz | [Hz | []]].
        + destruct (Hd z k Hz) as [Hc | [Hn | [Hx | (pz & Hin & Hlen)]]]; auto.
          * left. eapply closedAt_mono; eauto.
          * right. right. right. now exists pz.
        + injection Hz as <- <-. auto.
      - intros z k Hz. apply in_app_or in Hz. destruct Hz as [Hz | [Hz | []]];
          [eauto |].
        injection Hz as <- <-. lia. }
    specialize (IH _ _ _ Hnext).
    destruct (getPathToAncestor_parents allPeople endId path rest
                queue (set_add y visited))
      as [newPath | [q' v']]; [assumption |].
    destruct IH as (lev' & Hinv' & Hall & Hsub).
    exists lev'. split; [assumption |]. split; [| now auto].
    intros z [<- | Hz]; [| auto].
    destruct Hinv' as [Hv'' _ _ _ _ _]. rewrite <- Hv''.
    apply in_map_iff. exists (y, List.length path). split; [reflexivity |].
    apply Hsub. apply in_or_app. right. now left.
Qed.

Lemma getPathToAncestor_loop_levels (fuel : nat) :
  forall queue visited lev path,
    searchLevels parentsOf allPeople startId queue visited lev ->
    getPathToAncestor_loop fuel allPeople endId queue visited = Done (Some path) ->
    forall m, hopsIn parentsOf allPeople startId m endId -> List.length path <= S m.
Proof.
  induction fuel as [| fuel IH]; intros [| [x pth] queue] visited lev path Hinv H;
    simpl in H; try discriminate.
  pose proof (searchLevels_pop _ _ _ _ _ _ _ _ Hinv) as Hat.
  destruct (getPersonById x allPeople) as [cur |] eqn:Hcur.
  - destruct (parentIds cur) as [parents |] eqn:Hparents.
    + pose proof (getPathToAncestor_parents_levels pth x parents queue visited lev Hat)
        as Hinner.
      destruct (getPathToAncestor_parents allPeople endId pth parents queue visited)
        as [newPath | [q' v']].
      * injection H as <-. exact Hinner.
      * destruct Hinner as (lev' & Hat' & Hall & Hsub).
        eapply IH; [| exact H].
        apply (searchLevels_next _ _ _ _ _ _ _ _ Hat'). intros k Hk. left.
        intros p y Hp Hy.
        assert (p = cur) by congruence. subst p.
        unfold parentsOf in Hy. rewrite Hparents in Hy. simpl in Hy.
        specialize (Hall y Hy).
        destruct Hat' as [Hv' _ _ _ _ Hb']. rewrite <- Hv' in Hall.
        apply in_map_iff in Hall. destruct Hall as ([y' k'] & Hy' & Hin).
        simpl in Hy'. subst y'. exists k'. split; [assumption |].
        specialize (Hb' y k' Hin). lia.
    + eapply IH; [| exact H].
      apply (searchLevels_next _ _ _ _ _ _ _ _ Hat). intros k Hk. left.
      intros p y Hp Hy. assert (p = cur) by congruence. subst p.
      unfold parentsOf in Hy. rewrite Hparents in Hy. destruct Hy.
  - eapply IH; [| exact H].
    apply (searchLevels_next _ _ _ _ _ _ _ _ Hat). auto.
Qed.

Lemma getPathToAncestor_shortest (fuel : nat) (path : list Person) :
  getPathToAncestor fuel allPeople startId endId = Done (Some path) ->
  forall m, hopsIn parentsOf allPeople startId m endId -> List.length path <= S m.
Proof.
  unfold getPathToAncestor. intros H m Hup.
  destruct (getPersonById startId allPeople) as [sp |] eqn:Hsp; [| discriminate].
  destruct (String.eqb startId endId).
  - injection H as <-. simpl. lia.
  - eapply getPathToAncestor_loop_levels with (lev := [(startId, 0)]);
      [| exact H | exact Hup].
    constructor; simpl; auto.
    + intros z k [Hz | []]. injection Hz as <- <-. right. right.
      exists [sp]. auto.
    + repeat constructor.
    + intros e e' [<- | []] [<- | []]. simpl. lia.
    + intros z k e [Hz | []] [<- | []]. injection Hz as <- <-. simpl. lia.
Qed.

End Shortest.

(** ** The common ancestor nearest to person 2 *)

Lemma sorted_app_same (l l2 : list nat) (c : nat) :
  StronglySorted le l -> Forall (fun a => a <= c) l ->
  Forall (eq c) l2 -> StronglySorted le (l ++ l2).
Proof.
  intros Hs Hle Hc. induction Hs as [| a l Hs IH Ha]; simpl.
  - induction Hc as [| b l2 Hb Hc IH]; constructor; [assumption |].
    subst b. eapply Forall_impl; [| exact Hc]. intros z <-. lia.
  - inversion Hle as [| a' l' Hac Hl]; subst.
    constructor; [now apply IH |].
    apply Forall_app. split; [assumption |].
    eapply Forall_impl; [| exact Hc]. intros z <-. assumption.
Qed.

Lemma hopsIn_upFrom (allPeople : list Person) (start : string) (n : nat)
    (x : string) :
  hopsIn parentsOf allPeople start n x -> upFrom allPeople start x.
Proof. induction 1; [constructor | eapply upFrom_step; eauto]. Qed.

Lemma queue2_parents_news :
  forall parents queue visited,
    exists news,
      queue2_parents parents queue visited = (queue ++ news, visited ++ news) /\
      (forall y, In y parents -> In y (visited ++ news)) /\
      (forall y, In y news -> In y parents).
Proof.
  induction parents as [| y rest IH]; simpl; intros queue visited.
  - exists []. rewrite !app_nil_r. repeat split; auto. intros y [].
  - destruct (set_has visited y) eqn:Hy.
    + destruct (IH queue visited) as (news & -> & H1 & H2).
      exists news. repeat split; auto.
      intros z [<- | Hz]; auto. apply in_or_app. left. now apply set_has_In.
    + rewrite (set_add_new _ _ Hy).
      destruct (IH (queue ++ [y]) (visited ++ [y])) as (news & -> & H1 & H2).
      exists (y :: news). rewrite <- !app_assoc. simpl. repeat split; auto.
      * intros z [<- | Hz].
        -- apply in_or_app. right. now left.
        -- specialize (H1 z Hz). rewrite <- app_assoc in H1. exact H1.
      * intros z [<- | Hz]; auto.
Qed.

Section Nearest.

Variable allPeople : list Person.
Variable person1Id person2Id : string.
Variable m : JsMap.
Hypothesis m_closure : closureOk allPeople person1Id m.

Lemma queue2Levels_far (x : string) (n : nat) (gq : list (string * nat))
    (queue2 : list string) (visited2 : JsSet) (lev : list (string * nat)) :
  queue2Levels allPeople person2Id m ((x, n) :: gq) queue2 visited2 lev ->
  forall k z, hopsIn parentsOf allPeople person2Id k z ->
    (exists j, In (z, j) lev /\ j <= k) \/ n <= k.
Proof.
  intros [Hq Hv Hs Hr Hsub Hd Hso Hw Hb] k z Hup.
  simpl in Hso. apply StronglySorted_inv in Hso. destruct Hso as [_ Hhd].
  induction Hup as [| k z p y Hup IH Hp Hy].
  - left. exists 0. auto.
  - destruct IH as [(j & Hj & Hle) | IH]; [| right; lia].
    destruct (Hd z j Hj) as [[Hc _] | [Hin | Hin]].
    + destruct (Hc p y Hp Hy) as (j' & Hj' & Hle'). left. exists j'.
      split; [assumption | lia].
    + injection Hin as <- <-. right. lia.
    + right. rewrite Forall_forall in Hhd.
      assert (n <= j) by (apply Hhd; apply in_map_iff; now exists (z, j)).
      lia.
Qed.

Lemma queue2Levels_push (x : string) (n : nat) (gq : list (string * nat))
    (queue2 : list string) (visited2 : JsSet) (lev : list (string * nat)) :
  queue2Levels allPeople person2Id m ((x, n) :: gq) (x :: queue2) visited2 lev ->
  map_get m x = None ->
  exists gq' lev',
    queue2Levels allPeople person2Id m gq'
      (fst (queue2_push allPeople x queue2 visited2))
      (snd (queue2_push allPeople x queue2 visited2)) lev'.
Proof.
  intros [Hq Hv Hs Hr Hsub Hd Hso Hw Hb] Hm.
  simpl in Hq. injection Hq as Hq.
  simpl in Hso. apply StronglySorted_inv in Hso. destruct Hso as [Hso Hhd].
  assert (Hxlev : In (x, n) lev) by (apply Hsub; now left).
  assert (Htail : forall e, In e gq -> n <= snd e <= S n).
  { intros e He. split.
    - rewrite Forall_forall in Hhd. apply Hhd. apply in_map_iff. now exists e.
    - apply (Hw (x, n) e); [now left | now right]. }
  assert (Hlevn : forall z k, In (z, k) lev -> k <= S n).
  { intros z k Hz. apply (Hb z k (x, n) Hz). now left. }
  unfold queue2_push.
  destruct (getPersonById x allPeople) as [p |] eqn:Hp.
  - destruct (queue2_parents_news (orEmpty (parentIds p)) queue2 visited2)
      as (news & -> & Hall & Hnews). simpl.
    exists (gq ++ map (fun y => (y, S n)) news),
           (lev ++ map (fun y => (y, S n)) news).
    assert (Hnew : forall z k, In (z, k) (map (fun y => (y, S n)) news) ->
                               k = S n /\ In z (parentsOf p)).
    { intros z k Hz. apply in_map_iff in Hz. destruct Hz as (y & Hy & Hin).
      injection Hy as <- <-. split; [reflexivity |]. now apply Hnews. }
    constructor.
    + rewrite map_app, map_map. simpl. now rewrite map_id, Hq.
    + rewrite map_app, map_map. simpl. now rewrite map_id, Hv.
    + apply in_or_app. now left.
    + intros z k Hz. apply in_app_or in Hz. destruct Hz as [Hz | Hz]; [auto |].
      destruct (Hnew z k Hz) as [-> Hin].
      apply hopsIn_step with (x := x) (p := p); auto.
    + intros e He. apply in_app_or in He. apply in_or_app.
      destruct He as [He | He]; [left; apply Hsub; now right | now right].
    + intros z k Hz. apply in_app_or in Hz. destruct Hz as [Hz | Hz].
      * destruct (Hd z k Hz) as [[Hc Hnone] | [Hin | Hin]].
        -- left. split; [| assumption].
           eapply closedAt_mono; [| exact Hc]. intros e He. apply in_or_app. now left.
        -- injection Hin as <- <-. left. split; [| assumption].
           intros q y Hq' Hy. assert (q = p) by congruence. subst q.
           specialize (Hall y Hy).
           assert (Hin : In y (map fst (lev ++ map (fun y => (y, S n)) news))).
           { rewrite map_app, map_map. simpl. now rewrite map_id, Hv. }
           apply in_map_iff in Hin. destruct Hin as ([y' k'] & Hy' & Hin).
           simpl in Hy'. subst y'. exists k'. split; [assumption |].
           apply in_app_or in Hin. destruct Hin as [Hin | Hin]; [eauto |].
           destruct (Hnew y k' Hin) as [-> _]. lia.
        -- right. apply in_or_app. now left.
      * right. apply in_or_app. now right.
    + rewrite map_app. apply sorted_app_same with (c := S n); [assumption | |].
      * apply Forall_forall. intros a Ha. apply in_map_iff in Ha.
        destruct Ha as (e & <- & He). apply (Htail e He).
      * apply Forall_forall. intros a Ha. apply in_map_iff in Ha.
        destruct Ha as ([z k] & <- & He). simpl.
        now destruct (Hnew z k He) as [-> _].
    + intros e e' He He'.
      assert (He1 : n <= snd e <= S n).
      { apply in_app_or in He. destruct He as [He | He]; [auto |].
        destruct e as [z k]. destruct (Hnew z k He) as [-> _]. simpl. lia. }
      assert (He2 : n <= snd e' <= S n).
      { apply in_app_or in He'. destruct He' as [He' | He']; [auto |].
        destruct e' as [z k]. destruct (Hnew z k He') as [-> _]. simpl. lia. }
      lia.
    + intros z k e Hz He.
      assert (Hk : k <= S n).
      { apply in_app_or in Hz. destruct Hz as [Hz | Hz]; [eauto |].
        destruct (Hnew z k Hz) as [-> _]. lia. }
      assert (He1 : n <= snd e).
      { apply in_app_or in He. destruct He as [He | He]; [apply (Htail e He) |].
        destruct e as [z' k']. destruct (Hnew z' k' He) as [-> _]. simpl. lia. }
      lia.
  - simpl. exists gq, lev. constructor; auto.
    + intros e He. apply Hsub. now right.
    + intros z k Hz. destruct (Hd z k Hz) as [Hc | [Hin | Hin]]; auto.
      injection Hin as <- <-. left. split; [| assumption].
      intros q y Hq'. congruence.
    + intros e e' He He'. pose proof (Htail e He). pose proof (Htail e' He'). lia.
    + intros z k e Hz He. pose proof (Hlevn z k Hz). pose proof (Htail e He). lia.
Qed.

Lemma queue2_loop_levels (fuel : nat) :
  forall queue2 visited2 gq lev r,
    queue2Levels allPeople person2Id m gq queue2 visited2 lev ->
    queue2_loop fuel allPeople person1Id person2Id m queue2 visited2
      = Done (Some r) ->
    (forall k, hopsIn parentsOf allPeople person1Id k (id (lca r)) ->
               List.length (path1 r) <= S k) /\
    (forall c k, commonAncestor allPeople person1Id person2Id c ->
                 hopsIn parentsOf allPeople person2Id k (id c) ->
                 List.length (path2 r) <= S k).
Proof.
  induction fuel as [| fuel IH]; intros [| x queue] visited gq lev r Hinv H;
    try discriminate.
  cbn [queue2_loop] in H. cbv zeta in H.
  destruct gq as [| [x' n] gq].
  { destruct Hinv as [Hq _ _ _ _ _ _ _ _]. discriminate. }
  assert (x' = x).
  { destruct Hinv as [Hq _ _ _ _ _ _ _ _]. simpl in Hq. congruence. }
  subst x'.
  destruct (map_get m x) as [l |] eqn:Hl.
  - pose proof Hl as Hl'. apply m_closure in Hl'. destruct Hl' as [Hlx Hup1].
    pose proof (getPersonById_id _ _ _ Hlx) as Hid.
    assert (Hxn : hopsIn parentsOf allPeople person2Id n x).
    { destruct Hinv as [_ _ _ Hr Hsub _ _ _ _]. apply Hr, Hsub. now left. }
    assert (Hup2 : upFrom allPeople person2Id x) by (eapply hopsIn_upFrom; eauto).
    assert (E1 : getPathToAncestor (S fuel) allPeople person1Id (id l) <> Done None).
    { rewrite Hid. apply getPathToAncestor_complete; auto; try congruence.
      eapply upFrom_start_exists; eauto. }
    assert (E2 : getPathToAncestor (S fuel) allPeople person2Id (id l) <> Done None).
    { rewrite Hid. apply getPathToAncestor_complete; auto; try congruence.
      eapply upFrom_start_exists; eauto. }
    destruct (getPathToAncestor (S fuel) allPeople person1Id (id l))
      as [[p1 |] | |] eqn:Hp1; simpl in H; try discriminate; try congruence.
    destruct (getPathToAncestor (S fuel) allPeople person2Id (id l))
      as [[p2 |] | |] eqn:Hp2; simpl in H; try discriminate; try congruence.
    injection H as <-. simpl. split.
    + intros k Hk. eapply getPathToAncestor_shortest; eauto.
    + intros c k (Hc1 & Hc2 & Hc3) Hk.
      assert (Hp2n : List.length p2 <= S n).
      { eapply getPathToAncestor_shortest; [exact Hp2 |]. now rewrite Hid. }
      assert (Hsome : map_get m (id c) = Some c) by (apply m_closure; auto).
      destruct (queue2Levels_far _ _ _ _ _ _ Hinv k (id c) Hk)
        as [(j & Hj & Hle) | Hfar]; [| lia].
      destruct Hinv as [_ _ _ _ _ Hd Hso _ _].
      destruct (Hd _ _ Hj) as [[_ Hnone] | [Hin | Hin]]; [congruence | |].
      * injection Hin as _ <-. lia.
      * simpl in Hso. apply StronglySorted_inv in Hso. destruct Hso as [_ Hhd].
        rewrite Forall_forall in Hhd.
        assert (n <= j) by (apply Hhd; apply in_map_iff; now exists (id c, j)).
        lia.
  - destruct (queue2Levels_push _ _ _ _ _ _ Hinv Hl) as (gq' & lev' & Hnext).
    eapply IH; [exact Hnext | exact H].
Qed.

End Nearest.

Lemma findLcaAndPaths_levels (fuel : nat) (person1Id person2Id : string)
    (allPeople : list Person) (r : LcaResult) :
  findLcaAndPaths fuel person1Id person2Id allPeople = Done (Some r) ->
  (forall k, hopsIn parentsOf allPeople person1Id k (id (lca r)) ->
             List.length (path1 r) <= S k) /\
  (forall c k, commonAncestor allPeople person1Id person2Id c ->
               hopsIn parentsOf allPeople person2Id k (id c) ->
               List.length (path2 r) <= S k).
Proof.
  unfold findLcaAndPaths. intros H.
  destruct (p1Ancestors_loop fuel allPeople [person1Id] [] []) as [m | |] eqn:Hm;
    simpl in H; try discriminate.
  apply p1Ancestors_loop_closureOk in Hm.
  eapply queue2_loop_levels with (gq := [(person2Id, 0)]) (lev := [(person2Id, 0)]);
    [exact Hm | | exact H].
  constructor; simpl; auto.
  - intros z k [Hz | []]. injection Hz as <- <-. constructor.
  - repeat constructor.
  - intros e e' [<- | []] [<- | []]. simpl. lia.
  - intros z k e [Hz | []] [<- | []]. injection Hz as <- <-. simpl. lia.
Qed.

(** X18.  The two paths of a result of [findLcaAndPaths] are shortest
    chains: no chain of parents through people of the collection leads
    from person 1, or from person 2, to the common ancestor returned in
    fewer steps than [path1], or [path2]. *)
Theorem X18_paths_are_shortest (fuel : nat) (person1Id person2Id : string)
    (allPeople : list Person) (r : LcaResult) :
  findLcaAndPaths fuel person1Id person2Id allPeople = Done (Some r) ->
  (forall chain, parentChain allPeople person1Id (id (lca r)) chain ->
                 List.length (path1 r) <= List.length chain) /\
  (forall chain, parentChain allPeople person2Id (id (lca r)) chain ->
                 List.length (path2 r) <= List.length chain).
Proof.
  intros H. pose proof (findLcaAndPaths_common _ _ _ _ _ H) as Hc. simpl in Hc.
  destruct (findLcaAndPaths_levels _ _ _ _ _ H) as [H1 H2]. split.
  - intros chain Hchain. apply parentChain_hopsIn in Hchain.
    destruct Hchain as (k & -> & Hk). now apply H1.
  - intros chain Hchain. apply parentChain_hopsIn in Hchain.
    destruct Hchain as (k & -> & Hk). now apply (H2 (lca r)).
Qed.

(** X19.  The common ancestor that [findLcaAndPaths] returns is one nearest
    to person 2: no chain of parents from person 2 to any common ancestor
    of the two has fewer steps than [path2]. *)
Theorem X19_lca_nearest_to_person2 (fuel : nat) (person1Id person2Id : string)
    (allPeople : list Person) (r : LcaResult) (c : Person) (chain : list Person) :
  findLcaAndPaths fuel person1Id person2Id allPeople = Done (Some r) ->
  commonAncestor allPeople person1Id person2Id c ->
  parentChain allPeople person2Id (id c) chain ->
  List.length (path2 r) <= List.length chain.
Proof.
  intros H Hc Hchain.
  destruct (findLcaAndPaths_levels _ _ _ _ _ H) as [_ H2].
  apply parentChain_hopsIn in Hchain. destruct Hchain as (k & -> & Hk).
  now apply (H2 c).
Qed.

Lemma X18_paths_are_shortest_witness :
  let r := mkLcaResult famR [famA2; famA1; famR]
                       [famB4; famB3; famB2; famB1; famR] in
  (forall chain, parentChain family "a2" (id (lca r)) chain ->
                 List.length (path1 r) <= List.length chain) /\
  (forall chain, parentChain family "b4" (id (lca r)) chain ->
                 List.length (path2 r) <= List.length chain).
Proof.
  apply (X18_paths_are_shortest 30 "a2" "b4" family).
  vm_compute. reflexivity.
Defined.

Lemma X19_lca_nearest_to_person2_witness :
  List.length [famB4; famB3; famB2; famB1; famR]
    <= List.length [famB4; famB3; famB2; famB1; famR].
Proof.
  apply (X19_lca_nearest_to_person2 30 "a2" "b4" family
           (mkLcaResult famR [famA2; famA1; famR]
                        [famB4; famB3; famB2; famB1; famR])
           famR [famB4; famB3; famB2; famB1; famR]).
  - vm_compute. reflexivity.
  - split; [reflexivity |]. split.
    + apply upFrom_step with (x := "a1") (p := famA1); [| reflexivity | simpl; tauto].
      apply upFrom_step with (x := "a2") (p := famA2); [| reflexivity | simpl; tauto].
      apply upFrom_refl.
    + apply upFrom_step with (x := "b1") (p := famB1); [| reflexivity | simpl; tauto].
      apply upFrom_step with (x := "b2") (p := famB2); [| reflexivity | simpl; tauto].
      apply upFrom_step with (x := "b3") (p := famB3); [| reflexivity | simpl; tauto].
      apply upFrom_step with (x := "b4") (p := famB4); [| reflexivity | simpl; tauto].
      apply upFrom_refl.
  - split; [exists famB4; split; reflexivity |].
    split; [exists famR; split; reflexivity |]. split.
    + intros i a b Ha Hb.
      do 5 (destruct i as [| i];
            [simpl in Ha, Hb; try discriminate;
             injection Ha as <-; injection Hb as <-; simpl; tauto |]).
      destruct i; discriminate.
    + repeat constructor.
Defined.

(** ** Ancestors are named by their generation *)

(** X20.  When person 2 is an ancestor of person 1 (the id of person 2 is
    reached from person 1 by following [parentIds] through people of the
    collection) and person 1 has no marriage to person 2, [findRelationship]
    answers with a blood relationship whose common ancestor is person 2
    itself, whose second path is person 2 alone and whose first path is a
    shortest chain of parents from person 1 to person 2; the description is
    the term of the direct line for the number of steps of that chain:
    Father, Mother or Parent for one step, the Grand- term for two, and one
    [Great-] more for each further step. *)
Theorem X20_ancestor_named (fuel : nat) (person1Id person2Id : string)
    (allPeople : list Person) (person1 person2 : Person) :
  enoughFuel allPeople <= fuel ->
  person1Id <> "" -> person2Id <> "" -> person1Id <> person2Id ->
  getPersonById person1Id allPeople = Some person1 ->
  getPersonById person2Id allPeople = Some person2 ->
  marriedTo person1 person2Id = false ->
  upFrom allPeople person1Id person2Id ->
  exists path1,
    findRelationship fuel person1Id person2Id allPeople
      = Done (Some (Blood (termOfAncestor (gender person2) (len path1 - 1))
                      path1 [person2] person2)) /\
    hd_error path1 = Some person1 /\ lastPerson path1 = Some person2 /\
    stepsAreParentEdges path1 /\ 2 <= List.length path1 /\
    forall chain, parentChain allPeople person1Id person2Id chain ->
                  List.length path1 <= List.length chain.
Proof.
  intros Hfuel Hn1 Hn2 Hne Hp1 Hp2 Hm Hup.
  destruct (findLcaAndPaths_ancestor fuel person1Id person2Id allPeople
              person1 person2 Hfuel Hp1 Hp2 Hne Hup)
    as (chain1 & Hl & [Hhd Hlast _ Hsteps _ _] & Hlen).
  pose proof (getPersonById_id _ _ _ Hp1) as Hid1.
  pose proof (getPersonById_id _ _ _ Hp2) as Hid2.
  exists chain1. split.
  - unfold findRelationship.
    apply falsy_false in Hn1, Hn2. apply String.eqb_neq in Hne.
    rewrite Hn1, Hn2, Hne, Hp1, Hp2, Hm, Hl. cbn [orb bind lca path1 path2].
    rewrite termOfAncestor_described; [reflexivity | | assumption].
    rewrite Hid1, Hid2. now apply String.eqb_neq.
  - split; [assumption |]. split; [congruence |]. split; [assumption |].
    split; [assumption |].
    intros chain Hchain. apply parentChain_hopsIn in Hchain.
    destruct Hchain as (k & -> & Hk).
    destruct (findLcaAndPaths_levels _ _ _ _ _ Hl) as [Hshort _].
    simpl in Hshort. apply Hshort. now rewrite Hid2.
Qed.

Lemma X20_ancestor_named_witness :
  exists path1,
    findRelationship 30 "b4" "r" family
      = Done (Some (Blood (termOfAncestor (gender famR) (len path1 - 1))
                      path1 [famR] famR)) /\
    hd_error path1 = Some famB4 /\ lastPerson path1 = Some famR /\
    stepsAreParentEdges path1 /\ 2 <= List.length path1 /\
    forall chain, parentChain family "b4" "r" chain ->
                  List.length path1 <= List.length chain.
Proof.
  apply (X20_ancestor_named 30 "b4" "r" family famB4 famR);
    try discriminate; try reflexivity.
  - vm_compute. lia.
  - apply upFrom_step with (x := "b1") (p := famB1); [| reflexivity | simpl; tauto].
    apply upFrom_step with (x := "b2") (p := famB2); [| reflexivity | simpl; tauto].
    apply upFrom_step with (x := "b3") (p := famB3); [| reflexivity | simpl; tauto].
    apply upFrom_step with (x := "b4") (p := famB4); [| reflexivity | simpl; tauto].
    apply upFrom_refl.
Defined.

(** ** The in-law step *)

(** X21.  When step C of [findRelationship], the loop over the marriages of
    person 2, answers, the answer is the path from person 1 over a spouse to
    person 2, where the spouse is a person of the collection named in a
    marriage of person 2 and a descendant of person 1: a chain of parents
    leads from the spouse up to person 1, and no such chain is shorter.  The
    description is the in-law term for the gender of person 2, which is not
    [Other], and for the number of steps of that chain, which is at least
    1. *)
Theorem X21_inLaw_sound (fuel : nat) (person1Id : string)
    (person1 person2 : Person) (allPeople : list Person) (rel : Relationship) :
  findRelationship_inLaw fuel person1Id person1 person2 allPeople
    (orEmpty (marriages person2)) = Done (Some rel) ->
  exists spouse chain,
    rel = Path (inLawDescription (gender person2) (len chain - 1))
               [person1; spouse; person2] /\
    marriedTo person2 (id spouse) = true /\
    getPersonById (id spouse) allPeople = Some spouse /\
    parentChain allPeople (id spouse) person1Id chain /\
    (forall chain', parentChain allPeople (id spouse) person1Id chain' ->
                    List.length chain <= List.length chain') /\
    2 <= List.length chain /\ gender person2 <> Other.
Proof.
  unfold marriedTo.
  induction (orEmpty (marriages person2)) as [| m rest IH]; simpl; intros H;
    [discriminate |].
  assert (Hrest :
    findRelationship_inLaw fuel person1Id person1 person2 allPeople rest
      = Done (Some rel) ->
    exists spouse chain,
      rel = Path (inLawDescription (gender person2) (len chain - 1))
                 [person1; spouse; person2] /\
      (String.eqb (spouseId m) (id spouse) ||
       existsb (fun m0 => String.eqb (spouseId m0) (id spouse)) rest) = true /\
      getPersonById (id spouse) allPeople = Some spouse /\
      parentChain allPeople (id spouse) person1Id chain /\
      (forall chain', parentChain allPeople (id spouse) person1Id chain' ->
                      List.length chain <= List.length chain') /\
      2 <= List.length chain /\ gender person2 <> Other).
  { intros Hr. destruct (IH Hr) as (s & c & H1 & H2 & H3).
    exists s, c. rewrite H2, orb_true_r. auto. }
  destruct (getPersonById (spouseId m) allPeople) as [sp |] eqn:Hsp; [| auto].
  pose proof (getPersonById_id _ _ _ Hsp) as Hid.
  destruct (findLcaAndPaths fuel person1Id (id sp) allPeople)
    as [[r |] | |] eqn:Hl; simpl in H; try discriminate; auto.
  destruct (String.eqb_spec (id (lca r)) person1Id) as [E | _]; [| auto].
  destruct (falsy (inLawDescription (gender person2) (len (path2 r) - 1))) eqn:Hd;
    simpl in H; [auto |].
  injection H as <-. apply falsy_false in Hd.
  exists sp, (path2 r). split; [reflexivity |].
  split; [now rewrite Hid, String.eqb_refl |].
  split; [now rewrite Hid |].
  pose proof (findLcaAndPaths_common _ _ _ _ _ Hl) as Hcommon. simpl in Hcommon.
  pose proof (findLcaAndPaths_levels _ _ _ _ _ Hl) as [_ Hnear].
  pose proof (findLcaAndPaths_sound _ _ _ _ _ Hl)
    as [Hlca _ (q2 & Hq2 & [Hhd Hlast _ Hsteps Hg _] & _)].
  assert (Hgen : (1 <= len (path2 r) - 1)%Z /\ gender person2 <> Other).
  { unfold inLawDescription in Hd.
    destruct (gender person2); try (split; [| discriminate]).
    - destruct (Z.eqb_spec (len (path2 r) - 1) 1); [lia |].
      destruct (Z.eqb_spec (len (path2 r) - 1) 2); [lia |].
      destruct (len (path2 r) - 1 >? 2)%Z eqn:E3; [lia | congruence].
    - destruct (Z.eqb_spec (len (path2 r) - 1) 1); [lia |].
      destruct (Z.eqb_spec (len (path2 r) - 1) 2); [lia |].
      destruct (len (path2 r) - 1 >? 2)%Z eqn:E3; [lia | congruence].
    - congruence. }
  destruct Hgen as [Hgen Hother].
  split; [| split; [| split; [unfold len in Hgen; lia | exact Hother]]].
  - split; [| split; [| split; assumption]].
    + exists q2. split; [assumption |].
      rewrite <- Hid in Hsp. rewrite Hsp in Hq2. now injection Hq2 as <-.
    + exists (lca r). split; [| assumption]. now rewrite Hlast.
  - intros chain' Hchain'. apply parentChain_hopsIn in Hchain'.
    destruct Hchain' as (k & -> & Hk). apply (Hnear (lca r)); [assumption |].
    now rewrite E.
Qed.

Lemma X21_inLaw_sound_witness :
  exists spouse chain,
    Path "Grandson's Wife (Bahu)" [marR; marA2; marB2]
      = Path (inLawDescription (gender marB2) (len chain - 1))
             [marR; spouse; marB2] /\
    marriedTo marB2 (id spouse) = true /\
    getPersonById (id spouse) marriedCousins = Some spouse /\
    parentChain marriedCousins (id spouse) "r" chain /\
    (forall chain', parentChain marriedCousins (id spouse) "r" chain' ->
                    List.length chain <= List.length chain') /\
    2 <= List.length chain /\ gender marB2 <> Other.
Proof.
  apply (X21_inLaw_sound 30 "r" marR marB2 marriedCousins).
  vm_compute. reflexivity.
Defined.

(** ** The place of the primary relationship *)

Lemma lenLe_false_trans (a b c : Relationship) :
  lenLe b a = false -> lenLe c b = false -> lenLe c a = false.
Proof.
  unfold lenLe. destruct (getLen a), (getLen b), (getLen c); try congruence.
  rewrite !Z.leb_gt. lia.
Qed.

Lemma sort_insert_keeps_place (x y : Relationship) (l1 l2 : list Relationship) :
  Forall (fun r => lenLe x r = false) l1 ->
  exists l1' l2',
    sort_insert y (l1 ++ x :: l2) = l1' ++ x :: l2' /\
    Forall (fun r => lenLe x r = false) l1'.
Proof.
  induction l1 as [| r l1 IH]; simpl; intros H.
  - destruct (lenLe x y) eqn:E.
    + exists [], (sort_insert y l2). split; [reflexivity | constructor].
    + exists [y], l2. split; [reflexivity | now repeat constructor].
  - inversion H as [| r' l' Hr Hl]; subst.
    destruct (lenLe r y) eqn:E.
    + destruct (IH Hl) as (l1' & l2' & -> & Hl').
      exists (r :: l1'), l2'. split; [reflexivity | now constructor].
    + exists (y :: r :: l1), l2. split; [reflexivity |].
      constructor; [| assumption].
      eapply lenLe_false_trans; eauto.
Qed.

Lemma sortByLen_first_place (x : Relationship) (rest : list Relationship) :
  exists l1 l2,
    sortByLen (x :: rest) = l1 ++ x :: l2 /\
    Forall (fun r => lenLe x r = false) l1.
Proof.
  unfold sortByLen. simpl.
  assert (H : forall l1 l2,
            Forall (fun r => lenLe x r = false) l1 ->
            exists l1' l2',
              fold_left (fun acc y => sort_insert y acc) rest (l1 ++ x :: l2)
                = l1' ++ x :: l2' /\
              Forall (fun r => lenLe x r = false) l1').
  { induction rest as [| y rest IH]; simpl; intros l1 l2 Hl1; [eauto |].
    destruct (sort_insert_keeps_place x y l1 l2 Hl1) as (l1' & l2' & -> & Hl1').
    now apply IH. }
  apply (H [] []). constructor.
Qed.

Lemma fold_addRelationship_head (added : list Relationship) (x : Relationship)
    (rest : list Relationship) :
  exists rest', fold_left addRelationship added (x :: rest) = x :: rest'.
Proof.
  revert rest. induction added as [| a added IH]; simpl; intros rest; [eauto |].
  assert (H : exists rest', addRelationship (x :: rest) a = x :: rest').
  { unfold addRelationship.
    destruct a; [| | eauto];
      (destruct (existsb _ (x :: rest)); [eauto | simpl; eauto]). }
  destruct H as (rest' & ->). apply IH.
Qed.

(** X22.  In the list of [findAllRelationships] the primary relationship
    (the answer of [findRelationship], when it is not of type [none]) comes
    before every other entry that has as many steps or more: each entry
    listed before it has strictly fewer steps. *)
Theorem X22_primary_relationship_place (fuel : nat)
    (person1Id person2Id : string) (allPeople : list Person)
    (rel : Relationship) (l : list Relationship) :
  findRelationship fuel person1Id person2Id allPeople = Done (Some rel) ->
  isNone rel = false ->
  findAllRelationships fuel person1Id person2Id allPeople = Done l ->
  exists before after,
    l = before ++ rel :: after /\
    Forall (fun r => strictlyFewerSteps r rel) before.
Proof.
  intros Hrel Hnone Hl.
  destruct (findRelationship_Some_people _ _ _ _ _ Hrel)
    as (Hne & p1 & p2 & Hp1 & Hp2).
  destruct (findAllRelationships_unfold _ _ _ _ _ _ _ Hp1 Hp2 Hne Hl)
    as (primaryRel & added & Hprim & Hadded & Hshape).
  assert (primaryRel = Some rel) by congruence. subst primaryRel.
  cbv zeta in Hshape.
  assert (Hinit : addRelationship [] rel = [rel]).
  { destruct rel; simpl in *; [reflexivity | reflexivity | discriminate]. }
  rewrite Hinit in Hshape.
  destruct (fold_addRelationship_head added rel []) as (rest & Hfold).
  rewrite Hfold in Hshape. subst l.
  destruct (sortByLen_first_place rel rest) as (l1 & l2 & -> & Hl1).
  exists l1, l2. split; [reflexivity |].
  rewrite Forall_forall in *. intros r Hr. specialize (Hl1 r Hr).
  unfold strictlyFewerSteps, lenLe in *.
  destruct rel, r; simpl in *; try discriminate;
    eexists; eexists; (split; [reflexivity |]); (split; [reflexivity |]);
    apply Z.leb_gt in Hl1; exact Hl1.
Qed.

Lemma X22_primary_relationship_place_witness :
  let rel := Blood "niece" [marA1; marR] [marB2; marB1; marR] marR in
  let l := [Path "Son's Wife" [marA1; marA2; marB2]; rel] in
  exists before after,
    l = before ++ rel :: after /\
    Forall (fun r => strictlyFewerSteps r rel) before.
Proof.
  apply (X22_primary_relationship_place 30 "a1" "b2" marriedCousins);
    vm_compute; reflexivity.
Defined.

(** ** The terms of the direct line *)

Lemma termOfDescendant_described (person1 person2 l : Person)
    (path1 path2 : list Person) :
  id l = id person1 -> 2 <= List.length path2 ->
  describeBloodRelationship person1 person2 l path1 path2
    = Done (termOfDescendant (gender person2) (len path2 - 1)).
Proof.
  intros E Hlen. unfold describeBloodRelationship, termOfDescendant, js_repeat.
  assert (L : (2 <= len path2)%Z) by (unfold len; lia).
  rewrite E, String.eqb_refl.
  destruct (Z.eqb_spec (len path2 - 1) 0); [lia |].
  destruct (Z.eqb_spec (len path2 - 1) 1); [reflexivity |].
  destruct (Z.eqb_spec (len path2 - 1) 2); [reflexivity |].
  destruct (Z.ltb_spec (len path2 - 1 - 2) 0); [lia | reflexivity].
Qed.

Lemma termOfAncestor_described_lca (person1 person2 l : Person)
    (path1 path2 : list Person) :
  id l <> id person1 -> id l = id person2 -> 2 <= List.length path1 ->
  describeBloodRelationship person1 person2 l path1 path2
    = Done (termOfAncestor (gender person2) (len path1 - 1)).
Proof.
  intros Hne E Hlen. unfold describeBloodRelationship, termOfAncestor, js_repeat.
  assert (L : (2 <= len path1)%Z) by (unfold len; lia).
  destruct (String.eqb_spec (id l) (id person1)); [contradiction |].
  rewrite E, String.eqb_refl.
  destruct (Z.eqb_spec (len path1 - 1) 0); [lia |].
  destruct (Z.eqb_spec (len path1 - 1) 1); [reflexivity |].
  destruct (Z.eqb_spec (len path1 - 1) 2); [reflexivity |].
  destruct (Z.ltb_spec (len path1 - 1 - 2) 0); [lia | reflexivity].
Qed.

(** X23.  In a blood relationship returned by [findRelationship] whose
    common ancestor is person 1, person 2 is named as a descendant by the
    number of steps of [path2], which is at least 1: Son, Daughter or Child
    for 1, the Grand- term for 2, one [Great-] more for each further step.
    When the common ancestor is person 2, person 2 is named as an ancestor
    in the same way by the number of steps of [path1]. *)
Theorem X23_direct_line_terms (fuel : nat) (person1Id person2Id : string)
    (allPeople : list Person) (description : string)
    (chain1 chain2 : list Person) (l : Person) :
  findRelationship fuel person1Id person2Id allPeople
    = Done (Some (Blood description chain1 chain2 l)) ->
  exists person2,
    getPersonById person2Id allPeople = Some person2 /\
    (id l = person1Id ->
     description = termOfDescendant (gender person2) (len chain2 - 1) /\
     2 <= List.length chain2) /\
    (id l = person2Id ->
     description = termOfAncestor (gender person2) (len chain1 - 1) /\
     2 <= List.length chain1).
Proof.
  intros H.
  destruct (findRelationship_Some_people _ _ _ _ _ H) as (Hne & _).
  apply findRelationship_Blood in H.
  destruct H as (q1 & q2 & Hq1 & Hq2 & Hl & Hd).
  pose proof (getPersonById_id _ _ _ Hq1) as Hid1.
  pose proof (getPersonById_id _ _ _ Hq2) as Hid2.
  apply findLcaAndPaths_sound in Hl.
  destruct Hl as [_ (s1 & _ & _ & _ & Hlen1) (s2 & _ & _ & _ & Hlen2)].
  simpl in *.
  exists q2. split; [assumption |]. split.
  - intros E.
    assert (Hlen : 2 <= List.length chain2) by (apply Hlen2; congruence).
    split; [| assumption].
    rewrite termOfDescendant_described in Hd by congruence. congruence.
  - intros E.
    assert (Hlen : 2 <= List.length chain1) by (apply Hlen1; congruence).
    split; [| assumption].
    rewrite termOfAncestor_described_lca in Hd by congruence. congruence.
Qed.

Lemma X23_direct_line_terms_witness :
  exists person2,
    getPersonById "b2" marriedCousins = Some person2 /\
    (id marR = "r" ->
     "Granddaughter" = termOfDescendant (gender person2)
                         (len [marB2; marB1; marR] - 1) /\
     2 <= List.length [marB2; marB1; marR]) /\
    (id marR = "b2" ->
     "Granddaughter" = termOfAncestor (gender person2) (len [marR] - 1) /\
     2 <= List.length [marR]).
Proof.
  apply (X23_direct_line_terms 30 "r" "b2" marriedCousins).
  vm_compute. reflexivity.
Defined.

(** ** The generic path is a shortest chain *)

Lemma linkChain_hopsIn (allPeople : list Person) (startId endId : string)
    (chain : list Person) :
  linkChain allPeople startId endId chain ->
  exists m, List.length chain = S m /\
            hopsIn neighborsOf allPeople startId m endId.
Proof.
  intros ((s & Hs & Hid) & (e & He & Hide) & Hsteps & Hg).
  assert (Hall : forall i a, nth_error chain i = Some a ->
                             hopsIn neighborsOf allPeople startId i (id a)).
  { induction i as [| i IH]; intros a Ha.
    - destruct chain; simpl in *; [discriminate |].
      assert (a = s) by congruence. subst a. rewrite Hid. constructor.
    - destruct (nth_error chain i) as [b |] eqn:Hb.
      + apply hopsIn_step with (x := id b) (p := b).
        * now apply IH.
        * unfold inGraph in Hg. rewrite Forall_forall in Hg.
          apply Hg. eapply nth_error_In; eauto.
        * eapply Hsteps; eauto.
      + apply nth_error_None in Hb.
        assert (S i < List.length chain) by (apply nth_error_Some; congruence).
        lia. }
  destruct chain as [| c chain]; [discriminate |].
  exists (List.length chain). split; [reflexivity |].
  rewrite <- Hide. apply Hall.
  unfold lastPerson in He. simpl in He. now rewrite Nat.sub_0_r in He.
Qed.

Section ShortestLink.

Variable allPeople : list Person.
Variable startId : string.

Lemma findGenericPath_neighbors_levels (path : list Person) (x : string) :
  forall neighbors queue visited lev,
    searchLevelsAt neighborsOf allPeople startId (List.length path) x
      queue visited lev ->
    Forall (shortestEntry allPeople startId) queue ->
    exists lev',
      searchLevelsAt neighborsOf allPeople startId (List.length path) x
        (fst (findGenericPath_neighbors allPeople path neighbors queue visited))
        (snd (findGenericPath_neighbors allPeople path neighbors queue visited))
        lev' /\
      (forall y, In y neighbors ->
         In y (snd (findGenericPath_neighbors allPeople path neighbors
                      queue visited))) /\
      (forall e, In e lev -> In e lev') /\
      Forall (shortestEntry allPeople startId)
        (fst (findGenericPath_neighbors allPeople path neighbors queue visited)).
Proof.
  induction neighbors as [| y rest IH]; simpl; intros queue visited lev Hinv Hq.
  { exists lev. split; [assumption |]. split; [intros y [] |]. auto. }
  destruct (set_has visited y) eqn:Hy.
  { destruct (IH queue visited lev Hinv Hq) as (lev' & Hinv' & Hall & Hsub & Hq').
    exists lev'. split; [assumption |]. split; [| auto].
    intros z [<- | Hz]; [| auto].
    apply set_has_In in Hy. destruct Hinv as [Hv _ _ _ _ _],
      Hinv' as [Hv' _ _ _ _ _].
    rewrite <- Hv in Hy. apply in_map_iff in Hy. destruct Hy as ([z k] & <- & Hk).
    rewrite <- Hv'. apply in_map_iff. exists (z, k). auto. }
  pose proof Hinv as [Hv Hs Hd Hso Hr Hb].
  assert (Hv' : map fst (lev ++ [(y, List.length path)]) = set_add y visited).
  { rewrite map_app, Hv. simpl. symmetry. now apply set_add_new. }
  assert (Hsub0 : forall e, In e lev -> In e (lev ++ [(y, List.length path)]))
    by (intros e He; apply in_or_app; now left).
  assert (Hfar : forall m, hopsIn neighborsOf allPeople startId m y ->
                           List.length path <= m).
  { intros m Hup.
    destruct (searchLevelsAt_far _ _ _ _ _ _ _ _ Hinv m y Hup)
      as [(k & Hk & _) | Hfar]; [| exact Hfar].
    exfalso. apply set_has_false in Hy. apply Hy. rewrite <- Hv.
    apply in_map_iff. now exists (y, k). }
  destruct (getPersonById y allPeople) as [np |] eqn:Hnp.
  - assert (Hnext : searchLevelsAt neighborsOf allPeople startId
                      (List.length path) x
                      (queue ++ [(y, path ++ [np])]) (set_add y visited)
                      (lev ++ [(y, List.length path)])).
    { constructor.
      - exact Hv'.
      - auto.
      - intros z k Hz. apply in_app_or in Hz. destruct Hz as [Hz | [Hz | []]].
        + destruct (Hd z k Hz) as [Hc | [Hn | [Hx | (pz & Hin & Hlen)]]]; auto.
          * left. eapply closedAt_mono; eauto.
          * right. right. right. exists pz.
            split; [apply in_or_app; now left | assumption].
        + injection Hz as <- <-. right. right. right. exists (path ++ [np]).
          split; [apply in_or_app; right; now left |].
          rewrite length_app. simpl. lia.
      - rewrite map_app. simpl. rewrite length_app. simpl.
        replace (List.length path + 1) with (S (List.length path)) by lia.
        apply sorted_snoc; [assumption |].
        apply Forall_forall. intros a Ha. apply in_map_iff in Ha.
        destruct Ha as (e & <- & He). apply (Hr e He).
      - intros e He. apply in_app_or in He. destruct He as [He | [<- | []]];
          [now apply Hr |].
        simpl. rewrite length_app. simpl. lia.
      - intros z k Hz. apply in_app_or in Hz. destruct Hz as [Hz | [Hz | []]];
          [eauto |].
        injection Hz as <- <-. lia. }
    assert (Hq' : Forall (shortestEntry allPeople startId)
                    (queue ++ [(y, path ++ [np])])).
    { apply Forall_app. split; [assumption |]. constructor; [| constructor].
      split; [| split]; simpl.
      - rewrite lastPerson_app. now symmetry.
      - congruence.
      - intros m Hup. specialize (Hfar m Hup). rewrite length_app. simpl. lia. }
    destruct (IH _ _ _ Hnext Hq') as (lev' & Hinv' & Hall & Hsub & Hq'').
    exists lev'. split; [assumption |]. split; [| split; [now auto | assumption]].
    intros z [<- | Hz]; [| auto].
    destruct Hinv' as [Hv'' _ _ _ _ _]. rewrite <- Hv''.
    apply in_map_iff. exists (y, List.length path). split; [reflexivity |].
    apply Hsub. apply in_or_app. right. now left.
  - assert (Hnext : searchLevelsAt neighborsOf allPeople startId
                      (List.length path) x queue (set_add y visited)
                      (lev ++ [(y, List.length path)])).
    { constructor; auto.
      - intros z k Hz. apply in_app_or in Hz. destruct Hz as [Hz | [Hz | []]].
        + destruct (Hd z k Hz) as [Hc | [Hn | [Hx | (pz & Hin & Hlen)]]]; auto.
          * left. eapply closedAt_mono; eauto.
          * right. right. right. now exists pz.
        + injection Hz as <- <-. auto.
      - intros z k Hz. apply in_app_or in Hz. destruct Hz as [Hz | [Hz | []]];
          [eauto |].
        injection Hz as <- <-. lia. }
    destruct (IH _ _ _ Hnext Hq) as (lev' & Hinv' & Hall & Hsub & Hq'').
    exists lev'. split; [assumption |]. split; [| split; [now auto | assumption]].
    intros z [<- | Hz]; [| auto].
    destruct Hinv' as [Hv'' _ _ _ _ _]. rewrite <- Hv''.
    apply in_map_iff. exists (y, List.length path). split; [reflexivity |].
    apply Hsub. apply in_or_app. right. now left.
Qed.

Lemma findGenericPath_loop_levels (person2 : Person) (fuel : nat) :
  forall queue visited lev rel,
    searchLevels neighborsOf allPeople startId queue visited lev ->
    Forall (shortestEntry allPeople startId) queue ->
    findGenericPath_loop fuel person2 allPeople queue visited = Done (Some rel) ->
    exists path,
      rel = Path (generatePathDescription path) path /\
      forall m, hopsIn neighborsOf allPeople startId m (id person2) ->
                List.length path <= S m.
Proof.
  induction fuel as [| fuel IH]; intros [| [x pth] queue] visited lev rel Hinv Hq H;
    simpl in H; try discriminate.
  inversion Hq as [| e q' (Hlast & Hfound & Hmin) Hq']; subst. simpl in *.
  destruct (String.eqb_spec x (id person2)) as [E | E].
  { injection H as <-. exists pth. split; [reflexivity |]. now rewrite <- E. }
  destruct (getPersonById x allPeople) as [cur |] eqn:Hcur; [| congruence].
  rewrite Hlast in H.
  pose proof (searchLevels_pop _ _ _ _ _ _ _ _ Hinv) as Hat.
  destruct (findGenericPath_neighbors_levels pth x (neighborsOf cur)
              queue visited lev Hat Hq') as (lev' & Hat' & Hall & Hsub & Hq'').
  destruct (findGenericPath_neighbors allPeople pth (neighborsOf cur) queue visited)
    as [queue' visited'] eqn:Hn.
  simpl in *.
  eapply IH; [| exact Hq'' | exact H].
  apply (searchLevels_next _ _ _ _ _ _ _ _ Hat'). intros k Hk. left.
  intros p y Hp Hy. assert (p = cur) by congruence. subst p.
  specialize (Hall y Hy).
  destruct Hat' as [Hv' _ _ _ _ Hb']. rewrite <- Hv' in Hall.
  apply in_map_iff in Hall. destruct Hall as ([y' k'] & Hy' & Hin).
  simpl in Hy'. subst y'. exists k'. split; [assumption |].
  specialize (Hb' y k' Hin). lia.
Qed.

End ShortestLink.

(** X24.  The path that [findGenericPath] returns, for a person 1 of the
    collection, is a shortest one: no chain of [parentIds], [childrenIds]
    and [marriages] entries through people of the collection leads from
    person 1 to person 2 with fewer people. *)
Theorem X24_generic_path_is_shortest (fuel : nat) (person1 person2 : Person)
    (allPeople : list Person) (rel : Relationship) :
  getPersonById (id person1) allPeople = Some person1 ->
  findGenericPath fuel person1 person2 allPeople = Done (Some rel) ->
  exists path,
    rel = Path (generatePathDescription path) path /\
    forall chain, linkChain allPeople (id person1) (id person2) chain ->
                  List.length path <= List.length chain.
Proof.
  intros Hp1 H. unfold findGenericPath in H.
  eapply findGenericPath_loop_levels
    with (startId := id person1) (lev := [(id person1, 0)]) in H.
  - destruct H as (path & -> & Hmin). exists path. split; [reflexivity |].
    intros chain Hchain. apply linkChain_hopsIn in Hchain.
    destruct Hchain as (m & -> & Hm). now apply Hmin.
  - constructor; simpl; auto.
    + intros z k [Hz | []]. injection Hz as <- <-. right. right.
      exists [person1]. auto.
    + repeat constructor.
    + intros e e' [<- | []] [<- | []]. simpl. lia.
    + intros z k e [Hz | []] [<- | []]. injection Hz as <- <-. simpl. lia.
  - constructor; [| constructor]. split; [| split]; simpl.
    + unfold lastPerson. simpl. now symmetry.
    + congruence.
    + intros m _. lia.
Qed.

Lemma X24_generic_path_is_shortest_witness :
  exists path,
    Path "p is the father of s, who is the husband of o." [lawP; lawS; lawO]
      = Path (generatePathDescription path) path /\
    forall chain, linkChain inLaws (id lawP) (id lawO) chain ->
                  List.length path <= List.length chain.
Proof.
  apply (X24_generic_path_is_shortest 30 lawP lawO inLaws);
    vm_compute; reflexivity.
Defined.

(** * Symmetry *)

Lemma findRelationship_Some_ids (fuel : nat) (person1Id person2Id : string)
    (allPeople : list Person) (rel : Relationship) :
  findRelationship fuel person1Id person2Id allPeople = Done (Some rel) ->
  person1Id <> "" /\ person2Id <> "".
Proof.
  unfold findRelationship. intros H.
  destruct (falsy person1Id) eqn:E1; [discriminate |].
  destruct (falsy person2Id) eqn:E2; [discriminate |].
  split; now apply falsy_false.
Qed.

Lemma findRelationship_common (fuel : nat) (person1Id person2Id : string)
    (allPeople : list Person) (person1 person2 c : Person) :
  enoughFuel allPeople <= fuel ->
  person1Id <> "" -> person2Id <> "" -> person1Id <> person2Id ->
  getPersonById person1Id allPeople = Some person1 ->
  getPersonById person2Id allPeople = Some person2 ->
  commonAncestor allPeople person1Id person2Id c ->
  exists rel,
    findRelationship fuel person1Id person2Id allPeople = Done (Some rel) /\
    match rel with
    | Blood _ _ _ l => commonAncestor allPeople person1Id person2Id l
    | Path _ _ => marriedTo person1 person2Id = true
    | NoRelationship _ => False
    end.
Proof.
  intros Hfuel Hn1 Hn2 Hne Hp1 Hp2 Hc.
  unfold findRelationship.
  apply falsy_false in Hn1, Hn2. apply String.eqb_neq in Hne.
  rewrite Hn1, Hn2, Hne, Hp1, Hp2. cbn [orb].
  destruct (marriedTo person1 person2Id) eqn:Hm.
  { eexists. split; [reflexivity | reflexivity]. }
  destruct (findLcaAndPaths_terminates fuel person1Id person2Id allPeople Hfuel)
    as [o Ho].
  rewrite Ho. cbn [bind].
  pose proof (findLcaAndPaths_common _ _ _ _ _ Ho) as Hcommon.
  destruct o as [r |]; [| exfalso; now apply (Hcommon c)].
  apply findLcaAndPaths_sound in Ho.
  destruct Ho as [_ (q1 & _ & [Hh1 _ _ _ _ _] & _) (q2 & _ & [Hh2 _ _ _ _ _] & _)].
  destruct (describeBloodRelationship_total person1 person2 (lca r)
              (path1 r) (path2 r)) as [d Hd].
  { intros E. rewrite E in Hh1. discriminate. }
  { intros E. rewrite E in Hh2. discriminate. }
  rewrite Hd. cbn [bind]. eexists. split; [reflexivity |]. exact Hcommon.
Qed.

(** X25.  Blood relationships are found in both directions: when
    [findRelationship] answers with a blood relationship from person 1 to
    person 2, then, with enough fuel, it answers from person 2 to person 1
    with a blood relationship too, unless person 2 has a marriage to
    person 1, which it then reports first. *)
Theorem X25_blood_both_ways (fuel : nat) (person1Id person2Id : string)
    (allPeople : list Person) (description : string)
    (chain1 chain2 : list Person) (l : Person) :
  enoughFuel allPeople <= fuel ->
  findRelationship fuel person1Id person2Id allPeople
    = Done (Some (Blood description chain1 chain2 l)) ->
  exists person2 rel,
    getPersonById person2Id allPeople = Some person2 /\
    findRelationship fuel person2Id person1Id allPeople = Done (Some rel) /\
    match rel with
    | Blood _ _ _ l' => commonAncestor allPeople person2Id person1Id l'
    | Path _ _ => marriedTo person2 person1Id = true
    | NoRelationship _ => False
    end.
Proof.
  intros Hfuel H.
  destruct (findRelationship_Some_people _ _ _ _ _ H) as (Hne & p1 & p2 & Hp1 & Hp2).
  destruct (findRelationship_Some_ids _ _ _ _ _ H) as [Hn1 Hn2].
  apply findRelationship_Blood in H.
  destruct H as (_ & _ & _ & _ & Hl & _).
  apply findLcaAndPaths_common in Hl. simpl in Hl.
  destruct Hl as (Hc1 & Hc2 & Hc3).
  exists p2.
  destruct (findRelationship_common fuel person2Id person1Id allPeople p2 p1 l)
    as (rel & Hrel & Hshape); auto.
  { repeat split; assumption. }
  exists rel. auto.
Qed.

Lemma X25_blood_both_ways_witness :
  exists person2 rel,
    getPersonById "b4" family = Some person2 /\
    findRelationship 30 "b4" "a2" family = Done (Some rel) /\
    match rel with
    | Blood _ _ _ l' => commonAncestor family "b4" "a2" l'
    | Path _ _ => marriedTo person2 "a2" = true
    | NoRelationship _ => False
    end.
Proof.
  apply (X25_blood_both_ways 30 "a2" "b4" family
           "1st cousin, twice removed" [famA2; famA1; famR]
           [famB4; famB3; famB2; famB1; famR] famR).
  - vm_compute. lia.
  - vm_compute. reflexivity.
Defined.

(** ** No relationship means no connection *)

Lemma linkedFrom_trans (allPeople : list Person) (a b c : string) :
  linkedFrom allPeople a b -> linkedFrom allPeople b c -> linkedFrom allPeople a c.
Proof.
  intros Hab Hbc. induction Hbc; [assumption | eapply linkedFrom_step; eauto].
Qed.

Lemma linkedFrom_edge (allPeople : list Person) (a b : string) :
  edge allPeople a b -> linkedFrom allPeople a b.
Proof.
  intros (pa & Hpa & Hb). eapply linkedFrom_step; [constructor | eauto | eauto].
Qed.

Lemma linkedFrom_sym (allPeople : list Person) (a b : string) :
  mirroredLinks allPeople ->
  linkedFrom allPeople a b -> linkedFrom allPeople b a.
Proof.
  intros Hmirror H. induction H as [| x p y H IH Hp Hy]; [constructor |].
  apply linkedFrom_trans with (b := x); [| assumption].
  apply linkedFrom_edge, Hmirror. now exists p.
Qed.

Lemma connected_linkedFrom (allPeople : list Person) (a b : string) :
  mirroredLinks allPeople ->
  connected allPeople a b -> linkedFrom allPeople a b.
Proof.
  intros Hmirror H. induction H as [x y E | x | x y H IH | x y z H1 IH1 H2 IH2].
  - now apply linkedFrom_edge.
  - constructor.
  - now apply linkedFrom_sym.
  - eapply linkedFrom_trans; eauto.
Qed.

Lemma findRelationship_none_unlinked (fuel : nat) (person1Id person2Id : string)
    (allPeople : list Person) (description : string) :
  findRelationship fuel person1Id person2Id allPeople
    = Done (Some (NoRelationship description)) ->
  ~ linkedFrom allPeople person1Id person2Id.
Proof.
  unfold findRelationship. intros H.
  destruct (falsy person1Id || falsy person2Id || String.eqb person1Id person2Id);
    [discriminate |].
  destruct (getPersonById person1Id allPeople) as [p1 |] eqn:Hp1; [| discriminate].
  destruct (getPersonById person2Id allPeople) as [p2 |] eqn:Hp2; [| discriminate].
  destruct (marriedTo p1 person2Id) eqn:Hm; [discriminate |].
  destruct (findLcaAndPaths fuel person1Id person2Id allPeople)
    as [[l |] | |] eqn:Hl; simpl in H; try discriminate.
  { destruct (describeBloodRelationship p1 p2 (lca l) (path1 l) (path2 l));
      simpl in H; discriminate. }
  destruct (findRelationship_inLaw fuel person1Id p1 p2 allPeople
              (orEmpty (marriages p2))) as [[rel |] | |] eqn:Hi;
    simpl in H; try discriminate.
  { apply findRelationship_inLaw_Path in Hi. destruct Hi as (d & p & ->).
    discriminate. }
  pose proof (getPersonById_id _ _ _ Hp1) as Hid1.
  pose proof (getPersonById_id _ _ _ Hp2) as Hid2.
  destruct (findGenericPath fuel p1 p2 allPeople) as [[rel |] | |] eqn:Hg;
    simpl in H; try discriminate.
  { unfold findGenericPath in Hg. apply findGenericPath_loop_Path in Hg.
    destruct Hg as (path & ->). discriminate. }
  unfold findGenericPath in Hg.
  eapply findGenericPath_loop_spec with (person1 := p1) in Hg;
    [| now rewrite Hid2 | apply genInv_init; now rewrite Hid1].
  now rewrite Hid1, Hid2 in Hg.
Qed.

(** X26.  In a collection where every entry is mirrored, [findRelationship]
    answers, for two people of the collection with non-empty ids, with a
    relationship of type [none] exactly when no chain of parent, child or
    spouse entries connects them. *)
Theorem X26_none_iff_unconnected (fuel : nat) (person1Id person2Id : string)
    (person1 person2 : Person) (allPeople : list Person) :
  mirroredLinks allPeople ->
  getPersonById person1Id allPeople = Some person1 ->
  getPersonById person2Id allPeople = Some person2 ->
  person1Id <> "" -> person2Id <> "" ->
  enoughFuel allPeople <= fuel ->
  (findRelationship fuel person1Id person2Id allPeople
     = Done (Some (NoRelationship "No relationship path could be found."))
   <-> ~ connected allPeople person1Id person2Id).
Proof.
  intros Hmirror Hp1 Hp2 Hn1 Hn2 Hfuel. split.
  - intros H Hc. apply findRelationship_none_unlinked in H. apply H.
    now apply connected_linkedFrom.
  - intros Hc. eapply findRelationship_unconnected; eauto.
Qed.

Lemma strangers_mirrored : mirroredLinks strangers.
Proof.
  intros a b (pa & Hpa & Hb).
  assert (Hin : In pa strangers) by (eapply getPersonById_In; eassumption).
  apply getPersonById_id in Hpa. subst a. simpl in Hin.
  destruct Hin as [<- | [<- | [<- | [<- | []]]]]; simpl in Hb;
    destruct Hb as [<- | []]; eexists; (split; [reflexivity | simpl; tauto]).
Qed.

Lemma X26_none_iff_unconnected_witness :
  findRelationship 20 "x" "y" strangers
    = Done (Some (NoRelationship "No relationship path could be found."))
  <-> ~ connected strangers "x" "y".
Proof.
  apply (X26_none_iff_unconnected 20 "x" "y" strX strY strangers).
  - exact strangers_mirrored.
  - reflexivity.
  - reflexivity.
  - discriminate.
  - discriminate.
  - vm_compute. lia.
Defined.

(** ** Ancestors and descendants mirror each other *)

Lemma reaches_trans (edges : Person -> list string) (allPeople : list Person)
    (start : list string) (q d : Person) :
  reaches edges allPeople start q ->
  reaches edges allPeople (edges q) d ->
  reaches edges allPeople start d.
Proof.
  intros Hq Hd. induction Hd as [x p Hx Hne Hp | r x p Hr IH Hx Hne Hp].
  - eapply reaches_step; eauto.
  - eapply reaches_step; eauto.
Qed.

Lemma reaches_found (edges : Person -> list string) (allPeople : list Person)
    (start : list string) (p : Person) :
  reaches edges allPeople start p ->
  getPersonById (id p) allPeople = Some p /\ id p <> "".
Proof.
  intros H. destruct H as [x p Hx Hne Hp | q x p Hq Hx Hne Hp];
    pose proof (getPersonById_id _ _ _ Hp) as Hid; rewrite Hid; auto.
Qed.

Lemma ancestorOf_descendantOf (allPeople : list Person) (d a : Person) :
  childrenListed allPeople ->
  getPersonById (id d) allPeople = Some d -> id d <> "" ->
  ancestorOf allPeople d a -> descendantOf allPeople a d.
Proof.
  unfold ancestorOf, descendantOf. intros Hmirror Hd Hd0 H.
  induction H as [x p Hx Hne Hp | q x p Hq IH Hx Hne Hp].
  - apply reaches_start with (x := id d); auto.
    eapply Hmirror; eauto.
  - destruct (reaches_found _ _ _ _ Hq) as [Hq' Hq0].
    apply reaches_trans with (q := q); [| assumption].
    apply reaches_start with (x := id q); auto.
    eapply Hmirror; eauto.
Qed.

Lemma descendantOf_ancestorOf (allPeople : list Person) (a d : Person) :
  parentsListed allPeople ->
  getPersonById (id a) allPeople = Some a -> id a <> "" ->
  descendantOf allPeople a d -> ancestorOf allPeople d a.
Proof.
  unfold ancestorOf, descendantOf. intros Hmirror Ha Ha0 H.
  induction H as [x p Hx Hne Hp | q x p Hq IH Hx Hne Hp].
  - apply reaches_start with (x := id a); auto.
    eapply Hmirror; eauto.
  - destruct (reaches_found _ _ _ _ Hq) as [Hq' Hq0].
    apply reaches_trans with (q := q); [| assumption].
    apply reaches_start with (x := id q); auto.
    eapply Hmirror; eauto.
Qed.

(** X27.  In a collection where parent and child entries mirror each
    other, [getAncestors] and [getDescendants] agree: for two people of the
    collection with non-empty ids, [a] is among the ancestors of [d]
    exactly when [d] is among the descendants of [a]. *)
Theorem X27_ancestors_mirror_descendants (fuel : nat) (a d : Person)
    (allPeople : list Person) :
  parentsListed allPeople -> childrenListed allPeople ->
  getPersonById (id a) allPeople = Some a -> id a <> "" ->
  getPersonById (id d) allPeople = Some d -> id d <> "" ->
  2 * graphSize allPeople <= fuel ->
  exists ancestors descendants,
    getAncestors fuel d allPeople = Done ancestors /\
    getDescendants fuel a allPeople = Done descendants /\
    (In a ancestors <-> In d descendants).
Proof.
  intros Hpl Hcl Ha Ha0 Hd Hd0 Hfuel.
  destruct (getAncestors_terminates fuel d allPeople) as [ancestors Hanc].
  { pose proof (parentsOf_length_le d).
    pose proof (neighborsOf_length_le allPeople d (getPersonById_In _ _ _ Hd)).
    lia. }
  destruct (getDescendants_terminates fuel a allPeople) as [descendants Hdesc].
  { pose proof (childrenOf_length_le a).
    pose proof (neighborsOf_length_le allPeople a (getPersonById_In _ _ _ Ha)).
    lia. }
  exists ancestors, descendants. split; [exact Hanc |]. split; [exact Hdesc |].
  unfold getAncestors in Hanc. rewrite getAncestors_loop_walk in Hanc.
  apply walk_loop_reaches in Hanc. destruct Hanc as [_ Hanc].
  unfold getDescendants in Hdesc. rewrite getDescendants_loop_walk in Hdesc.
  apply walk_loop_reaches in Hdesc. destruct Hdesc as [_ Hdesc].
  rewrite Hanc, Hdesc. split.
  - now apply ancestorOf_descendantOf.
  - now apply descendantOf_ancestorOf.
Qed.

Lemma family_parentsListed : parentsListed family.
Proof.
  intros q x p Hq Hx Hp.
  assert (Hin : In q family) by (eapply getPersonById_In; eassumption).
  simpl in Hin.
  repeat (destruct Hin as [<- | Hin];
          [simpl in Hx;
           repeat (destruct Hx as [<- | Hx];
                   [vm_compute in Hp; injection Hp as <-; simpl; tauto |]);
           destruct Hx |]).
  destruct Hin.
Qed.

Lemma family_childrenListed : childrenListed family.
Proof.
  intros q x p Hq Hx Hp.
  assert (Hin : In q family) by (eapply getPersonById_In; eassumption).
  simpl in Hin.
  repeat (destruct Hin as [<- | Hin];
          [simpl in Hx;
           repeat (destruct Hx as [<- | Hx];
                   [vm_compute in Hp; injection Hp as <-; simpl; tauto |]);
           destruct Hx |]).
  destruct Hin.
Qed.

Lemma X27_ancestors_mirror_descendants_witness :
  exists ancestors descendants,
    getAncestors 40 famB3 family = Done ancestors /\
    getDescendants 40 famR family = Done descendants /\
    (In famR ancestors <-> In famB3 descendants).
Proof.
  apply (X27_ancestors_mirror_descendants 40 famR famB3 family).
  - exact family_parentsListed.
  - exact family_childrenListed.
  - reflexivity.
  - discriminate.
  - reflexivity.
  - discriminate.
  - vm_compute. lia.
Defined.
